(** * LightOLADB: a shallow embedding of the type model, the columnar data
    model, the in-memory storage engine and the SQL executor.

    Conventions of the embedding.
    - [std::string] is [string]; [std::vector<char>] is [list byte].
    - A C++ call that may throw [std::runtime_error] (or another
      [std::exception]) returns [result A]: [Ok a], or [Throw what] with the
      text of [what()].  An access the C++ standard leaves undefined (an
      index past the end of a [std::vector]) is [Undefined].
    - Container sizes are [nat]; values of the integer types and of
      [size_t] variables are [Z], reduced to their width where the code
      narrows or accumulates them ([size_t] is 64 bits wide).
    - [std::unordered_map<std::string, V>] is [gmap string V].
    - Columns are held through [std::shared_ptr]; none of the modelled paths
      mutates a column after it was handed to a block (LIMIT clones before
      popping), so columns are embedded as values. *)

From Stdlib Require Import ZArith Lia Ascii String Strings.Byte List.
From Stdlib Require Import Floats.SpecFloat.
From stdpp Require Import base option list gmap strings sorting pretty.

Local Open Scope Z_scope.

(** ** Outcomes of fallible code *)

Inductive result (A : Type) : Type :=
| Ok (a : A)
| Throw (what : string)
| Undefined.
Arguments Ok {A} a.
Arguments Throw {A} what.
Arguments Undefined {A}.

(** Sequencing: the first [Throw] (or [Undefined]) ends the computation, as
    an exception that nothing catches does.  With the instance below the
    notation [x ← r; k] reads as a C++ statement sequence. *)
Global Instance result_bind : MBind result := λ A B k r,
  match r with
  | Ok a => k a
  | Throw w => Throw w
  | Undefined => Undefined
  end.

Global Instance result_ret : MRet result := λ A, Ok.

Definition is_Ok {A : Type} (r : result A) : bool :=
  match r with Ok _ => true | _ => false end.

Module Result.
(** A loop that maps the elements of a vector in order and stops at the
    first exception. *)
Fixpoint mapM {A B : Type} (f : A → result B) (l : list A) : result (list B) :=
  match l with
  | [] => Ok []
  | x :: l' => y ← f x; ys ← mapM f l'; Ok (y :: ys)
  end.

(** A loop that threads the variables [s] it updates. *)
Fixpoint foldM {A S : Type} (f : S → A → result S) (s : S) (l : list A)
  : result S :=
  match l with
  | [] => Ok s
  | x :: l' => s' ← f s x; foldM f s' l'
  end.
End Result.

(** ** Function bodies with early [return]

    A statement of a function returning [R] either falls through with a
    value ([Next]), leaves the function ([Return r]), throws, or is
    undefined. *)
Inductive exec (R A : Type) : Type :=
| Next (a : A)
| Return (r : R)
| Raise (what : string)
| UB.
Arguments Next {R A} a.
Arguments Return {R A} r.
Arguments Raise {R A} what.
Arguments UB {R A}.

Global Instance exec_bind R : MBind (exec R) := λ A B k e,
  match e with
  | Next a => k a
  | Return r => Return r
  | Raise w => Raise w
  | UB => UB
  end.

Module Exec.
(** A call whose exception is not caught in the function. *)
Definition call {R A : Type} (r : result A) : exec R A :=
  match r with
  | Ok a => Next a
  | Throw w => Raise w
  | Undefined => UB
  end.

(** [try { r } catch (const std::exception& e) { handler(e.what()) }]. *)
Definition try_catch {R A : Type} (r : result A) (handler : string → exec R A)
  : exec R A :=
  match r with
  | Ok a => Next a
  | Throw w => handler w
  | Undefined => UB
  end.

(** The outcome of the function whose body is [e]. *)
Definition run {R : Type} (e : exec R R) : result R :=
  match e with
  | Next r | Return r => Ok r
  | Raise w => Throw w
  | UB => Undefined
  end.

Fixpoint foldM {R A S : Type} (f : S → A → exec R S) (s : S) (l : list A)
  : exec R S :=
  match l with
  | [] => Next s
  | x :: l' => s' ← f s x; foldM f s' l'
  end.

Fixpoint mapM {R A B : Type} (f : A → exec R B) (l : list A)
  : exec R (list B) :=
  match l with
  | [] => Next []
  | x :: l' => y ← f x; ys ← mapM f l'; Next (y :: ys)
  end.

Fixpoint for_each {R A : Type} (f : A → exec R unit) (l : list A)
  : exec R unit :=
  match l with
  | [] => Next tt
  | x :: l' => _ ← f x; for_each f l'
  end.

(** [post E Q P e]: falling through, [e] gives a value in [Q]; returning,
    a result in [P]; [E] says whether it may throw or be undefined. *)
Definition post {R A : Type} (E : Prop) (Q : A → Prop) (P : R → Prop)
    (e : exec R A) : Prop :=
  match e with
  | Next a => Q a
  | Return r => P r
  | Raise _ | UB => E
  end.
End Exec.

(** ** include/lightoladb/common/types.h *)

Inductive DataTypeID : Set :=
| Null | Int8 | Int16 | Int32 | Int64 | UInt8 | UInt16 | UInt32 | UInt64
| Float32 | Float64 | String_ | Date | DateTime | Array | Nullable.

Global Instance DataTypeID_eq_dec : EqDecision DataTypeID.
Proof. solve_decision. Defined.

(** ** include/lightoladb/common/data_types.h: the descriptors *)

(** The concrete subclasses of [IDataType]; [DataTypeNullable] holds its
    nested descriptor. *)
Inductive IDataType : Set :=
| DataTypeInt8 | DataTypeInt16 | DataTypeInt32 | DataTypeInt64
| DataTypeUInt8 | DataTypeUInt16 | DataTypeUInt32 | DataTypeUInt64
| DataTypeFloat32 | DataTypeFloat64
| DataTypeString
| DataTypeNullable (nested_type : IDataType).

Global Instance IDataType_eq_dec : EqDecision IDataType.
Proof. solve_decision. Defined.

Definition getTypeId (t : IDataType) : DataTypeID :=
  match t with
  | DataTypeInt8 => Int8 | DataTypeInt16 => Int16
  | DataTypeInt32 => Int32 | DataTypeInt64 => Int64
  | DataTypeUInt8 => UInt8 | DataTypeUInt16 => UInt16
  | DataTypeUInt32 => UInt32 | DataTypeUInt64 => UInt64
  | DataTypeFloat32 => Float32 | DataTypeFloat64 => Float64
  | DataTypeString => String_
  | DataTypeNullable _ => Nullable
  end.

Fixpoint getName (t : IDataType) : string :=
  match t with
  | DataTypeInt8 => "Int8" | DataTypeInt16 => "Int16"
  | DataTypeInt32 => "Int32" | DataTypeInt64 => "Int64"
  | DataTypeUInt8 => "UInt8" | DataTypeUInt16 => "UInt16"
  | DataTypeUInt32 => "UInt32" | DataTypeUInt64 => "UInt64"
  | DataTypeFloat32 => "Float32" | DataTypeFloat64 => "Float64"
  | DataTypeString => "String"
  | DataTypeNullable nested => "Nullable(" +:+ getName nested +:+ ")"
  end.

Definition isNullable (t : IDataType) : bool :=
  match t with DataTypeNullable _ => true | _ => false end.

(** ** src/common/data_types.cpp: [createDataType] *)

Module Regex.
(** The pattern [^Nullable\((.+)\)$] under [std::regex_match] (ECMAScript
    grammar).  The whole subject has to match, so the only candidate for
    group 1 is what lies between the leading [Nullable(] and the very last
    character, which has to be [)].  [.] matches every character but the
    line terminators LF and CR. *)

Definition dot (c : ascii) : bool :=
  negb (Ascii.eqb c "010"%char || Ascii.eqb c "013"%char).

Fixpoint all_dot (s : string) : bool :=
  match s with
  | EmptyString => true
  | String c s' => dot c && all_dot s'
  end.

Fixpoint strip_prefix (p s : string) : option string :=
  match p, s with
  | EmptyString, _ => Some s
  | String a p', String b s' =>
      if Ascii.eqb a b then strip_prefix p' s' else None
  | String _ _, EmptyString => None
  end.

(** [strip_last c s] is [Some s'] exactly when [s = s' +:+ String c ""]. *)
Fixpoint strip_last (c : ascii) (s : string) : option string :=
  match s with
  | EmptyString => None
  | String a EmptyString => if Ascii.eqb a c then Some EmptyString else None
  | String a s' => option_map (String a) (strip_last c s')
  end.

Definition nullable_regex (type_name : string) : option string :=
  match strip_prefix "Nullable(" type_name with
  | None => None
  | Some rest =>
      match strip_last ")"%char rest with
      | None => None
      | Some inner =>
          match inner with
          | EmptyString => None
          | _ => if all_dot inner then Some inner else None
          end
      end
  end.
End Regex.

(** The recursion of [createDataType] is on the text captured by the
    pattern, which is strictly shorter than the subject; [fuel] bounds the
    depth and [createDataType] supplies the length of the name, which always
    suffices ([createDataType_rec_fuel]); the [Undefined] of the exhausted
    bound is never returned ([createDataType_accepts]). *)
Fixpoint createDataType_rec (fuel : nat) (type_name : string) : result IDataType :=
  if String.eqb type_name "Int8" then Ok DataTypeInt8 else
  if String.eqb type_name "Int16" then Ok DataTypeInt16 else
  if String.eqb type_name "Int32" then Ok DataTypeInt32 else
  if String.eqb type_name "Int64" then Ok DataTypeInt64 else
  if String.eqb type_name "UInt8" then Ok DataTypeUInt8 else
  if String.eqb type_name "UInt16" then Ok DataTypeUInt16 else
  if String.eqb type_name "UInt32" then Ok DataTypeUInt32 else
  if String.eqb type_name "UInt64" then Ok DataTypeUInt64 else
  if String.eqb type_name "Float32" then Ok DataTypeFloat32 else
  if String.eqb type_name "Float64" then Ok DataTypeFloat64 else
  if String.eqb type_name "String" then Ok DataTypeString else
  match Regex.nullable_regex type_name with
  | Some nested_type_name =>
      match fuel with
      | S fuel' =>
          nested_type ← createDataType_rec fuel' nested_type_name;
          Ok (DataTypeNullable nested_type)
      | O => Undefined
      end
  | None => Throw ("Unknown data type: " +:+ type_name)
  end.

Definition createDataType (type_name : string) : result IDataType :=
  createDataType_rec (String.length type_name) type_name.

(** The names the type factory is specified to accept: the eleven scalar
    keywords, each with its kind, and [Nullable(X)] around an accepted [X]. *)
Definition scalar_keywords : list (string * DataTypeID) :=
  [ ("Int8", Int8); ("Int16", Int16); ("Int32", Int32); ("Int64", Int64);
    ("UInt8", UInt8); ("UInt16", UInt16); ("UInt32", UInt32);
    ("UInt64", UInt64); ("Float32", Float32); ("Float64", Float64);
    ("String", String_) ].

Inductive accepted_type_name : string → Prop :=
| accepted_scalar name kind :
    (name, kind) ∈ scalar_keywords → accepted_type_name name
| accepted_nullable X :
    accepted_type_name X → accepted_type_name ("Nullable(" +:+ X +:+ ")").

(** The descriptor of a scalar keyword, as the chain of comparisons at the
    head of [createDataType] selects it. *)
Definition scalar_type (type_name : string) : option IDataType :=
  if String.eqb type_name "Int8" then Some DataTypeInt8 else
  if String.eqb type_name "Int16" then Some DataTypeInt16 else
  if String.eqb type_name "Int32" then Some DataTypeInt32 else
  if String.eqb type_name "Int64" then Some DataTypeInt64 else
  if String.eqb type_name "UInt8" then Some DataTypeUInt8 else
  if String.eqb type_name "UInt16" then Some DataTypeUInt16 else
  if String.eqb type_name "UInt32" then Some DataTypeUInt32 else
  if String.eqb type_name "UInt64" then Some DataTypeUInt64 else
  if String.eqb type_name "Float32" then Some DataTypeFloat32 else
  if String.eqb type_name "Float64" then Some DataTypeFloat64 else
  if String.eqb type_name "String" then Some DataTypeString else None.

(** ** The C++ value types of columns and fields *)


Inductive CppType : Set :=
| int8_t | int16_t | int32_t | int64_t
| uint8_t | uint16_t | uint32_t | uint64_t
| float_t | double_t
| std_string.

Global Instance CppType_eq_dec : EqDecision CppType.
Proof. solve_decision. Defined.

(** [sizeof(T)] of the arithmetic types. *)
Definition sizeof (T : CppType) : nat :=
  match T with
  | int8_t | uint8_t => 1
  | int16_t | uint16_t => 2
  | int32_t | uint32_t | float_t => 4
  | int64_t | uint64_t | double_t => 8
  | std_string => 32  (* sizeof(std::string) of libstdc++ on LP64 *)
  end.

Definition is_integral (T : CppType) : bool :=
  match T with
  | float_t | double_t | std_string => false
  | _ => true
  end.

Definition is_signed (T : CppType) : bool :=
  match T with
  | int8_t | int16_t | int32_t | int64_t | float_t | double_t => true
  | _ => false
  end.

Definition is_floating_point (T : CppType) : bool :=
  match T with float_t | double_t => true | _ => false end.

Definition is_arithmetic (T : CppType) : bool :=
  is_integral T || is_floating_point T.

(** The values of a C++ type: integers as [Z], the IEEE 754 formats as
    [spec_float] (binary32 for [float], binary64 for [double]). *)
Definition native (T : CppType) : Type :=
  match T with
  | float_t | double_t => spec_float
  | std_string => string
  | _ => Z
  end.

(** [T()], the value [insertDefault] appends. *)
Definition native_default (T : CppType) : native T :=
  match T with
  | float_t | double_t => S754_zero false
  | std_string => EmptyString
  | _ => 0
  end.

(** The value an integer type [T] holds after [z] is converted to it. *)
Definition wrap (T : CppType) (z : Z) : Z :=
  let modulus := 2 ^ (8 * Z.of_nat (sizeof T)) in
  if is_signed T
  then (z + modulus / 2) mod modulus - modulus / 2
  else z mod modulus.

(** ** Object representations *)

Definition byte_of_Z (z : Z) : byte :=
  default Byte.x00 (Byte.of_N (Z.to_N (z mod 256))).

Definition Z_of_byte (b : byte) : Z := Z.of_N (Byte.to_N b).

Inductive byte_order : Set := LittleEndian | BigEndian.

Fixpoint le_bytes (width : nat) (v : Z) : list byte :=
  match width with
  | O => []
  | S w => byte_of_Z v :: le_bytes w (v / 256)
  end.

Fixpoint le_value (bs : list byte) : Z :=
  match bs with
  | [] => 0
  | b :: bs' => Z_of_byte b + 256 * le_value bs'
  end.

(** The [width] bytes [memcpy] reads from an unsigned integer object holding
    [v], and the value of the object [memcpy] writes them to. *)
Definition object_bytes (order : byte_order) (width : nat) (v : Z) : list byte :=
  match order with
  | LittleEndian => le_bytes width v
  | BigEndian => rev (le_bytes width v)
  end.

Definition object_value (order : byte_order) (bs : list byte) : Z :=
  match order with
  | LittleEndian => le_value bs
  | BigEndian => le_value (rev bs)
  end.

(** ** include/lightoladb/common/data_types.h: the binary codecs

    [(const char* buffer, size_t size)] is the list of the [size] bytes at
    [buffer]; [std::vector<char>& buffer] is passed in and returned. *)

Module DataTypeNumber.
Section WithT.
Variable T : CppType.

Definition getSize : nat := sizeof T.

(** [value] is the object representation of the [T] at [const void*
    value]. *)
Definition serializeBinary (value : list byte) (buffer : list byte)
  : list byte :=
  buffer ++ take (sizeof T) value.

Definition deserializeBinary (buffer : list byte) : result (list byte) :=
  if (length buffer <? sizeof T)%nat
  then Throw "Not enough data for deserialization"
  else Ok (take (sizeof T) buffer).
End WithT.
End DataTypeNumber.

Module DataTypeString.
Section WithOrder.
Variable order : byte_order.

Definition serializeBinary (str : string) (buffer : list byte) : list byte :=
  let size := Z.of_nat (String.length str) mod 2 ^ 32 in
  buffer ++ object_bytes order 4 size
         ++ take (Z.to_nat size) (list_byte_of_string str).

Definition deserializeBinary (buffer : list byte) : result string :=
  let size := Z.of_nat (length buffer) in
  if size <? 4
  then Throw "Not enough data for deserialization"
  else
    let str_size := object_value order (take 4 buffer) in
    if size <? 4 + str_size
    then Throw "Not enough data for deserialization"
    else Ok (string_of_list_byte (take (Z.to_nat str_size) (drop 4 buffer))).
End WithOrder.
End DataTypeString.

Module DataTypeNullable.
Definition serializeBinary (value : list byte) (buffer : list byte)
  : result (list byte) := Throw "Not implemented".

Definition deserializeBinary (buffer : list byte) : result (list byte) :=
  Throw "Not implemented".
End DataTypeNullable.

(** A text of [2 ^ 32] bytes, the shortest whose length does not fit the
    length prefix. *)
Fixpoint string_repeat (c : ascii) (n : nat) : string :=
  match n with
  | O => EmptyString
  | S n' => String c (string_repeat c n')
  end.

Definition four_gib_string : string := string_repeat "a" (Z.to_nat (2 ^ 32)).


(** ** include/lightoladb/common/types.h: [Field] *)

Module Field.
(** [FieldValue], a [std::variant] over [std::monostate] and the eleven
    value types. *)
Inductive t : Type :=
| monostate
| of_int8 (v : Z) | of_int16 (v : Z) | of_int32 (v : Z) | of_int64 (v : Z)
| of_uint8 (v : Z) | of_uint16 (v : Z) | of_uint32 (v : Z) | of_uint64 (v : Z)
| of_float (v : spec_float) | of_double (v : spec_float)
| of_string (v : string).

(** The converting constructor [Field(const T& v)]. *)
Definition make (T : CppType) : native T → t :=
  match T with
  | int8_t => of_int8 | int16_t => of_int16
  | int32_t => of_int32 | int64_t => of_int64
  | uint8_t => of_uint8 | uint16_t => of_uint16
  | uint32_t => of_uint32 | uint64_t => of_uint64
  | float_t => of_float | double_t => of_double
  | std_string => of_string
  end.

(** [what()] of the [std::bad_variant_access] that [std::get] throws. *)
Definition bad_variant_access : string := "bad variant access".

(** [get<T>()]: [std::get<T>] throws when the variant holds another
    alternative. *)
Definition get (T : CppType) (f : t) : result (native T) :=
  match T, f with
  | int8_t, of_int8 v => Ok v
  | int16_t, of_int16 v => Ok v
  | int32_t, of_int32 v => Ok v
  | int64_t, of_int64 v => Ok v
  | uint8_t, of_uint8 v => Ok v
  | uint16_t, of_uint16 v => Ok v
  | uint32_t, of_uint32 v => Ok v
  | uint64_t, of_uint64 v => Ok v
  | float_t, of_float v => Ok v
  | double_t, of_double v => Ok v
  | std_string, of_string v => Ok v
  | _, _ => Throw bad_variant_access
  end.

Definition isNull (f : t) : bool :=
  match f with monostate => true | _ => false end.

Definition getTypeId (f : t) : DataTypeID :=
  match f with
  | monostate => Null
  | of_int8 _ => Int8 | of_int16 _ => Int16
  | of_int32 _ => Int32 | of_int64 _ => Int64
  | of_uint8 _ => UInt8 | of_uint16 _ => UInt16
  | of_uint32 _ => UInt32 | of_uint64 _ => UInt64
  | of_float _ => Float32 | of_double _ => Float64
  | of_string _ => String_
  end.
End Field.

(** ** include/lightoladb/core/column.h *)

Module ColumnVector.
Record t (T : CppType) : Type := mk {
  data : list (native T);
  type : IDataType
}.
Arguments mk {T} data type.
Arguments data {T} _.
Arguments type {T} _.

Section WithT.
Context {T : CppType}.
Implicit Type c : t T.

Definition size c : nat := length (data c).
Definition empty c : bool := Nat.eqb (length (data c)) 0.
Definition clear c : t T := mk [] (type c).
Definition clone c : t T := mk (data c) (type c).
Definition insertDefault c : t T := mk (data c ++ [native_default T]) (type c).
(** [pop_back] of an empty vector is undefined; [removelast] leaves it
    empty.  The executor pops only columns it found non-empty. *)
Definition popBack c : t T := mk (removelast (data c)) (type c).
Definition insertValue (value : native T) c : t T :=
  mk (data c ++ [value]) (type c).
(** [data[n]], undefined past the end. *)
Definition getValue c (n : nat) : result (native T) :=
  match data c !! n with
  | Some v => Ok v
  | None => Undefined
  end.
Definition getDataType c : IDataType := type c.
(** [operator[](n)]. *)
Definition at_ c (n : nat) : result Field.t :=
  v ← getValue c n; Ok (Field.make T v).
End WithT.
End ColumnVector.

Module IColumn.
(** The implementations of [IColumn]: [ColumnVector<T>], and
    [ColumnNullable<T>] over a value column and a column of null flags
    (0: not null, 1: null). *)
Inductive t : Type :=
| Vector (T : CppType) (c : ColumnVector.t T)
| Nullable (T : CppType)
    (nested_column : ColumnVector.t T)
    (null_map : ColumnVector.t uint8_t)
    (type : IDataType).

Definition size (col : t) : nat :=
  match col with
  | Vector _ c => ColumnVector.size c
  | Nullable _ nested _ _ => ColumnVector.size nested
  end.

Definition empty (col : t) : bool :=
  match col with
  | Vector _ c => ColumnVector.empty c
  | Nullable _ nested _ _ => ColumnVector.empty nested
  end.

Definition clear (col : t) : t :=
  match col with
  | Vector T c => Vector T (ColumnVector.clear c)
  | Nullable T nested nulls ty =>
      Nullable T (ColumnVector.clear nested) (ColumnVector.clear nulls) ty
  end.

Definition clone (col : t) : t :=
  match col with
  | Vector T c => Vector T (ColumnVector.clone c)
  | Nullable T nested nulls ty =>
      Nullable T (ColumnVector.clone nested) (ColumnVector.clone nulls) ty
  end.

Definition insertDefault (col : t) : t :=
  match col with
  | Vector T c => Vector T (ColumnVector.insertDefault c)
  | Nullable T nested nulls ty =>
      Nullable T (ColumnVector.insertDefault nested)
                 (ColumnVector.insertValue (T:=uint8_t) 1 nulls) ty
  end.

Definition popBack (col : t) : t :=
  match col with
  | Vector T c => Vector T (ColumnVector.popBack c)
  | Nullable T nested nulls ty =>
      Nullable T (ColumnVector.popBack nested) (ColumnVector.popBack nulls) ty
  end.

Definition getDataType (col : t) : IDataType :=
  match col with
  | Vector _ c => ColumnVector.type c
  | Nullable _ _ _ ty => ty
  end.

(** [ColumnNullable::isNull(n)]. *)
Definition isNull (null_map : ColumnVector.t uint8_t) (n : nat) : result bool :=
  flag ← ColumnVector.getValue null_map n;
  Ok (negb ((flag : Z) =? 0)).

(** [operator[](n)], the [Field] at row [n]. *)
Definition at_ (col : t) (n : nat) : result Field.t :=
  match col with
  | Vector _ c => ColumnVector.at_ c n
  | Nullable T nested nulls _ =>
      null ← isNull nulls n;
      if (null : bool) then Ok Field.monostate else ColumnVector.at_ nested n
  end.

(** The invariant of [ColumnNullable]: as many null flags as values. *)
Definition wf (col : t) : Prop :=
  match col with
  | Vector _ _ => True
  | Nullable _ nested nulls _ =>
      ColumnVector.size nulls = ColumnVector.size nested
  end.

(** The fields of a column, first row first. *)
Definition fields (col : t) : list (result Field.t) :=
  map (at_ col) (seq 0 (size col)).
End IColumn.

(** ** include/lightoladb/core/block.h *)

Module Block.
Record ColumnWithName : Type := mkColumnWithName {
  name : string;
  column : IColumn.t
}.

Record t : Type := mk {
  columns : list ColumnWithName;
  column_indices : gmap string nat
}.

Definition empty : t := mk [] ∅.

Definition addColumn (name : string) (column : IColumn.t) (b : t) : t :=
  mk (columns b ++ [mkColumnWithName name column])
     (<[name := length (columns b)]> (column_indices b)).

Definition getColumnCount (b : t) : nat := length (columns b).

(** [columns[idx]], undefined past the end. *)
Definition getColumnByIndex (b : t) (idx : nat) : result ColumnWithName :=
  match columns b !! idx with
  | Some c => Ok c
  | None => Undefined
  end.

Definition getColumnIndex (b : t) (name : string) : result nat :=
  match column_indices b !! name with
  | Some idx => Ok idx
  | None => Throw ("Column '" +:+ name +:+ "' not found in block")
  end.

Definition getColumnByName (b : t) (name : string) : result ColumnWithName :=
  idx ← getColumnIndex b name;
  getColumnByIndex b idx.

Definition getRowCount (b : t) : nat :=
  match columns b with
  | [] => 0
  | c :: _ => IColumn.size (column c)
  end.

Definition clear (b : t) : t := empty.

Definition isValid (b : t) : bool :=
  match columns b with
  | [] => true
  | c :: rest =>
      forallb (fun c' => Nat.eqb (IColumn.size (column c'))
                                 (IColumn.size (column c))) rest
  end.

(** Row [i] of a block: the field of every column at [i], in column
    order. *)
Definition row (b : t) (i : nat) : list (result Field.t) :=
  map (fun c => IColumn.at_ (column c) i) (columns b).

(** The rows of a block, as [getRowCount] counts them. *)
Definition rows (b : t) : list (list (result Field.t)) :=
  map (row b) (seq 0 (getRowCount b)).
End Block.

(** A block with one column ["a"], and the two columns of the examples. *)
Definition example_column (v : Z) : IColumn.t :=
  IColumn.Vector int32_t (ColumnVector.mk (T:=int32_t) [v] DataTypeInt32).

Definition example_block : Block.t :=
  Block.addColumn "a" (example_column 1) Block.empty.

(** ** include/lightoladb/storage/table.h *)

Module TableStructure.
Record ColumnDefinition : Type := mkColumnDefinition {
  name : string;
  type : IDataType
}.

Record t : Type := mk {
  table_name : string;
  columns : list ColumnDefinition;
  column_indices : gmap string nat
}.

Definition create (table_name : string) : t := mk table_name [] ∅.

Definition addColumn (name : string) (type : IDataType) (s : t) : t :=
  mk (table_name s)
     (columns s ++ [mkColumnDefinition name type])
     (<[name := length (columns s)]> (column_indices s)).

Definition getTableName (s : t) : string := table_name s.
Definition getColumnCount (s : t) : nat := length (columns s).

(** [columns[idx]], undefined past the end. *)
Definition getColumnByIndex (s : t) (idx : nat) : result ColumnDefinition :=
  match columns s !! idx with
  | Some c => Ok c
  | None => Undefined
  end.

Definition getColumnIndex (s : t) (name : string) : result nat :=
  match column_indices s !! name with
  | Some idx => Ok idx
  | None => Throw ("Column '" +:+ name +:+ "' not found in table structure")
  end.

Definition getColumnByName (s : t) (name : string) : result ColumnDefinition :=
  idx ← getColumnIndex s name;
  getColumnByIndex s idx.

Definition hasColumn (s : t) (name : string) : bool :=
  bool_decide (is_Some (column_indices s !! name)).

(** What [addColumn] maintains from [create] on: every bound index is in
    range, and the name of every column is bound. *)
Definition wf (s : t) : Prop :=
  (∀ name idx, column_indices s !! name = Some idx →
               (idx < length (columns s))%nat) ∧
  (∀ c, c ∈ columns s → is_Some (column_indices s !! name c)).
End TableStructure.

(** ** include/lightoladb/storage/memory_engine.h

    [IStorage] has this one implementation.  The mutex serialises [insert]
    and [read]; the embedding is sequential. *)

Module MemoryStorage.
Record t : Type := mk {
  structure : TableStructure.t;
  blocks : list Block.t
}.

Definition create (table_structure : TableStructure.t) : t :=
  mk table_structure [].

Definition getName (s : t) : string := "Memory".
Definition getTableStructure (s : t) : TableStructure.t := structure s.

(** The loop of [validateBlock] over the columns of the block. *)
Fixpoint validateColumns (structure : TableStructure.t)
    (block_columns : list Block.ColumnWithName) : result bool :=
  match block_columns with
  | [] => Ok true
  | block_column :: rest =>
      table_column ←
        TableStructure.getColumnByName structure (Block.name block_column);
      if negb (TableStructure.hasColumn structure (Block.name block_column))
      then Ok false
      else if negb (bool_decide
                      (getTypeId (IColumn.getDataType (Block.column block_column))
                       = getTypeId (TableStructure.type table_column)))
      then Ok false
      else validateColumns structure rest
  end.

Definition validateBlock (s : t) (block : Block.t) : result bool :=
  if negb (Nat.eqb (Block.getColumnCount block)
                   (TableStructure.getColumnCount (structure s)))
  then Ok false
  else validateColumns (structure s) (Block.columns block).

Definition insert (block : Block.t) (s : t) : result t :=
  valid ← validateBlock s block;
  if negb valid
  then Throw "Block structure doesn't match table structure"
  else Ok (mk (structure s) (blocks s ++ [block])).

Definition readAll (s : t) : result (list Block.t) := Ok (blocks s).

(** The block [read] builds from one stored block. *)
Definition project (column_names : list string) (block : Block.t)
  : result Block.t :=
  Result.foldM
    (fun new_block col_name =>
       col ← Block.getColumnByName block col_name;
       Ok (Block.addColumn col_name (Block.column col) new_block))
    Block.empty column_names.

Definition read (column_names : list string) (s : t) : result (list Block.t) :=
  _ ← Result.foldM
        (fun _ col_name =>
           if negb (TableStructure.hasColumn (structure s) col_name)
           then Throw ("Column '" +:+ col_name +:+ "' not found in table")
           else Ok tt)
        tt column_names;
  match blocks s with
  | [] => Ok []
  | _ => Result.mapM (project column_names) (blocks s)
  end.
End MemoryStorage.

(** ** src/storage/storage_factory.cpp *)

Definition createStorage (engine_name table_name : string)
    (structure : TableStructure.t) : result MemoryStorage.t :=
  if String.eqb engine_name "Memory"
  then Ok (MemoryStorage.create structure)
  else Throw ("Unknown storage engine: " +:+ engine_name).

(** ** include/lightoladb/sql/parser.h: the commands *)

Inductive AggregateFunctionType : Set := NONE | COUNT | SUM | AVG | MIN | MAX.

Global Instance AggregateFunctionType_eq_dec : EqDecision AggregateFunctionType.
Proof. solve_decision. Defined.

Module ColumnExpression.
Record t : Type := mk {
  column : string;
  alias : string;
  agg_type : AggregateFunctionType
}.
End ColumnExpression.

Module CreateTableAST.
Record t : Type := mk {
  table_name : string;
  columns : list (string * string);
  engine : string
}.
End CreateTableAST.

Module InsertAST.
Record t : Type := mk {
  table_name : string;
  column_names : list string;
  values : list (list string)
}.
End InsertAST.

Module SelectAST.
Record t : Type := mk {
  select_all : bool;
  columns : list ColumnExpression.t;
  table_name : string;
  where_expr : string;
  group_by_columns : list string;
  order_by_columns : list (string * bool);
  limit : Z
}.
End SelectAST.

Module DropTableAST.
Record t : Type := mk {
  table_name : string;
  if_exists : bool
}.
End DropTableAST.

Inductive ASTNode : Type :=
| CREATE_TABLE (ast : CreateTableAST.t)
| INSERT (ast : InsertAST.t)
| SELECT (ast : SelectAST.t)
| DROP_TABLE (ast : DropTableAST.t).

(** ** include/lightoladb/sql/executor.h: [QueryResult] *)

Module QueryResult.
Record t : Type := mk {
  success : bool;
  errorMessage : string;
  blocks : list Block.t;
  columnNames : list string
}.

(** [QueryResult(bool success, const std::string& error_message)]. *)
Definition status (success : bool) (error_message : string) : t :=
  mk success error_message [] [].

(** [QueryResult(blocks, column_names)]. *)
Definition of_blocks (blocks : list Block.t) (column_names : list string) : t :=
  mk true "" blocks column_names.

(** [size_t count = 0; for (block : blocks_) count += block.getRowCount()]. *)
Definition rowCount (r : t) : Z :=
  fold_left (fun count block =>
               (count + Z.of_nat (Block.getRowCount block)) mod 2 ^ 64)
            (blocks r) 0.

Definition columnCount (r : t) : nat := length (columnNames r).

(** The rows of a result, block after block. *)
Definition rows (r : t) : list (list (result Field.t)) :=
  concat (map Block.rows (blocks r)).
End QueryResult.

(** ** The arithmetic of the aggregate templates *)

Module Arith.
Inductive num : Type := Int (z : Z) | Flt (f : spec_float).

Definition prec (T : CppType) : Z := match T with float_t => 24 | _ => 53 end.
Definition emax (T : CppType) : Z := match T with float_t => 128 | _ => 1024 end.

Definition to_num (V : CppType) : native V → num :=
  match V with
  | float_t | double_t => Flt
  | std_string => fun _ => Int 0
  | _ => Int
  end.

(** A floating-point value in the format of [R]. *)
Definition to_float (R : CppType) (n : num) : spec_float :=
  match n with
  | Int z => binary_normalize (prec R) (emax R) z 0 false
  | Flt (S754_finite s m e) =>
      binary_normalize (prec R) (emax R) (cond_Zopp s (Zpos m)) e s
  | Flt f => f
  end.

(** An integer value of type [R]; a floating-point value is truncated
    towards zero (out of range, the conversion is undefined in C++; none of
    the instantiated templates converts that way). *)
Definition to_int (R : CppType) (n : num) : Z :=
  match n with
  | Int z => wrap R z
  | Flt (S754_finite s m e) =>
      wrap R (cond_Zopp s (if 0 <=? e then Zpos m * 2 ^ e
                           else Zpos m / 2 ^ (- e)))
  | Flt _ => 0
  end.

Definition of_num (R : CppType) (n : num) : native R :=
  match R with
  | float_t => to_float float_t n
  | double_t => to_float double_t n
  | std_string => EmptyString
  | int8_t => to_int int8_t n | int16_t => to_int int16_t n
  | int32_t => to_int int32_t n | int64_t => to_int int64_t n
  | uint8_t => to_int uint8_t n | uint16_t => to_int uint16_t n
  | uint32_t => to_int uint32_t n | uint64_t => to_int uint64_t n
  end.

(** [static_cast<R>(v)] for [v] of type [V]. *)
Definition static_cast (V R : CppType) (v : native V) : native R :=
  of_num R (to_num V v).

(** The literal [0] as an [R]. *)
Definition zero (R : CppType) : native R := of_num R (Int 0).

(** [a + b] in [R]; integer sums are reduced to the width of [R] (for
    the signed types an overflowing sum is undefined in C++). *)
Definition add (R : CppType) (a b : native R) : native R :=
  match to_num R a, to_num R b with
  | Flt x, Flt y => of_num R (Flt (SFadd (prec R) (emax R) x y))
  | Int x, Int y => of_num R (Int (x + y))
  | _, _ => a
  end.

(** [a / b] in [R]. *)
Definition div (R : CppType) (a b : native R) : native R :=
  match to_num R a, to_num R b with
  | Flt x, Flt y => of_num R (Flt (SFdiv (prec R) (emax R) x y))
  | Int x, Int y => of_num R (Int (Z.quot x y))
  | _, _ => a
  end.

(** [a < b] in [R]. *)
Definition lt (R : CppType) (a b : native R) : bool :=
  match to_num R a, to_num R b with
  | Flt x, Flt y => SFltb x y
  | Int x, Int y => x <? y
  | _, _ => false
  end.
End Arith.

(** The descriptor an aggregate result column of value type [R] is made
    with. *)
Definition data_type_of (R : CppType) : IDataType :=
  match R with
  | int8_t => DataTypeInt8 | int16_t => DataTypeInt16
  | int32_t => DataTypeInt32 | int64_t => DataTypeInt64
  | uint8_t => DataTypeUInt8 | uint16_t => DataTypeUInt16
  | uint32_t => DataTypeUInt32 | uint64_t => DataTypeUInt64
  | float_t => DataTypeFloat32 | double_t => DataTypeFloat64
  | std_string => DataTypeString
  end.

(** The value type the executor's [switch] selects for a kind; [None] is
    the [default] label. *)
Definition cpp_type_of (id : DataTypeID) : option CppType :=
  match id with
  | Int8 => Some int8_t | Int16 => Some int16_t
  | Int32 => Some int32_t | Int64 => Some int64_t
  | UInt8 => Some uint8_t | UInt16 => Some uint16_t
  | UInt32 => Some uint32_t | UInt64 => Some uint64_t
  | Float32 => Some float_t | Float64 => Some double_t
  | String_ => Some std_string
  | _ => None
  end.

(** ** The conversions of the C++ standard library that INSERT calls

    [std::stoi] and its siblings are not code of this repository: the
    executor is defined over any implementation of them.  A conversion
    throws ([std::invalid_argument], [std::out_of_range]) or returns the
    number read. *)
Class StdConversions : Type := {
  stoi : string → result Z;
  stoll : string → result Z;
  stoul : string → result Z;
  stoull : string → result Z;
  stof : string → result spec_float;
  stod : string → result spec_float
}.

(** ** src/sql/executor.cpp *)

Module SQLExecutor.

Definition getAggregateFunctionName (type : AggregateFunctionType) : string :=
  match type with
  | COUNT => "COUNT"
  | SUM => "SUM"
  | AVG => "AVG"
  | MIN => "MIN"
  | MAX => "MAX"
  | NONE => ""
  end.

(** *** The aggregate templates *)

(** The two nested loops the five [compute...] templates share: over the
    blocks, skipping a block without columns or without rows, and over the
    rows of the named column; [step] is the body of the inner loop. *)
Definition for_each_field {S : Type} (step : S → Field.t → result S)
    (blocks : list Block.t) (column_name : string) (init : S) : result S :=
  Result.foldM
    (fun s block =>
       if Nat.eqb (Block.getColumnCount block) 0
          || Nat.eqb (Block.getRowCount block) 0
       then Ok s
       else
         col ← Block.getColumnByName block column_name;
         Result.foldM
           (fun s i => field ← IColumn.at_ (Block.column col) i; step s field)
           s (seq 0 (IColumn.size (Block.column col))))
    init blocks.

Definition computeCount (T : CppType) (blocks : list Block.t)
    (column_name : string) : result (native T) :=
  for_each_field
    (fun count field =>
       if negb (Field.isNull field)
       then Ok (Arith.add T count (Arith.of_num T (Arith.Int 1)))
       else Ok count)
    blocks column_name (Arith.zero T).

Definition computeSum (ResultT ValueT : CppType) (blocks : list Block.t)
    (column_name : string) : result (native ResultT) :=
  for_each_field
    (fun sum field =>
       if negb (Field.isNull field)
       then v ← Field.get ValueT field;
            Ok (Arith.add ResultT sum (Arith.static_cast ValueT ResultT v))
       else Ok sum)
    blocks column_name (Arith.zero ResultT).

Definition computeAvg (ResultT ValueT : CppType) (blocks : list Block.t)
    (column_name : string) : result (native ResultT) :=
  '(sum, count) ←
    for_each_field
      (fun '(sum, count) field =>
         if negb (Field.isNull field)
         then v ← Field.get ValueT field;
              Ok (Arith.add ResultT sum (Arith.static_cast ValueT ResultT v),
                  (count + 1) mod 2 ^ 64)
         else Ok (sum, count))
      blocks column_name (Arith.zero ResultT, 0);
  Ok (if 0 <? count
      then Arith.div ResultT sum (Arith.static_cast uint64_t ResultT count)
      else Arith.zero ResultT).

Definition computeMin (ResultT ValueT : CppType) (blocks : list Block.t)
    (column_name : string) : result (native ResultT) :=
  match blocks with
  | [] => Throw "No data to compute minimum"
  | _ =>
      '(found_value, min_value) ←
        for_each_field
          (fun '(found_value, min_value) field =>
             if negb (Field.isNull field)
             then v ← Field.get ValueT field;
                  let current := Arith.static_cast ValueT ResultT v in
                  if negb found_value || Arith.lt ResultT current min_value
                  then Ok (true, current)
                  else Ok (found_value, min_value)
             else Ok (found_value, min_value))
          blocks column_name (false, Arith.zero ResultT);
      if negb (found_value : bool)
      then Throw "No non-NULL values found for MIN calculation"
      else Ok min_value
  end.

Definition computeMax (ResultT ValueT : CppType) (blocks : list Block.t)
    (column_name : string) : result (native ResultT) :=
  match blocks with
  | [] => Throw "No data to compute maximum"
  | _ =>
      '(found_value, max_value) ←
        for_each_field
          (fun '(found_value, max_value) field =>
             if negb (Field.isNull field)
             then v ← Field.get ValueT field;
                  let current := Arith.static_cast ValueT ResultT v in
                  if negb found_value || Arith.lt ResultT max_value current
                  then Ok (true, current)
                  else Ok (found_value, max_value)
             else Ok (found_value, max_value))
          blocks column_name (false, Arith.zero ResultT);
      if negb (found_value : bool)
      then Throw "No non-NULL values found for MAX calculation"
      else Ok max_value
  end.

(** A result column holding the one value [v]. *)
Definition single (R : CppType) (v : native R) : IColumn.t :=
  IColumn.Vector R (ColumnVector.insertValue v (ColumnVector.mk [] (data_type_of R))).

Definition computeAggregate (T : CppType) (col_expr : ColumnExpression.t)
    (blocks : list Block.t) : result (string * IColumn.t) :=
  let result_name :=
    if String.eqb (ColumnExpression.alias col_expr) ""
    then getAggregateFunctionName (ColumnExpression.agg_type col_expr)
           +:+ "(" +:+ ColumnExpression.column col_expr +:+ ")"
    else ColumnExpression.alias col_expr in
  match ColumnExpression.agg_type col_expr with
  | COUNT =>
      count ←
        (if String.eqb (ColumnExpression.column col_expr) "*"
         then Ok (fold_left
                    (fun count block =>
                       (count + Z.of_nat (Block.getRowCount block)) mod 2 ^ 64)
                    blocks 0)
         else computeCount uint64_t blocks (ColumnExpression.column col_expr));
      Ok (result_name, single uint64_t count)
  | SUM =>
      if is_integral T && is_signed T then
        sum ← computeSum int64_t T blocks (ColumnExpression.column col_expr);
        Ok (result_name, single int64_t sum)
      else if is_integral T then
        sum ← computeSum uint64_t T blocks (ColumnExpression.column col_expr);
        Ok (result_name, single uint64_t sum)
      else if is_floating_point T then
        sum ← computeSum double_t T blocks (ColumnExpression.column col_expr);
        Ok (result_name, single double_t sum)
      else Throw "SUM doesn't support this data type"
  | AVG =>
      if is_arithmetic T then
        avg ← computeAvg double_t T blocks (ColumnExpression.column col_expr);
        Ok (result_name, single double_t avg)
      else Throw "AVG doesn't support this data type"
  | MIN =>
      if is_arithmetic T then
        min ← computeMin T T blocks (ColumnExpression.column col_expr);
        Ok (result_name, single T min)
      else Throw "MIN doesn't support this data type"
  | MAX =>
      if is_arithmetic T then
        max ← computeMax T T blocks (ColumnExpression.column col_expr);
        Ok (result_name, single T max)
      else Throw "MAX doesn't support this data type"
  | NONE => Throw "Unsupported aggregate function"
  end.

(** *** The statements *)

(** [tables_]. *)
Abbreviation tables := (gmap string MemoryStorage.t).

(** The names of the schema in declaration order
    ([for i < getColumnCount(): getColumnByIndex(i).name]). *)
Definition schema_names (structure : TableStructure.t) : result (list string) :=
  Result.mapM
    (fun i => col ← TableStructure.getColumnByIndex structure i;
              Ok (TableStructure.name col))
    (seq 0 (TableStructure.getColumnCount structure)).

Definition executeCreateTable (ast : CreateTableAST.t) (tables_ : tables)
  : result (QueryResult.t * tables) :=
  Exec.run (
    let table_name := CreateTableAST.table_name ast in
    if bool_decide (is_Some (tables_ !! table_name))
    then Return (QueryResult.status false
                   ("Table '" +:+ table_name +:+ "' already exists"), tables_)
    else
      structure ←
        Exec.foldM
          (fun structure '(col_name, type_name) =>
             data_type ←
               Exec.try_catch (createDataType type_name)
                 (fun what =>
                    Return (QueryResult.status false
                              ("Error creating column '" +:+ col_name
                               +:+ "': " +:+ what), tables_));
             Next (TableStructure.addColumn col_name data_type structure))
          (TableStructure.create table_name) (CreateTableAST.columns ast);
      storage ←
        Exec.try_catch
          (createStorage (CreateTableAST.engine ast) table_name structure)
          (fun what =>
             Return (QueryResult.status false
                       ("Error creating storage engine: " +:+ what), tables_));
      Return (QueryResult.status true "Table created successfully",
              <[table_name := storage]> tables_)).

(** The column the first [switch] of [executeInsert] constructs; [None] is
    its [default] label. *)
Definition make_column (type : IDataType) : option IColumn.t :=
  T ← cpp_type_of (getTypeId type);
  Some (IColumn.Vector T (ColumnVector.mk [] type)).

(** [insertValue(value)] through the [static_cast] of the column to a
    reference to [ColumnVector<T>]: undefined when the column is not a
    [ColumnVector<T>]. *)
Definition insertValue_as (T : CppType) (value : native T) (col : IColumn.t)
  : result IColumn.t :=
  match col with
  | IColumn.Vector T' c =>
      match decide (T = T') with
      | left e =>
          Ok (IColumn.Vector T'
                (ColumnVector.insertValue (eq_rect T native value T' e) c))
      | right _ => Undefined
      end
  | IColumn.Nullable _ _ _ _ => Undefined
  end.

(** The target columns of an INSERT: the listed names, or every name of
    the schema when none is listed. *)
Definition target_columns (structure : TableStructure.t) (ast : InsertAST.t)
  : result (list string) :=
  match InsertAST.column_names ast with
  | [] => schema_names structure
  | column_names => Ok column_names
  end.

(** The checks of [executeInsert] that precede the construction of the
    columns. *)
Definition passes_checks (structure : TableStructure.t) (ast : InsertAST.t)
    (column_names : list string) : Prop :=
  Forall (fun col_name => TableStructure.hasColumn structure col_name = true)
         (InsertAST.column_names ast) ∧
  InsertAST.values ast ≠ [] ∧
  Forall (fun row : list string => length row = length column_names)
         (InsertAST.values ast).

Section WithConversions.
Context `{StdConversions}.

(** The conversion the second [switch] of [executeInsert] applies for a
    value type, with the narrowing of its [static_cast] or of the implicit
    conversion at the call of [insertValue]. *)
Definition convert (T : CppType) (value_str : string) : result (native T) :=
  match T with
  | int8_t => v ← stoi value_str; Ok (wrap int8_t v)
  | int16_t => v ← stoi value_str; Ok (wrap int16_t v)
  | int32_t => stoi value_str
  | int64_t => stoll value_str
  | uint8_t => v ← stoul value_str; Ok (wrap uint8_t v)
  | uint16_t => v ← stoul value_str; Ok (wrap uint16_t v)
  | uint32_t => v ← stoul value_str; Ok (wrap uint32_t v)
  | uint64_t => stoull value_str
  | float_t => stof value_str
  | double_t => stod value_str
  | std_string => Ok value_str
  end.

(** The body of the inner loop that fills the block: position [i] of a
    row. *)
Definition insert_converted (tables_ : tables) (structure : TableStructure.t)
    (column_names : list string) (row : list string)
    (columns : list IColumn.t) (i : nat)
  : exec (QueryResult.t * tables) (list IColumn.t) :=
  match row !! i, column_names !! i, columns !! i with
  | Some value_str, Some col_name, Some col =>
      col_def ← Exec.call (TableStructure.getColumnByName structure col_name);
      match cpp_type_of (getTypeId (TableStructure.type col_def)) with
      | Some T =>
          value ←
            Exec.try_catch (convert T value_str)
              (fun what =>
                 Return (QueryResult.status false
                           ("Error converting value '" +:+ value_str
                            +:+ "' for column '" +:+ col_name +:+ "': "
                            +:+ what), tables_));
          col' ← Exec.call (insertValue_as T value col);
          Next (<[i := col']> columns)
      | None =>
          Return (QueryResult.status false
                    ("Unsupported data type for column '" +:+ col_name
                     +:+ "'"), tables_)
      end
  | _, _, _ => UB
  end.

(** The body of the loop that validates the listed column names. *)
Definition check_column (tables_ : tables) (structure : TableStructure.t)
    (col_name : string) : exec (QueryResult.t * tables) unit :=
  if negb (TableStructure.hasColumn structure col_name)
  then Return (QueryResult.status false
                 ("Column '" +:+ col_name +:+ "' doesn't exist in table"),
               tables_)
  else Next tt.

(** The body of the loop that compares the size of every row with the
    number of target columns. *)
Definition check_row (tables_ : tables) (column_names : list string)
    (row : list string) : exec (QueryResult.t * tables) unit :=
  if negb (Nat.eqb (length row) (length column_names))
  then Return (QueryResult.status false
                 "Values count doesn't match columns count", tables_)
  else Next tt.

(** The body of the loop that constructs one empty column per target
    column. *)
Definition construct_column (tables_ : tables) (structure : TableStructure.t)
    (col_name : string) : exec (QueryResult.t * tables) IColumn.t :=
  col_def ← Exec.call (TableStructure.getColumnByName structure col_name);
  match make_column (TableStructure.type col_def) with
  | Some column => Next column
  | None =>
      Return (QueryResult.status false
                ("Unsupported data type for column '" +:+ col_name +:+ "'"),
              tables_)
  end.

(** The block of the statement: the target names with their columns, in
    order. *)
Definition make_block (column_names : list string) (columns : list IColumn.t)
  : Block.t :=
  fold_left
    (fun block '(col_name, column) => Block.addColumn col_name column block)
    (zip column_names columns) Block.empty.

(** The columns are shared between the vector [columns] the loops fill and
    the block they were added to when constructed; the block is built here
    from the filled columns. *)
Definition executeInsert (ast : InsertAST.t) (tables_ : tables)
  : result (QueryResult.t * tables) :=
  Exec.run (
    let table_name := InsertAST.table_name ast in
    match tables_ !! table_name with
    | None =>
        Return (QueryResult.status false
                  ("Table '" +:+ table_name +:+ "' doesn't exist"), tables_)
    | Some storage =>
        let structure := MemoryStorage.getTableStructure storage in
        column_names ←
          match InsertAST.column_names ast with
          | [] => Exec.call (schema_names structure)
          | column_names =>
              _ ← Exec.for_each (check_column tables_ structure) column_names;
              Next column_names
          end;
        match InsertAST.values ast with
        | [] => Return (QueryResult.status false "No values to insert", tables_)
        | values =>
            _ ← Exec.for_each (check_row tables_ column_names) values;
            columns ←
              Exec.mapM (construct_column tables_ structure) column_names;
            columns ←
              Exec.foldM
                (fun columns row =>
                   Exec.foldM
                     (insert_converted tables_ structure column_names row)
                     columns (seq 0 (length row)))
                columns values;
            let block := make_block column_names columns in
            storage' ←
              Exec.try_catch (MemoryStorage.insert block storage)
                (fun what =>
                   Return (QueryResult.status false
                             ("Error inserting data: " +:+ what), tables_));
            Return (QueryResult.status true
                      (pretty (length values)
                       +:+ " row(s) inserted successfully"),
                    <[table_name := storage']> tables_)
        end
    end).
End WithConversions.

(** [std::sort] on the names, by [operator<] of [std::string]. *)
Definition std_sort (l : list string) : list string := merge_sort String.le l.

(** [std::unique] with the [erase] of the tail: one name of every run of
    equal neighbours stays. *)
Fixpoint std_unique (l : list string) : list string :=
  match l with
  | [] => []
  | x :: l' =>
      match l' with
      | y :: _ => if String.eqb x y then std_unique l' else x :: std_unique l'
      | [] => [x]
      end
  end.

(** The first loop of [executeSelect]: the names to read, and
    [has_aggregates]. *)
Definition requested_columns (structure : TableStructure.t) (ast : SelectAST.t)
  : exec QueryResult.t (list string * bool) :=
  if SelectAST.select_all ast
  then names ← Exec.call (schema_names structure); Next (names, false)
  else
    Exec.foldM
      (fun '(column_names, has_aggregates) col_expr =>
         let column := ColumnExpression.column col_expr in
         if negb (bool_decide (ColumnExpression.agg_type col_expr = NONE))
         then
           if bool_decide (ColumnExpression.agg_type col_expr = COUNT)
              && String.eqb column "*"
           then
             first ← Exec.call (TableStructure.getColumnByIndex structure 0);
             Next (column_names ++ [TableStructure.name first], true)
           else
             if negb (TableStructure.hasColumn structure column)
             then Return (QueryResult.status false
                            ("Column '" +:+ column
                             +:+ "' doesn't exist in table"))
             else Next (column_names ++ [column], true)
         else
           if negb (TableStructure.hasColumn structure column)
           then Return (QueryResult.status false
                          ("Column '" +:+ column +:+ "' doesn't exist in table"))
           else Next (column_names ++ [column], has_aggregates))
      ([], false) (SelectAST.columns ast).

(** The aggregate branch: one result column per aggregate expression. *)
Definition aggregate_result (structure : TableStructure.t) (ast : SelectAST.t)
    (blocks : list Block.t) : exec QueryResult.t QueryResult.t :=
  '(agg_block, result_column_names) ←
    Exec.foldM
      (fun '(agg_block, result_column_names) col_expr =>
         let agg_type := ColumnExpression.agg_type col_expr in
         let column := ColumnExpression.column col_expr in
         let col_name :=
           if String.eqb (ColumnExpression.alias col_expr) ""
           then if negb (bool_decide (agg_type = NONE))
                then getAggregateFunctionName agg_type
                       +:+ "(" +:+ column +:+ ")"
                else column
           else ColumnExpression.alias col_expr in
         if negb (bool_decide (agg_type = NONE))
         then
           type_id ←
             (if String.eqb column "*" && bool_decide (agg_type = COUNT)
              then Next UInt64
              else
                col_def ← Exec.call
                            (TableStructure.getColumnByName structure column);
                Next (getTypeId (TableStructure.type col_def)));
           agg_result ←
             match cpp_type_of type_id with
             | Some std_string =>
                 if negb (bool_decide (agg_type = COUNT))
                 then Return (QueryResult.status false
                                ("Aggregate function "
                                 +:+ getAggregateFunctionName agg_type
                                 +:+ " not supported for String type"))
                 else Exec.call (computeAggregate std_string col_expr blocks)
             | Some T => Exec.call (computeAggregate T col_expr blocks)
             | None =>
                 Return (QueryResult.status false
                           "Unsupported data type for aggregate function")
             end;
           Next (Block.addColumn col_name (snd agg_result) agg_block,
                 result_column_names ++ [col_name])
         else Next (agg_block, result_column_names))
      (Block.empty, []) (SelectAST.columns ast);
  Return (QueryResult.of_blocks [agg_block] result_column_names).

(** [new_column = col.column->clone(); while (new_column->size() >
    remaining) new_column->popBack();], the loop bounded by the size of the
    column. *)
Fixpoint pop_to (remaining : Z) (bound : nat) (new_column : IColumn.t)
  : IColumn.t :=
  match bound with
  | O => new_column
  | S bound' =>
      if remaining <? Z.of_nat (IColumn.size new_column)
      then pop_to remaining bound' (IColumn.popBack new_column)
      else new_column
  end.

Definition limited_column (remaining : Z) (column : IColumn.t) : IColumn.t :=
  let new_column := IColumn.clone column in
  pop_to remaining (IColumn.size new_column) new_column.

Definition limited_block (remaining : Z) (block : Block.t) : Block.t :=
  fold_left
    (fun limited_block col =>
       Block.addColumn (Block.name col)
         (limited_column remaining (Block.column col)) limited_block)
    (Block.columns block) Block.empty.

(** The loop of LIMIT over the blocks, from [remaining] rows still to
    take. *)
Fixpoint limited_blocks (blocks : list Block.t) (remaining : Z)
  : list Block.t :=
  match blocks with
  | [] => []
  | block :: rest =>
      if Z.of_nat (Block.getRowCount block) <=? remaining
      then block :: limited_blocks rest
                      (remaining - Z.of_nat (Block.getRowCount block))
      else [limited_block remaining block]
  end.

Definition apply_limit (limit : Z) (blocks : list Block.t) : list Block.t :=
  match blocks with
  | [] => blocks
  | _ =>
      if 0 <? limit
      then
        let total_rows :=
          fold_left (fun total_rows block =>
                       (total_rows + Z.of_nat (Block.getRowCount block))
                         mod 2 ^ 64)
                    blocks 0 in
        if limit <? total_rows then limited_blocks blocks limit else blocks
      else blocks
  end.

Definition executeSelect (ast : SelectAST.t) (tables_ : tables)
  : result QueryResult.t :=
  Exec.run (
    let table_name := SelectAST.table_name ast in
    match tables_ !! table_name with
    | None =>
        Return (QueryResult.status false
                  ("Table '" +:+ table_name +:+ "' doesn't exist"))
    | Some storage =>
        let structure := MemoryStorage.getTableStructure storage in
        '(column_names, has_aggregates) ← requested_columns structure ast;
        let column_names := std_unique (std_sort column_names) in
        blocks ←
          Exec.try_catch (MemoryStorage.read column_names storage)
            (fun what =>
               Return (QueryResult.status false
                         ("Error reading data: " +:+ what)));
        if (has_aggregates : bool) && negb (Nat.eqb (length blocks) 0)
        then aggregate_result structure ast blocks
        else
          result_column_names ←
            (if SelectAST.select_all ast
             then Exec.call (schema_names structure)
             else Next (map (fun col_expr =>
                               if negb (String.eqb
                                          (ColumnExpression.alias col_expr) "")
                               then ColumnExpression.alias col_expr
                               else ColumnExpression.column col_expr)
                            (SelectAST.columns ast)));
          Return (QueryResult.of_blocks
                    (apply_limit (SelectAST.limit ast) blocks)
                    result_column_names)
    end).

Definition executeDropTable (ast : DropTableAST.t) (tables_ : tables)
  : result (QueryResult.t * tables) :=
  let table_name := DropTableAST.table_name ast in
  match tables_ !! table_name with
  | None =>
      if DropTableAST.if_exists ast
      then Ok (QueryResult.status true "Table doesn't exist, nothing to drop",
               tables_)
      else Ok (QueryResult.status false
                 ("Table '" +:+ table_name +:+ "' doesn't exist"), tables_)
  | Some _ =>
      Ok (QueryResult.status true
            ("Table '" +:+ table_name +:+ "' dropped successfully"),
          delete table_name tables_)
  end.

Section WithConversions.
Context `{StdConversions}.

(** [execute], from the command the parser returned: the [switch] on the
    statement type inside the [try] whose handler turns an exception into a
    failed result. *)
Definition execute (ast : ASTNode) (tables_ : tables)
  : result (QueryResult.t * tables) :=
  let outcome :=
    match ast with
    | CREATE_TABLE ast => executeCreateTable ast tables_
    | INSERT ast => executeInsert ast tables_
    | SELECT ast => r ← executeSelect ast tables_; Ok (r, tables_)
    | DROP_TABLE ast => executeDropTable ast tables_
    end in
  match outcome with
  | Throw what => Ok (QueryResult.status false what, tables_)
  | _ => outcome
  end.

(** A session: the commands executed one after the other, from the
    registry [tables_]; the results are listed first command first. *)
Fixpoint session (commands : list ASTNode) (tables_ : tables)
  : result (list QueryResult.t * tables) :=
  match commands with
  | [] => Ok ([], tables_)
  | ast :: rest =>
      '(r, tables_) ← execute ast tables_;
      '(rs, tables_) ← session rest tables_;
      Ok (r :: rs, tables_)
  end.
End WithConversions.

End SQLExecutor.

(** ** A reference implementation of the conversions

    [strtol]-style reading of a decimal literal: leading white space, an
    optional sign, the longest run of digits; what follows is ignored.
    No digit, or a number out of the range of the result type, throws
    ([what()] is the name of the function, as in libstdc++).  The
    floating-point readers take [digits] or [digits.digits] and round the
    quotient by the power of ten once, which is the correctly rounded value
    as long as both are exact in the format.  The examples below run the
    executor with these. *)
Module Reference.
Fixpoint skip_space (s : string) : string :=
  match s with
  | String c s' => if Ascii.is_space c then skip_space s' else s
  | EmptyString => s
  end.

(** The longest run of digits at the head of [s]: its value from [acc],
    how many digits were read, and the rest. *)
Fixpoint digits (s : string) (acc : Z) (n : nat) : Z * nat * string :=
  match s with
  | String c s' =>
      match Ascii.is_nat c with
      | Some d => digits s' (10 * acc + Z.of_nat d) (S n)
      | None => (acc, n, s)
      end
  | EmptyString => (acc, n, s)
  end.

(** The sign ([true]: negative) and the magnitude read, [None] without a
    digit. *)
Definition signed_digits (s : string) : option (bool * Z * string) :=
  let s := skip_space s in
  let '(negative, s) :=
    match s with
    | String "-" s' => (true, s')
    | String "+" s' => (false, s')
    | _ => (false, s)
    end in
  let '(magnitude, n, rest) := digits s 0 0 in
  match n with
  | O => None
  | S _ => Some (negative, magnitude, rest)
  end.

Definition read_signed (fn : string) (bits : Z) (s : string) : result Z :=
  match signed_digits s with
  | None => Throw fn
  | Some (negative, magnitude, _) =>
      let v := if negative : bool then - magnitude else magnitude in
      if (- 2 ^ (bits - 1) <=? v) && (v <? 2 ^ (bits - 1))
      then Ok v else Throw fn
  end.

Definition read_unsigned (fn : string) (bits : Z) (s : string) : result Z :=
  match signed_digits s with
  | None => Throw fn
  | Some (negative, magnitude, _) =>
      if magnitude <? 2 ^ bits
      then Ok (if negative : bool then (- magnitude) mod 2 ^ bits else magnitude)
      else Throw fn
  end.

Definition read_float (fn : string) (prec emax : Z) (s : string)
  : result spec_float :=
  match signed_digits s with
  | None => Throw fn
  | Some (negative, whole, rest) =>
      let '(numerator, scale) :=
        match rest with
        | String "." fraction =>
            let '(v, n, _) := digits fraction whole 0 in (v, n)
        | _ => (whole, O)
        end in
      let x := binary_normalize prec emax numerator 0 negative in
      let y := binary_normalize prec emax (10 ^ Z.of_nat scale) 0 false in
      Ok (if negative : bool
          then SFopp (SFdiv prec emax (SFopp x) y)
          else SFdiv prec emax x y)
  end.

Definition conversions : StdConversions := {|
  stoi := read_signed "stoi" 32;
  stoll := read_signed "stoll" 64;
  stoul := read_unsigned "stoul" 64;
  stoull := read_unsigned "stoull" 64;
  stof := read_float "stof" 24 128;
  stod := read_float "stod" 53 1024
|}.
End Reference.

(** ** Example commands *)

Module Example.
Definition column (c : string) : ColumnExpression.t :=
  ColumnExpression.mk c "" NONE.

Definition aggregate (f : AggregateFunctionType) (c : string)
  : ColumnExpression.t :=
  ColumnExpression.mk c "" f.

Definition select (cols : list ColumnExpression.t) (table : string) (limit : Z)
  : ASTNode :=
  SELECT (SelectAST.mk false cols table "" [] [] limit).

Definition select_all (table : string) (limit : Z) : ASTNode :=
  SELECT (SelectAST.mk true [] table "" [] [] limit).

Definition create (table : string) (cols : list (string * string)) : ASTNode :=
  CREATE_TABLE (CreateTableAST.mk table cols "Memory").

Definition insert (table : string) (cols : list string)
    (values : list (list string)) : ASTNode :=
  INSERT (InsertAST.mk table cols values).

(** [run commands]: the results of the commands, executed in order from
    the empty registry with the reference conversions. *)
Definition run (commands : list ASTNode)
  : result (list QueryResult.t * SQLExecutor.tables) :=
  @SQLExecutor.session Reference.conversions commands ∅.

Definition results (commands : list ASTNode) : list QueryResult.t :=
  match run commands with
  | Ok (rs, _) => rs
  | _ => []
  end.

(** The column names of the blocks of a result. *)
Definition block_names (r : QueryResult.t) : list (list string) :=
  map (fun b => map Block.name (Block.columns b)) (QueryResult.blocks r).

(** [CREATE TABLE t (a Int32, b Int32)]. *)
Definition create_t : ASTNode := create "t" [("a", "Int32"); ("b", "Int32")].
End Example.

(** ** Statements about INSERT *)

(** What [executeInsert] may return: a failure and the registry it was
    given, or a success and the registry in which the storage of the table
    holds one more block, one that the storage validated. *)
Definition insert_outcome (ast : InsertAST.t) (tables_ : SQLExecutor.tables)
    (rt : QueryResult.t * SQLExecutor.tables) : Prop :=
  (QueryResult.success rt.1 = false ∧ rt.2 = tables_) ∨
  (QueryResult.success rt.1 = true ∧
   ∃ storage block,
     tables_ !! InsertAST.table_name ast = Some storage ∧
     MemoryStorage.validateBlock storage block = Ok true ∧
     rt.2 = <[InsertAST.table_name ast :=
                MemoryStorage.mk (MemoryStorage.structure storage)
                  (MemoryStorage.blocks storage ++ [block])]> tables_).


(** A target column whose kind the construction [switch] has no label
    for. *)
Definition unsupported (structure : TableStructure.t) (c : string) : Prop :=
  ∃ col_def, TableStructure.getColumnByName structure c = Ok col_def ∧
             cpp_type_of (getTypeId (TableStructure.type col_def)) = None.


(** ** Example registries and sessions *)

Module Examples.
(** [SELECT b, a FROM t] after [INSERT INTO t VALUES (1, 2)]. *)
Definition select_b_a : list ASTNode :=
  [ Example.create_t;
    Example.insert "t" [] [["1"; "2"]];
    Example.select [Example.column "b"; Example.column "a"] "t" 0 ].

(** [INSERT INTO t (a, a) VALUES (1, 2)] into [t (a Int32, b Int32)],
    followed by [SELECT * FROM t]. *)
Definition insert_a_a : list ASTNode :=
  [ Example.create_t;
    Example.insert "t" ["a"; "a"] [["1"; "2"]];
    Example.select_all "t" 0 ].

(** [SELECT COUNT( * ) FROM t] on the empty table, and after two rows. *)
Definition count_star : ASTNode :=
  Example.select [Example.aggregate COUNT "*"] "t" 0.

Definition count_empty : list ASTNode := [Example.create_t; count_star].

Definition count_two : list ASTNode :=
  [ Example.create_t;
    Example.insert "t" [] [["1"; "2"]; ["3"; "4"]];
    count_star ].

(** The registry a list of commands leaves, from the empty one. *)
Definition tables_after (commands : list ASTNode) : SQLExecutor.tables :=
  match Example.run commands with
  | Ok (_, tables_) => tables_
  | _ => ∅
  end.

(** [t (a Int32, b Int32)] holding the rows (1, 2) and (3, 4) in one
    block. *)
Definition two_rows_tables : SQLExecutor.tables :=
  tables_after (take 2 count_two).

(** [t (a Int32, b Int32)] holding (1, 2), (3, 4) in a first block and
    (5, 6), (7, 8) in a second. *)
Definition four_rows_tables : SQLExecutor.tables :=
  tables_after
    [ Example.create_t;
      Example.insert "t" [] [["1"; "2"]; ["3"; "4"]];
      Example.insert "t" [] [["5"; "6"]; ["7"; "8"]] ].

(** [SELECT * FROM t]. *)
Definition select_star : SelectAST.t := SelectAST.mk true [] "t" "" [] [] 0.

(** [SELECT MIN(a) FROM t] and [SELECT SUM(a) FROM t] on the empty table. *)
Definition min_empty : list ASTNode :=
  [ Example.create_t;
    Example.select [Example.aggregate MIN "a"] "t" 0;
    Example.select [Example.aggregate SUM "a"] "t" 0 ].
End Examples.

(** ** Statements about SELECT *)

(** The rows a storage holds: the sum of the row counts of its blocks. *)
Definition stored_rows (storage : MemoryStorage.t) : Z :=
  foldr (λ block total, Z.of_nat (Block.getRowCount block) + total) 0
        (MemoryStorage.blocks storage).

(** Every stored block has the column [col_name], as long as the block. *)
Definition holds_column (storage : MemoryStorage.t) (col_name : string) : Prop :=
  Forall (λ block,
            ∃ col, Block.getColumnByName block col_name = Ok col ∧
                   IColumn.size (Block.column col) = Block.getRowCount block)
         (MemoryStorage.blocks storage).

(** [SELECT COUNT( * ) [AS alias] FROM table], with any clauses. *)
Definition select_count_star (table alias where_expr : string)
    (group_by : list string) (order_by : list (string * bool)) (limit : Z)
  : SelectAST.t :=
  SelectAST.mk false [ColumnExpression.mk "*" alias COUNT] table
    where_expr group_by order_by limit.

(** A block the aggregate loops skip. *)
Definition skipped (block : Block.t) : Prop :=
  Block.getColumnCount block = 0%nat ∨ Block.getRowCount block = 0%nat.

(** The column [column_name] has no non-null entry in [blocks]: every
    block is skipped by the loops, or has the column with null in every
    row (which includes the column without rows). *)
Definition no_non_null (blocks : list Block.t) (column_name : string) : Prop :=
  Forall (λ block,
            skipped block ∨
            ∃ col, Block.getColumnByName block column_name = Ok col ∧
                   Forall (λ i, IColumn.at_ (Block.column col) i
                                = Ok Field.monostate)
                          (seq 0 (IColumn.size (Block.column col))))
         blocks.

(** [SELECT f(column) [AS alias] FROM table]. *)
Definition select_aggregate (f : AggregateFunctionType)
    (table column alias : string) : SelectAST.t :=
  SelectAST.mk false [ColumnExpression.mk column alias f] table "" [] [] 0.

(** A block whose column ["a"] is a nullable column of two nulls. *)
Definition null_block : Block.t :=
  Block.addColumn "a"
    (IColumn.Nullable int32_t
       (ColumnVector.mk (T:=int32_t) [0; 0] DataTypeInt32)
       (ColumnVector.mk (T:=uint8_t) [1; 1] DataTypeUInt8)
       (DataTypeNullable DataTypeInt32))
    Block.empty.

(** The first [n] rows of a column: what the loop of LIMIT leaves of a
    longer column. *)
Definition truncated (n : nat) (col : IColumn.t) : IColumn.t :=
  match col with
  | IColumn.Vector T c =>
      IColumn.Vector T (ColumnVector.mk (take n (ColumnVector.data c))
                          (ColumnVector.type c))
  | IColumn.Nullable T nested nulls ty =>
      IColumn.Nullable T
        (ColumnVector.mk (take n (ColumnVector.data nested))
           (ColumnVector.type nested))
        (ColumnVector.mk (take n (ColumnVector.data nulls))
           (ColumnVector.type nulls))
        ty
  end.

(** The same SELECT with another LIMIT. *)
Definition with_limit (limit : Z) (ast : SelectAST.t) : SelectAST.t :=
  SelectAST.mk (SelectAST.select_all ast) (SelectAST.columns ast)
    (SelectAST.table_name ast) (SelectAST.where_expr ast)
    (SelectAST.group_by_columns ast) (SelectAST.order_by_columns ast) limit.

(** No expression of the SELECT is an aggregate call. *)
Definition no_aggregates (ast : SelectAST.t) : Prop :=
  Forall (λ col_expr, ColumnExpression.agg_type col_expr = NONE)
         (SelectAST.columns ast).

(** The rows of a list of blocks, counted without reduction. *)
Definition total_rows (blocks : list Block.t) : Z :=
  foldr (λ block total, Z.of_nat (Block.getRowCount block) + total) 0 blocks.

(** Every column of every block keeps the invariant of its class. *)
Definition columns_wf (blocks : list Block.t) : Prop :=
  Forall (λ block,
            Forall (λ c, IColumn.wf (Block.column c)) (Block.columns block))
         blocks.

(** ** Statements about blocks *)

(** What [Block::addColumn] maintains from the empty block on: an index
    bound to a name is the position of a column of that name, and the name
    of every column is bound. *)
Definition block_wf (b : Block.t) : Prop :=
  (∀ name idx, Block.column_indices b !! name = Some idx →
     ∃ c, Block.columns b !! idx = Some c ∧ Block.name c = name) ∧
  (∀ c, c ∈ Block.columns b → is_Some (Block.column_indices b !! Block.name c)).

(** ** Statements about the block an INSERT builds *)

(** The column [executeInsert] constructs for a target column and fills
    from the texts [strs], first row first: a [ColumnVector<T>] of the
    declared type holding the converted values. *)
Definition filled `{StdConversions} (structure : TableStructure.t)
    (col_name : string) (strs : list string) (col : IColumn.t) : Prop :=
  ∃ col_def T data,
    TableStructure.getColumnByName structure col_name = Ok col_def ∧
    cpp_type_of (getTypeId (TableStructure.type col_def)) = Some T ∧
    col = IColumn.Vector T (ColumnVector.mk data (TableStructure.type col_def)) ∧
    Forall2 (λ v s, SQLExecutor.convert T s = Ok v) data strs.

(** The texts at position [i] of the rows. *)
Definition texts_at (i : nat) (rows : list (list string)) : list string :=
  omap (λ row : list string, row !! i) rows.

(** The block a successful INSERT builds: one column per target name, in
    the order of the names, holding the converted texts of that position
    of every row. *)
Definition inserted `{StdConversions} (structure : TableStructure.t)
    (column_names : list string) (values : list (list string))
    (block : Block.t) : Prop :=
  length (Block.columns block) = length column_names ∧
  ∀ i n, column_names !! i = Some n →
    ∃ col, Block.columns block !! i = Some (Block.mkColumnWithName n col) ∧
           filled structure n (texts_at i values) col.

(** The outcome of a successful INSERT. *)
Definition insert_success `{StdConversions} (ast : InsertAST.t)
    (tables_ : SQLExecutor.tables) (rt : QueryResult.t * SQLExecutor.tables)
  : Prop :=
  ∃ storage column_names block,
    tables_ !! InsertAST.table_name ast = Some storage ∧
    SQLExecutor.target_columns (MemoryStorage.structure storage) ast
      = Ok column_names ∧
    SQLExecutor.passes_checks (MemoryStorage.structure storage) ast
      column_names ∧
    inserted (MemoryStorage.structure storage) column_names
             (InsertAST.values ast) block ∧
    block_wf block ∧
    MemoryStorage.validateBlock storage block = Ok true ∧
    rt = (QueryResult.status true
            (pretty (length (InsertAST.values ast))
             +:+ " row(s) inserted successfully"),
          <[InsertAST.table_name ast :=
              MemoryStorage.mk (MemoryStorage.structure storage)
                (MemoryStorage.blocks storage ++ [block])]> tables_).

Module InsertExample.
(** [INSERT INTO t VALUES (1, 2), (3, 4)] into the empty
    [t (a Int32, b Int32)]. *)
Definition ast : InsertAST.t := InsertAST.mk "t" [] [["1"; "2"]; ["3"; "4"]].

Definition before : SQLExecutor.tables :=
  Examples.tables_after [Example.create_t].

Definition after : SQLExecutor.tables := Examples.two_rows_tables.

Definition result : QueryResult.t :=
  QueryResult.status true "2 row(s) inserted successfully".

(** The storage of [t] before the statement. *)
Definition storage : MemoryStorage.t :=
  MemoryStorage.create
    (TableStructure.addColumn "b" DataTypeInt32
       (TableStructure.addColumn "a" DataTypeInt32
          (TableStructure.create "t"))).
End InsertExample.

(** A target column the construction [switch] has a label for, with the
    value type of its column. *)
Definition supported (structure : TableStructure.t) (c : string)
    (T : CppType) : Prop :=
  ∃ col_def, TableStructure.getColumnByName structure c = Ok col_def ∧
             cpp_type_of (getTypeId (TableStructure.type col_def)) = Some T.

(** The texts of [row] below position [k] convert to the value types of
    the target columns at their positions. *)
Definition converts `{StdConversions} (structure : TableStructure.t)
    (column_names : list string) (row : list string) (k : nat) : Prop :=
  ∀ i s n, (i < k)%nat → row !! i = Some s → column_names !! i = Some n →
    ∃ T v, supported structure n T ∧ SQLExecutor.convert T s = Ok v.

Module ConversionExample.
(** [INSERT INTO t VALUES (1, 2), (3, x)] into [t (a Int32, b Int32)]:
    the text [x] is the first that does not convert. *)
Definition ast : InsertAST.t := InsertAST.mk "t" [] [["1"; "2"]; ["3"; "x"]].
End ConversionExample.

(** ** Statements about CREATE TABLE and DROP TABLE *)

(** What [TableStructure::addColumn] maintains from the empty structure
    on: an index bound to a name is the position of a column of that name,
    and the name of every column is bound. *)
Definition schema_wf (s : TableStructure.t) : Prop :=
  (∀ name idx, TableStructure.column_indices s !! name = Some idx →
     ∃ c, TableStructure.columns s !! idx = Some c ∧
          TableStructure.name c = name) ∧
  (∀ c, c ∈ TableStructure.columns s →
        is_Some (TableStructure.column_indices s !! TableStructure.name c)).

(** The declaration a column definition renders back to: its name and the
    name of its type. *)
Definition declaration (c : TableStructure.ColumnDefinition)
  : string * string :=
  (TableStructure.name c, getName (TableStructure.type c)).

Module CreateExample.
(** [CREATE TABLE t (a Int32, b Int32)] on the empty registry. *)
Definition ast : CreateTableAST.t :=
  CreateTableAST.mk "t" [("a", "Int32"); ("b", "Int32")] "Memory".

Definition result : QueryResult.t :=
  QueryResult.status true "Table created successfully".
End CreateExample.

(** ** Statements about [MemoryStorage::read] *)

(** [projected] is the block [read] builds from a stored block for the
    requested names: one column per name, in the order of the names, the
    column the stored block has under that name. *)
Definition projection (column_names : list string) (block projected : Block.t)
  : Prop :=
  Forall2 (λ n c', ∃ c, Block.getColumnByName block n = Ok c ∧
                        c' = Block.mkColumnWithName n (Block.column c))
          column_names (Block.columns projected).

Module PartialExample.
(** [INSERT INTO t (a) VALUES (1)] into [t (a Int32, b Int32)]. *)
Definition ast : InsertAST.t := InsertAST.mk "t" ["a"] [["1"]].
End PartialExample.

(** ** Statements about the aggregates *)

(** The fields the loops of the aggregate templates visit in a block: none
    in a block without columns or without rows, else the fields of the
    column [column_name], first row first. *)
Definition visits (column_name : string) (block : Block.t)
    (fields : list Field.t) : Prop :=
  if Nat.eqb (Block.getColumnCount block) 0
     || Nat.eqb (Block.getRowCount block) 0
  then fields = []
  else ∃ col, Block.getColumnByName block column_name = Ok col ∧
              IColumn.fields (Block.column col) = map Ok fields.

(** The fields of the column [column_name] in [blocks], block by block. *)
Definition column_fields (blocks : list Block.t) (column_name : string)
    (fields : list Field.t) : Prop :=
  ∃ per_block, Forall2 (visits column_name) blocks per_block ∧
               fields = concat per_block.

Definition non_null (fields : list Field.t) : list Field.t :=
  filter (λ field, negb (Field.isNull field)) fields.

(** The integer an integer type holds. *)
Definition as_Z (T : CppType) : native T → Z :=
  match T with
  | float_t | double_t => λ _, 0
  | std_string => λ _, 0
  | _ => λ z, z
  end.

Definition sum_Z (T : CppType) (vs : list (native T)) : Z :=
  foldr (λ v total, as_Z T v + total) 0 vs.

Definition sum_abs (T : CppType) (vs : list (native T)) : Z :=
  foldr (λ v total, Z.abs (as_Z T v) + total) 0 vs.

(** [v] is a value of the integer type [T]. *)
Definition in_range (T : CppType) (v : native T) : Prop :=
  wrap T (as_Z T v) = as_Z T v.

Module AggregateExample.
(** The blocks of [t (a Int32, b Int32)] after
    [INSERT INTO t VALUES (1, 2), (3, 4)] and
    [INSERT INTO t VALUES (5, 6), (7, 8)]. *)
Definition blocks : list Block.t :=
  match Examples.four_rows_tables !! "t" with
  | Some storage => MemoryStorage.blocks storage
  | None => []
  end.

Definition fields : list Field.t :=
  [Field.of_int32 1; Field.of_int32 3; Field.of_int32 5; Field.of_int32 7].
End AggregateExample.

(** ** Statements about the registry of a session *)

(** A block as the executor stores it for a table of schema [structure]:
    its index is sound, its columns have one length, there is one column
    per column of the schema, and each column is a [ColumnVector<T>],
    never a nullable column, of the declared type and value type of a
    schema column of its name. *)
Definition stored_ok (structure : TableStructure.t) (block : Block.t) : Prop :=
  block_wf block ∧
  Block.isValid block = true ∧
  Block.getColumnCount block = TableStructure.getColumnCount structure ∧
  Forall (λ c, ∃ col_def T data,
            TableStructure.getColumnByName structure (Block.name c)
              = Ok col_def ∧
            cpp_type_of (getTypeId (TableStructure.type col_def)) = Some T ∧
            Block.column c
            = IColumn.Vector T
                (ColumnVector.mk data (TableStructure.type col_def)))
         (Block.columns block).

(** The invariant of the registry [tables_]. *)
Definition registry_ok (tables_ : SQLExecutor.tables) : Prop :=
  map_Forall
    (λ name storage,
       schema_wf (MemoryStorage.structure storage) ∧
       TableStructure.table_name (MemoryStorage.structure storage) = name ∧
       Forall (stored_ok (MemoryStorage.structure storage))
              (MemoryStorage.blocks storage))
    tables_.

(** ** include/lightoladb/core/column.h: the remaining members *)

Module ColumnNullable.
(** [ColumnNullable<T>::insertValue(value, is_null)], on a column of that
    class. *)
Definition insertValue (T : CppType) (value : native T) (is_null : bool)
    (col : IColumn.t) : result IColumn.t :=
  match col with
  | IColumn.Nullable T' nested nulls ty =>
      match decide (T = T') with
      | left e =>
          Ok (IColumn.Nullable T'
                (ColumnVector.insertValue (eq_rect T native value T' e) nested)
                (ColumnVector.insertValue (T:=uint8_t)
                   (if is_null then 1 else 0) nulls)
                ty)
      | right _ => Undefined
      end
  | IColumn.Vector _ _ => Undefined
  end.
End ColumnNullable.

(** [ColumnVector<T>::insertFrom(src, n)]: [src] is cast to the class of
    the receiver, and [data[n]] is undefined past the end. *)
Definition vector_insertFrom {T T' : CppType} (src : ColumnVector.t T')
    (n : nat) (c : ColumnVector.t T) : result (ColumnVector.t T) :=
  match decide (T' = T) with
  | left e =>
      v ← ColumnVector.getValue src n;
      Ok (ColumnVector.insertValue (eq_rect T' native v T e) c)
  | right _ => Undefined
  end.

(** [insertFrom(src, n)] of the two column classes. *)
Definition insertFrom (src : IColumn.t) (n : nat) (col : IColumn.t)
  : result IColumn.t :=
  match col, src with
  | IColumn.Vector T c, IColumn.Vector T' c' =>
      c ← vector_insertFrom c' n c; Ok (IColumn.Vector T c)
  | IColumn.Nullable T nested nulls ty, IColumn.Nullable T' nested' nulls' _ =>
      nested ← vector_insertFrom nested' n nested;
      nulls ← vector_insertFrom nulls' n nulls;
      Ok (IColumn.Nullable T nested nulls ty)
  | _, _ => Undefined
  end.

(** Two columns of one class and one value type. *)
Definition same_class (a b : IColumn.t) : Prop :=
  match a, b with
  | IColumn.Vector T _, IColumn.Vector T' _ => T = T'
  | IColumn.Nullable T _ _ _, IColumn.Nullable T' _ _ _ => T = T'
  | _, _ => False
  end.

(** The field [insertDefault] appends: [T()] in a [ColumnVector<T>], null
    in a nullable column. *)
Definition default_field (col : IColumn.t) : Field.t :=
  match col with
  | IColumn.Vector T _ => Field.make T (native_default T)
  | IColumn.Nullable _ _ _ _ => Field.monostate
  end.

(** [col'] is [col] with one row appended, whose field is [last]. *)
Definition appended (col col' : IColumn.t) (last : Field.t) : Prop :=
  IColumn.wf col' ∧
  IColumn.size col' = S (IColumn.size col) ∧
  IColumn.getDataType col' = IColumn.getDataType col ∧
  same_class col col' ∧
  IColumn.at_ col' (IColumn.size col) = Ok last ∧
  ∀ i, (i < IColumn.size col)%nat → IColumn.at_ col' i = IColumn.at_ col i.

Module ColumnExample.
(** A nullable column of the rows 7 and null. *)
Definition nullable : IColumn.t :=
  IColumn.Nullable int32_t
    (ColumnVector.mk (T:=int32_t) [7; 0] DataTypeInt32)
    (ColumnVector.mk (T:=uint8_t) [0; 1] DataTypeUInt8)
    (DataTypeNullable DataTypeInt32).

(** An empty nullable column of the same class. *)
Definition target : IColumn.t :=
  IColumn.Nullable int32_t
    (ColumnVector.mk (T:=int32_t) [] DataTypeInt32)
    (ColumnVector.mk (T:=uint8_t) [] DataTypeUInt8)
    (DataTypeNullable DataTypeInt32).
End ColumnExample.

(** ** Blocks and schemas as their interface builds them *)

(** The blocks that [addColumn] builds from the empty block. *)
Inductive block_built : Block.t → Prop :=
| built_empty : block_built Block.empty
| built_addColumn name column b :
    block_built b → block_built (Block.addColumn name column b).

(** The schemas that [addColumn] builds from an empty schema. *)
Inductive schema_built : TableStructure.t → Prop :=
| built_create table_name : schema_built (TableStructure.create table_name)
| built_addDefinition name type s :
    schema_built s → schema_built (TableStructure.addColumn name type s).

(** ** src/sql/executor.cpp: DESCRIBE *)

Module DescribeAST.
Record t : Type := mk { table_name : string }.
End DescribeAST.

(** [createEmptyBlock]: one empty [ColumnVector<T>] per name, of the type
    at the position of the name. *)
Definition createEmptyBlock (column_names : list string)
    (types : list IDataType) : result Block.t :=
  if negb (Nat.eqb (length column_names) (length types))
  then Throw "Column names and types count mismatch"
  else
    Result.foldM
      (λ block '(col_name, type),
         match SQLExecutor.make_column type with
         | Some column => Ok (Block.addColumn col_name column block)
         | None => Throw "Unsupported data type"
         end)
      Block.empty (zip column_names types).

(** A member call through a reference to the column at [idx] of a block:
    the block shares the column with the reference, so the call shows in
    the block. *)
Definition modify_column (idx : nat) (f : IColumn.t → result IColumn.t)
    (block : Block.t) : result Block.t :=
  match Block.columns block !! idx with
  | Some c =>
      column ← f (Block.column c);
      Ok (Block.mk
            (<[idx := Block.mkColumnWithName (Block.name c) column]>
               (Block.columns block))
            (Block.column_indices block))
  | None => Undefined
  end.

Definition executeDescribe (ast : DescribeAST.t)
    (tables_ : SQLExecutor.tables) : result QueryResult.t :=
  let table_name := DescribeAST.table_name ast in
  match tables_ !! table_name with
  | None =>
      Ok (QueryResult.status false
            ("Table '" +:+ table_name +:+ "' doesn't exist"))
  | Some storage =>
      let structure := MemoryStorage.getTableStructure storage in
      let column_names := ["column_name"; "type"] in
      block ← createEmptyBlock column_names [DataTypeString; DataTypeString];
      name_col ← Block.getColumnIndex block "column_name";
      _ ← Block.getColumnByIndex block name_col;
      type_col ← Block.getColumnIndex block "type";
      _ ← Block.getColumnByIndex block type_col;
      block ←
        Result.foldM
          (λ block i,
             col ← TableStructure.getColumnByIndex structure i;
             block ←
               modify_column name_col
                 (SQLExecutor.insertValue_as std_string
                    (TableStructure.name col)) block;
             modify_column type_col
               (SQLExecutor.insertValue_as std_string
                  (getName (TableStructure.type col))) block)
          block (seq 0 (TableStructure.getColumnCount structure));
      Ok (QueryResult.of_blocks [block] column_names)
  end.

(** The block of two string columns that DESCRIBE returns for the names
    [names] and the type names [types]. *)
Definition description (names types : list string) : Block.t :=
  Block.addColumn "type"
    (IColumn.Vector std_string
       (ColumnVector.mk (T:=std_string) types DataTypeString))
    (Block.addColumn "column_name"
       (IColumn.Vector std_string
          (ColumnVector.mk (T:=std_string) names DataTypeString))
       Block.empty).

(** ** Statements about aggregate SELECTs *)

Definition is_aggregate (col_expr : ColumnExpression.t) : bool :=
  negb (bool_decide (ColumnExpression.agg_type col_expr = NONE)).

(** The name of the result column of an aggregate expression: its alias,
    or the call as written. *)
Definition result_name (col_expr : ColumnExpression.t) : string :=
  if String.eqb (ColumnExpression.alias col_expr) ""
  then SQLExecutor.getAggregateFunctionName
         (ColumnExpression.agg_type col_expr)
         +:+ "(" +:+ ColumnExpression.column col_expr +:+ ")"
  else ColumnExpression.alias col_expr.

(** The result of an aggregate SELECT: one block with one column of one
    row per aggregate expression, in the order of the expressions, named
    as the result lists them. *)
Definition aggregate_shape (ast : SelectAST.t) (r : QueryResult.t) : Prop :=
  ∃ agg_block,
    r = QueryResult.of_blocks [agg_block]
          (map result_name (filter is_aggregate (SelectAST.columns ast))) ∧
    map Block.name (Block.columns agg_block)
      = map result_name (filter is_aggregate (SelectAST.columns ast)) ∧
    Forall (λ c, IColumn.size (Block.column c) = 1%nat)
           (Block.columns agg_block).

Module ShapeExample.
(** [SELECT a, COUNT(b), MAX(a) AS top FROM t LIMIT 1] on the table of
    four rows in two blocks. *)
Definition ast : SelectAST.t :=
  SelectAST.mk false
    [ ColumnExpression.mk "a" "" NONE;
      ColumnExpression.mk "b" "" COUNT;
      ColumnExpression.mk "a" "top" MAX ]
    "t" "" [] [] 1.
End ShapeExample.

(** ** src/sql/parser.cpp: the helper functions

    A [std::string] is the list of its chars here.  [std::isspace] and
    [::toupper] take the char converted to [int]: a char above 127 is
    negative where [char] is signed, and the call is then undefined unless
    the value is [EOF] (the char 255). *)

Module Parser.
(** [std::isspace] in the "C" locale. *)
Definition isspace (c : ascii) : result bool :=
  let n := nat_of_ascii c in
  if (n <? 128)%nat
  then Ok ((n =? 32)%nat || ((9 <=? n)%nat && (n <=? 13)%nat))
  else if (n =? 255)%nat then Ok false else Undefined.

(** [::toupper] in the "C" locale, converted back to [char]. *)
Definition toupper (c : ascii) : result ascii :=
  let n := nat_of_ascii c in
  if (n <? 128)%nat
  then Ok (if (97 <=? n)%nat && (n <=? 122)%nat
           then ascii_of_nat (n - 32) else c)
  else if (n =? 255)%nat then Ok c else Undefined.

(** [std::find_if_not(first, last, isspace)]: what is left of the range
    from the first char that is not a space. *)
Fixpoint find_if_not_isspace (s : list ascii) : result (list ascii) :=
  match s with
  | [] => Ok []
  | c :: s' =>
      space ← isspace c;
      if (space : bool) then find_if_not_isspace s' else Ok s
  end.

Definition trim (str : list ascii) : result (list ascii) :=
  from_start ← find_if_not_isspace str;
  from_end ← find_if_not_isspace (rev str);
  let start := (length str - length from_start)%nat in
  let end_ := length from_end in
  Ok (if (start <? end_)%nat then take (end_ - start) from_start else []).

Definition toUpper (str : list ascii) : result (list ascii) :=
  Result.mapM toupper str.

(** The tokens [std::getline] reads up to [delimiter]: a token ends at a
    delimiter or at the end of the text, and the read that finds the text
    exhausted fails, so that no empty token follows a final delimiter. *)
Fixpoint getlines (delimiter : ascii) (token : list ascii) (str : list ascii)
  : list (list ascii) :=
  match str with
  | [] => match token with [] => [] | _ => [rev token] end
  | c :: str' =>
      if Ascii.eqb c delimiter
      then rev token :: getlines delimiter [] str'
      else getlines delimiter (c :: token) str'
  end.

Definition split (str : list ascii) (delimiter : ascii)
  : result (list (list ascii)) :=
  Result.mapM trim (getlines delimiter [] str).

(** A char [isspace] holds of, and one it is defined on. *)
Definition space (c : ascii) : Prop := isspace c = Ok true.
Definition plain (c : ascii) : Prop := (nat_of_ascii c < 128)%nat.

(** A text without a space at either end. *)
Definition trimmed (t : list ascii) : Prop :=
  match t with
  | [] => True
  | c :: _ => isspace c = Ok false ∧
              ∃ c', last t = Some c' ∧ isspace c' = Ok false
  end.
End Parser.

(** The texts [tokens] with [delimiter] between them. *)
Fixpoint join (delimiter : ascii) (tokens : list (list ascii)) : list ascii :=
  match tokens with
  | [] => []
  | token :: rest =>
      match rest with
      | [] => token
      | _ => token ++ delimiter :: join delimiter rest
      end
  end.

(** The code of a char after [toUpper]. *)
Definition upper_code (n : nat) : nat :=
  if (97 <=? n)%nat && (n <=? 122)%nat then (n - 32)%nat else n.

(** ** Statements about reading back what was inserted *)

(** [SELECT column [AS alias] FROM table], without LIMIT. *)
Definition select_column (table column alias : string) : SelectAST.t :=
  SelectAST.mk false [ColumnExpression.mk column alias NONE] table "" [] [] 0.

(** The block of the one column [column] of a stored block. *)
Definition column_of (column : string) (block : Block.t) : result Block.t :=
  col ← Block.getColumnByName block column;
  Ok (Block.addColumn column (Block.column col) Block.empty).

(** ** Statements about the loop that fills the columns of an INSERT *)

(** The state of the vector of columns when [rows] have been converted
    and, of the row [row] in progress, the positions below [p]. *)
Definition filling `{StdConversions} (structure : TableStructure.t)
    (column_names : list string) (rows : list (list string))
    (row : list string) (p : nat) (columns : list IColumn.t) : Prop :=
  length columns = length column_names ∧
  ∀ i n, column_names !! i = Some n →
    ∃ col, columns !! i = Some col ∧
           filled structure n
             (texts_at i rows ++
              (if decide (i < p)%nat then option_list (row !! i) else []))
             col.

(** ** Statements about [validateBlock] *)

(** A column of a block agrees with the schema: the lookup of its name
    finds a column definition, of the kind of the column. *)
Definition agrees (structure : TableStructure.t) (c : Block.ColumnWithName)
  : Prop :=
  ∃ d, TableStructure.getColumnByName structure (Block.name c) = Ok d ∧
       getTypeId (IColumn.getDataType (Block.column c))
       = getTypeId (TableStructure.type d).

Module DuplicateExample.
(** The storage of [d (a Int32, a String)], and a block of two [Int32]
    columns named [a]: the name is bound to the second declaration. *)
Definition storage : MemoryStorage.t :=
  MemoryStorage.create
    (TableStructure.addColumn "a" DataTypeString
       (TableStructure.addColumn "a" DataTypeInt32
          (TableStructure.create "d"))).

Definition column : IColumn.t :=
  IColumn.Vector int32_t (ColumnVector.mk (T:=int32_t) [] DataTypeInt32).

Definition block : Block.t :=
  Block.addColumn "a" column (Block.addColumn "a" column Block.empty).
End DuplicateExample.

(** ** The regular expressions of the parser: [std::regex]

    [std::regex] is not code of this repository; what follows is the
    matching of the ECMAScript grammar by the backtracking executor of
    libstdc++, for the constructs the expressions of src/sql/parser.cpp
    are written with.  A text is the list of its chars. *)

Module StdRegex.
(** The value of a [char], which is signed. *)
Definition code (c : ascii) : Z :=
  let n := Z.of_nat (nat_of_ascii c) in
  if n <? 128 then n else n - 256.

(** [std::ctype<char>::tolower] and [toupper] in the "C" locale. *)
Definition tolower (c : ascii) : ascii :=
  let n := nat_of_ascii c in
  if (65 <=? n)%nat && (n <=? 90)%nat then ascii_of_nat (n + 32) else c.

Definition toupper (c : ascii) : ascii :=
  let n := nat_of_ascii c in
  if (97 <=? n)%nat && (n <=? 122)%nat then ascii_of_nat (n - 32) else c.

(** The character classes [\s] and [\w] in the "C" locale. *)
Definition isspace (c : ascii) : bool :=
  let n := nat_of_ascii c in
  (n =? 32)%nat || ((9 <=? n)%nat && (n <=? 13)%nat).

Definition isalnum (c : ascii) : bool :=
  let n := nat_of_ascii c in
  ((48 <=? n)%nat && (n <=? 57)%nat)
  || ((65 <=? n)%nat && (n <=? 90)%nat)
  || ((97 <=? n)%nat && (n <=? 122)%nat).

(** What stands between brackets: a char, a range, or a class. *)
Inductive item : Set :=
| Single (c : ascii)
| Range (first last : ascii)
| Space
| Word.

(** What matches one char: a char of the expression, [.], a bracket
    expression ([negated] when it starts with [^]); [\s] outside brackets
    is [Bracket false [Space]]. *)
Inductive matcher : Set :=
| Char (c : ascii)
| Any
| Bracket (negated : bool) (items : list item).

(** An expression.  Every [*] and [+] of the parser is over one char;
    [greedy] is false for the lazy [*?].  [Subexpr n r] is the [n]th
    parenthesis that captures, [(?:r)] is [r] itself. *)
Inductive node : Set :=
| Match (m : matcher)
| Star (greedy : bool) (m : matcher)
| Plus (greedy : bool) (m : matcher)
| Optional (r : node)
| Seq (r1 r2 : node)
| Alt (r1 r2 : node)
| Subexpr (n : nat) (r : node)
| LineEnd
| Epsilon.

(** A compiled expression: [icase] is the flag [std::regex::icase],
    [mark_count] the number of capturing parentheses. *)
Record regex : Set := mk_regex {
  icase : bool;
  mark_count : nat;
  nfa : node
}.

Section Matching.
Variable icase : bool.

(** With [icase] chars are compared after [tolower], and a range holds a
    char when it holds its lower-case or its upper-case form. *)
Definition translate (c : ascii) : ascii :=
  if icase then tolower c else c.

Definition in_range (first last c : ascii) : bool :=
  (code first <=? code c) && (code c <=? code last).

Definition match_range (first last c : ascii) : bool :=
  if icase
  then in_range first last (tolower c) || in_range first last (toupper c)
  else in_range first last c.

Definition item_matches (c : ascii) (i : item) : bool :=
  match i with
  | Single x => Ascii.eqb (translate x) (translate c)
  | Range first last => match_range first last c
  | Space => isspace c
  | Word => isalnum c || Ascii.eqb c "_"
  end.

(** [.] matches every char but LF and CR. *)
Definition matches (m : matcher) (c : ascii) : bool :=
  match m with
  | Char x => Ascii.eqb (translate x) (translate c)
  | Any => negb (Ascii.eqb (translate c) (translate "010"))
           && negb (Ascii.eqb (translate c) (translate "013"))
  | Bracket negated items => xorb (existsb (item_matches c) items) negated
  end.

(** The state of the executor: what is left of the subject, and what the
    parentheses passed so far have captured. *)
Record state : Type := mk_state {
  current : list ascii;
  cur_results : list (option (list ascii))
}.

Section Run.
Context {R : Type}.

(** The executor tries the transitions of a state in order and keeps the
    first path that is accepted: [k] is what remains to be matched, and
    [None] sends the executor back to the last choice.  A greedy repeat
    tries one more char before it tries to leave, a lazy one the other
    way round. *)
Fixpoint repeat (greedy : bool) (m : matcher)
    (k : list ascii → option R) (s : list ascii) : option R :=
  match s with
  | c :: s' =>
      if matches m c
      then if greedy
           then match repeat greedy m k s' with
                | Some r => Some r
                | None => k s
                end
           else match k s with
                | Some r => Some r
                | None => repeat greedy m k s'
                end
      else k s
  | [] => k s
  end.

Fixpoint run (r : node) (k : state → option R) (st : state) : option R :=
  match r with
  | Match m =>
      match current st with
      | c :: s' =>
          if matches m c then k (mk_state s' (cur_results st)) else None
      | [] => None
      end
  | Star greedy m =>
      repeat greedy m (λ s', k (mk_state s' (cur_results st))) (current st)
  | Plus greedy m =>
      match current st with
      | c :: s' =>
          if matches m c
          then repeat greedy m (λ s'', k (mk_state s'' (cur_results st))) s'
          else None
      | [] => None
      end
  | Optional r =>
      match run r k st with
      | Some x => Some x
      | None => k st
      end
  | Seq r1 r2 => run r1 (run r2 k) st
  | Alt r1 r2 =>
      match run r1 k st with
      | Some x => Some x
      | None => run r2 k st
      end
  | Subexpr n r =>
      run r
        (λ st',
           let matched :=
             take (length (current st) - length (current st'))
                  (current st) in
           k (mk_state (current st')
                (<[n := Some matched]> (cur_results st'))))
        st
  | LineEnd =>
      match current st with
      | [] => k st
      | _ :: _ => None
      end
  | Epsilon => k st
  end.
End Run.

(** What a path through an expression does to the state. *)
Fixpoint steps (r : node) (st st' : state) : Prop :=
  match r with
  | Match m =>
      ∃ c, current st = c :: current st' ∧ matches m c = true ∧
           cur_results st' = cur_results st
  | Star _ m =>
      ∃ w, current st = w ++ current st' ∧
           Forall (λ c, matches m c = true) w ∧
           cur_results st' = cur_results st
  | Plus _ m =>
      ∃ w, w ≠ [] ∧ current st = w ++ current st' ∧
           Forall (λ c, matches m c = true) w ∧
           cur_results st' = cur_results st
  | Optional r => steps r st st' ∨ st' = st
  | Seq r1 r2 => ∃ mid, steps r1 st mid ∧ steps r2 mid st'
  | Alt r1 r2 => steps r1 st st' ∨ steps r2 st st'
  | Subexpr n r =>
      ∃ mid, steps r st mid ∧
        st' = mk_state (current mid)
                (<[n := Some (take (length (current st)
                                    - length (current mid))%nat
                                   (current st))]> (cur_results mid))
  | LineEnd => current st = [] ∧ st' = st
  | Epsilon => st' = st
  end.
End Matching.

(** [std::smatch]: the sub-matches ([sub_matches !! 0] is the whole
    match; [None] is a parenthesis that did not take part) and what
    follows the match in the subject. *)
Record smatch : Type := mk_smatch {
  sub_matches : list (option (list ascii));
  suffix : list ascii
}.

(** [match[n].matched] and the conversion of [match[n]] to a string, empty
    when the parenthesis did not take part. *)
Definition matched (m : smatch) (n : nat) : bool :=
  match sub_matches m !! n with
  | Some (Some _) => true
  | _ => false
  end.

Definition str (m : smatch) (n : nat) : list ascii :=
  match sub_matches m !! n with
  | Some (Some t) => t
  | _ => []
  end.

(** [match.size()]. *)
Definition size (re : regex) : nat := S (mark_count re).

(** One attempt, at the head of [s].  The whole expression is sub-match 0.
    With [exact] ([std::regex_match]) a path is accepted at the end of the
    subject only; with [not_null] the empty match is not accepted. *)
Definition attempt (re : regex) (exact not_null : bool) (s : list ascii)
  : option smatch :=
  run (icase re) (Subexpr 0 (nfa re))
    (λ st,
       if exact && negb (Nat.eqb (length (current st)) 0) then None
       else if not_null && Nat.eqb (length (current st)) (length s)
            then None
            else Some (mk_smatch (cur_results st) (current st)))
    (mk_state s (replicate (size re) None)).

Definition regex_match (re : regex) (s : list ascii) : option smatch :=
  attempt re true false s.

(** [std::regex_search]: the first position of the subject, from the
    left, at which an attempt succeeds; the end of the subject is the last
    position tried. *)
Fixpoint regex_search (re : regex) (s : list ascii) : option smatch :=
  match attempt re false false s with
  | Some m => Some m
  | None =>
      match s with
      | [] => None
      | _ :: s' => regex_search re s'
      end
  end.

(** [std::sregex_iterator]: the matches found one after the other, each
    search starting where the match before ended.  After an empty match
    the iterator first looks for a match that is not empty at the same
    place, then moves one char on.  Each step leaves less of the subject,
    or an empty match at its head, which the next step moves past: twice
    the length of the subject bounds the number of steps. *)
Fixpoint next_matches (steps : nat) (re : regex) (m : smatch)
  : list smatch :=
  match steps with
  | O => []
  | S steps' =>
      let start := suffix m in
      let search_on start :=
        match regex_search re start with
        | Some m' => m' :: next_matches steps' re m'
        | None => []
        end in
      if Nat.eqb (length (str m 0)) 0
      then match start with
           | [] => []
           | _ :: start' =>
               match attempt re false true start with
               | Some m' => m' :: next_matches steps' re m'
               | None => search_on start'
               end
           end
      else search_on start
  end.

(** The steps an iterator may still take after the match [m]. *)
Definition iterations (m : smatch) : nat :=
  (2 * length (suffix m)
   + (if Nat.eqb (length (str m 0)) 0 then 0 else 1))%nat.

Definition sregex_iterator (re : regex) (s : list ascii) : list smatch :=
  match regex_search re s with
  | Some m => m :: next_matches (2 * length s + 2) re m
  | None => []
  end.

(** *** Writing expressions *)

(** The chars of [s], one after the other. *)
Fixpoint lit (s : string) : node :=
  match s with
  | EmptyString => Epsilon
  | String c EmptyString => Match (Char c)
  | String c s' => Seq (Match (Char c)) (lit s')
  end.

Fixpoint seq (rs : list node) : node :=
  match rs with
  | [] => Epsilon
  | [r] => r
  | r :: rs' => Seq r (seq rs')
  end.

(** [\s], [[0-9]] and [[a-zA-Z0-9_]]. *)
Definition space : matcher := Bracket false [Space].
Definition digit : matcher := Bracket false [Range "0" "9"].
Definition name_char : matcher :=
  Bracket false [Range "a" "z"; Range "A" "Z"; Range "0" "9"; Single "_"].
End StdRegex.

(** ** src/sql/parser.cpp: [SQLParser] *)

(** The six commands: the four of [ASTNode], SHOW TABLES and DESCRIBE. *)
Inductive Statement : Type :=
| Command (ast : ASTNode)
| SHOW_TABLES
| DESCRIBE (ast : DescribeAST.t).

Module SQLParser.
Import StdRegex.

(** [str.find(needle)]: the first position at which [needle] starts,
    [None] for [npos]. *)
Fixpoint starts_with (needle str : list ascii) : bool :=
  match needle, str with
  | [], _ => true
  | a :: needle', b :: str' => Ascii.eqb a b && starts_with needle' str'
  | _ :: _, [] => false
  end.

Fixpoint find (str needle : list ascii) : option nat :=
  if starts_with needle str then Some O
  else match str with
       | [] => None
       | _ :: str' => option_map S (find str' needle)
       end.

Definition to_string (s : list ascii) : string := string_of_list_ascii s.
Definition chars (s : string) : list ascii := list_ascii_of_string s.

(** [([A-Za-z]+)\(\s*([*a-zA-Z0-9_\.]+)\s*\)(?:\s+AS\s+([a-zA-Z0-9_]+))?] *)
Definition agg_regex : regex :=
  mk_regex true 3
    (seq [ Subexpr 1 (Plus true (Bracket false [Range "A" "Z"; Range "a" "z"]));
           Match (Char "(");
           Star true space;
           Subexpr 2
             (Plus true
                (Bracket false
                   [Single "*"; Range "a" "z"; Range "A" "Z"; Range "0" "9";
                    Single "_"; Single "."]));
           Star true space;
           Match (Char ")");
           Optional
             (seq [ Plus true space; lit "AS"; Plus true space;
                    Subexpr 3 (Plus true name_char) ]) ]).

(** [([a-zA-Z0-9_\.]+)(?:\s+AS\s+([a-zA-Z0-9_]+))?] *)
Definition col_regex : regex :=
  mk_regex true 2
    (seq [ Subexpr 1
             (Plus true
                (Bracket false
                   [Range "a" "z"; Range "A" "Z"; Range "0" "9";
                    Single "_"; Single "."]));
           Optional
             (seq [ Plus true space; lit "AS"; Plus true space;
                    Subexpr 2 (Plus true name_char) ]) ]).

Definition parseColumnExpression (expr : list ascii)
  : result ColumnExpression.t :=
  match regex_match agg_regex expr with
  | Some agg_match =>
      func_name ← Parser.toUpper (str agg_match 1);
      let column := to_string (str agg_match 2) in
      let func_name := to_string func_name in
      agg_type ←
        (if String.eqb func_name "COUNT" then Ok COUNT
         else if String.eqb func_name "SUM" then Ok SUM
         else if String.eqb func_name "AVG" then Ok AVG
         else if String.eqb func_name "MIN" then Ok MIN
         else if String.eqb func_name "MAX" then Ok MAX
         else Throw ("Unsupported aggregate function: " +:+ func_name));
      let alias :=
        if matched agg_match 3 then to_string (str agg_match 3) else "" in
      Ok (ColumnExpression.mk column alias agg_type)
  | None =>
      match regex_match col_regex expr with
      | Some col_match =>
          let alias :=
            if matched col_match 2 then to_string (str col_match 2)
            else "" in
          Ok (ColumnExpression.mk (to_string (str col_match 1)) alias NONE)
      | None => Ok (ColumnExpression.mk (to_string expr) "" NONE)
      end
  end.

(** [CREATE\s+TABLE\s+([a-zA-Z0-9_]+)\s*\(\s*(.*?)\s*\)(?:\s+ENGINE\s*=\s*([a-zA-Z0-9_]+))?] *)
Definition create_regex : regex :=
  mk_regex true 3
    (seq [ lit "CREATE"; Plus true space; lit "TABLE"; Plus true space;
           Subexpr 1 (Plus true name_char);
           Star true space; Match (Char "("); Star true space;
           Subexpr 2 (Star false Any);
           Star true space; Match (Char ")");
           Optional
             (seq [ Plus true space; lit "ENGINE"; Star true space;
                    Match (Char "="); Star true space;
                    Subexpr 3 (Plus true name_char) ]) ]).

(** [([a-zA-Z0-9_]+)\s+([a-zA-Z0-9_]+(?:\([0-9]+(?:,[0-9]+)?\))?)] *)
Definition column_regex : regex :=
  mk_regex true 2
    (seq [ Subexpr 1 (Plus true name_char);
           Plus true space;
           Subexpr 2
             (seq [ Plus true name_char;
                    Optional
                      (seq [ Match (Char "("); Plus true digit;
                             Optional
                               (seq [Match (Char ","); Plus true digit]);
                             Match (Char ")") ]) ]) ]).

(** The text of a declared type, as [column_regex] reads it: a name, then
    possibly digits, with commas, between parentheses. *)
Definition type_text (t : list ascii) : Prop :=
  ∃ name args,
    t = name ++ args ∧ name ≠ [] ∧
    Forall (λ c, matches true name_char c = true) name ∧
    (args = [] ∨
     ∃ ds, args = "("%char :: ds ++ [")"%char] ∧ ds ≠ [] ∧
           Forall (λ c, matches true digit c = true ∨ c = ","%char) ds).

Definition parseCreateTable (query : list ascii) : result Statement :=
  match regex_search create_regex query with
  | None => Throw "Invalid CREATE TABLE statement"
  | Some match_ =>
      if (size create_regex <? 3)%nat
      then Throw "Invalid CREATE TABLE statement"
      else
        let table_name := to_string (str match_ 1) in
        let columns_str := str match_ 2 in
        let columns :=
          map (λ column_match,
                 (to_string (str column_match 1),
                  to_string (str column_match 2)))
              (sregex_iterator column_regex columns_str) in
        let engine :=
          if (3 <? size create_regex)%nat && matched match_ 3
          then to_string (str match_ 3) else "Memory" in
        Ok (Command (CREATE_TABLE
                       (CreateTableAST.mk table_name columns engine)))
  end.

(** [INSERT\s+INTO\s+([a-zA-Z0-9_]+)(?:\s*\(\s*(.*?)\s*\))?\s+VALUES\s+(.*?)(?:;)?$] *)
Definition insert_regex : regex :=
  mk_regex true 3
    (seq [ lit "INSERT"; Plus true space; lit "INTO"; Plus true space;
           Subexpr 1 (Plus true name_char);
           Optional
             (seq [ Star true space; Match (Char "("); Star true space;
                    Subexpr 2 (Star false Any);
                    Star true space; Match (Char ")") ]);
           Plus true space; lit "VALUES"; Plus true space;
           Subexpr 3 (Star false Any);
           Optional (Match (Char ";"));
           LineEnd ]).

(** [[a-zA-Z0-9_]+] *)
Definition column_name_regex : regex :=
  mk_regex false 0 (Plus true name_char).

(** [\(\s*(.*?)\s*\)] *)
Definition values_regex : regex :=
  mk_regex false 1
    (seq [ Match (Char "("); Star true space;
           Subexpr 1 (Star false Any);
           Star true space; Match (Char ")") ]).

(** The expression of a value has three alternatives: a quote, chars
    other than the quote (sub-match 1) and a quote; the same between
    double quotes (sub-match 2; the char 34 is the double quote); one or
    more chars of [[\w\.]] (sub-match 3). *)
Definition value_regex : regex :=
  mk_regex false 3
    (Alt
       (Alt
          (seq [ Match (Char "'");
                 Subexpr 1 (Star true (Bracket true [Single "'"]));
                 Match (Char "'") ])
          (seq [ Match (Char "034");
                 Subexpr 2 (Star true (Bracket true [Single "034"]));
                 Match (Char "034") ]))
       (Subexpr 3 (Plus true (Bracket false [Word; Single "."])))).

Definition parseInsert (query : list ascii) : result Statement :=
  match regex_search insert_regex query with
  | None => Throw "Invalid INSERT statement"
  | Some match_ =>
      if (size insert_regex <? 3)%nat
      then Throw "Invalid INSERT statement"
      else
        let table_name := to_string (str match_ 1) in
        let column_names :=
          if matched match_ 2
          then map (λ column_match, to_string (str column_match 0))
                   (sregex_iterator column_name_regex (str match_ 2))
          else [] in
        let values_str := str match_ 3 in
        values ←
          Result.mapM
            (λ values_match,
               let row_str := str values_match 1 in
               Result.mapM
                 (λ value_match,
                    if matched value_match 1
                    then Ok (to_string (str value_match 1))
                    else if matched value_match 2
                    then Ok (to_string (str value_match 2))
                    else
                      value ← Parser.trim (str value_match 3);
                      Ok (to_string value))
                 (sregex_iterator value_regex row_str))
            (sregex_iterator values_regex values_str);
        Ok (Command (INSERT (InsertAST.mk table_name column_names values)))
  end.

(** [SELECT\s+(.*?)\s+FROM\s+([a-zA-Z0-9_]+)(?:\s+WHERE\s+(.*?))?(?:\s+GROUP\s+BY\s+(.*?))?(?:\s+ORDER\s+BY\s+(.*?))?(?:\s+LIMIT\s+([0-9]+))?(?:;)?$],
    with a name for each optional part. *)
Definition where_part : node :=
  seq [ Plus true space; lit "WHERE"; Plus true space;
        Subexpr 3 (Star false Any) ].

Definition group_by_part : node :=
  seq [ Plus true space; lit "GROUP"; Plus true space; lit "BY";
        Plus true space; Subexpr 4 (Star false Any) ].

Definition order_by_part : node :=
  seq [ Plus true space; lit "ORDER"; Plus true space; lit "BY";
        Plus true space; Subexpr 5 (Star false Any) ].

Definition limit_part : node :=
  seq [ Plus true space; lit "LIMIT"; Plus true space;
        Subexpr 6 (Plus true digit) ].

Definition select_regex : regex :=
  mk_regex true 6
    (seq [ lit "SELECT"; Plus true space;
           Subexpr 1 (Star false Any);
           Plus true space; lit "FROM"; Plus true space;
           Subexpr 2 (Plus true name_char);
           Optional where_part;
           Optional group_by_part;
           Optional order_by_part;
           Optional limit_part;
           Optional (Match (Char ";"));
           LineEnd ]).

(** [[a-zA-Z0-9_]+], the [column_regex] of [parseSelect]. *)
Definition group_column_regex : regex :=
  mk_regex false 0 (Plus true name_char).

(** [([a-zA-Z0-9_]+)(?:\s+(ASC|DESC))?] *)
Definition order_regex : regex :=
  mk_regex false 2
    (seq [ Subexpr 1 (Plus true name_char);
           Optional
             (seq [ Plus true space;
                    Subexpr 2 (Alt (lit "ASC") (lit "DESC")) ]) ]).

(** The loop that cuts the select list at the commas outside parentheses:
    [column_exprs], [current] and [bracket_count] after the chars read.
    [bracket_count] is an [int], which must not overflow. *)
Definition split_step
    (acc : list (list ascii) * list ascii * Z) (c : ascii)
  : result (list (list ascii) * list ascii * Z) :=
  let '(column_exprs, current, bracket_count) := acc in
  bracket_count ←
    (if Ascii.eqb c "("
     then if bracket_count =? 2 ^ 31 - 1 then Undefined
          else Ok (bracket_count + 1)
     else if Ascii.eqb c ")"
     then if bracket_count =? - 2 ^ 31 then Undefined
          else Ok (bracket_count - 1)
     else Ok bracket_count);
  if Ascii.eqb c "," && (bracket_count =? 0)
  then
    expr ← Parser.trim current;
    Ok (column_exprs ++ [expr], [], bracket_count)
  else Ok (column_exprs, current ++ [c], bracket_count).

Definition split_columns (columns_str : list ascii)
  : result (list (list ascii)) :=
  '(column_exprs, current, _) ←
    Result.foldM split_step ([], [], 0) columns_str;
  match current with
  | [] => Ok column_exprs
  | _ :: _ =>
      expr ← Parser.trim current;
      Ok (column_exprs ++ [expr])
  end.

Section WithConversions.
Context `{StdConversions}.

Definition parseSelect (query : list ascii) : result Statement :=
  match regex_search select_regex query with
  | None => Throw "Invalid SELECT statement"
  | Some match_ =>
      if (size select_regex <? 3)%nat
      then Throw "Invalid SELECT statement"
      else
        let columns_str := str match_ 1 in
        '(select_all, columns) ←
          (if String.eqb (to_string columns_str) "*"
           then Ok (true, [])
           else
             column_exprs ← split_columns columns_str;
             columns ← Result.mapM parseColumnExpression column_exprs;
             Ok (false, columns));
        let table_name := to_string (str match_ 2) in
        let where_expr :=
          if matched match_ 3 then to_string (str match_ 3) else "" in
        let group_by_columns :=
          if matched match_ 4
          then map (λ column_match, to_string (str column_match 0))
                   (sregex_iterator group_column_regex (str match_ 4))
          else [] in
        order_by_columns ←
          (if matched match_ 5
           then
             Result.mapM
               (λ order_match,
                  let column_name := to_string (str order_match 1) in
                  desc ←
                    (if matched order_match 2
                     then
                       direction ← Parser.toUpper (str order_match 2);
                       Ok (String.eqb (to_string direction) "DESC")
                     else Ok false);
                  Ok (column_name, desc))
               (sregex_iterator order_regex (str match_ 5))
           else Ok []);
        limit ←
          (if matched match_ 6
           then stoul (to_string (str match_ 6))
           else Ok 0);
        Ok (Command (SELECT
                       (SelectAST.mk select_all columns table_name where_expr
                          group_by_columns order_by_columns limit)))
  end.

(** [DROP\s+TABLE\s+(?:IF\s+EXISTS\s+)?([a-zA-Z0-9_]+)] *)
Definition drop_regex : regex :=
  mk_regex true 1
    (seq [ lit "DROP"; Plus true space; lit "TABLE"; Plus true space;
           Optional (seq [ lit "IF"; Plus true space; lit "EXISTS";
                           Plus true space ]);
           Subexpr 1 (Plus true name_char) ]).

Definition parseDropTable (query : list ascii) : result Statement :=
  match regex_search drop_regex query with
  | None => Throw "Invalid DROP TABLE statement"
  | Some match_ =>
      if (size drop_regex <? 2)%nat
      then Throw "Invalid DROP TABLE statement"
      else
        let table_name := to_string (str match_ 1) in
        let if_exists :=
          bool_decide (is_Some (find query (chars "IF EXISTS"))) in
        Ok (Command (DROP_TABLE (DropTableAST.mk table_name if_exists)))
  end.

(** [SHOW\s+TABLES] *)
Definition show_regex : regex :=
  mk_regex true 0 (seq [lit "SHOW"; Plus true space; lit "TABLES"]).

Definition parseShowTables (query : list ascii) : result Statement :=
  match regex_search show_regex query with
  | None => Throw "Invalid SHOW TABLES statement"
  | Some _ => Ok SHOW_TABLES
  end.

(** [(DESCRIBE|DESC)\s+([a-zA-Z0-9_]+)] *)
Definition describe_regex : regex :=
  mk_regex true 2
    (seq [ Subexpr 1 (Alt (lit "DESCRIBE") (lit "DESC"));
           Plus true space;
           Subexpr 2 (Plus true name_char) ]).

Definition parseDescribe (query : list ascii) : result Statement :=
  match regex_search describe_regex query with
  | None => Throw "Invalid DESCRIBE statement"
  | Some match_ =>
      if (size describe_regex <? 3)%nat
      then Throw "Invalid DESCRIBE statement"
      else Ok (DESCRIBE (DescribeAST.mk (to_string (str match_ 2))))
  end.

(** [upper_query.find(keyword) == 0]. *)
Definition found_first (upper_query : list ascii) (keyword : string) : bool :=
  bool_decide (find upper_query (chars keyword) = Some O).

Definition parse (query : string) : result Statement :=
  trimmed_query ← Parser.trim (chars query);
  upper_query ← Parser.toUpper trimmed_query;
  if found_first upper_query "CREATE TABLE"
  then parseCreateTable trimmed_query
  else if found_first upper_query "INSERT INTO"
  then parseInsert trimmed_query
  else if found_first upper_query "SELECT"
  then parseSelect trimmed_query
  else if found_first upper_query "DROP TABLE"
  then parseDropTable trimmed_query
  else if found_first upper_query "SHOW TABLES"
  then parseShowTables trimmed_query
  else if found_first upper_query "DESCRIBE"
          || found_first upper_query "DESC"
  then parseDescribe trimmed_query
  else Throw "Unsupported SQL statement".
End WithConversions.
End SQLParser.

(** ** src/sql/executor.cpp: SHOW TABLES, and [execute] from the text *)

(** The order in which a [std::unordered_map] is iterated is not code of
    this repository: SHOW TABLES is defined over any order of the keys of
    the registry. *)
Class UnorderedMap : Type := {
  iteration : SQLExecutor.tables → list string;
  iteration_keys : ∀ tables_, iteration tables_ ≡ₚ (map_to_list tables_).*1
}.

Section WithLibrary.
Context `{StdConversions} `{UnorderedMap}.

Definition executeShowTables (tables_ : SQLExecutor.tables)
  : result QueryResult.t :=
  let column_names := ["table_name"] in
  block ← createEmptyBlock column_names [DataTypeString];
  table_name_col ← Block.getColumnIndex block "table_name";
  _ ← Block.getColumnByIndex block table_name_col;
  block ←
    Result.foldM
      (λ block name,
         modify_column table_name_col
           (SQLExecutor.insertValue_as std_string name) block)
      block (iteration tables_);
  Ok (QueryResult.of_blocks [block] column_names).
End WithLibrary.

Module Database.
Section WithLibrary.
Context `{StdConversions} `{UnorderedMap}.

(** [Database::executeQuery], which is [SQLExecutor::execute] on the text
    of the statement: the parser runs inside the [try] whose handler turns
    an exception into a failed result. *)
Definition executeQuery (query : string) (tables_ : SQLExecutor.tables)
  : result (QueryResult.t * SQLExecutor.tables) :=
  match SQLParser.parse query with
  | Ok (Command ast) => SQLExecutor.execute ast tables_
  | Ok SHOW_TABLES =>
      match executeShowTables tables_ with
      | Ok r => Ok (r, tables_)
      | Throw what => Ok (QueryResult.status false what, tables_)
      | Undefined => Undefined
      end
  | Ok (DESCRIBE ast) =>
      match executeDescribe ast tables_ with
      | Ok r => Ok (r, tables_)
      | Throw what => Ok (QueryResult.status false what, tables_)
      | Undefined => Undefined
      end
  | Throw what => Ok (QueryResult.status false what, tables_)
  | Undefined => Undefined
  end.

(** The statements of a session, executed one after the other. *)
Fixpoint executeQueries (queries : list string) (tables_ : SQLExecutor.tables)
  : result (list QueryResult.t * SQLExecutor.tables) :=
  match queries with
  | [] => Ok ([], tables_)
  | query :: rest =>
      '(r, tables_) ← executeQuery query tables_;
      '(rs, tables_) ← executeQueries rest tables_;
      Ok (r :: rs, tables_)
  end.
End WithLibrary.
End Database.

Module ReferenceOrder.
(** An order of iteration to evaluate examples with. *)
Definition unordered_map : UnorderedMap :=
  {| iteration := λ tables_, (map_to_list tables_).*1;
     iteration_keys := λ tables_, reflexivity _ |}.
End ReferenceOrder.

(** ** Example statements *)

Module TextExample.
(** [run queries]: the statements executed in order from the empty
    registry, with the reference conversions. *)
Definition run (queries : list string)
  : result (list QueryResult.t * SQLExecutor.tables) :=
  @Database.executeQueries Reference.conversions
    ReferenceOrder.unordered_map queries ∅.

(** Of each result: whether it is a success, its message and the number
    of its rows. *)
Definition outcomes (queries : list string) : list (bool * string * Z) :=
  match run queries with
  | Ok (rs, _) =>
      map (λ r, (QueryResult.success r, QueryResult.errorMessage r,
                 QueryResult.rowCount r)) rs
  | _ => []
  end.

Definition tables_after (queries : list string) : SQLExecutor.tables :=
  match run queries with
  | Ok (_, tables_) => tables_
  | _ => ∅
  end.




(** A table with a column declared [Nullable(Int32)] and an INSERT into
    the column; then the same with a column declared [Int32]. *)
Definition create_nullable : list string :=
  [ "CREATE TABLE n (a Nullable(Int32))";
    "INSERT INTO n (a) VALUES (1)" ].

Definition create_scalar : list string :=
  create_nullable ++
  [ "CREATE TABLE t (a Int32)";
    "INSERT INTO t (a) VALUES (1)" ].

Definition results (queries : list string) : list QueryResult.t :=
  match run queries with
  | Ok (rs, _) => rs
  | _ => []
  end.
End TextExample.

(** ** Statements about the types of the registered columns *)

(** A schema none of whose columns has a [Nullable] type. *)
Definition scalar_schema (structure : TableStructure.t) : Prop :=
  Forall (λ c, isNullable (TableStructure.type c) = false)
         (TableStructure.columns structure).

(** A stored block none of whose columns is a nullable column, or has a
    [Nullable] type. *)
Definition scalar_block (block : Block.t) : Prop :=
  Forall (λ c, ∃ T data type,
            Block.column c = IColumn.Vector T (ColumnVector.mk data type) ∧
            isNullable type = false)
         (Block.columns block).

Definition scalar_registry (tables_ : SQLExecutor.tables) : Prop :=
  map_Forall
    (λ _ storage,
       scalar_schema (MemoryStorage.structure storage) ∧
       Forall scalar_block (MemoryStorage.blocks storage))
    tables_.

(** A command whose declared types, if it is a CREATE TABLE, are texts as
    the parser reads them. *)
Definition declares_type_texts (ast : ASTNode) : Prop :=
  match ast with
  | CREATE_TABLE ast =>
      Forall (λ col : string * string,
            SQLParser.type_text (SQLParser.chars col.2))
             (CreateTableAST.columns ast)
  | _ => True
  end.

(** ** Statements about the text of a SELECT statement *)

Module SelectText.
Import StdRegex.


(** A letter. *)
Definition letter (c : ascii) : bool :=
  let n := nat_of_ascii (tolower c) in (97 <=? n)%nat && (n <=? 122)%nat.

(** The word [kw] in any letter case. *)
Definition keyword (kw : string) (k : list ascii) : Prop :=
  Forall2 (λ x c, tolower x = tolower c) (SQLParser.chars kw) k.








Definition name (t : list ascii) : Prop :=
  t ≠ [] ∧ Forall (λ c, matches true name_char c = true) t.





(** The head of a text is not matched by [m], if it has one. *)
Definition stops (m : matcher) (s : list ascii) : Prop :=
  match s with
  | [] => True
  | c :: _ => matches true m c = false
  end.








End SelectText.

(** * Properties *)

(** ** Outcomes *)

Lemma Ok_inj {A} (a b : A) : Ok a = Ok b → a = b.
Proof. by intros [= ->]. Qed.

(** ** The type factory *)

Lemma append_cons a s t : String a s +:+ t = String a (s +:+ t).
Proof. reflexivity. Qed.

Lemma append_nil_l t : "" +:+ t = t.
Proof. reflexivity. Qed.

Lemma strip_prefix_Some p s r :
  Regex.strip_prefix p s = Some r ↔ s = p +:+ r.
Proof.
  revert s; induction p as [|a p IH]; intros s; simpl.
  - split; [by intros [= ->] | by intros ->].
  - destruct s as [|b s]; [split; [done | by intros [=]]|].
    destruct (Ascii.eqb_spec a b) as [->|Hne].
    + rewrite IH. split; [by intros -> | by intros [= ->]].
    + split; [done | intros [= -> _]; done].
Qed.

Lemma strip_last_app c r :
  Regex.strip_last c (r +:+ String c "") = Some r.
Proof.
  induction r as [|x r IH]; simpl.
  - by rewrite Ascii.eqb_refl.
  - destruct (r +:+ String c "") eqn:E; [by destruct r|].
    by rewrite IH.
Qed.

Lemma strip_last_inv c s r :
  Regex.strip_last c s = Some r → s = r +:+ String c "".
Proof.
  revert r; induction s as [|a s IH]; intros r; simpl; [done|].
  destruct s as [|b s].
  - destruct (Ascii.eqb_spec a c) as [->|Hne]; [by intros [= <-] | done].
  - destruct (Regex.strip_last c (String b s)) as [r'|]; simpl; [|done].
    intros [= <-]. rewrite append_cons. f_equal. by apply IH.
Qed.

Lemma strip_last_Some c s r :
  Regex.strip_last c s = Some r ↔ s = r +:+ String c "".
Proof.
  split; [apply strip_last_inv | intros ->; apply strip_last_app].
Qed.

Lemma append_assoc (a b c : string) : (a +:+ b) +:+ c = a +:+ b +:+ c.
Proof. induction a as [|x a IH]; [done|]. by rewrite !append_cons, IH. Qed.

Lemma append_inj_r (a b : string) c : a +:+ String c "" = b +:+ String c "" → a = b.
Proof.
  intros H. pose proof (strip_last_app c a) as Ha.
  rewrite H, strip_last_app in Ha. congruence.
Qed.

Lemma length_append (a b : string) :
  String.length (a +:+ b) = (String.length a + String.length b)%nat.
Proof. induction a as [|x a IH]; [done|]. rewrite append_cons. simpl. by rewrite IH. Qed.

Lemma all_dot_append a b :
  Regex.all_dot (a +:+ b) = Regex.all_dot a && Regex.all_dot b.
Proof.
  induction a as [|x a IH]; [done|]. rewrite append_cons. simpl.
  rewrite IH. by rewrite andb_assoc.
Qed.

Lemma nullable_regex_Some name inner :
  Regex.nullable_regex name = Some inner ↔
  name = "Nullable(" +:+ inner +:+ ")" ∧ inner ≠ "" ∧ Regex.all_dot inner = true.
Proof.
  unfold Regex.nullable_regex. split.
  - destruct (Regex.strip_prefix _ name) as [rest|] eqn:Hp; [|done].
    apply strip_prefix_Some in Hp.
    destruct (Regex.strip_last _ rest) as [i|] eqn:Hl; [|done].
    apply strip_last_Some in Hl. subst.
    destruct i as [|c i]; [done|].
    destruct (Regex.all_dot (String c i)) eqn:Hd; [|done].
    by intros [= <-].
  - intros (-> & Hne & Hd).
    assert (Regex.strip_prefix "Nullable(" ("Nullable(" +:+ inner +:+ ")")
            = Some (inner +:+ ")")) as -> by by apply strip_prefix_Some.
    rewrite strip_last_app. destruct inner; [done|]. by rewrite Hd.
Qed.

Lemma scalar_type_Some name t :
  scalar_type name = Some t ↔
  getName t = name ∧ isNullable t = false.
Proof.
  unfold scalar_type. split.
  - repeat match goal with
           | |- context [String.eqb name ?k] =>
               destruct (String.eqb_spec name k) as [->|?];
               [by intros [= <-]|]
           end.
    done.
  - intros [<- Hn]. destruct t; try done.
Qed.

Lemma createDataType_rec_eq fuel name :
  createDataType_rec fuel name =
  match scalar_type name with
  | Some t => Ok t
  | None =>
      match Regex.nullable_regex name with
      | Some nested_type_name =>
          match fuel with
          | S fuel' =>
              nested_type ← createDataType_rec fuel' nested_type_name;
              Ok (DataTypeNullable nested_type)
          | O => Undefined
          end
      | None => Throw ("Unknown data type: " +:+ name)
      end
  end.
Proof.
  unfold scalar_type. destruct fuel; simpl;
    repeat (destruct (String.eqb name _); [done|]); done.
Qed.

Lemma getName_ne_empty t : getName t ≠ "".
Proof. by destruct t. Qed.

Lemma getName_all_dot t : Regex.all_dot (getName t) = true.
Proof.
  induction t; try done. simpl.
  by rewrite !all_dot_append, IHt.
Qed.

Lemma getName_Nullable_regex t :
  Regex.nullable_regex (getName (DataTypeNullable t)) = Some (getName t).
Proof.
  apply nullable_regex_Some.
  auto using getName_ne_empty, getName_all_dot.
Qed.

Lemma getName_inj t1 t2 : getName t1 = getName t2 → t1 = t2.
Proof.
  revert t2; induction t1; intros t2 H; destruct t2; try done;
    try (simpl in H; rewrite append_cons in H; discriminate).
  f_equal. apply IHt1.
    pose proof (getName_Nullable_regex t1) as H1.
    rewrite H, getName_Nullable_regex in H1. congruence.
Qed.

Lemma scalar_keywords_getName t :
  isNullable t = false → (getName t, getTypeId t) ∈ scalar_keywords.
Proof.
  unfold scalar_keywords. destruct t; intros Hn; try done; simpl;
    repeat first [apply list_elem_of_here | apply list_elem_of_further].
Qed.

Lemma accepted_iff_getName name :
  accepted_type_name name ↔ ∃ t, getName t = name.
Proof.
  split.
  - induction 1 as [name kind Hin | X _ [t <-]].
    + unfold scalar_keywords in Hin.
      repeat (apply elem_of_cons in Hin as [[= -> ->]|Hin];
              [first [ by exists DataTypeInt8 | by exists DataTypeInt16
                     | by exists DataTypeInt32 | by exists DataTypeInt64
                     | by exists DataTypeUInt8 | by exists DataTypeUInt16
                     | by exists DataTypeUInt32 | by exists DataTypeUInt64
                     | by exists DataTypeFloat32 | by exists DataTypeFloat64
                     | by exists DataTypeString ] |]).
      by apply elem_of_nil in Hin.
    + by exists (DataTypeNullable t).
  - intros [t <-]. induction t;
      try (match goal with
           | |- accepted_type_name (getName ?t) =>
               exact (accepted_scalar _ _ (scalar_keywords_getName t eq_refl))
           end).
    by apply accepted_nullable.
Qed.

Lemma createDataType_rec_spec fuel name :
  (String.length name ≤ fuel)%nat →
  match createDataType_rec fuel name with
  | Ok t => getName t = name
  | Throw what =>
      (∀ t, getName t ≠ name) ∧ ∃ s, what = "Unknown data type: " +:+ s
  | Undefined => False
  end.
Proof.
  revert name; induction fuel as [|fuel IH]; intros name Hlen;
    rewrite createDataType_rec_eq;
    (destruct (scalar_type name) as [t|] eqn:Hs;
     [by apply scalar_type_Some in Hs as [? _]|]);
    destruct (Regex.nullable_regex name) as [inner|] eqn:Hr.
  - apply nullable_regex_Some in Hr as (-> & _ & _).
    rewrite !length_append in Hlen. simpl in Hlen. lia.
  - split; [|by eexists]. intros t Ht.
    destruct (isNullable t) eqn:Hn.
    + destruct t; try done. by rewrite <- Ht, getName_Nullable_regex in Hr.
    + assert (scalar_type name = Some t) as Hs' by by apply scalar_type_Some.
      congruence.
  - pose proof Hr as Hr'.
    apply nullable_regex_Some in Hr' as (-> & _ & _).
    rewrite !length_append in Hlen. simpl in Hlen.
    specialize (IH inner ltac:(lia)).
    destruct (createDataType_rec fuel inner) as [t'|w|]; simpl; [|  |done].
    + by rewrite IH.
    + destruct IH as [IH [s ->]]. split; [|by eexists].
      intros t Ht. destruct (isNullable t) eqn:Hn.
      * destruct t as [| | | | | | | | | | |t0]; try done.
        rewrite <- Ht, getName_Nullable_regex in Hr.
        injection Hr as Hr. by apply (IH t0).
      * assert (scalar_type ("Nullable(" +:+ inner +:+ ")") = Some t) as Hs'
          by by apply scalar_type_Some.
        congruence.
  - split; [|by eexists]. intros t Ht.
    destruct (isNullable t) eqn:Hn.
    + destruct t; try done. by rewrite <- Ht, getName_Nullable_regex in Hr.
    + assert (scalar_type name = Some t) as Hs' by by apply scalar_type_Some.
      congruence.
Qed.

(** The bound [createDataType] passes down is never exhausted: any bound
    that is at least the length of the name gives the same outcome. *)
Lemma createDataType_rec_irrel f1 f2 name :
  (String.length name ≤ f1)%nat → (String.length name ≤ f2)%nat →
  createDataType_rec f1 name = createDataType_rec f2 name.
Proof.
  revert f2 name; induction f1 as [|f1 IH]; intros f2 name H1 H2;
    rewrite (createDataType_rec_eq _ name), (createDataType_rec_eq f2 name);
    destruct (scalar_type name); try done;
    destruct (Regex.nullable_regex name) as [inner|] eqn:Hr; try done;
    apply nullable_regex_Some in Hr as (-> & _ & _);
    rewrite !length_append in *; simpl in *; [lia|].
  destruct f2 as [|f2]; [lia|]. by rewrite (IH f2 inner) by lia.
Qed.

Lemma createDataType_rec_fuel fuel name :
  (String.length name ≤ fuel)%nat →
  createDataType_rec fuel name = createDataType name.
Proof. intros H. by apply createDataType_rec_irrel. Qed.

Lemma createDataType_unfold name :
  createDataType name =
  match scalar_type name with
  | Some t => Ok t
  | None =>
      match Regex.nullable_regex name with
      | Some nested_type_name =>
          nested_type ← createDataType nested_type_name;
          Ok (DataTypeNullable nested_type)
      | None => Throw ("Unknown data type: " +:+ name)
      end
  end.
Proof.
  rewrite <- (createDataType_rec_fuel (S (String.length name))) by lia.
  rewrite createDataType_rec_eq.
  destruct (scalar_type name); [done|].
  destruct (Regex.nullable_regex name) as [inner|] eqn:Hr; [|done].
  apply nullable_regex_Some in Hr as (-> & _ & _).
  rewrite createDataType_rec_fuel; [done|].
  rewrite !length_append. simpl. lia.
Qed.

Lemma createDataType_getName t : createDataType (getName t) = Ok t.
Proof.
  pose proof (createDataType_rec_spec _ (getName t) (le_n _)) as H.
  fold (createDataType (getName t)) in H.
  destruct (createDataType (getName t)) as [t'|w|]; [|by destruct H as [H _]; destruct (H t)|done].
  by apply getName_inj in H as ->.
Qed.

(** C7. [createDataType] succeeds exactly on the accepted names (the eleven
    scalar keywords and [Nullable(X)] around an accepted [X]); on success
    the descriptor renders back to the name it was made from, has the kind of
    the keyword, or is the Nullable wrapper of the descriptor made from [X];
    on every other string it throws "Unknown data type: ...". *)
Theorem createDataType_accepts (name : string) :
  match createDataType name with
  | Ok t =>
      accepted_type_name name ∧ getName t = name ∧
      (∀ kind, (name, kind) ∈ scalar_keywords → getTypeId t = kind) ∧
      (∀ X, name = "Nullable(" +:+ X +:+ ")" →
            getTypeId t = Nullable ∧
            ∃ nested, createDataType X = Ok nested ∧ t = DataTypeNullable nested)
  | Throw what =>
      ¬ accepted_type_name name ∧ ∃ s, what = "Unknown data type: " +:+ s
  | Undefined => False
  end.
Proof.
  pose proof (createDataType_rec_spec _ name (le_n _)) as H.
  fold (createDataType name) in H.
  destruct (createDataType name) as [t|w|]; [|  |done].
  - subst name. split; [apply accepted_iff_getName; by eexists|].
    split; [done|]. split.
    + intros kind Hin. unfold scalar_keywords in Hin.
      repeat (apply elem_of_cons in Hin as [[= Hn ->]|Hin];
              [ match type of Hn with
                | getName _ = ?k =>
                    first [ change k with (getName DataTypeInt8) in Hn
                          | change k with (getName DataTypeInt16) in Hn
                          | change k with (getName DataTypeInt32) in Hn
                          | change k with (getName DataTypeInt64) in Hn
                          | change k with (getName DataTypeUInt8) in Hn
                          | change k with (getName DataTypeUInt16) in Hn
                          | change k with (getName DataTypeUInt32) in Hn
                          | change k with (getName DataTypeUInt64) in Hn
                          | change k with (getName DataTypeFloat32) in Hn
                          | change k with (getName DataTypeFloat64) in Hn
                          | change k with (getName DataTypeString) in Hn ]
                end; by apply getName_inj in Hn as -> |]).
      by apply elem_of_nil in Hin.
    + intros X HX.
      destruct t as [| | | | | | | | | | |t0];
        try (simpl in HX; rewrite append_cons in HX; discriminate).
      split; [done|]. exists t0. split; [|done].
      simpl in HX. apply String.app_inj in HX. apply append_inj_r in HX.
      subst X. apply createDataType_getName.
  - destruct H as [Hno Hw]. split; [|done].
    intros [t Ht]%accepted_iff_getName. by apply (Hno t).
Qed.

(** ** The binary codecs *)

Lemma Z_of_byte_of_Z z : Z_of_byte (byte_of_Z z) = z mod 256.
Proof.
  unfold Z_of_byte, byte_of_Z.
  destruct (Byte.of_N (Z.to_N (z mod 256))) as [b|] eqn:E; simpl.
  - apply Byte.to_of_N in E. rewrite E.
    apply Z2N.id. apply Z.mod_pos_bound. lia.
  - apply Byte.of_N_None_iff in E.
    pose proof (Z.mod_pos_bound z 256 ltac:(lia)). lia.
Qed.

Lemma Z_of_byte_range b : 0 ≤ Z_of_byte b < 256.
Proof.
  unfold Z_of_byte. pose proof (Byte.to_N_bounded b). lia.
Qed.

Lemma length_le_bytes w v : length (le_bytes w v) = w.
Proof. revert v; induction w as [|w IH]; intros v; simpl; [done|]. by rewrite IH. Qed.

Lemma le_value_le_bytes w v : le_value (le_bytes w v) = v mod 2 ^ (8 * Z.of_nat w).
Proof.
  revert v; induction w as [|w IH]; intros v.
  - simpl. by rewrite Z.mod_1_r.
  - cbn [le_bytes le_value]. rewrite Z_of_byte_of_Z, IH.
    replace (8 * Z.of_nat (S w)) with (8 + 8 * Z.of_nat w) by lia.
    rewrite Z.pow_add_r by lia. change (2 ^ 8) with 256.
    rewrite (Z.rem_mul_r v 256) by lia. lia.
Qed.

Lemma length_object_bytes order w v : length (object_bytes order w v) = w.
Proof. destruct order; simpl; by rewrite ?length_rev, length_le_bytes. Qed.

Lemma object_value_bytes order w v :
  object_value order (object_bytes order w v) = v mod 2 ^ (8 * Z.of_nat w).
Proof.
  destruct order; simpl; by rewrite ?rev_involutive, le_value_le_bytes.
Qed.

Lemma le_value_range bs : 0 ≤ le_value bs < 2 ^ (8 * Z.of_nat (length bs)).
Proof.
  induction bs as [|b bs IH]; [simpl; lia|].
  cbn [le_value length]. pose proof (Z_of_byte_range b).
  replace (8 * Z.of_nat (S (length bs))) with (8 + 8 * Z.of_nat (length bs)) by lia.
  rewrite Z.pow_add_r by lia. change (2 ^ 8) with 256. nia.
Qed.

Lemma object_value_range order bs :
  0 ≤ object_value order bs < 2 ^ (8 * Z.of_nat (length bs)).
Proof.
  destruct order; simpl; [apply le_value_range|].
  rewrite <- (length_rev bs). apply le_value_range.
Qed.

Lemma length_list_byte_of_string s :
  length (list_byte_of_string s) = String.length s.
Proof.
  unfold list_byte_of_string. rewrite length_map.
  induction s as [|c s IH]; simpl; [done|]. by rewrite IH.
Qed.

Lemma length_string_repeat c n : String.length (string_repeat c n) = n.
Proof. induction n as [|n IH]; simpl; [done|]. by rewrite IH. Qed.

Lemma string_serializeBinary_app order s buffer :
  DataTypeString.serializeBinary order s buffer =
  buffer ++ DataTypeString.serializeBinary order s [].
Proof. done. Qed.

(** What decoding an encoded text gives, for a text of any length: the
    first [length mod 2 ^ 32] bytes. *)
Lemma string_deserialize_serialize order s :
  DataTypeString.deserializeBinary order
    (DataTypeString.serializeBinary order s []) =
  Ok (string_of_list_byte
        (take (Z.to_nat (Z.of_nat (String.length s) mod 2 ^ 32))
              (list_byte_of_string s))).
Proof.
  unfold DataTypeString.serializeBinary, DataTypeString.deserializeBinary.
  cbv zeta. rewrite app_nil_l.
  set (n := Z.of_nat (String.length s) mod 2 ^ 32).
  assert (0 ≤ n < 2 ^ 32) as Hn by (apply Z.mod_pos_bound; lia).
  assert (Z.to_nat n ≤ String.length s)%nat as Hle.
  { pose proof (Z.mod_le (Z.of_nat (String.length s)) (2 ^ 32)
                  ltac:(lia) ltac:(lia)). lia. }
  rewrite length_app, length_object_bytes, length_take,
    length_list_byte_of_string.
  rewrite take_app_length' by by rewrite length_object_bytes.
  rewrite object_value_bytes. change (8 * Z.of_nat 4) with 32.
  rewrite (Z.mod_small n) by lia.
  destruct (Z.ltb_spec (Z.of_nat (4 + Z.to_nat n `min` String.length s)) 4);
    [lia|].
  destruct (Z.ltb_spec (Z.of_nat (4 + Z.to_nat n `min` String.length s)) (4 + n));
    [lia|].
  rewrite drop_app_length' by by rewrite length_object_bytes.
  by rewrite take_take, Nat.min_id.
Qed.

Lemma four_gib_string_length :
  Z.of_nat (String.length four_gib_string) = 2 ^ 32.
Proof.
  unfold four_gib_string. rewrite length_string_repeat.
  apply Z2Nat.id. apply Z.pow_nonneg. lia.
Qed.

(** C8, as stated, fails on a text of [2 ^ 32] bytes: the length prefix is
    the length narrowed to 32 bits, here 0, so that no byte of the text is
    written and decoding gives the empty text. *)
Lemma string_codec_round_trip_counterexample :
  ∃ s : string,
    DataTypeString.deserializeBinary LittleEndian
      (DataTypeString.serializeBinary LittleEndian s []) = Ok "" ∧
    DataTypeString.deserializeBinary LittleEndian
      (DataTypeString.serializeBinary LittleEndian s []) ≠ Ok s.
Proof.
  exists four_gib_string.
  assert (DataTypeString.deserializeBinary LittleEndian
            (DataTypeString.serializeBinary LittleEndian four_gib_string [])
          = Ok "") as Hdec.
  { rewrite string_deserialize_serialize, four_gib_string_length.
    by rewrite Z.mod_same by (apply Z.pow_nonzero; lia). }
  split; [done|]. rewrite Hdec. intros H.
  apply Ok_inj in H.
  pose proof four_gib_string_length as Hlen. rewrite <- H in Hlen.
  change (Z.of_nat (String.length "")) with 0 in Hlen.
  pose proof (Z.pow_pos_nonneg 2 32 ltac:(lia) ltac:(lia)). lia.
Qed.

(** C8 (amended).  The String codec appends a 4-byte length prefix and the
    raw bytes, and decoding what was encoded gives the text back, for every
    text shorter than [2 ^ 32] bytes; decoding throws when fewer than 4
    bytes, or fewer than 4 plus the encoded length, are supplied.  A
    fixed-width codec appends exactly the [sizeof(T)] bytes of the value,
    decoding throws when fewer than [sizeof(T)] bytes are supplied and
    otherwise copies the first [sizeof(T)] bytes. *)
Theorem binary_codec_round_trip (order : byte_order) :
  (∀ s buffer,
     Z.of_nat (String.length s) < 2 ^ 32 →
     DataTypeString.serializeBinary order s buffer =
       buffer ++ object_bytes order 4 (Z.of_nat (String.length s))
              ++ list_byte_of_string s ∧
     DataTypeString.deserializeBinary order
       (DataTypeString.serializeBinary order s []) = Ok s) ∧
  (∀ buffer,
     (length buffer < 4)%nat →
     DataTypeString.deserializeBinary order buffer =
       Throw "Not enough data for deserialization") ∧
  (∀ buffer,
     (4 ≤ length buffer)%nat →
     Z.of_nat (length buffer) < 4 + object_value order (take 4 buffer) →
     DataTypeString.deserializeBinary order buffer =
       Throw "Not enough data for deserialization") ∧
  (∀ T value buffer,
     length value = sizeof T →
     DataTypeNumber.serializeBinary T value buffer = buffer ++ value ∧
     DataTypeNumber.deserializeBinary T
       (DataTypeNumber.serializeBinary T value []) = Ok value) ∧
  (∀ T buffer,
     (length buffer < sizeof T)%nat →
     DataTypeNumber.deserializeBinary T buffer =
       Throw "Not enough data for deserialization") ∧
  (∀ T buffer,
     (sizeof T ≤ length buffer)%nat →
     DataTypeNumber.deserializeBinary T buffer = Ok (take (sizeof T) buffer)).
Proof.
  repeat split.
  - unfold DataTypeString.serializeBinary. cbv zeta.
    rewrite Z.mod_small by lia. rewrite Nat2Z.id.
    by rewrite take_ge by by rewrite length_list_byte_of_string.
  - rewrite string_deserialize_serialize.
    rewrite Z.mod_small by lia. rewrite Nat2Z.id.
    rewrite take_ge by by rewrite length_list_byte_of_string.
    by rewrite string_of_list_byte_of_string.
  - intros buffer Hlen. unfold DataTypeString.deserializeBinary. cbv zeta.
    by destruct (Z.ltb_spec (Z.of_nat (length buffer)) 4); [|lia].
  - intros buffer Hlen Hshort. unfold DataTypeString.deserializeBinary.
    cbv zeta. destruct (Z.ltb_spec (Z.of_nat (length buffer)) 4); [done|].
    by destruct (Z.ltb_spec (Z.of_nat (length buffer))
                   (4 + object_value order (take 4 buffer))); [|lia].
  - unfold DataTypeNumber.serializeBinary. by rewrite take_ge by lia.
  - unfold DataTypeNumber.serializeBinary, DataTypeNumber.deserializeBinary.
    rewrite app_nil_l, take_take, Nat.min_id, length_take.
    destruct (Nat.ltb_spec (sizeof T `min` length value) (sizeof T)); [lia|].
    by rewrite take_ge by lia.
  - intros T buffer Hlen. unfold DataTypeNumber.deserializeBinary.
    by destruct (Nat.ltb_spec (length buffer) (sizeof T)); [|lia].
  - intros T buffer Hlen. unfold DataTypeNumber.deserializeBinary.
    by destruct (Nat.ltb_spec (length buffer) (sizeof T)); [lia|].
Qed.

Lemma binary_codec_round_trip_witness :
  DataTypeString.deserializeBinary LittleEndian
    (DataTypeString.serializeBinary LittleEndian "abc" []) = Ok "abc" ∧
  DataTypeString.deserializeBinary LittleEndian
    [Byte.x05; Byte.x00; Byte.x00; Byte.x00; Byte.x61] =
    Throw "Not enough data for deserialization" ∧
  DataTypeNumber.deserializeBinary int32_t [Byte.x01; Byte.x02] =
    Throw "Not enough data for deserialization".
Proof.
  pose proof (binary_codec_round_trip LittleEndian)
    as (Hstr & _ & Hshort & _ & Hnum & _).
  split; [|split].
  - apply (Hstr "abc" []). simpl. lia.
  - apply Hshort; [simpl; lia | vm_compute; reflexivity].
  - apply Hnum. simpl. lia.
Defined.

(** ** Blocks *)

Lemma getColumnByName_Ok b n cw :
  Block.getColumnByName b n = Ok cw ↔
  ∃ i, Block.column_indices b !! n = Some i ∧ Block.columns b !! i = Some cw.
Proof.
  unfold Block.getColumnByName, Block.getColumnIndex, Block.getColumnByIndex.
  destruct (Block.column_indices b !! n) as [i|]; simpl.
  - destruct (Block.columns b !! i) as [c|] eqn:E; simpl.
    + split; [intros [= <-]; eauto | intros (j & [= <-] & Hj); congruence].
    + split; [done | intros (j & [= <-] & Hj); congruence].
  - split; [done | by intros (j & ? & _)].
Qed.

(** C9. Adding a column under a name that is already bound keeps every
    stored column at its index (the column count grows by one) and rebinds
    only that name: looking the name up gives the new column, the old one
    is still read by its index, and no other name is rebound. *)
Theorem addColumn_existing_name (b : Block.t) (n : string)
    (old : Block.ColumnWithName) (c2 : IColumn.t) :
  Block.getColumnByName b n = Ok old →
  let b' := Block.addColumn n c2 b in
  Block.getColumnCount b' = S (Block.getColumnCount b) ∧
  (∀ j cw, Block.getColumnByIndex b j = Ok cw →
           Block.getColumnByIndex b' j = Ok cw) ∧
  (∃ i, Block.getColumnIndex b n = Ok i ∧
        Block.getColumnByIndex b' i = Ok old ∧
        Block.getColumnIndex b' n = Ok (Block.getColumnCount b) ∧
        i ≠ Block.getColumnCount b) ∧
  Block.getColumnByName b' n = Ok (Block.mkColumnWithName n c2) ∧
  (∀ m, m ≠ n → Block.getColumnIndex b' m = Block.getColumnIndex b m).
Proof.
  intros Hold b'.
  apply getColumnByName_Ok in Hold as (i & Hi & Hc).
  assert (∀ j cw, Block.getColumnByIndex b j = Ok cw →
                  Block.getColumnByIndex b' j = Ok cw) as Hkeep.
  { intros j cw. unfold Block.getColumnByIndex, b', Block.addColumn. simpl.
    destruct (Block.columns b !! j) as [c|] eqn:E; [|done].
    intros [= <-]. by rewrite (lookup_app_l_Some _ _ _ _ E). }
  assert (Block.getColumnIndex b' n = Ok (Block.getColumnCount b)) as Hidx.
  { unfold Block.getColumnIndex, b', Block.addColumn. simpl.
    by rewrite lookup_insert_eq. }
  repeat split.
  - unfold Block.getColumnCount, b', Block.addColumn. simpl.
    rewrite length_app. simpl. lia.
  - done.
  - exists i. repeat split.
    + unfold Block.getColumnIndex. by rewrite Hi.
    + apply Hkeep. unfold Block.getColumnByIndex. by rewrite Hc.
    + done.
    + apply lookup_lt_Some in Hc. unfold Block.getColumnCount. lia.
  - unfold Block.getColumnByName. rewrite Hidx. simpl.
    unfold Block.getColumnByIndex, b', Block.addColumn, Block.getColumnCount.
    simpl. by rewrite list_lookup_middle.
  - intros m Hm. unfold Block.getColumnIndex, b', Block.addColumn. simpl.
    by rewrite lookup_insert_ne.
Qed.

Lemma addColumn_existing_name_witness :
  Block.getColumnByName (Block.addColumn "a" (example_column 2) example_block) "a"
    = Ok (Block.mkColumnWithName "a" (example_column 2)) ∧
  Block.getColumnByIndex (Block.addColumn "a" (example_column 2) example_block) 0
    = Ok (Block.mkColumnWithName "a" (example_column 1)).
Proof.
  pose proof (addColumn_existing_name example_block "a"
                (Block.mkColumnWithName "a" (example_column 1))
                (example_column 2) eq_refl) as (_ & Hkeep & _ & Hnew & _).
  split; [exact Hnew | by apply Hkeep].
Defined.

(** ** SELECT: the clauses of the command *)


(** ** Function bodies *)

Section ExecRules.
Context {R : Type}.

Lemma post_mono {A} (E : Prop) (Q Q' : A → Prop) (P P' : R → Prop) e :
  Exec.post E Q P e → (∀ a, Q a → Q' a) → (∀ r, P r → P' r) →
  Exec.post E Q' P' e.
Proof. destruct e; simpl; auto. Qed.

Lemma post_bind {A B} (E : Prop) (Q' : A → Prop) (Q : B → Prop) (P : R → Prop)
    (e : exec R A) (k : A → exec R B) :
  Exec.post E Q' P e → (∀ a, Q' a → Exec.post E Q P (k a)) →
  Exec.post E Q P (e ≫= k).
Proof. destruct e; simpl; auto. Qed.

Lemma post_call {A} (E : Prop) (Q : A → Prop) (P : R → Prop) (r : result A) :
  match r with Ok a => Q a | _ => E end → Exec.post E Q P (Exec.call r).
Proof. by destruct r. Qed.

Lemma post_try_catch {A} (E : Prop) (Q : A → Prop) (P : R → Prop)
    (r : result A) handler :
  match r with
  | Ok a => Q a
  | Throw w => Exec.post E Q P (handler w)
  | Undefined => E
  end →
  Exec.post E Q P (Exec.try_catch r handler).
Proof. by destruct r. Qed.

Lemma post_for_each {A} (E : Prop) (P : R → Prop) (f : A → exec R unit) l :
  (∀ x, x ∈ l → Exec.post E (λ _, True) P (f x)) →
  Exec.post E (λ _, True) P (Exec.for_each f l).
Proof.
  induction l as [|x l IH]; intros Hf; simpl; [done|].
  eapply post_bind; [apply Hf; left|].
  intros _ _. apply IH. intros y Hy. apply Hf. by right.
Qed.

Lemma post_foldM {A S} (E : Prop) (I : S → Prop) (P : R → Prop)
    (f : S → A → exec R S) l s :
  I s → (∀ s x, I s → x ∈ l → Exec.post E I P (f s x)) →
  Exec.post E I P (Exec.foldM f s l).
Proof.
  revert s; induction l as [|x l IH]; intros s Hs Hf; simpl; [done|].
  eapply post_bind; [apply Hf; [done | left]|].
  intros s' Hs'. apply IH; [done|]. intros s'' y ? Hy. apply Hf; [done | by right].
Qed.

Lemma post_mapM {A B} (E : Prop) (Q : B → Prop) (P : R → Prop)
    (f : A → exec R B) l :
  (∀ x, x ∈ l → Exec.post E Q P (f x)) →
  Exec.post E (Forall Q) P (Exec.mapM f l).
Proof.
  induction l as [|x l IH]; intros Hf; simpl; [by constructor|].
  eapply post_bind; [apply Hf; left|]. intros y Hy.
  eapply post_bind; [apply IH; intros z Hz; apply Hf; by right|].
  intros ys Hys. simpl. by constructor.
Qed.

Lemma for_each_cons {A} (f : A → exec R unit) x l :
  Exec.for_each f (x :: l) = f x ≫= λ _, Exec.for_each f l.
Proof. done. Qed.

Lemma mapM_cons {A B} (f : A → exec R B) x l :
  Exec.mapM f (x :: l) = y ← f x; ys ← Exec.mapM f l; Next (y :: ys).
Proof. done. Qed.

Lemma foldM_cons {A S} (f : S → A → exec R S) s x l :
  Exec.foldM f s (x :: l) = f s x ≫= λ s', Exec.foldM f s' l.
Proof. done. Qed.

Lemma post_run (E : Prop) (P : R → Prop) (e : exec R R) :
  Exec.post E P P e →
  match Exec.run e with Ok r => P r | _ => E end.
Proof. by destruct e. Qed.
End ExecRules.

(** ** Table structures *)

Lemma mapM_lookup_seq {A B} (f : A → B) (pre l : list A) :
  Result.mapM
    (λ i, c ← match (pre ++ l) !! i with
              | Some c => Ok c
              | None => Undefined
              end; Ok (f c))
    (seq (length pre) (length l)) = Ok (map f l).
Proof.
  revert pre; induction l as [|x l IH]; intros pre; simpl; [done|].
  rewrite list_lookup_middle by done. simpl.
  specialize (IH (pre ++ [x])). rewrite <- app_assoc, length_app in IH.
  simpl in IH. rewrite Nat.add_1_r in IH. by rewrite IH.
Qed.

Lemma schema_names_eq structure :
  SQLExecutor.schema_names structure =
  Ok (map TableStructure.name (TableStructure.columns structure)).
Proof.
  unfold SQLExecutor.schema_names, TableStructure.getColumnByIndex,
    TableStructure.getColumnCount.
  apply (mapM_lookup_seq TableStructure.name []).
Qed.

Lemma hasColumn_true structure n :
  TableStructure.hasColumn structure n = true ↔
  is_Some (TableStructure.column_indices structure !! n).
Proof. unfold TableStructure.hasColumn. apply bool_decide_eq_true. Qed.

Lemma getColumnByName_bound structure n :
  TableStructure.wf structure →
  is_Some (TableStructure.column_indices structure !! n) →
  ∃ col_def, TableStructure.getColumnByName structure n = Ok col_def.
Proof.
  intros [Hrange _] [idx Hidx].
  unfold TableStructure.getColumnByName, TableStructure.getColumnIndex,
    TableStructure.getColumnByIndex. rewrite Hidx. simpl.
  destruct (lookup_lt_is_Some_2 (TableStructure.columns structure) idx
              (Hrange _ _ Hidx)) as [c ->]. eauto.
Qed.

Lemma wf_create table_name : TableStructure.wf (TableStructure.create table_name).
Proof.
  split; simpl.
  - intros n idx. by rewrite lookup_empty.
  - intros c Hc. by apply elem_of_nil in Hc.
Qed.

Lemma wf_addColumn n ty structure :
  TableStructure.wf structure →
  TableStructure.wf (TableStructure.addColumn n ty structure).
Proof.
  intros [Hrange Hbound]. split; simpl.
  - intros m idx. rewrite length_app. simpl.
    destruct (decide (n = m)) as [->|Hne].
    + rewrite lookup_insert_eq. intros [= <-]. lia.
    + rewrite lookup_insert_ne by done. intros ?%Hrange. lia.
  - intros c [Hc|Hc]%elem_of_app.
    + destruct (decide (n = TableStructure.name c)) as [->|Hne].
      * rewrite lookup_insert_eq. eauto.
      * rewrite lookup_insert_ne by done. auto.
    + apply list_elem_of_singleton in Hc as ->. simpl.
      rewrite lookup_insert_eq. eauto.
Qed.

(** ** INSERT *)

Section InsertProps.
Context `{StdConversions}.

Lemma insert_Ok block storage storage' :
  MemoryStorage.insert block storage = Ok storage' →
  MemoryStorage.validateBlock storage block = Ok true ∧
  storage' = MemoryStorage.mk (MemoryStorage.structure storage)
               (MemoryStorage.blocks storage ++ [block]).
Proof.
  unfold MemoryStorage.insert.
  destruct (MemoryStorage.validateBlock storage block) as [[]| |]; simpl;
    [|done..].
  by intros [= <-].
Qed.

Lemma insert_converted_post ast tables_ structure column_names row columns i :
  Exec.post True (λ _, True) (insert_outcome ast tables_)
    (SQLExecutor.insert_converted tables_ structure column_names row columns i).
Proof.
  unfold SQLExecutor.insert_converted.
  destruct (row !! i), (column_names !! i), (columns !! i); try done.
  eapply (post_bind _ (λ _, True)); [by apply post_call; case_match|].
  intros col_def _. case_match; [|by left].
  eapply (post_bind _ (λ _, True)).
  { apply post_try_catch. case_match; try done. by left. }
  intros v _. eapply (post_bind _ (λ _, True)); [by apply post_call; case_match|].
  done.
Qed.

Lemma executeInsert_outcome ast tables_ :
  match SQLExecutor.executeInsert ast tables_ with
  | Ok rt => insert_outcome ast tables_ rt
  | _ => True
  end.
Proof.
  unfold SQLExecutor.executeInsert. apply post_run.
  destruct (tables_ !! InsertAST.table_name ast) as [storage|] eqn:Hst;
    [|by left].
  eapply (post_bind _ (λ _, True)).
  { destruct (InsertAST.column_names ast) as [|n ns].
    - by apply post_call; case_match.
    - eapply (post_bind _ (λ _, True)); [|done].
      apply post_for_each. intros x _. unfold SQLExecutor.check_column.
      case_match; [by left | done]. }
  intros column_names _.
  destruct (InsertAST.values ast) as [|row rows] eqn:Hv; [by left|].
  eapply (post_bind _ (λ _, True)).
  { apply post_for_each. intros x _. unfold SQLExecutor.check_row.
    case_match; [by left | done]. }
  intros _ _. eapply (post_bind _ (λ _, True)).
  { eapply post_mono; [apply (post_mapM _ (λ _, True))| done | done].
    intros x _. unfold SQLExecutor.construct_column.
    eapply (post_bind _ (λ _, True)); [by apply post_call; case_match|].
    intros col_def _. case_match; [done | by left]. }
  intros columns _. eapply (post_bind _ (λ _, True)).
  { apply (post_foldM _ (λ _, True)); [done|]. intros cols r _ _.
    apply (post_foldM _ (λ _, True)); [done|]. intros cols' i _ _.
    apply insert_converted_post. }
  intros columns' _. cbv zeta.
  match goal with
  | |- context [MemoryStorage.insert ?b storage] => set (block := b)
  end.
  eapply (post_bind _ (λ s', MemoryStorage.insert block storage = Ok s')).
  { apply post_try_catch.
    destruct (MemoryStorage.insert block storage); [done | by left | done]. }
  intros s' Hins. simpl. right. split; [done|].
  apply insert_Ok in Hins as [Hvalid ->]. eauto.
Qed.

(** INSERT is atomic with respect to the registry: a failed INSERT returns
    the registry it was given. *)
Lemma executeInsert_atomic ast tables_ r tables' :
  SQLExecutor.executeInsert ast tables_ = Ok (r, tables') →
  QueryResult.success r = false → tables' = tables_.
Proof.
  intros Hex Hfail. pose proof (executeInsert_outcome ast tables_) as Hout.
  rewrite Hex in Hout. destruct Hout as [[_ ?]|[? _]]; simpl in *; congruence.
Qed.

(** A successful INSERT hands the storage exactly one block. *)
Lemma executeInsert_one_block ast tables_ r tables' :
  SQLExecutor.executeInsert ast tables_ = Ok (r, tables') →
  QueryResult.success r = true →
  ∃ storage block,
    tables_ !! InsertAST.table_name ast = Some storage ∧
    MemoryStorage.validateBlock storage block = Ok true ∧
    tables' = <[InsertAST.table_name ast :=
                  MemoryStorage.mk (MemoryStorage.structure storage)
                    (MemoryStorage.blocks storage ++ [block])]> tables_.
Proof.
  intros Hex Hok. pose proof (executeInsert_outcome ast tables_) as Hout.
  rewrite Hex in Hout. destruct Hout as [[? _]|[_ ?]]; simpl in *;
    [congruence | done].
Qed.

(** Through [execute], whose handler catches what [executeInsert] lets
    escape, every failed INSERT leaves the registry as it was. *)
Lemma execute_insert_atomic ast tables_ r tables' :
  SQLExecutor.execute (INSERT ast) tables_ = Ok (r, tables') →
  QueryResult.success r = false → tables' = tables_.
Proof.
  unfold SQLExecutor.execute.
  destruct (SQLExecutor.executeInsert ast tables_) as [[r0 t0]|w|] eqn:Hex;
    [|by intros [= <- <-]|done].
  intros [= <- <-] Hfail. by eapply executeInsert_atomic.
Qed.

(** The three early loops of [executeInsert], by their first failing
    element. *)
Lemma for_each_check_column tables_ structure l :
  match Exec.for_each (SQLExecutor.check_column tables_ structure) l with
  | Next _ => Forall (λ c, TableStructure.hasColumn structure c = true) l
  | Return rt =>
      ∃ c, c ∈ l ∧ TableStructure.hasColumn structure c = false ∧
           rt = (QueryResult.status false
                   ("Column '" +:+ c +:+ "' doesn't exist in table"), tables_)
  | _ => False
  end.
Proof.
  induction l as [|x l IH]; [by constructor|]. rewrite for_each_cons.
  change (SQLExecutor.check_column tables_ structure x)
    with (if negb (TableStructure.hasColumn structure x)
          then Return (QueryResult.status false
                         ("Column '" +:+ x +:+ "' doesn't exist in table"),
                       tables_)
          else Next tt : exec (QueryResult.t * SQLExecutor.tables) unit).
  destruct (TableStructure.hasColumn structure x) eqn:Hx;
    cbn [negb mbind exec_bind].
  - destruct (Exec.for_each _ l) as [[]|rt| |]; [|  |done..].
    + by constructor.
    + destruct IH as (c & Hc & Hno & ->). exists c. split; [by right | done].
  - exists x. split; [by left | done].
Qed.

Lemma for_each_check_row tables_ column_names rows :
  match Exec.for_each (SQLExecutor.check_row tables_ column_names) rows with
  | Next _ =>
      Forall (λ row : list string, length row = length column_names) rows
  | Return rt =>
      ¬ Forall (λ row : list string, length row = length column_names) rows ∧
      rt = (QueryResult.status false
              "Values count doesn't match columns count", tables_)
  | _ => False
  end.
Proof.
  induction rows as [|x l IH]; [by constructor|]. rewrite for_each_cons.
  change (SQLExecutor.check_row tables_ column_names x)
    with (if negb (Nat.eqb (length x) (length column_names))
          then Return (QueryResult.status false
                         "Values count doesn't match columns count", tables_)
          else Next tt : exec (QueryResult.t * SQLExecutor.tables) unit).
  destruct (Nat.eqb_spec (length x) (length column_names)) as [Hx|Hx];
    cbn [negb mbind exec_bind].
  - destruct (Exec.for_each _ l) as [[]|rt| |]; [|  |done..].
    + by constructor.
    + destruct IH as [Hno ->]. split; [|done]. by intros [_ ?]%Forall_cons_1.
  - split; [|done]. by intros [? _]%Forall_cons_1.
Qed.

Lemma make_column_None type :
  SQLExecutor.make_column type = None ↔ cpp_type_of (getTypeId type) = None.
Proof.
  unfold SQLExecutor.make_column. by destruct (cpp_type_of (getTypeId type)).
Qed.

Lemma mapM_construct_column tables_ structure names :
  Forall (λ n, ∃ d, TableStructure.getColumnByName structure n = Ok d) names →
  match Exec.mapM (SQLExecutor.construct_column tables_ structure) names with
  | Next columns => Forall (λ n, ¬ unsupported structure n) names
  | Return rt =>
      ∃ c, c ∈ names ∧ unsupported structure c ∧
           rt = (QueryResult.status false
                   ("Unsupported data type for column '" +:+ c +:+ "'"),
                 tables_)
  | _ => False
  end.
Proof.
  induction 1 as [|x l [d Hd] Hl IH]; [by constructor|].
  rewrite mapM_cons.
  change (SQLExecutor.construct_column tables_ structure x)
    with (col_def ← Exec.call (TableStructure.getColumnByName structure x);
          match SQLExecutor.make_column (TableStructure.type col_def) with
          | Some column => Next column
          | None =>
              Return (QueryResult.status false
                        ("Unsupported data type for column '" +:+ x +:+ "'"),
                      tables_)
          end : exec (QueryResult.t * SQLExecutor.tables) IColumn.t).
  rewrite Hd. cbn [Exec.call mbind exec_bind].
  destruct (SQLExecutor.make_column (TableStructure.type d)) as [col|] eqn:Hmk;
    cbn [mbind exec_bind].
  - destruct (Exec.mapM _ l) as [cols|rt| |]; cbn [mbind exec_bind];
      [|  |done..].
    + constructor; [|done].
      intros (d' & Hd' & Hnone). rewrite Hd in Hd'. injection Hd' as <-.
      apply make_column_None in Hnone. congruence.
    + destruct IH as (c & Hc & Hun & ->). exists c. split; [by right | done].
  - exists x. split; [by left|]. split; [|done].
    exists d. split; [done|]. by apply make_column_None.
Qed.

Lemma target_columns_resolve structure ast column_names :
  TableStructure.wf structure →
  SQLExecutor.target_columns structure ast = Ok column_names →
  Forall (λ c, TableStructure.hasColumn structure c = true)
         (InsertAST.column_names ast) →
  Forall (λ n, ∃ d, TableStructure.getColumnByName structure n = Ok d)
         column_names.
Proof.
  intros Hwf Htarget Hlisted. unfold SQLExecutor.target_columns in Htarget.
  destruct (InsertAST.column_names ast) as [|n ns] eqn:Hcn.
  - rewrite schema_names_eq in Htarget. injection Htarget as <-.
    apply Forall_forall. intros n [c [-> Hc]]%list_elem_of_fmap.
    apply getColumnByName_bound; [done|]. by apply Hwf.
  - injection Htarget as <-. eapply Forall_impl; [exact Hlisted|].
    intros c Hc. apply getColumnByName_bound; [done|].
    by apply hasColumn_true.
Qed.

End InsertProps.

(** ** The defects the examples exhibit *)

(** C4. [INSERT INTO t (a, a) VALUES (1, 2)] into [t (a Int32, b Int32)]
    succeeds: [validateBlock] compares the number of columns and looks every
    column of the block up by name, so a block that names [a] twice and has
    no [b] passes.  The block is stored, and every later read of [b] (here
    [SELECT * FROM t]) throws in [Block::getColumnByName]. *)
Theorem insert_duplicate_target_accepted :
  map (λ r, (QueryResult.success r, QueryResult.errorMessage r))
      (Example.results Examples.insert_a_a)
  = [ (true, "Table created successfully");
      (true, "1 row(s) inserted successfully");
      (false, "Error reading data: Column 'b' not found in block") ] ∧
  ∃ results tables_ storage,
    Example.run (take 2 Examples.insert_a_a) = Ok (results, tables_) ∧
    tables_ !! "t" = Some storage ∧
    map (λ b, map Block.name (Block.columns b)) (MemoryStorage.blocks storage)
    = [["a"; "a"]] ∧
    map TableStructure.name
        (TableStructure.columns (MemoryStorage.structure storage))
    = ["a"; "b"].
Proof.
  split; [vm_compute; reflexivity|].
  destruct (Example.run (take 2 Examples.insert_a_a)) as [[rs t]| |] eqn:E;
    [|vm_compute in E; discriminate..].
  exists rs, t.
  assert (is_Some (t !! "t")) as [storage Hs].
  { vm_compute in E. injection E as _ <-. vm_compute. eauto. }
  exists storage. split; [done|]. split; [done|].
  vm_compute in E. injection E as _ <-. vm_compute in Hs.
  injection Hs as <-. vm_compute. done.
Qed.

(** C2. [SELECT b, a FROM t] on [t (a Int32, b Int32)] holding the row
    (1, 2): the names read are sorted before the read, so the block of the
    result holds [a] and then [b], while the column names of the result are
    [b], [a]: the value under [b] is the one of [a]. *)
Theorem select_columns_read_sorted :
  match Example.results Examples.select_b_a with
  | [_; _; r] =>
      QueryResult.success r = true ∧
      QueryResult.columnNames r = ["b"; "a"] ∧
      Example.block_names r = [["a"; "b"]] ∧
      QueryResult.rows r = [[Ok (Field.of_int32 1); Ok (Field.of_int32 2)]]
  | _ => False
  end.
Proof. vm_compute. repeat split; reflexivity. Qed.

(** C1, as stated, fails on the empty table: [SELECT COUNT( * ) FROM t]
    right after [CREATE TABLE t (a Int32, b Int32)] succeeds with no block,
    hence no row, and the column name [*]. *)
Lemma count_star_empty_counterexample :
  Example.results Examples.count_empty
  = [ QueryResult.status true "Table created successfully";
      QueryResult.of_blocks [] ["*"] ].
Proof. vm_compute. reflexivity. Qed.

(** C3, as stated, fails on the empty table: [SELECT MIN(a) FROM t] and
    [SELECT SUM(a) FROM t] right after CREATE TABLE both succeed with no
    block: MIN does not fail, and SUM yields no row. *)
Lemma min_empty_table_counterexample :
  Example.results Examples.min_empty
  = [ QueryResult.status true "Table created successfully";
      QueryResult.of_blocks [] ["a"];
      QueryResult.of_blocks [] ["a"] ].
Proof. vm_compute. reflexivity. Qed.

(** ** SELECT COUNT( * ) *)

Lemma std_sort_unique_singleton x :
  SQLExecutor.std_unique (SQLExecutor.std_sort [x]) = [x].
Proof. reflexivity. Qed.

Lemma fold_row_count (f : Block.t → nat) l c0 :
  fold_left (λ count block, (count + Z.of_nat (f block)) mod 2 ^ 64) l c0
  = if l is [] then c0
    else (c0 + foldr (λ block total, Z.of_nat (f block) + total) 0 l) mod 2 ^ 64.
Proof.
  revert c0; induction l as [|b l IH]; intros c0; [done|].
  cbn [fold_left foldr]. rewrite IH. destruct l as [|b' l]; cbn [foldr].
  - by rewrite Z.add_0_r.
  - rewrite Zplus_mod_idemp_l. f_equal. lia.
Qed.

Lemma project_singleton block n col :
  Block.getColumnByName block n = Ok col →
  MemoryStorage.project [n] block
  = Ok (Block.addColumn n (Block.column col) Block.empty).
Proof. intros Hcol. unfold MemoryStorage.project. simpl. by rewrite Hcol. Qed.

Lemma mapM_project_singleton n blocks :
  Forall (λ block,
            ∃ col, Block.getColumnByName block n = Ok col ∧
                   IColumn.size (Block.column col) = Block.getRowCount block)
         blocks →
  ∃ projected,
    Result.mapM (MemoryStorage.project [n]) blocks = Ok projected ∧
    length projected = length blocks ∧
    foldr (λ block total, Z.of_nat (Block.getRowCount block) + total) 0 projected
    = foldr (λ block total, Z.of_nat (Block.getRowCount block) + total) 0 blocks.
Proof.
  induction 1 as [|b l (col & Hcol & Hsize) _ (projected & Hp & Hlen & Hsum)].
  - by exists [].
  - exists (Block.addColumn n (Block.column col) Block.empty :: projected).
    cbn [Result.mapM]. rewrite (project_singleton _ _ _ Hcol), Hp.
    split; [done|]. split; [simpl; by rewrite Hlen|].
    cbn [foldr]. rewrite Hsum. f_equal. f_equal.
    unfold Block.getRowCount at 1. simpl. done.
Qed.

(** C1 (amended).  On a registered table whose schema has a first column
    and whose stored blocks all hold that column in full length, [SELECT
    COUNT( * )] succeeds; when the storage holds at least one block the
    result is one block of one column, named by the alias or [COUNT( * )],
    with the one UInt64 value the number of stored rows; when the storage
    holds no block (nothing was inserted) the result has no block and no
    row. *)
Theorem select_count_star_result (tables_ : SQLExecutor.tables)
    (storage : MemoryStorage.t) (first : TableStructure.ColumnDefinition)
    (table alias where_expr : string) (group_by : list string)
    (order_by : list (string * bool)) (limit : Z) :
  tables_ !! table = Some storage →
  TableStructure.getColumnByIndex (MemoryStorage.structure storage) 0
    = Ok first →
  TableStructure.hasColumn (MemoryStorage.structure storage)
    (TableStructure.name first) = true →
  holds_column storage (TableStructure.name first) →
  stored_rows storage < 2 ^ 64 →
  SQLExecutor.executeSelect
    (select_count_star table alias where_expr group_by order_by limit) tables_
  = Ok (match MemoryStorage.blocks storage with
        | [] =>
            QueryResult.of_blocks []
              [if String.eqb alias "" then "*" else alias]
        | _ =>
            let name := if String.eqb alias "" then "COUNT(*)" else alias in
            QueryResult.of_blocks
              [Block.addColumn name
                 (IColumn.Vector uint64_t
                    (ColumnVector.mk (T:=uint64_t) [stored_rows storage]
                       DataTypeUInt64))
                 Block.empty]
              [name]
        end).
Proof.
  intros Hst Hfirst Hhas Hholds Hbound.
  unfold SQLExecutor.executeSelect, select_count_star.
  cbn [SelectAST.table_name]. rewrite Hst. cbv zeta.
  unfold MemoryStorage.getTableStructure, SQLExecutor.requested_columns.
  cbn [SelectAST.select_all SelectAST.columns Exec.foldM
       ColumnExpression.agg_type ColumnExpression.column].
  change (bool_decide (COUNT = NONE)) with false.
  change (bool_decide (COUNT = COUNT)) with true.
  change (String.eqb "*" "*") with true.
  cbn [negb andb]. rewrite Hfirst.
  cbn [Exec.call mbind exec_bind app]. rewrite std_sort_unique_singleton.
  unfold MemoryStorage.read. cbn [Result.foldM]. rewrite Hhas.
  cbn [negb mbind result_bind].
  destruct (mapM_project_singleton _ _ Hholds) as (projected & Hp & Hlen & Hsum).
  destruct (MemoryStorage.blocks storage) as [|b bs] eqn:Hblocks.
  - cbn [Exec.try_catch mbind exec_bind length Nat.eqb negb andb
         SelectAST.select_all SelectAST.columns SelectAST.limit map
         ColumnExpression.alias ColumnExpression.column].
    unfold SQLExecutor.apply_limit.
    by destruct (String.eqb alias "").
  - rewrite Hp. destruct projected as [|p ps]; [done|].
    cbn [Exec.try_catch mbind exec_bind length Nat.eqb negb andb].
    unfold SQLExecutor.aggregate_result.
    cbn [SelectAST.columns Exec.foldM ColumnExpression.agg_type
         ColumnExpression.column ColumnExpression.alias].
    change (bool_decide (COUNT = NONE)) with false.
    change (bool_decide (COUNT = COUNT)) with true.
    change (String.eqb "*" "*") with true.
    cbn [negb andb mbind exec_bind cpp_type_of].
    unfold SQLExecutor.computeAggregate.
    cbn [ColumnExpression.agg_type ColumnExpression.column
         ColumnExpression.alias].
    change (String.eqb "*" "*") with true. cbv iota.
    rewrite (fold_row_count Block.getRowCount (p :: ps) 0).
    cbv iota. rewrite Z.add_0_l, Hsum.
    unfold stored_rows in Hbound. rewrite Hblocks in Hbound.
    rewrite Z.mod_small; last first.
    { split; [|done]. clear. induction (b :: bs); simpl; lia. }
    cbn [mbind result_bind Exec.call exec_bind snd Exec.run].
    unfold stored_rows. rewrite Hblocks.
    by destruct (String.eqb alias "").
Qed.

Lemma select_count_star_result_witness :
  SQLExecutor.executeSelect (select_count_star "t" "" "" [] [] 0)
    Examples.two_rows_tables
  = Ok (QueryResult.of_blocks
          [Block.addColumn "COUNT(*)"
             (IColumn.Vector uint64_t
                (ColumnVector.mk (T:=uint64_t) [2] DataTypeUInt64))
             Block.empty]
          ["COUNT(*)"]).
Proof.
  assert (is_Some (Examples.two_rows_tables !! "t")) as Hst.
  { vm_compute. eauto. }
  destruct (Examples.two_rows_tables !! "t") as [storage|] eqn:Hs;
    [clear Hst | by destruct Hst].
  pose proof Hs as Hs'. vm_compute in Hs'. injection Hs' as Hs'.
  rewrite (select_count_star_result Examples.two_rows_tables storage
             (TableStructure.mkColumnDefinition "a" DataTypeInt32)
             "t" "" "" [] [] 0 Hs).
  - subst storage. vm_compute. reflexivity.
  - subst storage. vm_compute. reflexivity.
  - subst storage. vm_compute. reflexivity.
  - subst storage. repeat constructor. eexists. split; vm_compute; reflexivity.
  - subst storage. vm_compute. reflexivity.
Defined.

(** ** Aggregates over a column without values *)

Lemma foldM_null {S} (step : S → Field.t → result S) col s l :
  (∀ s, step s Field.monostate = Ok s) →
  Forall (λ i, IColumn.at_ col i = Ok Field.monostate) l →
  Result.foldM (λ s i, field ← IColumn.at_ col i; step s field) s l = Ok s.
Proof.
  intros Hstep. induction 1 as [|i l Hi _ IH]; [done|].
  cbn [Result.foldM]. rewrite Hi. cbn [mbind result_bind]. by rewrite Hstep.
Qed.

Lemma for_each_field_null {S} (step : S → Field.t → result S)
    blocks column_name init :
  (∀ s, step s Field.monostate = Ok s) →
  no_non_null blocks column_name →
  SQLExecutor.for_each_field step blocks column_name init = Ok init.
Proof.
  intros Hstep. unfold SQLExecutor.for_each_field.
  induction 1 as [|b l Hb _ IH]; [done|]. cbn [Result.foldM].
  destruct Hb as [[Hs|Hs]|(col & Hcol & Hnull)].
  - rewrite Hs. by cbn [Nat.eqb orb mbind result_bind].
  - rewrite Hs, orb_true_r. by cbn [mbind result_bind].
  - destruct (_ || _); [done|]. rewrite Hcol. cbn [mbind result_bind].
    by rewrite (foldM_null step _ _ _ Hstep Hnull).
Qed.

(** C3 (amended).  Over blocks in which the named column has no non-null
    entry, [computeSum] and [computeAvg] return 0, and [computeMin] and
    [computeMax] throw: "No non-NULL values found for MIN (MAX)
    calculation" when there is a block, "No data to compute minimum
    (maximum)" when there is none.  [executeSelect] does not reach them on a
    table without stored blocks: there an aggregate SELECT succeeds with no
    block. *)
Theorem aggregates_without_values :
  (∀ (ResultT ValueT : CppType) blocks column_name,
     no_non_null blocks column_name →
     SQLExecutor.computeSum ResultT ValueT blocks column_name
       = Ok (Arith.zero ResultT) ∧
     SQLExecutor.computeAvg ResultT ValueT blocks column_name
       = Ok (Arith.zero ResultT) ∧
     SQLExecutor.computeMin ResultT ValueT blocks column_name
       = Throw (if blocks is [] then "No data to compute minimum"
                else "No non-NULL values found for MIN calculation") ∧
     SQLExecutor.computeMax ResultT ValueT blocks column_name
       = Throw (if blocks is [] then "No data to compute maximum"
                else "No non-NULL values found for MAX calculation")) ∧
  (∀ (tables_ : SQLExecutor.tables) storage f table column alias,
     tables_ !! table = Some storage →
     MemoryStorage.blocks storage = [] →
     f ∈ [SUM; AVG; MIN; MAX] →
     TableStructure.hasColumn (MemoryStorage.structure storage) column = true →
     SQLExecutor.executeSelect (select_aggregate f table column alias) tables_
     = Ok (QueryResult.of_blocks []
             [if String.eqb alias "" then column else alias])).
Proof.
  split.
  - intros ResultT ValueT blocks column_name Hnull.
    unfold SQLExecutor.computeSum, SQLExecutor.computeAvg,
      SQLExecutor.computeMin, SQLExecutor.computeMax.
    rewrite !for_each_field_null; try done; try (by intros [? ?]).
    cbn [mbind result_bind]. by destruct blocks.
  - intros tables_ storage f table column alias Hst Hblocks Hf Hhas.
    unfold SQLExecutor.executeSelect, select_aggregate.
    cbn [SelectAST.table_name]. rewrite Hst. cbv zeta.
    unfold MemoryStorage.getTableStructure, SQLExecutor.requested_columns.
    cbn [SelectAST.select_all SelectAST.columns Exec.foldM
         ColumnExpression.agg_type ColumnExpression.column].
    assert (bool_decide (f = NONE) = false ∧ bool_decide (f = COUNT) = false)
      as [-> ->].
    { repeat (apply elem_of_cons in Hf as [->|Hf]; [done|]).
      by apply elem_of_nil in Hf. }
    cbn [negb andb]. rewrite Hhas.
    cbn [negb mbind exec_bind app]. rewrite std_sort_unique_singleton.
    unfold MemoryStorage.read. cbn [Result.foldM]. rewrite Hhas, Hblocks.
    cbn [negb mbind result_bind Exec.try_catch exec_bind length Nat.eqb andb
         SelectAST.select_all SelectAST.columns SelectAST.limit map
         ColumnExpression.alias ColumnExpression.column].
    unfold SQLExecutor.apply_limit. by destruct (String.eqb alias "").
Qed.

Lemma aggregates_without_values_witness :
  SQLExecutor.computeMin int32_t int32_t [null_block] "a"
    = Throw "No non-NULL values found for MIN calculation" ∧
  SQLExecutor.computeSum int64_t int32_t [null_block] "a" = Ok 0 ∧
  SQLExecutor.computeAvg double_t int32_t [null_block] "a"
    = Ok (S754_zero false) ∧
  SQLExecutor.executeSelect (select_aggregate MIN "t" "a" "")
    (Examples.tables_after [Example.create_t])
    = Ok (QueryResult.of_blocks [] ["a"]).
Proof.
  destruct aggregates_without_values as [Hfun Hselect].
  assert (no_non_null [null_block] "a") as Hnull.
  { constructor; [|constructor]. right. eexists. split; [reflexivity|].
    repeat constructor. }
  split; [|split; [|split]].
  - apply (Hfun int32_t int32_t [null_block] "a" Hnull).
  - apply (Hfun int64_t int32_t [null_block] "a" Hnull).
  - apply (Hfun double_t int32_t [null_block] "a" Hnull).
  - assert (is_Some (Examples.tables_after [Example.create_t] !! "t")) as Hst.
    { vm_compute. eauto. }
    destruct (Examples.tables_after [Example.create_t] !! "t")
      as [storage|] eqn:Hs; [clear Hst | by destruct Hst].
    pose proof Hs as Hs'. vm_compute in Hs'. injection Hs' as Hs'.
    apply (Hselect _ storage MIN "t" "a" "" Hs).
    + by subst storage.
    + repeat first [apply list_elem_of_here | apply list_elem_of_further].
    + subst storage. vm_compute. reflexivity.
Defined.


(** ** LIMIT *)

Lemma removelast_take {A} (l : list A) : removelast l = take (length l - 1) l.
Proof.
  induction l as [|x l IH]; [done|]. destruct l as [|y l]; [done|].
  cbn [removelast] in *. rewrite IH. simpl. by rewrite Nat.sub_0_r.
Qed.

Lemma popBack_truncated col :
  IColumn.wf col →
  IColumn.popBack col = truncated (IColumn.size col - 1) col.
Proof.
  destruct col as [T c|T nested nulls ty]; simpl;
    unfold ColumnVector.popBack, ColumnVector.size.
  - intros _. by rewrite removelast_take.
  - intros Hwf. unfold ColumnVector.size in Hwf.
    by rewrite !removelast_take, Hwf.
Qed.

Lemma truncated_wf n col : IColumn.wf col → IColumn.wf (truncated n col).
Proof.
  destruct col; simpl; [done|]. unfold ColumnVector.size. simpl.
  intros Hwf. by rewrite !length_take, Hwf.
Qed.

Lemma truncated_size n col :
  IColumn.size (truncated n col) = (n `min` IColumn.size col)%nat.
Proof.
  destruct col; simpl; unfold ColumnVector.size; simpl; by rewrite length_take.
Qed.

Lemma truncated_truncated n m col :
  truncated n (truncated m col) = truncated (n `min` m) col.
Proof. destruct col; simpl; by rewrite ?take_take. Qed.

Lemma truncated_ge n col :
  (IColumn.size col ≤ n)%nat → IColumn.wf col → truncated n col = col.
Proof.
  destruct col as [T [d ty]|T [d ty] [d' ty'] ty'']; simpl;
    unfold ColumnVector.size; simpl; intros Hn Hwf.
  - by rewrite take_ge.
  - by rewrite !take_ge by lia.
Qed.

Lemma pop_to_truncated remaining bound col :
  0 ≤ remaining → IColumn.wf col → (IColumn.size col ≤ bound)%nat →
  SQLExecutor.pop_to remaining bound col = truncated (Z.to_nat remaining) col.
Proof.
  intros Hrem. revert col.
  induction bound as [|bound IH]; intros col Hwf Hbound; cbn [SQLExecutor.pop_to].
  - by rewrite truncated_ge by (done || lia).
  - destruct (Z.ltb_spec remaining (Z.of_nat (IColumn.size col))).
    + rewrite popBack_truncated by done.
      rewrite IH; [|by apply truncated_wf|rewrite truncated_size; lia].
      rewrite truncated_truncated. f_equal. lia.
    + by rewrite truncated_ge by (done || lia).
Qed.

Lemma clone_id col : IColumn.clone col = col.
Proof. by destruct col as [T []|T [] [] ty]. Qed.

Lemma limited_column_truncated remaining col :
  0 ≤ remaining → IColumn.wf col →
  SQLExecutor.limited_column remaining col = truncated (Z.to_nat remaining) col.
Proof.
  intros Hrem Hwf. unfold SQLExecutor.limited_column. cbv zeta.
  rewrite clone_id. by apply pop_to_truncated.
Qed.

Lemma truncated_at n col i :
  (i < n)%nat → IColumn.at_ (truncated n col) i = IColumn.at_ col i.
Proof.
  intros Hi.
  destruct col as [T c|T nested nulls ty]; simpl;
    unfold IColumn.isNull, ColumnVector.at_, ColumnVector.getValue; simpl;
    by rewrite ?lookup_take_lt.
Qed.

Lemma fold_addColumn_columns (f : Block.ColumnWithName → IColumn.t) cols b :
  Block.columns
    (fold_left (λ limited col, Block.addColumn (Block.name col) (f col) limited)
               cols b)
  = Block.columns b ++ map (λ c, Block.mkColumnWithName (Block.name c) (f c)) cols.
Proof.
  revert b; induction cols as [|c cols IH]; intros b; simpl.
  - by rewrite app_nil_r.
  - rewrite IH. simpl. by rewrite <- app_assoc.
Qed.

Lemma limited_block_columns remaining block :
  Block.columns (SQLExecutor.limited_block remaining block)
  = map (λ c, Block.mkColumnWithName (Block.name c)
                (SQLExecutor.limited_column remaining (Block.column c)))
        (Block.columns block).
Proof. unfold SQLExecutor.limited_block. by rewrite fold_addColumn_columns. Qed.

Lemma limited_block_rows remaining block :
  0 ≤ remaining → remaining < Z.of_nat (Block.getRowCount block) →
  Forall (λ c, IColumn.wf (Block.column c)) (Block.columns block) →
  Block.getRowCount (SQLExecutor.limited_block remaining block)
    = Z.to_nat remaining ∧
  Block.rows (SQLExecutor.limited_block remaining block)
    = take (Z.to_nat remaining) (Block.rows block).
Proof.
  intros Hrem Hlt Hwf.
  assert (Block.getRowCount (SQLExecutor.limited_block remaining block)
          = Z.to_nat remaining) as Hcount.
  { unfold Block.getRowCount in *. rewrite limited_block_columns.
    destruct (Block.columns block) as [|c cs]; simpl in *; [lia|].
    apply Forall_cons_1 in Hwf as [Hc _].
    rewrite limited_column_truncated, truncated_size by done. lia. }
  split; [done|]. unfold Block.rows. rewrite Hcount.
  rewrite firstn_map, take_seq.
  replace (Z.to_nat remaining `min` Block.getRowCount block)%nat
    with (Z.to_nat remaining) by lia.
  apply map_ext_in. intros i Hi%in_seq. unfold Block.row.
  rewrite limited_block_columns, map_map. apply map_ext_in.
  intros c Hc. simpl.
  rewrite Forall_forall in Hwf.
  rewrite limited_column_truncated by (done || apply Hwf; by apply list_elem_of_In).
  apply truncated_at. lia.
Qed.

Lemma length_rows block : length (Block.rows block) = Block.getRowCount block.
Proof. unfold Block.rows. by rewrite length_map, length_seq. Qed.

Lemma total_rows_nonneg blocks : 0 ≤ total_rows blocks.
Proof. induction blocks; simpl; lia. Qed.

Lemma total_rows_app l k : total_rows (l ++ k) = total_rows l + total_rows k.
Proof. induction l as [|b l IH]; simpl; [done|]. rewrite IH. lia. Qed.

Lemma total_rows_cons b l :
  total_rows (b :: l) = Z.of_nat (Block.getRowCount b) + total_rows l.
Proof. done. Qed.

Lemma limited_blocks_spec blocks remaining :
  columns_wf blocks → 0 ≤ remaining → remaining < total_rows blocks →
  total_rows (SQLExecutor.limited_blocks blocks remaining) = remaining ∧
  concat (map Block.rows (SQLExecutor.limited_blocks blocks remaining))
    = take (Z.to_nat remaining) (concat (map Block.rows blocks)) ∧
  ∃ kept straddling rest,
    blocks = kept ++ straddling :: rest ∧
    SQLExecutor.limited_blocks blocks remaining
      = kept ++ [SQLExecutor.limited_block (remaining - total_rows kept)
                   straddling] ∧
    total_rows kept ≤ remaining
      < total_rows kept + Z.of_nat (Block.getRowCount straddling).
Proof.
  intros Hwf. revert remaining.
  induction Hwf as [|b l Hb Hl IH]; intros remaining Hrem Hlt;
    [simpl in Hlt; lia|].
  rewrite total_rows_cons in Hlt.
  cbn [SQLExecutor.limited_blocks].
  destruct (Z.leb_spec (Z.of_nat (Block.getRowCount b)) remaining) as [Hle|Hgt].
  - destruct (IH (remaining - Z.of_nat (Block.getRowCount b))
                ltac:(lia) ltac:(lia))
      as (Htotal & Hrows & kept & s & rest & Heq & Hlim & Hbounds).
    split; [|split].
    + rewrite total_rows_cons, Htotal. lia.
    + cbn [map concat]. rewrite Hrows, take_app_ge by (rewrite length_rows; lia).
      rewrite length_rows. do 2 f_equal. lia.
    + exists (b :: kept), s, rest. split; [by rewrite Heq|]. split.
      * rewrite Hlim, total_rows_cons. cbn [app]. do 4 f_equal. lia.
      * rewrite total_rows_cons. lia.
  - destruct (limited_block_rows remaining b Hrem Hgt Hb) as [Hcount Hrows].
    split; [|split].
    + rewrite total_rows_cons, Hcount. change (total_rows []) with 0. lia.
    + cbn [map concat]. rewrite app_nil_r, Hrows.
      by rewrite take_app_le by (rewrite length_rows; lia).
    + exists [], b, l. split; [done|]. split.
      * change (total_rows []) with 0. by rewrite Z.sub_0_r.
      * change (total_rows []) with 0. lia.
Qed.

Lemma fold_total_rows blocks :
  total_rows blocks < 2 ^ 64 →
  fold_left (λ total block,
               (total + Z.of_nat (Block.getRowCount block)) mod 2 ^ 64)
            blocks 0
  = total_rows blocks.
Proof.
  intros Hlt. rewrite (fold_row_count Block.getRowCount blocks 0).
  destruct blocks as [|b l]; [done|]. rewrite Z.add_0_l.
  apply Z.mod_small. split; [apply total_rows_nonneg | done].
Qed.

Lemma apply_limit_spec limit blocks :
  0 < limit → limit < total_rows blocks → total_rows blocks < 2 ^ 64 →
  SQLExecutor.apply_limit limit blocks = SQLExecutor.limited_blocks blocks limit.
Proof.
  intros Hpos Hlt Hbound. unfold SQLExecutor.apply_limit.
  destruct blocks as [|b l] eqn:Hb; [simpl in Hlt; lia|]. rewrite <- Hb in *.
  destruct (Z.ltb_spec 0 limit); [|lia]. cbv zeta.
  rewrite fold_total_rows by done.
  destruct (Z.ltb_spec limit (total_rows blocks)); [|lia].
  by rewrite Hb.
Qed.

Lemma apply_limit_0 blocks : SQLExecutor.apply_limit 0 blocks = blocks.
Proof. by destruct blocks. Qed.

Lemma requested_columns_no_aggregates structure ast :
  no_aggregates ast →
  Exec.post True (λ s, s.2 = false) (λ r, QueryResult.success r = false)
    (SQLExecutor.requested_columns structure ast).
Proof.
  intros Hno. unfold SQLExecutor.requested_columns.
  destruct (SelectAST.select_all ast).
  - by destruct (SQLExecutor.schema_names structure).
  - apply (post_foldM _ (λ s, s.2 = false)); [done|].
    intros [names agg] e Hagg He. simpl in Hagg. subst agg.
    unfold no_aggregates in Hno. rewrite Forall_forall in Hno.
    rewrite (Hno e He). change (bool_decide (NONE = NONE)) with true.
    cbn [negb]. by case_match.
Qed.

(** Without aggregate expressions, the LIMIT of a SELECT only shapes the
    blocks that were read: the successful result of the SELECT with LIMIT
    [n] is the one without LIMIT with its blocks passed through the loop of
    LIMIT. *)
Lemma executeSelect_with_limit ast tables_ n :
  no_aggregates ast →
  match SQLExecutor.executeSelect (with_limit 0 ast) tables_ with
  | Ok r0 =>
      SQLExecutor.executeSelect (with_limit n ast) tables_
      = Ok (if QueryResult.success r0
            then QueryResult.of_blocks
                   (SQLExecutor.apply_limit n (QueryResult.blocks r0))
                   (QueryResult.columnNames r0)
            else r0)
  | other => SQLExecutor.executeSelect (with_limit n ast) tables_ = other
  end.
Proof.
  intros Hno. unfold SQLExecutor.executeSelect, with_limit.
  cbn [SelectAST.table_name SelectAST.limit SelectAST.select_all
       SelectAST.columns].
  destruct (tables_ !! SelectAST.table_name ast) as [storage|]; [|done].
  cbv zeta.
  pose proof (requested_columns_no_aggregates
                (MemoryStorage.getTableStructure storage) ast Hno) as Hreq.
  assert (∀ limit,
            SQLExecutor.requested_columns
              (MemoryStorage.getTableStructure storage)
              (SelectAST.mk (SelectAST.select_all ast) (SelectAST.columns ast)
                 (SelectAST.table_name ast) (SelectAST.where_expr ast)
                 (SelectAST.group_by_columns ast)
                 (SelectAST.order_by_columns ast) limit)
            = SQLExecutor.requested_columns
                (MemoryStorage.getTableStructure storage) ast) as Heq
    by by destruct ast.
  rewrite !Heq.
  destruct (SQLExecutor.requested_columns _ ast) as [[names agg]|r| |];
    [|cbn [mbind exec_bind Exec.run]; simpl in Hreq; by rewrite ?Hreq..].
  simpl in Hreq. subst agg. cbn [mbind exec_bind andb].
  destruct (MemoryStorage.read _ storage) as [blocks|w|]; [|done..].
  cbn [Exec.try_catch mbind exec_bind].
  destruct (SelectAST.select_all ast).
  - destruct (SQLExecutor.schema_names _) as [ns|w|]; [|done..].
    cbn [Exec.call mbind exec_bind Exec.run QueryResult.success
         QueryResult.of_blocks QueryResult.blocks QueryResult.columnNames].
    by rewrite apply_limit_0.
  - cbn [Exec.call mbind exec_bind Exec.run QueryResult.success
         QueryResult.of_blocks QueryResult.blocks QueryResult.columnNames].
    by rewrite apply_limit_0.
Qed.

(** C5. For a SELECT without aggregates whose scan (the same SELECT
    without LIMIT) succeeds with [m] rows, LIMIT [n] with [0 < n < m] gives
    a result of exactly [n] rows, the first [n] rows of the scan, under the
    same column names: the blocks before the boundary are kept as they are,
    the block on the boundary is cut down to the rows still to take, and
    the blocks after it are dropped. *)
Theorem select_limit (ast : SelectAST.t) (tables_ : SQLExecutor.tables)
    (scan : QueryResult.t) (n : Z) :
  no_aggregates ast →
  SQLExecutor.executeSelect (with_limit 0 ast) tables_ = Ok scan →
  QueryResult.success scan = true →
  columns_wf (QueryResult.blocks scan) →
  0 < n → n < total_rows (QueryResult.blocks scan) →
  total_rows (QueryResult.blocks scan) < 2 ^ 64 →
  ∃ r,
    SQLExecutor.executeSelect (with_limit n ast) tables_ = Ok r ∧
    QueryResult.success r = true ∧
    QueryResult.columnNames r = QueryResult.columnNames scan ∧
    QueryResult.rowCount r = n ∧
    QueryResult.rows r = take (Z.to_nat n) (QueryResult.rows scan) ∧
    ∃ kept straddling rest,
      QueryResult.blocks scan = kept ++ straddling :: rest ∧
      QueryResult.blocks r
        = kept ++ [SQLExecutor.limited_block (n - total_rows kept) straddling] ∧
      total_rows kept ≤ n
        < total_rows kept + Z.of_nat (Block.getRowCount straddling).
Proof.
  intros Hno Hscan Hok Hwf Hpos Hlt Hbound.
  pose proof (executeSelect_with_limit ast tables_ n Hno) as Hlim.
  rewrite Hscan, Hok in Hlim. eexists. split; [exact Hlim|].
  rewrite apply_limit_spec by done.
  destruct (limited_blocks_spec _ n Hwf ltac:(lia) Hlt)
    as (Htotal & Hrows & Hshape).
  split; [done|]. split; [done|]. split; [|split; [exact Hrows | exact Hshape]].
  unfold QueryResult.rowCount. cbn [QueryResult.blocks QueryResult.of_blocks].
  rewrite fold_total_rows; [done|]. rewrite Htotal. lia.
Qed.

Lemma select_limit_witness :
  ∃ r,
    SQLExecutor.executeSelect (with_limit 3 Examples.select_star)
      Examples.four_rows_tables = Ok r ∧
    QueryResult.rowCount r = 3 ∧
    QueryResult.rows r
    = [ [Ok (Field.of_int32 1); Ok (Field.of_int32 2)];
        [Ok (Field.of_int32 3); Ok (Field.of_int32 4)];
        [Ok (Field.of_int32 5); Ok (Field.of_int32 6)] ].
Proof.
  destruct (SQLExecutor.executeSelect (with_limit 0 Examples.select_star)
              Examples.four_rows_tables) as [scan| |] eqn:Hscan;
    [|vm_compute in Hscan; discriminate..].
  pose proof Hscan as Hval. vm_compute in Hval. apply Ok_inj in Hval.
  destruct (select_limit Examples.select_star Examples.four_rows_tables
              scan 3) as (r & Hr & _ & _ & Hcount & Hrows & _).
  - constructor.
  - exact Hscan.
  - by subst scan.
  - subst scan. repeat constructor.
  - lia.
  - subst scan. vm_compute. reflexivity.
  - subst scan. vm_compute. reflexivity.
  - exists r. split; [exact Hr|]. split; [exact Hcount|].
    rewrite Hrows. subst scan. vm_compute. reflexivity.
Defined.

(** ** The block of an INSERT *)

Section FoldPrefix.
Context {R A S : Type}.

(** The rule of a loop whose invariant speaks of the elements already
    visited. *)
Lemma post_foldM_prefix (E : Prop) (I : list A → S → Prop) (P : R → Prop)
    (f : S → A → exec R S) l s :
  I [] s →
  (∀ pre x post s, l = pre ++ x :: post → I pre s →
                   Exec.post E (I (pre ++ [x])) P (f s x)) →
  Exec.post E (I l) P (Exec.foldM f s l).
Proof.
  intros Hs Hf.
  assert (∀ pre l' s, l = pre ++ l' → I pre s →
                      Exec.post E (I l) P (Exec.foldM f s l')) as Hgen.
  { intros pre l'. revert pre. induction l' as [|x l' IH]; intros pre s' Hl Hpre.
    - simpl. rewrite app_nil_r in Hl. by subst.
    - rewrite foldM_cons. eapply post_bind; [by eapply Hf|].
      intros s'' Hs''. apply (IH (pre ++ [x])); [|done].
      by rewrite <- app_assoc. }
  by apply (Hgen []).
Qed.
End FoldPrefix.

Lemma texts_at_snoc i rows row :
  texts_at i (rows ++ [row]) = texts_at i rows ++ option_list (row !! i).
Proof.
  unfold texts_at. rewrite omap_app. simpl. by destruct (row !! i).
Qed.

Section FillProps.
Context `{StdConversions}.
Variable tables_ : SQLExecutor.tables.
Variable structure : TableStructure.t.
Variable column_names : list string.

Lemma filling_next_row rows row columns :
  length row = length column_names →
  filling structure column_names rows row (length row) columns → filling structure column_names (rows ++ [row]) [] 0 columns.
Proof.
  intros Hlen [Hcols Hfill]. split; [done|]. intros i n Hn.
  destruct (Hfill i n Hn) as (col & Hcol & Hfilled). exists col. split; [done|].
  rewrite texts_at_snoc. destruct (decide (i < 0)%nat); [lia|].
  rewrite app_nil_r. apply lookup_lt_Some in Hn.
  by destruct (decide (i < length row)%nat); [|lia].
Qed.

Lemma filling_start_row rows row columns :
  filling structure column_names rows [] 0 columns → filling structure column_names rows row 0 columns.
Proof.
  intros [Hcols Hfill]. split; [done|]. intros i n Hn.
  destruct (Hfill i n Hn) as (col & Hcol & Hfilled). exists col. split; [done|].
  by destruct (decide (i < 0)%nat); [lia|].
Qed.

Lemma insert_converted_filling rows row p columns :
  length row = length column_names → (p < length row)%nat →
  filling structure column_names rows row p columns →
  Exec.post True (filling structure column_names rows row (S p))
    (λ rt, QueryResult.success rt.1 = false ∧ rt.2 = tables_)
    (SQLExecutor.insert_converted tables_ structure column_names row columns p).
Proof.
  intros Hlen Hp [Hcols Hfill]. unfold SQLExecutor.insert_converted.
  destruct (lookup_lt_is_Some_2 row p Hp) as [value_str Hv]. rewrite Hv.
  destruct (lookup_lt_is_Some_2 column_names p ltac:(lia)) as [n Hn].
  rewrite Hn. destruct (Hfill p n Hn) as (col & Hcol & Hfilled).
  rewrite Hcol. destruct Hfilled as (col_def & T & data & Hdef & HT & -> & Hdata).
  rewrite Hdef. cbn [Exec.call mbind exec_bind]. rewrite HT.
  destruct (SQLExecutor.convert T value_str) as [v|w|] eqn:Hconv;
    cbn [Exec.try_catch mbind exec_bind Exec.post]; [|done..].
  unfold SQLExecutor.insertValue_as.
  destruct (decide (T = T)) as [e|]; [|done].
  assert (e = eq_refl) as -> by apply (proof_irrel _).
  cbn [eq_rect Exec.call mbind exec_bind Exec.post].
  split; [by rewrite length_insert|]. intros i m Hm.
  destruct (decide (i = p)) as [->|Hne].
  - rewrite list_lookup_insert_eq by (apply lookup_lt_Some in Hcol; lia).
    eexists. split; [done|]. rewrite Hn in Hm. injection Hm as <-.
    exists col_def, T, (data ++ [v]). split; [done|]. split; [done|].
    split; [done|].
    destruct (decide (p < S p)%nat); [|lia].
    destruct (decide (p < p)%nat); [lia|]. rewrite app_nil_r in Hdata.
    rewrite Hv. simpl. apply Forall2_app; [done|]. by constructor.
  - rewrite list_lookup_insert_ne by done.
    destruct (Hfill i m Hm) as (col' & Hcol' & Hfilled'). exists col'.
    split; [done|].
    destruct (decide (i < S p)%nat), (decide (i < p)%nat); try done; lia.
Qed.

Lemma fill_rows_filling rows columns :
  Forall (λ row : list string, length row = length column_names) rows →
  filling structure column_names [] [] 0 columns →
  Exec.post True (filling structure column_names rows [] 0)
    (λ rt, QueryResult.success rt.1 = false ∧ rt.2 = tables_)
    (Exec.foldM
       (λ columns row,
          Exec.foldM
            (SQLExecutor.insert_converted tables_ structure column_names row)
            columns (seq 0 (length row)))
       columns rows).
Proof.
  intros Hrows Hstart.
  apply (post_foldM_prefix _ (λ done columns, filling structure column_names done [] 0 columns));
    [done|].
  intros pre row post columns' Hsplit Hpre.
  assert (length row = length column_names) as Hlen.
  { rewrite Forall_forall in Hrows. apply Hrows. subst rows.
    apply elem_of_app. right. by left. }
  apply (post_mono _
           (λ columns, filling structure column_names pre row (length (seq 0 (length row))) columns)
           _ (λ rt, QueryResult.success rt.1 = false ∧ rt.2 = tables_));
    [|intros cols Hcols; rewrite length_seq in Hcols;
      by apply filling_next_row|done].
  apply (post_foldM_prefix _
           (λ done columns, filling structure column_names pre row (length done) columns)).
  - by apply filling_start_row.
  - intros ps p ps' cols Hseq Hcols.
    assert (p = length ps ∧ (p < length row)%nat) as [-> Hlt].
    { assert (seq 0 (length row) !! length ps = Some p) as Hp
        by by rewrite Hseq, list_lookup_middle.
      apply lookup_seq in Hp. lia. }
    rewrite length_app. simpl. rewrite Nat.add_1_r.
    by apply insert_converted_filling.
Qed.

Lemma construct_column_filled n :
  Exec.post True (filled structure n [])
    (λ rt, QueryResult.success rt.1 = false ∧ rt.2 = tables_)
    (SQLExecutor.construct_column tables_ structure n).
Proof.
  unfold SQLExecutor.construct_column.
  destruct (TableStructure.getColumnByName structure n) as [d| |] eqn:Hd;
    cbn [Exec.call mbind exec_bind Exec.post]; [|done..].
  unfold SQLExecutor.make_column.
  destruct (cpp_type_of (getTypeId (TableStructure.type d))) as [T|] eqn:HT;
    cbn [Exec.post]; [|done].
  exists d, T, []. by repeat split.
Qed.

Lemma construct_columns_filling :
  Exec.post True (filling structure column_names [] [] 0)
    (λ rt, QueryResult.success rt.1 = false ∧ rt.2 = tables_)
    (Exec.mapM (SQLExecutor.construct_column tables_ structure) column_names).
Proof.
  assert (∀ names,
            Exec.post True
              (λ columns,
                 Forall2 (λ n col, filled structure n [] col) names columns)
              (λ rt, QueryResult.success rt.1 = false ∧ rt.2 = tables_)
              (Exec.mapM (SQLExecutor.construct_column tables_ structure) names))
    as Hgen.
  { induction names as [|n names IH]; [by constructor|].
    rewrite mapM_cons.
    eapply post_bind; [apply construct_column_filled|]. intros col Hcol.
    eapply post_bind; [exact IH|]. intros cols Hcols. simpl.
    by constructor. }
  eapply post_mono; [apply Hgen| |done].
  intros columns Hcols. split; [symmetry; by eapply Forall2_length|].
  intros i n Hn. destruct (Forall2_lookup_l _ _ _ _ _ Hcols Hn) as (col & Hcol & Hf).
  exists col. split; [done|]. unfold texts_at. simpl.
  by destruct (decide (i < 0)%nat).
Qed.
End FillProps.

Lemma make_block_columns names columns :
  Block.columns (SQLExecutor.make_block names columns)
  = map (λ '(n, col), Block.mkColumnWithName n col) (zip names columns).
Proof.
  unfold SQLExecutor.make_block.
  assert (∀ l b,
    Block.columns
      (fold_left (λ block '(col_name, column),
                    Block.addColumn col_name column block) l b)
    = Block.columns b
      ++ map (λ '(n, col), Block.mkColumnWithName n col) l) as Hgen.
  { induction l as [|[n c] l IH]; intros b; simpl.
    - by rewrite app_nil_r.
    - rewrite IH. simpl. by rewrite <- app_assoc. }
  by rewrite Hgen.
Qed.

(** ** Blocks built by [addColumn] *)

Lemma block_wf_empty : block_wf Block.empty.
Proof.
  split; simpl.
  - intros n idx. by rewrite lookup_empty.
  - intros c Hc. by apply elem_of_nil in Hc.
Qed.

Lemma block_wf_addColumn n col b :
  block_wf b → block_wf (Block.addColumn n col b).
Proof.
  intros [Hidx Hbound]. split; simpl.
  - intros m idx. destruct (decide (n = m)) as [->|Hne].
    + rewrite lookup_insert_eq. intros [= <-].
      exists (Block.mkColumnWithName m col). split; [|done].
      by rewrite lookup_app_r, Nat.sub_diag.
    + rewrite lookup_insert_ne by done. intros (c & Hc & Hn)%Hidx.
      exists c. split; [|done]. by apply lookup_app_l_Some.
  - intros c [Hc| ->%list_elem_of_singleton]%elem_of_app.
    + destruct (decide (n = Block.name c)) as [->|Hne].
      * rewrite lookup_insert_eq. eauto.
      * rewrite lookup_insert_ne by done. by apply Hbound.
    + simpl. rewrite lookup_insert_eq. eauto.
Qed.

Lemma block_wf_lookup b c :
  block_wf b → c ∈ Block.columns b →
  ∃ c', Block.getColumnByName b (Block.name c) = Ok c' ∧
        c' ∈ Block.columns b ∧ Block.name c' = Block.name c.
Proof.
  intros [Hidx Hbound] Hc. destruct (Hbound c Hc) as [idx Hi].
  destruct (Hidx _ _ Hi) as (c' & Hc' & Hn). exists c'. split; [|split].
  - apply getColumnByName_Ok. eauto.
  - by eapply list_elem_of_lookup_2.
  - done.
Qed.

Lemma make_block_wf names columns :
  block_wf (SQLExecutor.make_block names columns).
Proof.
  unfold SQLExecutor.make_block.
  assert (∀ l b, block_wf b →
            block_wf (fold_left (λ block '(col_name, column),
                                   Block.addColumn col_name column block) l b))
    as Hgen.
  { induction l as [|[n c] l IH]; intros b Hb; [done|].
    simpl. by apply IH, block_wf_addColumn. }
  apply Hgen, block_wf_empty.
Qed.

Section InsertBlock.
Context `{StdConversions}.

Lemma filling_inserted structure names values columns :
  filling structure names values [] 0 columns →
  inserted structure names values (SQLExecutor.make_block names columns).
Proof.
  intros [Hlen Hfill]. unfold inserted. rewrite make_block_columns. split.
  - rewrite length_map, length_zip. lia.
  - intros i n Hn. destruct (Hfill i n Hn) as (col & Hcol & Hfilled).
    exists col. split.
    + rewrite list_lookup_fmap, lookup_zip_with, Hn. simpl. by rewrite Hcol.
    + destruct (decide (i < 0)%nat); [lia|]. by rewrite app_nil_r in Hfilled.
Qed.

Lemma executeInsert_result ast tables_ :
  match SQLExecutor.executeInsert ast tables_ with
  | Ok rt =>
      (QueryResult.success rt.1 = false ∧ rt.2 = tables_) ∨
      insert_success ast tables_ rt
  | _ => True
  end.
Proof.
  unfold SQLExecutor.executeInsert. apply post_run.
  destruct (tables_ !! InsertAST.table_name ast) as [storage|] eqn:Hst;
    [|by left].
  cbv zeta. unfold MemoryStorage.getTableStructure.
  eapply (post_bind _
            (λ names,
               SQLExecutor.target_columns
                 (MemoryStorage.structure storage) ast = Ok names ∧
               Forall (λ c, TableStructure.hasColumn
                              (MemoryStorage.structure storage) c = true)
                      (InsertAST.column_names ast))).
  { unfold SQLExecutor.target_columns.
    destruct (InsertAST.column_names ast) as [|n ns].
    - by apply post_call; case_match.
    - pose proof (for_each_check_column tables_
                    (MemoryStorage.structure storage) (n :: ns)) as Hcols.
      destruct (Exec.for_each _ (n :: ns)) as [[]|rt| |]; [done| |done..].
      destruct Hcols as (c & _ & _ & ->). by left. }
  intros column_names [Htarget Hlisted].
  destruct (InsertAST.values ast) as [|row rows] eqn:Hvalues; [by left|].
  rewrite <- Hvalues.
  pose proof (for_each_check_row tables_ column_names (InsertAST.values ast))
    as Hrows.
  destruct (Exec.for_each _ (InsertAST.values ast)) as [[]|rt| |];
    [|by destruct Hrows as [_ ->]; left|done..].
  cbn [mbind exec_bind].
  eapply post_bind.
  { eapply post_mono; [apply construct_columns_filling|done|by left]. }
  intros columns Hcolumns. eapply post_bind.
  { eapply post_mono; [by apply fill_rows_filling|done|by left]. }
  clear columns Hcolumns. intros columns Hcolumns.
  apply filling_inserted in Hcolumns. cbv zeta.
  destruct (MemoryStorage.insert _ storage) as [storage'| |] eqn:Hins;
    [|by left|done].
  apply insert_Ok in Hins as [Hvalid ->]. right.
  exists storage, column_names, (SQLExecutor.make_block column_names columns).
  do 2 (split; [done|]). split.
  { split; [done|]. split; [by rewrite Hvalues | done]. }
  split; [done|]. split; [apply make_block_wf | done].
Qed.
End InsertBlock.

Lemma texts_at_lookup i j k rows row s :
  Forall (λ row : list string, length row = k) rows →
  rows !! j = Some row → row !! i = Some s →
  texts_at i rows !! j = Some s.
Proof.
  intros Hrows. revert j. induction Hrows as [|r rows Hr Hrows IH];
    intros j Hj Hs; [done|].
  assert (is_Some (r !! i)) as [s' Hs'].
  { apply lookup_lt_is_Some. rewrite Hr.
    apply list_elem_of_lookup_2 in Hj. apply lookup_lt_Some in Hs.
    assert (length row = k) as <-; [|done].
    apply elem_of_cons in Hj as [->|Hj]; [done|].
    rewrite Forall_forall in Hrows. by apply Hrows. }
  unfold texts_at. simpl. rewrite Hs'. destruct j as [|j]; simpl in *.
  - congruence.
  - by apply IH.
Qed.

Lemma length_texts_at i k rows :
  Forall (λ row : list string, length row = k) rows → (i < k)%nat →
  length (texts_at i rows) = length rows.
Proof.
  intros Hrows Hi. induction Hrows as [|r rows Hr Hrows IH]; [done|].
  unfold texts_at. simpl.
  destruct (lookup_lt_is_Some_2 r i ltac:(lia)) as [s ->]. simpl.
  by rewrite <- IH.
Qed.

Section InsertSuccess.
Context `{StdConversions}.

Lemma executeInsert_success ast tables_ r tables' :
  SQLExecutor.executeInsert ast tables_ = Ok (r, tables') →
  QueryResult.success r = true →
  insert_success ast tables_ (r, tables').
Proof.
  intros Hex Hok. pose proof (executeInsert_result ast tables_) as Hres.
  rewrite Hex in Hres. destruct Hres as [[? _]|?]; simpl in *; [congruence|done].
Qed.

Lemma filled_size structure n strs col :
  filled structure n strs col → IColumn.size col = length strs.
Proof.
  intros (d & T & data & _ & _ & -> & Hdata). simpl.
  unfold ColumnVector.size. simpl. by eapply Forall2_length.
Qed.

Lemma inserted_sizes structure names values block :
  Forall (λ row : list string, length row = length names) values →
  inserted structure names values block →
  Forall (λ c, IColumn.size (Block.column c) = length values)
         (Block.columns block).
Proof.
  intros Hrows [Hlen Hcols]. apply Forall_lookup. intros i c Hc.
  destruct (lookup_lt_is_Some_2 names i) as [n Hn].
  { rewrite <- Hlen. by eapply lookup_lt_Some. }
  destruct (Hcols i n Hn) as (col & Hcol & Hfilled).
  rewrite Hc in Hcol. injection Hcol as ->. simpl.
  rewrite (filled_size _ _ _ _ Hfilled).
  eapply length_texts_at; [done|]. by eapply lookup_lt_Some.
Qed.

(** X1 (executor.cpp, executeInsert): a successful INSERT appends one
    block to the storage of its table and touches nothing else; the block
    has one column per target name, in the order of the names, and the
    field at row [j] of the column at position [i] is the text at position
    [i] of row [j] of VALUES, converted to the value type of the declared
    type of that column. *)
Theorem insert_stores_converted_values (ast : InsertAST.t)
    (tables_ tables' : SQLExecutor.tables) (r : QueryResult.t) :
  SQLExecutor.executeInsert ast tables_ = Ok (r, tables') →
  QueryResult.success r = true →
  ∃ storage column_names block,
    tables_ !! InsertAST.table_name ast = Some storage ∧
    SQLExecutor.target_columns (MemoryStorage.structure storage) ast
      = Ok column_names ∧
    tables' = <[InsertAST.table_name ast :=
                  MemoryStorage.mk (MemoryStorage.structure storage)
                    (MemoryStorage.blocks storage ++ [block])]> tables_ ∧
    map Block.name (Block.columns block) = column_names ∧
    ∀ i j c row s,
      Block.columns block !! i = Some c →
      InsertAST.values ast !! j = Some row →
      row !! i = Some s →
      ∃ col_def T v,
        TableStructure.getColumnByName (MemoryStorage.structure storage)
          (Block.name c) = Ok col_def ∧
        cpp_type_of (getTypeId (TableStructure.type col_def)) = Some T ∧
        IColumn.getDataType (Block.column c) = TableStructure.type col_def ∧
        SQLExecutor.convert T s = Ok v ∧
        IColumn.at_ (Block.column c) j = Ok (Field.make T v).
Proof.
  intros Hex Hok.
  destruct (executeInsert_success _ _ _ _ Hex Hok)
    as (storage & names & block & Hst & Htarget & (_ & _ & Hrows)
        & [Hlen Hcols] & _ & Hvalid & [= -> ->]).
  exists storage, names, block. do 3 (split; [done|]). split.
  - apply list_eq. intros i. rewrite list_lookup_fmap.
    destruct (names !! i) as [n|] eqn:Hn.
    + destruct (Hcols i n Hn) as (col & -> & _). done.
    + apply lookup_ge_None in Hn.
      by rewrite (lookup_ge_None_2 (Block.columns block) i) by lia.
  - intros i j c row s Hc Hrow Hs.
    destruct (lookup_lt_is_Some_2 names i) as [n Hn].
    { rewrite <- Hlen. by eapply lookup_lt_Some. }
    destruct (Hcols i n Hn) as (col & Hcol & d & T & data & Hd & HT & -> & Hdata).
    rewrite Hc in Hcol. injection Hcol as ->. simpl.
    pose proof (texts_at_lookup i j _ _ _ _ Hrows Hrow Hs) as Htext.
    destruct (Forall2_lookup_r _ _ _ _ _ Hdata Htext) as (v & Hv & Hconv).
    exists d, T, v. do 4 (split; [done|]).
    unfold ColumnVector.at_, ColumnVector.getValue. simpl. by rewrite Hv.
Qed.

(** X2 (executor.cpp, executeInsert; block.h, isValid and getRowCount):
    every column of the block a successful INSERT appends has one entry
    per row of VALUES, so that the block is valid and, when there is a
    target column at all, counts as many rows as the statement has. *)
Theorem insert_block_rows (ast : InsertAST.t)
    (tables_ tables' : SQLExecutor.tables) (r : QueryResult.t) :
  SQLExecutor.executeInsert ast tables_ = Ok (r, tables') →
  QueryResult.success r = true →
  ∃ storage block,
    tables_ !! InsertAST.table_name ast = Some storage ∧
    tables' !! InsertAST.table_name ast
      = Some (MemoryStorage.mk (MemoryStorage.structure storage)
                (MemoryStorage.blocks storage ++ [block])) ∧
    Forall (λ c, IColumn.size (Block.column c)
                 = length (InsertAST.values ast))
           (Block.columns block) ∧
    Block.isValid block = true ∧
    (Block.columns block ≠ [] →
     Block.getRowCount block = length (InsertAST.values ast)) ∧
    r = QueryResult.status true
          (pretty (length (InsertAST.values ast))
           +:+ " row(s) inserted successfully").
Proof.
  intros Hex Hok.
  destruct (executeInsert_success _ _ _ _ Hex Hok)
    as (storage & names & block & Hst & Htarget & (_ & _ & Hrows) & Hins
        & _ & Hvalid & [= -> ->]).
  pose proof (inserted_sizes _ _ _ _ Hrows Hins) as Hsizes.
  exists storage, block. split; [done|]. split; [by rewrite lookup_insert_eq|].
  split; [done|]. unfold Block.isValid, Block.getRowCount.
  destruct (Block.columns block) as [|c cs]; [done|].
  apply Forall_cons in Hsizes as [Hc Hcs]. repeat split; [|done].
  apply forallb_forall. intros c' Hc'%list_elem_of_In. apply Nat.eqb_eq.
  rewrite Forall_forall in Hcs. rewrite Hc. by apply Hcs.
Qed.
End InsertSuccess.

Lemma insert_stores_converted_values_witness :
  ∃ storage column_names block,
    InsertExample.before !! "t" = Some storage ∧
    @SQLExecutor.target_columns (MemoryStorage.structure storage)
      InsertExample.ast = Ok column_names ∧
    InsertExample.after
      = <["t" := MemoryStorage.mk (MemoryStorage.structure storage)
                   (MemoryStorage.blocks storage ++ [block])]>
          InsertExample.before ∧
    map Block.name (Block.columns block) = column_names ∧
    ∀ i j c row s,
      Block.columns block !! i = Some c →
      InsertAST.values InsertExample.ast !! j = Some row →
      row !! i = Some s →
      ∃ col_def T v,
        TableStructure.getColumnByName (MemoryStorage.structure storage)
          (Block.name c) = Ok col_def ∧
        cpp_type_of (getTypeId (TableStructure.type col_def)) = Some T ∧
        IColumn.getDataType (Block.column c) = TableStructure.type col_def ∧
        @SQLExecutor.convert Reference.conversions T s = Ok v ∧
        IColumn.at_ (Block.column c) j = Ok (Field.make T v).
Proof.
  apply (insert_stores_converted_values (H:=Reference.conversions)
           InsertExample.ast InsertExample.before InsertExample.after
           InsertExample.result).
  - vm_compute. reflexivity.
  - reflexivity.
Defined.

Lemma insert_block_rows_witness :
  ∃ storage block,
    InsertExample.before !! "t" = Some storage ∧
    InsertExample.after !! "t"
      = Some (MemoryStorage.mk (MemoryStorage.structure storage)
                (MemoryStorage.blocks storage ++ [block])) ∧
    Forall (λ c, IColumn.size (Block.column c) = 2%nat)
           (Block.columns block) ∧
    Block.isValid block = true ∧
    (Block.columns block ≠ [] → Block.getRowCount block = 2%nat) ∧
    InsertExample.result
      = QueryResult.status true "2 row(s) inserted successfully".
Proof.
  apply (insert_block_rows (H:=Reference.conversions)
           InsertExample.ast InsertExample.before InsertExample.after
           InsertExample.result).
  - vm_compute. reflexivity.
  - reflexivity.
Defined.


Lemma stored_rows_snoc structure blocks block :
  stored_rows (MemoryStorage.mk structure (blocks ++ [block]))
  = stored_rows (MemoryStorage.mk structure blocks)
    + Z.of_nat (Block.getRowCount block).
Proof.
  unfold stored_rows. simpl. induction blocks as [|b blocks IH]; simpl; lia.
Qed.

Section InsertRows.
Context `{StdConversions}.

(** X3 (executor.cpp, executeInsert; memory_engine.h, insert): a
    successful INSERT leaves the schema of its table and every other table
    as they were; when it has a target column, the rows the storage holds
    grow by the number of rows of VALUES, and a target column that every
    stored block held in full length before is still held so by every
    stored block. *)
Theorem insert_adds_rows (ast : InsertAST.t)
    (tables_ tables' : SQLExecutor.tables) (r : QueryResult.t) :
  SQLExecutor.executeInsert ast tables_ = Ok (r, tables') →
  QueryResult.success r = true →
  ∃ storage storage' column_names,
    tables_ !! InsertAST.table_name ast = Some storage ∧
    tables' !! InsertAST.table_name ast = Some storage' ∧
    (∀ other, other ≠ InsertAST.table_name ast →
              tables' !! other = tables_ !! other) ∧
    MemoryStorage.structure storage' = MemoryStorage.structure storage ∧
    SQLExecutor.target_columns (MemoryStorage.structure storage) ast
      = Ok column_names ∧
    (column_names ≠ [] →
     stored_rows storage'
     = stored_rows storage + Z.of_nat (length (InsertAST.values ast))) ∧
    (∀ c, c ∈ column_names → holds_column storage c →
          holds_column storage' c).
Proof.
  intros Hex Hok.
  destruct (executeInsert_success _ _ _ _ Hex Hok)
    as (storage & names & block & Hst & Htarget & (_ & _ & Hrows) & Hins
        & Hwf & Hvalid & [= -> ->]).
  pose proof (inserted_sizes _ _ _ _ Hrows Hins) as Hsizes.
  destruct Hins as [Hlen Hcols].
  assert (names ≠ [] →
          Block.getRowCount block = length (InsertAST.values ast)) as Hcount.
  { intros Hne. unfold Block.getRowCount.
    destruct (Block.columns block) as [|c cs].
    - destruct names; [done | discriminate].
    - by apply Forall_cons in Hsizes as [-> _]. }
  eexists storage, _, names. split; [done|].
  split; [by rewrite lookup_insert_eq|].
  split; [by intros other Hother; rewrite lookup_insert_ne|].
  split; [done|]. split; [done|]. split.
  - intros Hne. rewrite stored_rows_snoc, (Hcount Hne). by destruct storage.
  - intros c Hc Hheld. unfold holds_column. simpl.
    apply Forall_app. split; [done|]. constructor; [|done].
    apply list_elem_of_lookup in Hc as [i Hi].
    destruct (Hcols i c Hi) as (col & Hcol & _).
    apply list_elem_of_lookup_2 in Hcol.
    destruct (block_wf_lookup _ _ Hwf Hcol) as (c' & Hget & Hin & _).
    exists c'. split; [done|]. rewrite Forall_forall in Hsizes.
    rewrite (Hsizes c' Hin). symmetry. apply Hcount.
    intros ->. by rewrite lookup_nil in Hi.
Qed.
End InsertRows.

Lemma insert_adds_rows_witness :
  ∃ storage storage' column_names,
    InsertExample.before !! "t" = Some storage ∧
    InsertExample.after !! "t" = Some storage' ∧
    (∀ other, other ≠ "t" →
              InsertExample.after !! other = InsertExample.before !! other) ∧
    MemoryStorage.structure storage' = MemoryStorage.structure storage ∧
    SQLExecutor.target_columns (MemoryStorage.structure storage)
      InsertExample.ast = Ok column_names ∧
    (column_names ≠ [] → stored_rows storage' = stored_rows storage + 2) ∧
    (∀ c, c ∈ column_names → holds_column storage c →
          holds_column storage' c).
Proof.
  apply (insert_adds_rows (H:=Reference.conversions)
           InsertExample.ast InsertExample.before InsertExample.after
           InsertExample.result).
  - vm_compute. reflexivity.
  - reflexivity.
Defined.

(** ** The INSERT that converts, and the first text that does not *)

Lemma foldM_app {R A S} (f : S → A → exec R S) s l1 l2 :
  Exec.foldM f s (l1 ++ l2) = Exec.foldM f s l1 ≫= λ s', Exec.foldM f s' l2.
Proof.
  revert s; induction l1 as [|x l1 IH]; intros s; [done|].
  simpl. destruct (f s x); simpl; [apply IH | done..].
Qed.

Section FillProgress.
Context `{StdConversions}.
Variable tables_ : SQLExecutor.tables.
Variable structure : TableStructure.t.
Variable column_names : list string.

Lemma insert_converted_eq rows row p columns s n :
  filling structure column_names rows row p columns →
  row !! p = Some s → column_names !! p = Some n →
  ∃ T, supported structure n T ∧
       match SQLExecutor.convert T s with
       | Ok v =>
           ∃ columns',
             SQLExecutor.insert_converted tables_ structure column_names row
               columns p = Next columns'
       | Throw what =>
           SQLExecutor.insert_converted tables_ structure column_names row
             columns p
           = Return (QueryResult.status false
                       ("Error converting value '" +:+ s
                        +:+ "' for column '" +:+ n +:+ "': " +:+ what),
                     tables_)
       | Undefined =>
           SQLExecutor.insert_converted tables_ structure column_names row
             columns p = UB
       end.
Proof.
  intros [Hcols Hfill] Hs Hn. unfold SQLExecutor.insert_converted.
  rewrite Hs, Hn. destruct (Hfill p n Hn) as (col & Hcol & Hfilled).
  rewrite Hcol. destruct Hfilled as (d & T & data & Hd & HT & -> & Hdata).
  exists T. split; [by exists d|].
  rewrite Hd. cbn [Exec.call mbind exec_bind]. rewrite HT.
  destruct (SQLExecutor.convert T s) as [v|w|]; cbn [Exec.try_catch mbind exec_bind];
    [|done..].
  unfold SQLExecutor.insertValue_as.
  destruct (decide (T = T)) as [e|]; [|done].
  cbn [Exec.call mbind exec_bind]. eauto.
Qed.

Lemma supported_inj n T T' :
  supported structure n T → supported structure n T' → T = T'.
Proof. intros (d & Hd & HT) (d' & Hd' & HT'). congruence. Qed.

(** The inner loop runs through the positions whose texts convert. *)
Lemma fill_row_progress rows row k columns :
  length row = length column_names → (k ≤ length row)%nat →
  converts structure column_names row k →
  filling structure column_names rows row 0 columns →
  ∃ columns',
    Exec.foldM (SQLExecutor.insert_converted tables_ structure column_names row)
      columns (seq 0 k) = Next columns' ∧
    filling structure column_names rows row k columns'.
Proof.
  intros Hlen Hk Hconv Hstart. induction k as [|k IH]; [by exists columns|].
  destruct IH as (columns1 & Hrun & Hfill); [lia| |].
  { intros i s n Hi. apply Hconv. lia. }
  rewrite seq_S, foldM_app, Hrun. cbn [mbind exec_bind Exec.foldM plus].
  destruct (lookup_lt_is_Some_2 row k ltac:(lia)) as [s Hs].
  destruct (lookup_lt_is_Some_2 column_names k ltac:(lia)) as [n Hn].
  destruct (insert_converted_eq _ _ _ _ _ _ Hfill Hs Hn) as (T & HT & Hstep).
  destruct (Hconv k s n ltac:(lia) Hs Hn) as (T' & v & HT' & Hv).
  rewrite (supported_inj _ _ _ HT HT'), Hv in Hstep.
  destruct Hstep as [columns2 Hstep].
  pose proof (insert_converted_filling tables_ structure column_names
                rows row k columns1 Hlen ltac:(lia) Hfill) as Hpost.
  rewrite Hstep in Hpost |- *. by exists columns2.
Qed.

(** The outer loop runs through the rows whose texts convert. *)
Lemma fill_rows_progress rows columns :
  Forall (λ row : list string, length row = length column_names) rows →
  Forall (λ row, converts structure column_names row (length row)) rows →
  filling structure column_names [] [] 0 columns →
  ∃ columns',
    Exec.foldM
      (λ columns row,
         Exec.foldM
           (SQLExecutor.insert_converted tables_ structure column_names row)
           columns (seq 0 (length row)))
      columns rows = Next columns' ∧
    filling structure column_names rows [] 0 columns'.
Proof.
  intros Hlens Hconv Hstart. induction rows as [|row rows IH] using rev_ind;
    [by exists columns|].
  apply Forall_app in Hlens as [Hlens [Hlen _]%Forall_cons].
  apply Forall_app in Hconv as [Hconv [Hrow _]%Forall_cons].
  destruct (IH Hlens Hconv) as (columns1 & Hrun & Hfill).
  rewrite foldM_app, Hrun. cbn [mbind exec_bind Exec.foldM].
  destruct (fill_row_progress rows row (length row) columns1 Hlen (le_n _) Hrow
              (filling_start_row _ _ _ _ _ Hfill))
    as (columns2 & Hrun2 & Hfill2).
  rewrite Hrun2. cbn [mbind exec_bind]. exists columns2. split; [done|].
  by apply filling_next_row.
Qed.

(** The loops stop at the first text that does not convert. *)
Lemma fill_rows_error rows row rest pre s post n T what columns :
  Forall (λ row : list string, length row = length column_names)
         (rows ++ [row]) →
  Forall (λ row, converts structure column_names row (length row)) rows →
  row = pre ++ s :: post →
  converts structure column_names row (length pre) →
  column_names !! length pre = Some n →
  supported structure n T →
  SQLExecutor.convert T s = Throw what →
  filling structure column_names [] [] 0 columns →
  Exec.foldM
    (λ columns row,
       Exec.foldM
         (SQLExecutor.insert_converted tables_ structure column_names row)
         columns (seq 0 (length row)))
    columns (rows ++ row :: rest)
  = Return (QueryResult.status false
              ("Error converting value '" +:+ s
               +:+ "' for column '" +:+ n +:+ "': " +:+ what),
            tables_).
Proof.
  intros Hlens Hconv Hrow Hpre Hn HT Hthrow Hstart.
  apply Forall_app in Hlens as [Hlens [Hlen _]%Forall_cons].
  destruct (fill_rows_progress rows columns Hlens Hconv Hstart)
    as (columns1 & Hrun & Hfill).
  rewrite foldM_app, Hrun. cbn [mbind exec_bind]. rewrite foldM_cons.
  assert (length pre < length row)%nat as Hlt.
  { rewrite Hrow, length_app. simpl. lia. }
  destruct (fill_row_progress rows row (length pre) columns1 Hlen ltac:(lia)
              Hpre (filling_start_row _ _ _ _ _ Hfill))
    as (columns2 & Hrun2 & Hfill2).
  assert (seq 0 (length row)
          = seq 0 (length pre)
            ++ length pre :: seq (S (length pre))
                               (length row - S (length pre))) as ->.
  { assert (length row = length pre + S (length row - S (length pre)))%nat
      as Hsplit by lia.
    rewrite Hsplit at 1. by rewrite seq_app. }
  rewrite foldM_app, Hrun2. cbn [mbind exec_bind]. rewrite foldM_cons.
  assert (row !! length pre = Some s) as Hs
    by by rewrite Hrow, list_lookup_middle.
  destruct (insert_converted_eq _ _ _ _ _ _ Hfill2 Hs Hn) as (T' & HT' & Hstep).
  rewrite (supported_inj _ _ _ HT' HT), Hthrow in Hstep. by rewrite Hstep.
Qed.
End FillProgress.

Lemma getColumnByName_hasColumn structure n d :
  TableStructure.getColumnByName structure n = Ok d →
  TableStructure.hasColumn structure n = true.
Proof.
  unfold TableStructure.getColumnByName, TableStructure.getColumnIndex.
  intros Hd. apply hasColumn_true.
  by destruct (TableStructure.column_indices structure !! n).
Qed.

Lemma validateColumns_true structure cols :
  Forall (λ c, ∃ d, TableStructure.getColumnByName structure (Block.name c)
                    = Ok d ∧
                    getTypeId (IColumn.getDataType (Block.column c))
                    = getTypeId (TableStructure.type d)) cols →
  MemoryStorage.validateColumns structure cols = Ok true.
Proof.
  induction 1 as [|c cols (d & Hd & Hty) _ IH]; [done|].
  simpl. rewrite Hd. simpl. rewrite (getColumnByName_hasColumn _ _ _ Hd).
  simpl. by rewrite bool_decide_true.
Qed.

Section InsertProgress.
Context `{StdConversions}.

Lemma inserted_validateBlock storage names values block :
  length names = TableStructure.getColumnCount (MemoryStorage.structure storage) →
  inserted (MemoryStorage.structure storage) names values block →
  MemoryStorage.validateBlock storage block = Ok true.
Proof.
  intros Hcount [Hlen Hcols]. unfold MemoryStorage.validateBlock.
  unfold Block.getColumnCount. rewrite Hlen, Hcount, Nat.eqb_refl. simpl.
  apply validateColumns_true, Forall_lookup. intros i c Hc.
  destruct (lookup_lt_is_Some_2 names i) as [n Hn].
  { rewrite <- Hlen. by eapply lookup_lt_Some. }
  destruct (Hcols i n Hn) as (col & Hcol & d & T & data & Hd & _ & -> & _).
  rewrite Hc in Hcol. injection Hcol as ->. by exists d.
Qed.

(** [executeInsert] past its checks and the construction of the columns:
    what is left is the loop that fills them, and the hand-over of the
    block. *)
Lemma executeInsert_checked ast tables_ storage column_names :
  tables_ !! InsertAST.table_name ast = Some storage →
  SQLExecutor.target_columns (MemoryStorage.structure storage) ast
    = Ok column_names →
  SQLExecutor.passes_checks (MemoryStorage.structure storage) ast
    column_names →
  Forall (λ n, ∃ T, supported (MemoryStorage.structure storage) n T)
         column_names →
  ∃ columns,
    filling (MemoryStorage.structure storage) column_names [] [] 0 columns ∧
    SQLExecutor.executeInsert ast tables_
    = Exec.run (
        columns ←
          Exec.foldM
            (λ columns row,
               Exec.foldM
                 (SQLExecutor.insert_converted tables_
                    (MemoryStorage.structure storage) column_names row)
                 columns (seq 0 (length row)))
            columns (InsertAST.values ast);
        storage' ←
          Exec.try_catch
            (MemoryStorage.insert
               (SQLExecutor.make_block column_names columns) storage)
            (λ what,
               Return (QueryResult.status false
                         ("Error inserting data: " +:+ what), tables_));
        Return (QueryResult.status true
                  (pretty (length (InsertAST.values ast))
                   +:+ " row(s) inserted successfully"),
                <[InsertAST.table_name ast := storage']> tables_)).
Proof.
  intros Hst Htarget (Hlisted & Hvalues & Hrows) Hsupp.
  pose proof (construct_columns_filling tables_
                (MemoryStorage.structure storage) column_names) as Hpost.
  pose proof (mapM_construct_column tables_
                (MemoryStorage.structure storage) column_names) as Hcons.
  destruct (Exec.mapM _ column_names) as [columns|rt| |] eqn:Hmap.
  2:{ destruct Hcons as (c & Hc & (d & Hd & Hnone) & _).
      - eapply Forall_impl; [exact Hsupp|]. intros n (T & d & Hd & _). eauto.
      - rewrite Forall_forall in Hsupp.
        destruct (Hsupp c Hc) as (T & d' & Hd' & HT). congruence. }
  2,3: destruct Hcons;
    (eapply Forall_impl; [exact Hsupp|]; intros n (T & d & Hd & _); eauto).
  exists columns. split; [done|].
  unfold SQLExecutor.executeInsert. rewrite Hst. cbv zeta.
  unfold MemoryStorage.getTableStructure.
  assert (match InsertAST.column_names ast with
          | [] => Exec.call (SQLExecutor.schema_names
                               (MemoryStorage.structure storage))
          | n :: ns =>
              Exec.for_each
                (SQLExecutor.check_column tables_
                   (MemoryStorage.structure storage)) (n :: ns)
              ≫= λ _, Next (n :: ns)
          end = (Next column_names
                 : exec (QueryResult.t * SQLExecutor.tables) (list string)))
    as ->.
  { unfold SQLExecutor.target_columns in Htarget.
    destruct (InsertAST.column_names ast) as [|n ns] eqn:Hcn.
    - by rewrite Htarget.
    - injection Htarget as <-.
      pose proof (for_each_check_column tables_
                    (MemoryStorage.structure storage) (n :: ns)) as Hcols.
      destruct (Exec.for_each _ (n :: ns)) as [[]|rt| |]; [done| |done..].
      destruct Hcols as (c & Hc & Hfalse & _).
      rewrite Forall_forall in Hlisted. rewrite (Hlisted c Hc) in Hfalse.
      done. }
  cbn [mbind exec_bind].
  destruct (InsertAST.values ast) as [|row rows] eqn:Hv; [done|].
  rewrite <- Hv in *.
  pose proof (for_each_check_row tables_ column_names (InsertAST.values ast))
    as Hcheck.
  destruct (Exec.for_each _ (InsertAST.values ast)) as [[]|rt| |];
    [|by destruct Hcheck|done..].
  cbn [mbind exec_bind]. by rewrite Hmap.
Qed.

(** X4 (executor.cpp, executeInsert; memory_engine.h, validateBlock): an
    INSERT into a registered table succeeds when its checks pass, it names
    as many target columns as the schema has columns, and every text
    converts to the value type of its target column.  With the theorems
    on the stored block this is the whole success path. *)
Theorem insert_converting_succeeds (ast : InsertAST.t)
    (tables_ : SQLExecutor.tables) (storage : MemoryStorage.t)
    (column_names : list string) :
  tables_ !! InsertAST.table_name ast = Some storage →
  SQLExecutor.target_columns (MemoryStorage.structure storage) ast
    = Ok column_names →
  SQLExecutor.passes_checks (MemoryStorage.structure storage) ast
    column_names →
  length column_names
    = TableStructure.getColumnCount (MemoryStorage.structure storage) →
  Forall (λ row, converts (MemoryStorage.structure storage) column_names
                   row (length row))
         (InsertAST.values ast) →
  ∃ tables',
    SQLExecutor.executeInsert ast tables_
    = Ok (QueryResult.status true
            (pretty (length (InsertAST.values ast))
             +:+ " row(s) inserted successfully"), tables').
Proof.
  intros Hst Htarget Hchecks Hcount Hconv.
  assert (Forall (λ n, ∃ T, supported (MemoryStorage.structure storage) n T)
                 column_names) as Hsupp.
  { destruct Hchecks as (_ & Hne & Hrows).
    destruct (InsertAST.values ast) as [|row rows]; [done|].
    apply Forall_cons in Hrows as [Hrow _].
    apply Forall_cons in Hconv as [Hconv _].
    apply Forall_lookup. intros i n Hn.
    destruct (lookup_lt_is_Some_2 row i) as [s Hs].
    { rewrite Hrow. by eapply lookup_lt_Some. }
    destruct (Hconv i s n) as (T & v & HT & _); [|done..|by exists T].
    by eapply lookup_lt_Some. }
  destruct (executeInsert_checked _ _ _ _ Hst Htarget Hchecks Hsupp)
    as (columns & Hfill & ->).
  destruct Hchecks as (_ & _ & Hrows).
  destruct (fill_rows_progress tables_ _ _ _ _ Hrows Hconv Hfill)
    as (columns' & -> & Hfill').
  cbn [mbind exec_bind]. apply filling_inserted in Hfill'.
  unfold MemoryStorage.insert.
  rewrite (inserted_validateBlock _ _ _ _ Hcount Hfill'). simpl. eauto.
Qed.

(** X5 (executor.cpp, executeInsert): when the checks of an INSERT pass
    and every target column has a supported type, the statement stops at
    the first text, rows first and positions within a row second, whose
    conversion throws: it fails with the text, the name of the target
    column and the message of the exception, and stores nothing. *)
Theorem insert_conversion_error (ast : InsertAST.t)
    (tables_ : SQLExecutor.tables) (storage : MemoryStorage.t)
    (column_names : list string) (rows rest : list (list string))
    (pre post : list string) (s n what : string) (T : CppType) :
  tables_ !! InsertAST.table_name ast = Some storage →
  SQLExecutor.target_columns (MemoryStorage.structure storage) ast
    = Ok column_names →
  SQLExecutor.passes_checks (MemoryStorage.structure storage) ast
    column_names →
  Forall (λ n, ∃ T, supported (MemoryStorage.structure storage) n T)
         column_names →
  InsertAST.values ast = rows ++ (pre ++ s :: post) :: rest →
  Forall (λ row, converts (MemoryStorage.structure storage) column_names
                   row (length row)) rows →
  converts (MemoryStorage.structure storage) column_names
    (pre ++ s :: post) (length pre) →
  column_names !! length pre = Some n →
  supported (MemoryStorage.structure storage) n T →
  SQLExecutor.convert T s = Throw what →
  SQLExecutor.executeInsert ast tables_
  = Ok (QueryResult.status false
          ("Error converting value '" +:+ s +:+ "' for column '" +:+ n
           +:+ "': " +:+ what), tables_).
Proof.
  intros Hst Htarget Hchecks Hsupp Hvalues Hconv Hpre Hn HT Hthrow.
  destruct (executeInsert_checked _ _ _ _ Hst Htarget Hchecks Hsupp)
    as (columns & Hfill & ->).
  destruct Hchecks as (_ & _ & Hrows). rewrite Hvalues in Hrows |- *.
  rewrite (fill_rows_error tables_ _ _ rows (pre ++ s :: post) rest pre s post
             n T what columns); [done| |done..].
  apply Forall_app in Hrows as [Hrows [Hrow _]%Forall_cons].
  apply Forall_app. split; [done|]. by constructor.
Qed.
End InsertProgress.

Lemma example_converts row :
  Forall (λ s, ∃ v, @SQLExecutor.convert Reference.conversions int32_t s
                    = Ok v) row →
  (length row ≤ 2)%nat →
  @converts Reference.conversions
    (MemoryStorage.structure InsertExample.storage) ["a"; "b"] row
    (length row).
Proof.
  intros Hrow Hlen i s n Hi Hs Hn. exists int32_t.
  rewrite Forall_forall in Hrow.
  destruct (Hrow s) as [v Hv]; [by eapply list_elem_of_lookup_2|].
  exists v. split; [|done].
  destruct i as [|[|i]]; simpl in Hn; [| |lia]; injection Hn as <-;
    eexists; split; vm_compute; reflexivity.
Qed.

Lemma insert_converting_succeeds_witness :
  ∃ tables',
    @SQLExecutor.executeInsert Reference.conversions InsertExample.ast
      InsertExample.before
    = Ok (QueryResult.status true "2 row(s) inserted successfully", tables').
Proof.
  apply (insert_converting_succeeds (H:=Reference.conversions)
           InsertExample.ast InsertExample.before InsertExample.storage
           ["a"; "b"]).
  - vm_compute. reflexivity.
  - vm_compute. reflexivity.
  - split; [constructor|]. split; [discriminate|]. by repeat constructor.
  - reflexivity.
  - repeat constructor; apply example_converts; simpl; try lia;
      repeat constructor; eexists; vm_compute; reflexivity.
Defined.

Lemma insert_conversion_error_witness :
  @SQLExecutor.executeInsert Reference.conversions ConversionExample.ast
    InsertExample.before
  = Ok (QueryResult.status false
          "Error converting value 'x' for column 'b': stoi",
        InsertExample.before).
Proof.
  apply (insert_conversion_error (H:=Reference.conversions)
           ConversionExample.ast InsertExample.before InsertExample.storage
           ["a"; "b"] [["1"; "2"]] [] ["3"] [] "x" "b" "stoi" int32_t).
  - vm_compute. reflexivity.
  - vm_compute. reflexivity.
  - split; [constructor|]. split; [discriminate|]. by repeat constructor.
  - repeat constructor; exists int32_t; eexists; split; vm_compute; reflexivity.
  - reflexivity.
  - repeat constructor. apply example_converts; simpl; try lia.
    repeat constructor; eexists; vm_compute; reflexivity.
  - intros i s' n' Hi Hs Hn. simpl in Hi.
    destruct i as [|i]; [|lia]. simpl in Hs, Hn.
    injection Hs as <-. injection Hn as <-.
    exists int32_t. eexists. split; [eexists; split|]; vm_compute; reflexivity.
  - reflexivity.
  - eexists. split; vm_compute; reflexivity.
  - vm_compute. reflexivity.
Defined.

(** ** CREATE TABLE *)

Lemma schema_wf_create table_name : schema_wf (TableStructure.create table_name).
Proof.
  split; simpl.
  - intros n idx. by rewrite lookup_empty.
  - intros c Hc. by apply elem_of_nil in Hc.
Qed.

Lemma schema_wf_addColumn n ty s :
  schema_wf s → schema_wf (TableStructure.addColumn n ty s).
Proof.
  intros [Hidx Hbound]. split; simpl.
  - intros m idx. destruct (decide (n = m)) as [->|Hne].
    + rewrite lookup_insert_eq. intros [= <-].
      exists (TableStructure.mkColumnDefinition m ty). split; [|done].
      by rewrite lookup_app_r, Nat.sub_diag.
    + rewrite lookup_insert_ne by done. intros (c & Hc & Hn)%Hidx.
      exists c. split; [|done]. by apply lookup_app_l_Some.
  - intros c [Hc| ->%list_elem_of_singleton]%elem_of_app.
    + destruct (decide (n = TableStructure.name c)) as [->|Hne].
      * rewrite lookup_insert_eq. eauto.
      * rewrite lookup_insert_ne by done. by apply Hbound.
    + simpl. rewrite lookup_insert_eq. eauto.
Qed.

Lemma schema_wf_wf s : schema_wf s → TableStructure.wf s.
Proof.
  intros [Hidx Hbound]. split; [|done].
  intros n idx (c & Hc & _)%Hidx. by eapply lookup_lt_Some.
Qed.

Lemma schema_wf_hasColumn s n :
  schema_wf s →
  TableStructure.hasColumn s n = true ↔
  n ∈ map TableStructure.name (TableStructure.columns s).
Proof.
  intros [Hidx Hbound]. rewrite hasColumn_true. split.
  - intros [idx (c & Hc & <-)%Hidx]. apply list_elem_of_fmap.
    exists c. split; [done|]. by eapply list_elem_of_lookup_2.
  - intros (c & -> & Hc)%list_elem_of_fmap. by apply Hbound.
Qed.

Lemma schema_wf_getColumnByName s n :
  schema_wf s →
  match TableStructure.getColumnByName s n with
  | Ok d => d ∈ TableStructure.columns s ∧ TableStructure.name d = n
  | Throw what =>
      (n ∉ map TableStructure.name (TableStructure.columns s)) ∧
      what = "Column '" +:+ n +:+ "' not found in table structure"
  | Undefined => False
  end.
Proof.
  intros Hwf. pose proof (schema_wf_hasColumn s n Hwf) as Hhas.
  rewrite hasColumn_true in Hhas. destruct Hwf as [Hidx _].
  unfold TableStructure.getColumnByName, TableStructure.getColumnIndex,
    TableStructure.getColumnByIndex.
  destruct (TableStructure.column_indices s !! n) as [idx|] eqn:Hn; simpl.
  - destruct (Hidx _ _ Hn) as (c & Hc & Hname). rewrite Hc.
    split; [by eapply list_elem_of_lookup_2 | done].
  - split; [|done]. intros Hin%Hhas. by destruct Hin.
Qed.

Lemma createDataType_cases name :
  match createDataType name with
  | Ok t => accepted_type_name name ∧ getName t = name
  | Throw what =>
      ¬ accepted_type_name name ∧ ∃ s, what = "Unknown data type: " +:+ s
  | Undefined => False
  end.
Proof.
  pose proof (createDataType_rec_spec _ name (le_n _)) as Hspec.
  fold (createDataType name) in Hspec.
  destruct (createDataType name) as [t|what|]; [| |done].
  - split; [|done]. apply accepted_iff_getName. eauto.
  - destruct Hspec as [Hno Hmsg]. split; [|done].
    intros [t Ht]%accepted_iff_getName. by apply (Hno t).
Qed.

(** The loop of [executeCreateTable] over the declared columns. *)
Lemma create_columns (tables_ : SQLExecutor.tables) cols structure :
  match
    Exec.foldM
      (λ structure '(col_name, type_name),
         data_type ←
           Exec.try_catch (createDataType type_name)
             (λ what,
                Return (QueryResult.status false
                          ("Error creating column '" +:+ col_name
                           +:+ "': " +:+ what), tables_));
         Next (TableStructure.addColumn col_name data_type structure))
      structure cols
  with
  | Next structure' =>
      Forall (λ col : string * string, accepted_type_name col.2) cols ∧
      TableStructure.table_name structure'
        = TableStructure.table_name structure ∧
      (schema_wf structure → schema_wf structure') ∧
      ∃ defs, TableStructure.columns structure'
              = TableStructure.columns structure ++ defs ∧
              map declaration defs = cols
  | Return rt =>
      ∃ c ty s, (c, ty) ∈ cols ∧ ¬ accepted_type_name ty ∧
                rt = (QueryResult.status false
                        ("Error creating column '" +:+ c
                         +:+ "': Unknown data type: " +:+ s), tables_)
  | _ => False
  end.
Proof.
  revert structure. induction cols as [|[c ty] cols IH]; intros structure.
  - simpl. split; [done|]. split; [done|]. split; [done|].
    exists []. by rewrite app_nil_r.
  - rewrite foldM_cons. pose proof (createDataType_cases ty) as Hty.
    destruct (createDataType ty) as [t|what|];
      cbn [Exec.try_catch mbind exec_bind]; [| |done].
    + destruct Hty as [Hacc Hname].
      specialize (IH (TableStructure.addColumn c t structure)).
      destruct (Exec.foldM _ _ cols) as [structure'|rt| |]; [| |done..].
      * destruct IH as (Hall & Htable & Hwf & defs & Hcols & Hdecl).
        split; [by constructor|]. split; [done|].
        split; [by intros ?%(schema_wf_addColumn c t)%Hwf|].
        exists (TableStructure.mkColumnDefinition c t :: defs). split.
        -- rewrite Hcols. simpl. by rewrite <- app_assoc.
        -- simpl. unfold declaration at 1. simpl. by rewrite Hname, Hdecl.
      * destruct IH as (c' & ty' & s & Hin & Hno & ->).
        exists c', ty', s. split; [by right | done].
    + destruct Hty as [Hno [s ->]]. exists c, ty, s.
      split; [by left|]. split; [done|]. reflexivity.
Qed.

Lemma executeCreateTable_cases ast tables_ :
  match SQLExecutor.executeCreateTable ast tables_ with
  | Ok (r, tables') =>
      (is_Some (tables_ !! CreateTableAST.table_name ast) ∧
       r = QueryResult.status false
             ("Table '" +:+ CreateTableAST.table_name ast
              +:+ "' already exists") ∧
       tables' = tables_) ∨
      (tables_ !! CreateTableAST.table_name ast = None ∧
       ∃ c ty s, (c, ty) ∈ CreateTableAST.columns ast ∧
                 ¬ accepted_type_name ty ∧
                 r = QueryResult.status false
                       ("Error creating column '" +:+ c
                        +:+ "': Unknown data type: " +:+ s) ∧
                 tables' = tables_) ∨
      (tables_ !! CreateTableAST.table_name ast = None ∧
       Forall (λ col : string * string, accepted_type_name col.2)
              (CreateTableAST.columns ast) ∧
       CreateTableAST.engine ast ≠ "Memory" ∧
       r = QueryResult.status false
             ("Error creating storage engine: Unknown storage engine: "
              +:+ CreateTableAST.engine ast) ∧
       tables' = tables_) ∨
      (tables_ !! CreateTableAST.table_name ast = None ∧
       Forall (λ col : string * string, accepted_type_name col.2)
              (CreateTableAST.columns ast) ∧
       CreateTableAST.engine ast = "Memory" ∧
       r = QueryResult.status true "Table created successfully" ∧
       ∃ structure,
         tables' = <[CreateTableAST.table_name ast
                       := MemoryStorage.create structure]> tables_ ∧
         TableStructure.table_name structure = CreateTableAST.table_name ast ∧
         schema_wf structure ∧
         map declaration (TableStructure.columns structure)
           = CreateTableAST.columns ast)
  | _ => False
  end.
Proof.
  unfold SQLExecutor.executeCreateTable. cbv zeta.
  destruct (tables_ !! CreateTableAST.table_name ast) as [st|] eqn:Hst.
  { rewrite bool_decide_true by eauto. simpl. left. eauto. }
  rewrite bool_decide_false by (by intros [? ?]).
  pose proof (create_columns tables_ (CreateTableAST.columns ast)
                (TableStructure.create (CreateTableAST.table_name ast)))
    as Hloop.
  destruct (Exec.foldM _ _ (CreateTableAST.columns ast))
    as [structure|[r t]| |]; cbn [mbind exec_bind Exec.run]; [| |done..].
  - destruct Hloop as (Hall & Htable & Hwf & defs & Hcols & Hdecl).
    unfold createStorage.
    destruct (String.eqb_spec (CreateTableAST.engine ast) "Memory")
      as [Heng|Heng]; cbn [Exec.try_catch mbind exec_bind Exec.run].
    + do 3 right. do 4 (split; [done|]). exists structure.
      split; [done|]. split; [done|].
      split; [apply Hwf, schema_wf_create|]. by rewrite Hcols.
    + right. right. left. by repeat split.
  - destruct Hloop as (c & ty & s & Hin & Hno & [= -> ->]).
    right. left. split; [done|]. by exists c, ty, s.
Qed.

(** X6 (executor.cpp, executeCreateTable; storage_factory.cpp,
    createStorage): CREATE TABLE always returns a result; it succeeds
    exactly when the name is free, every declared type name is accepted by
    the type factory and the engine is [Memory]; a failure leaves the
    registry as it was, and its message names the taken table name, or a
    column whose type is not accepted, or the unknown engine, in this
    order of precedence. *)
Theorem create_table_outcome (ast : CreateTableAST.t)
    (tables_ : SQLExecutor.tables) :
  ∃ r tables',
    SQLExecutor.executeCreateTable ast tables_ = Ok (r, tables') ∧
    (QueryResult.success r = true ↔
     tables_ !! CreateTableAST.table_name ast = None ∧
     Forall (λ col : string * string, accepted_type_name col.2)
            (CreateTableAST.columns ast) ∧
     CreateTableAST.engine ast = "Memory") ∧
    (QueryResult.success r = false → tables' = tables_) ∧
    (is_Some (tables_ !! CreateTableAST.table_name ast) →
     QueryResult.errorMessage r
     = "Table '" +:+ CreateTableAST.table_name ast +:+ "' already exists") ∧
    (tables_ !! CreateTableAST.table_name ast = None →
     ¬ Forall (λ col : string * string, accepted_type_name col.2)
              (CreateTableAST.columns ast) →
     ∃ c ty s, (c, ty) ∈ CreateTableAST.columns ast ∧
               ¬ accepted_type_name ty ∧
               QueryResult.errorMessage r
               = "Error creating column '" +:+ c
                 +:+ "': Unknown data type: " +:+ s) ∧
    (tables_ !! CreateTableAST.table_name ast = None →
     Forall (λ col : string * string, accepted_type_name col.2)
            (CreateTableAST.columns ast) →
     CreateTableAST.engine ast ≠ "Memory" →
     QueryResult.errorMessage r
     = "Error creating storage engine: Unknown storage engine: "
       +:+ CreateTableAST.engine ast).
Proof.
  pose proof (executeCreateTable_cases ast tables_) as Hcases.
  destruct (SQLExecutor.executeCreateTable ast tables_) as [[r tables']| |];
    [|done..].
  exists r, tables'. split; [done|].
  destruct Hcases
    as [(Hsome & -> & ->)
       |[(Hnone & c & ty & s & Hin & Hno & -> & ->)
        |[(Hnone & Hall & Heng & -> & ->)
         |(Hnone & Hall & Heng & -> & structure & -> & _)]]]; simpl.
  - split; [|split; [done|]].
    { split; [done|]. intros (Hnone & _). rewrite Hnone in Hsome.
      by destruct Hsome. }
    split; [done|]. split; intros Hnone; rewrite Hnone in Hsome;
      by destruct Hsome.
  - assert (¬ Forall (λ col : string * string, accepted_type_name col.2)
                (CreateTableAST.columns ast)) as Hnot.
    { intros Hall. rewrite Forall_forall in Hall. by apply Hno, (Hall (c, ty)). }
    split; [|split; [done|]].
    { split; [done|]. by intros (_ & Hall & _). }
    split; [intros Hsome; rewrite Hnone in Hsome; by destruct Hsome|].
    split; [by intros _ _; exists c, ty, s | done].
  - split; [|split; [done|]].
    { split; [done|]. by intros (_ & _ & ?). }
    split; [intros Hsome; rewrite Hnone in Hsome; by destruct Hsome|].
    split; [done | by intros _ _ _].
  - split; [done|]. split; [done|].
    split; [intros Hsome; rewrite Hnone in Hsome; by destruct Hsome|].
    split; done.
Qed.

(** X7 (executor.cpp, executeCreateTable; table.h, addColumn): a
    successful CREATE TABLE registers, under the name of the statement, an
    empty storage whose schema renders back to the declared columns, names
    and type names, in the declared order; the schema keeps the invariant
    of its index, and every other table stays as it was. *)
Theorem create_table_schema (ast : CreateTableAST.t)
    (tables_ tables' : SQLExecutor.tables) (r : QueryResult.t) :
  SQLExecutor.executeCreateTable ast tables_ = Ok (r, tables') →
  QueryResult.success r = true →
  ∃ structure,
    tables_ !! CreateTableAST.table_name ast = None ∧
    tables' = <[CreateTableAST.table_name ast
                  := MemoryStorage.mk structure []]> tables_ ∧
    TableStructure.table_name structure = CreateTableAST.table_name ast ∧
    map declaration (TableStructure.columns structure)
      = CreateTableAST.columns ast ∧
    schema_wf structure ∧
    (∀ n, TableStructure.hasColumn structure n = true ↔
          n ∈ (CreateTableAST.columns ast).*1) ∧
    r = QueryResult.status true "Table created successfully".
Proof.
  intros Hex Hok. pose proof (executeCreateTable_cases ast tables_) as Hcases.
  rewrite Hex in Hcases.
  destruct Hcases
    as [(_ & -> & _)|[(_ & c & ty & s & _ & _ & -> & _)
                     |[(_ & _ & _ & -> & _)
                      |(Hnone & _ & _ & -> & structure & -> & Htable & Hwf
                        & Hdecl)]]]; try done.
  exists structure. do 5 (split; [done|]). split; [|done].
  intros n. rewrite (schema_wf_hasColumn _ _ Hwf), <- Hdecl.
  rewrite <- list_fmap_compose. done.
Qed.

Lemma create_table_schema_witness :
  ∃ structure,
    (∅ : SQLExecutor.tables) !! "t" = None ∧
    InsertExample.before = <["t" := MemoryStorage.mk structure []]> ∅ ∧
    TableStructure.table_name structure = "t" ∧
    map declaration (TableStructure.columns structure)
      = [("a", "Int32"); ("b", "Int32")] ∧
    schema_wf structure ∧
    (∀ n, TableStructure.hasColumn structure n = true ↔
          n ∈ [("a", "Int32"); ("b", "Int32")].*1) ∧
    CreateExample.result = QueryResult.status true "Table created successfully".
Proof.
  apply (create_table_schema CreateExample.ast ∅ InsertExample.before
           CreateExample.result).
  - vm_compute. reflexivity.
  - reflexivity.
Defined.

(** ** [MemoryStorage::read] *)

Lemma Result_foldM_app {A S} (f : S → A → result S) s l1 l2 :
  Result.foldM f s (l1 ++ l2) = Result.foldM f s l1 ≫= λ s', Result.foldM f s' l2.
Proof.
  revert s; induction l1 as [|x l1 IH]; intros s; [done|].
  simpl. destruct (f s x); simpl; [apply IH | done..].
Qed.

(** The loop of [read] that checks the requested names. *)
Lemma read_check structure names :
  match
    Result.foldM
      (λ (_ : unit) col_name,
         if negb (TableStructure.hasColumn structure col_name)
         then Throw ("Column '" +:+ col_name +:+ "' not found in table")
         else Ok tt)
      tt names
  with
  | Ok _ => Forall (λ c, TableStructure.hasColumn structure c = true) names
  | Throw what =>
      ∃ pre c post,
        names = pre ++ c :: post ∧
        Forall (λ c, TableStructure.hasColumn structure c = true) pre ∧
        TableStructure.hasColumn structure c = false ∧
        what = "Column '" +:+ c +:+ "' not found in table"
  | Undefined => False
  end.
Proof.
  induction names as [|n names IH]; [by constructor|].
  simpl. destruct (TableStructure.hasColumn structure n) eqn:Hn; simpl.
  - destruct (Result.foldM _ tt names) as [[]|what|]; [by constructor| |done].
    destruct IH as (pre & c & post & -> & Hpre & Hc & ->).
    exists (n :: pre), c, post. by repeat constructor.
  - by exists [], n, names.
Qed.

(** The loop of [read] over the requested names, for one stored block. *)
Lemma project_cases names block :
  match MemoryStorage.project names block with
  | Ok projected => projection names block projected
  | Throw what =>
      ∃ c, c ∈ names ∧ Block.column_indices block !! c = None ∧
           what = "Column '" +:+ c +:+ "' not found in block"
  | Undefined => ¬ block_wf block
  end.
Proof.
  unfold MemoryStorage.project, projection.
  assert (∀ new_block,
    match
      Result.foldM
        (λ new_block col_name,
           col ← Block.getColumnByName block col_name;
           Ok (Block.addColumn col_name (Block.column col) new_block))
        new_block names
    with
    | Ok projected =>
        ∃ cols, Block.columns projected = Block.columns new_block ++ cols ∧
                Forall2 (λ n c', ∃ c, Block.getColumnByName block n = Ok c ∧
                                      c' = Block.mkColumnWithName n
                                             (Block.column c))
                        names cols
    | Throw what =>
        ∃ c, c ∈ names ∧ Block.column_indices block !! c = None ∧
             what = "Column '" +:+ c +:+ "' not found in block"
    | Undefined => ¬ block_wf block
    end) as Hgen.
  { induction names as [|n names IH]; intros new_block.
    - simpl. exists []. by rewrite app_nil_r.
    - simpl.
      destruct (Block.getColumnByName block n) as [c|what|] eqn:Hc; simpl.
      + specialize (IH (Block.addColumn n (Block.column c) new_block)).
        destruct (Result.foldM _ _ names) as [projected|what|]; [| |done].
        * destruct IH as (cols & Hcols & Hall). simpl in Hcols.
          exists (Block.mkColumnWithName n (Block.column c) :: cols).
          split; [by rewrite Hcols, <- app_assoc|]. constructor; [|done]. eauto.
        * destruct IH as (c' & Hin & Hnone & ->). exists c'.
          split; [by right | done].
      + unfold Block.getColumnByName, Block.getColumnIndex,
          Block.getColumnByIndex in Hc.
        destruct (Block.column_indices block !! n) as [idx|] eqn:Hn;
          simpl in Hc; [by destruct (Block.columns block !! idx)|].
        injection Hc as <-. exists n. split; [by left | done].
      + unfold Block.getColumnByName, Block.getColumnIndex,
          Block.getColumnByIndex in Hc.
        destruct (Block.column_indices block !! n) as [idx|] eqn:Hn;
          simpl in Hc; [|done].
        intros [Hidx _]. destruct (Hidx _ _ Hn) as (c & Hcol & _).
        by rewrite Hcol in Hc. }
  specialize (Hgen Block.empty).
  destruct (Result.foldM _ Block.empty names) as [projected|what|]; [|done..].
  destruct Hgen as (cols & Hcols & Hall). simpl in Hcols. by rewrite Hcols.
Qed.

Lemma mapM_project_cases names blocks :
  match Result.mapM (MemoryStorage.project names) blocks with
  | Ok read => Forall2 (projection names) blocks read
  | Throw what =>
      ∃ block c, block ∈ blocks ∧ c ∈ names ∧
                 Block.column_indices block !! c = None ∧
                 what = "Column '" +:+ c +:+ "' not found in block"
  | Undefined => ∃ block, block ∈ blocks ∧ ¬ block_wf block
  end.
Proof.
  induction blocks as [|block blocks IH]; [by constructor|].
  simpl. pose proof (project_cases names block) as Hblock.
  destruct (MemoryStorage.project names block) as [projected|what|]; simpl.
  - destruct (Result.mapM _ blocks) as [read|what|]; simpl.
    + by constructor.
    + destruct IH as (b & c & Hb & Hc & Hnone & ->). exists b, c.
      split; [by right | done].
    + destruct IH as (b & Hb & Hwf). exists b. split; [by right | done].
  - destruct Hblock as (c & Hc & Hnone & ->). exists block, c.
    split; [by left | done].
  - exists block. split; [by left | done].
Qed.

(** X8 (memory_engine.h, read): [read] checks the requested names against
    the schema first, and throws for the first that the schema lacks, also
    on a storage without blocks.  Past this check it returns one block per
    stored block, in order, each with one column per requested name, in
    the order of the request, holding the column the stored block has
    under that name; it throws when a stored block lacks a requested name,
    and is undefined only on a stored block whose index is broken. *)
Theorem read_projects_blocks (column_names : list string)
    (storage : MemoryStorage.t) :
  match MemoryStorage.read column_names storage with
  | Ok read =>
      Forall (λ c, TableStructure.hasColumn
                     (MemoryStorage.structure storage) c = true)
             column_names ∧
      Forall2 (projection column_names) (MemoryStorage.blocks storage) read
  | Throw what =>
      (∃ pre c post,
         column_names = pre ++ c :: post ∧
         Forall (λ c, TableStructure.hasColumn
                        (MemoryStorage.structure storage) c = true) pre ∧
         TableStructure.hasColumn (MemoryStorage.structure storage) c
           = false ∧
         what = "Column '" +:+ c +:+ "' not found in table") ∨
      (Forall (λ c, TableStructure.hasColumn
                      (MemoryStorage.structure storage) c = true)
              column_names ∧
       ∃ block c, block ∈ MemoryStorage.blocks storage ∧ c ∈ column_names ∧
                  Block.column_indices block !! c = None ∧
                  what = "Column '" +:+ c +:+ "' not found in block")
  | Undefined =>
      ∃ block, block ∈ MemoryStorage.blocks storage ∧ ¬ block_wf block
  end.
Proof.
  unfold MemoryStorage.read.
  pose proof (read_check (MemoryStorage.structure storage) column_names)
    as Hcheck.
  destruct (Result.foldM _ tt column_names) as [[]|what|]; simpl;
    [|by left|done].
  pose proof (mapM_project_cases column_names (MemoryStorage.blocks storage))
    as Hmap.
  destruct (MemoryStorage.blocks storage) as [|block blocks] eqn:Hblocks.
  - split; [done | constructor].
  - destruct (Result.mapM _ (block :: blocks)) as [read|what|]; [done| |done].
    right. done.
Qed.

(** ** [MemoryStorage::validateBlock] *)

Lemma validateColumns_cases structure cols :
  schema_wf structure →
  match MemoryStorage.validateColumns structure cols with
  | Ok true =>
      Forall (λ c, ∃ d, TableStructure.getColumnByName structure (Block.name c)
                        = Ok d ∧
                        getTypeId (IColumn.getDataType (Block.column c))
                        = getTypeId (TableStructure.type d)) cols
  | Ok false =>
      ∃ c d, c ∈ cols ∧
             TableStructure.getColumnByName structure (Block.name c) = Ok d ∧
             getTypeId (IColumn.getDataType (Block.column c))
             ≠ getTypeId (TableStructure.type d)
  | Throw what =>
      ∃ c, c ∈ cols ∧
           TableStructure.hasColumn structure (Block.name c) = false ∧
           what = "Column '" +:+ Block.name c
                  +:+ "' not found in table structure"
  | Undefined => False
  end.
Proof.
  intros Hwf. induction cols as [|c cols IH]; [by constructor|].
  simpl. pose proof (schema_wf_getColumnByName structure (Block.name c) Hwf)
    as Hget.
  destruct (TableStructure.getColumnByName structure (Block.name c))
    as [d|what|] eqn:Hd; simpl; [| |done].
  - rewrite (getColumnByName_hasColumn _ _ _ Hd). simpl.
    destruct (decide (getTypeId (IColumn.getDataType (Block.column c))
                      = getTypeId (TableStructure.type d))) as [Heq|Hne].
    + rewrite bool_decide_true by done. simpl.
      destruct (MemoryStorage.validateColumns structure cols)
        as [[]|what|]; [| | |done].
      * constructor; [by exists d | done].
      * destruct IH as (c' & d' & Hin & Hd' & Hne). exists c', d'.
        split; [by right | done].
      * destruct IH as (c' & Hin & Hhas & ->). exists c'.
        split; [by right | done].
    + rewrite bool_decide_false by done. simpl. exists c, d.
      split; [by left | done].
  - destruct Hget as [Hno ->]. exists c. split; [by left|]. split; [|done].
    apply not_true_is_false. by rewrite (schema_wf_hasColumn _ _ Hwf).
Qed.

Lemma validateColumns_prefix structure cols :
  schema_wf structure →
  match MemoryStorage.validateColumns structure cols with
  | Ok true => Forall (agrees structure) cols
  | Ok false =>
      ∃ pre c post d, cols = pre ++ c :: post ∧
        Forall (agrees structure) pre ∧
        TableStructure.getColumnByName structure (Block.name c) = Ok d ∧
        getTypeId (IColumn.getDataType (Block.column c))
        ≠ getTypeId (TableStructure.type d)
  | Throw what =>
      ∃ pre c post, cols = pre ++ c :: post ∧
        Forall (agrees structure) pre ∧
        TableStructure.hasColumn structure (Block.name c) = false ∧
        what = "Column '" +:+ Block.name c
               +:+ "' not found in table structure"
  | Undefined => False
  end.
Proof.
  intros Hwf. induction cols as [|c cols IH]; [by constructor|].
  simpl. pose proof (schema_wf_getColumnByName structure (Block.name c) Hwf)
    as Hget.
  destruct (TableStructure.getColumnByName structure (Block.name c))
    as [d|what|] eqn:Hd; simpl; [| |done].
  - rewrite (getColumnByName_hasColumn _ _ _ Hd). simpl.
    destruct (decide (getTypeId (IColumn.getDataType (Block.column c))
                      = getTypeId (TableStructure.type d))) as [Heq|Hne].
    + rewrite bool_decide_true by done. simpl.
      assert (agrees structure c) as Hc by (by exists d).
      destruct (MemoryStorage.validateColumns structure cols)
        as [[]|what|]; [| | |done].
      * by constructor.
      * destruct IH as (pre & c' & post & d' & -> & Hpre & Hd' & Hne).
        exists (c :: pre), c', post, d'.
        split; [done|]. split; [by constructor | done].
      * destruct IH as (pre & c' & post & -> & Hpre & Hhas & ->).
        exists (c :: pre), c', post.
        split; [done|]. split; [by constructor | done].
    + rewrite bool_decide_false by done. simpl. exists [], c, cols, d.
      split; [done|]. split; [by constructor | done].
  - destruct Hget as [Hno ->]. exists [], c, cols.
    split; [done|]. split; [by constructor|]. split; [|done].
    apply not_true_is_false. by rewrite (schema_wf_hasColumn _ _ Hwf).
Qed.

(** X9 (memory_engine.h, validateBlock and insert): against a schema that
    keeps the invariant of its index, a block is accepted exactly when it
    has as many columns as the schema and each of its columns agrees with
    the schema: the lookup of its name in the schema finds a column
    definition, and that definition has the kind of the column.  The
    lookup finds one definition per name, so that under a schema declaring
    a name twice a column is compared with the definition the index binds,
    whatever the other one says; nothing asks that the names of the block
    differ or that every schema column is covered.  Otherwise the columns
    are checked in order and the first one that does not agree decides: a
    name the schema lacks makes the lookup throw, a definition of another
    kind gives the answer false, as a differing column count does.  An
    accepted block is appended behind the stored ones. *)
Theorem validateBlock_accepts (storage : MemoryStorage.t) (block : Block.t) :
  schema_wf (MemoryStorage.structure storage) →
  (MemoryStorage.validateBlock storage block = Ok true ↔
   Block.getColumnCount block
     = TableStructure.getColumnCount (MemoryStorage.structure storage) ∧
   Forall (agrees (MemoryStorage.structure storage)) (Block.columns block)) ∧
  match MemoryStorage.validateBlock storage block with
  | Ok true =>
      MemoryStorage.insert block storage
        = Ok (MemoryStorage.mk (MemoryStorage.structure storage)
                (MemoryStorage.blocks storage ++ [block]))
  | Ok false =>
      (Block.getColumnCount block
         ≠ TableStructure.getColumnCount (MemoryStorage.structure storage) ∨
       ∃ pre c post d, Block.columns block = pre ++ c :: post ∧
         Forall (agrees (MemoryStorage.structure storage)) pre ∧
         TableStructure.getColumnByName
           (MemoryStorage.structure storage) (Block.name c) = Ok d ∧
         getTypeId (IColumn.getDataType (Block.column c))
         ≠ getTypeId (TableStructure.type d)) ∧
      MemoryStorage.insert block storage
        = Throw "Block structure doesn't match table structure"
  | Throw what =>
      Block.getColumnCount block
        = TableStructure.getColumnCount (MemoryStorage.structure storage) ∧
      (∃ pre c post, Block.columns block = pre ++ c :: post ∧
         Forall (agrees (MemoryStorage.structure storage)) pre ∧
         TableStructure.hasColumn (MemoryStorage.structure storage)
           (Block.name c) = false ∧
         what = "Column '" +:+ Block.name c
                +:+ "' not found in table structure") ∧
      MemoryStorage.insert block storage = Throw what
  | Undefined => False
  end.
Proof.
  intros Hwf. split.
  - unfold MemoryStorage.validateBlock.
    destruct (Nat.eqb_spec (Block.getColumnCount block)
                (TableStructure.getColumnCount
                   (MemoryStorage.structure storage))) as [Heq|Hne]; simpl.
    + split.
      * intros Hcols. split; [done|].
        pose proof (validateColumns_prefix (MemoryStorage.structure storage)
                      (Block.columns block) Hwf) as Hcases.
        by rewrite Hcols in Hcases.
      * intros [_ Hall]. by apply validateColumns_true.
    + split; [done | by intros [? _]].
  - unfold MemoryStorage.insert, MemoryStorage.validateBlock.
    destruct (Nat.eqb_spec (Block.getColumnCount block)
                (TableStructure.getColumnCount
                   (MemoryStorage.structure storage)))
      as [Heq|Hne]; simpl; [|by split; [left|]].
    pose proof (validateColumns_prefix (MemoryStorage.structure storage)
                  (Block.columns block) Hwf) as Hcols.
    destruct (MemoryStorage.validateColumns _ (Block.columns block))
      as [[]|what|]; simpl; [| | |done].
    + done.
    + split; [by right | done].
    + done.
Qed.

Lemma validateBlock_accepts_witness :
  (MemoryStorage.validateBlock DuplicateExample.storage
     DuplicateExample.block = Ok true ↔
   Block.getColumnCount DuplicateExample.block
     = TableStructure.getColumnCount
         (MemoryStorage.structure DuplicateExample.storage) ∧
   Forall (agrees (MemoryStorage.structure DuplicateExample.storage))
     (Block.columns DuplicateExample.block)) ∧
  (Block.getColumnCount DuplicateExample.block
     ≠ TableStructure.getColumnCount
         (MemoryStorage.structure DuplicateExample.storage) ∨
   ∃ pre c post d,
     Block.columns DuplicateExample.block = pre ++ c :: post ∧
     Forall (agrees (MemoryStorage.structure DuplicateExample.storage)) pre ∧
     TableStructure.getColumnByName
       (MemoryStorage.structure DuplicateExample.storage) (Block.name c)
     = Ok d ∧
     getTypeId (IColumn.getDataType (Block.column c))
     ≠ getTypeId (TableStructure.type d)) ∧
  MemoryStorage.insert DuplicateExample.block DuplicateExample.storage
    = Throw "Block structure doesn't match table structure".
Proof.
  apply (validateBlock_accepts DuplicateExample.storage
           DuplicateExample.block).
  apply schema_wf_addColumn, schema_wf_addColumn, schema_wf_create.
Defined.

Section InsertRejected.
Context `{StdConversions}.

(** X10 (executor.cpp, executeInsert; memory_engine.h, validateBlock): an
    INSERT whose checks pass and whose texts all convert, but which names
    fewer or more target columns than the schema has columns, is refused
    by the storage: it fails with the message of the storage and stores
    nothing.  A column list must therefore name as many columns as the
    table has. *)
Theorem insert_column_count_mismatch (ast : InsertAST.t)
    (tables_ : SQLExecutor.tables) (storage : MemoryStorage.t)
    (column_names : list string) :
  tables_ !! InsertAST.table_name ast = Some storage →
  SQLExecutor.target_columns (MemoryStorage.structure storage) ast
    = Ok column_names →
  SQLExecutor.passes_checks (MemoryStorage.structure storage) ast
    column_names →
  Forall (λ n, ∃ T, supported (MemoryStorage.structure storage) n T)
         column_names →
  Forall (λ row, converts (MemoryStorage.structure storage) column_names
                   row (length row))
         (InsertAST.values ast) →
  length column_names
    ≠ TableStructure.getColumnCount (MemoryStorage.structure storage) →
  SQLExecutor.executeInsert ast tables_
  = Ok (QueryResult.status false
          "Error inserting data: Block structure doesn't match table structure",
        tables_).
Proof.
  intros Hst Htarget Hchecks Hsupp Hconv Hcount.
  destruct (executeInsert_checked _ _ _ _ Hst Htarget Hchecks Hsupp)
    as (columns & Hfill & ->).
  destruct Hchecks as (_ & _ & Hrows).
  destruct (fill_rows_progress tables_ _ _ _ _ Hrows Hconv Hfill)
    as (columns' & -> & Hfill').
  cbn [mbind exec_bind]. apply filling_inserted in Hfill' as [Hlen _].
  unfold MemoryStorage.insert, MemoryStorage.validateBlock,
    Block.getColumnCount.
  rewrite Hlen. by destruct (Nat.eqb_spec (length column_names)
    (TableStructure.getColumnCount (MemoryStorage.structure storage))).
Qed.
End InsertRejected.

Lemma insert_column_count_mismatch_witness :
  @SQLExecutor.executeInsert Reference.conversions PartialExample.ast
    InsertExample.before
  = Ok (QueryResult.status false
          "Error inserting data: Block structure doesn't match table structure",
        InsertExample.before).
Proof.
  apply (insert_column_count_mismatch (H:=Reference.conversions)
           PartialExample.ast InsertExample.before InsertExample.storage ["a"]).
  - vm_compute. reflexivity.
  - reflexivity.
  - split; [by repeat constructor|]. split; [discriminate|].
    by repeat constructor.
  - repeat constructor. exists int32_t. eexists. split; vm_compute; reflexivity.
  - repeat constructor. intros i s n Hi Hs Hn. simpl in Hi.
    destruct i as [|i]; [|lia]. simpl in Hs, Hn.
    injection Hs as <-. injection Hn as <-.
    exists int32_t. eexists. split; [eexists; split|]; vm_compute; reflexivity.
  - vm_compute. lia.
Defined.

(** ** A table between CREATE TABLE and DROP TABLE *)

Lemma std_unique_elem x l : x ∈ SQLExecutor.std_unique l → x ∈ l.
Proof.
  induction l as [|y l IH]; [done|]. simpl. destruct l as [|z l].
  - done.
  - destruct (String.eqb y z).
    + intros Hx. right. by apply IH.
    + intros [->|Hx]%elem_of_cons; [by left|]. right. by apply IH.
Qed.

Lemma std_sort_elem x l : x ∈ SQLExecutor.std_sort l ↔ x ∈ l.
Proof. unfold SQLExecutor.std_sort. by rewrite merge_sort_Permutation. Qed.

Lemma read_empty names structure :
  Forall (λ c, TableStructure.hasColumn structure c = true) names →
  MemoryStorage.read names (MemoryStorage.mk structure []) = Ok [].
Proof.
  intros Hall. unfold MemoryStorage.read. simpl.
  pose proof (read_check structure names) as Hcheck.
  destruct (Result.foldM _ tt names) as [[]|what|]; [done| |done].
  destruct Hcheck as (pre & c & post & -> & _ & Hc & _).
  apply Forall_app in Hall as [_ [Hc' _]%Forall_cons]. congruence.
Qed.

(** X11 (executor.cpp, executeCreateTable and executeSelect): on the
    registry a successful CREATE TABLE leaves, [SELECT * FROM] the new
    table succeeds with no block, whatever its other clauses, and names
    the declared columns in the declared order. *)
Theorem select_all_of_created_table (ast : CreateTableAST.t)
    (tables_ tables' : SQLExecutor.tables) (r : QueryResult.t)
    (sel : SelectAST.t) :
  SQLExecutor.executeCreateTable ast tables_ = Ok (r, tables') →
  QueryResult.success r = true →
  SelectAST.select_all sel = true →
  SelectAST.table_name sel = CreateTableAST.table_name ast →
  SQLExecutor.executeSelect sel tables'
  = Ok (QueryResult.of_blocks [] (CreateTableAST.columns ast).*1).
Proof.
  intros Hex Hok Hall Hname.
  pose proof (executeCreateTable_cases ast tables_) as Hcases.
  rewrite Hex in Hcases.
  destruct Hcases
    as [(_ & -> & _)|[(_ & c & ty & s & _ & _ & -> & _)
                     |[(_ & _ & _ & -> & _)
                      |(Hnone & _ & _ & -> & structure & -> & Htable & Hwf
                        & Hdecl)]]]; try done.
  assert (map TableStructure.name (TableStructure.columns structure)
          = (CreateTableAST.columns ast).*1) as Hnames.
  { rewrite <- Hdecl. by rewrite <- list_fmap_compose. }
  unfold SQLExecutor.executeSelect. rewrite Hname, lookup_insert_eq.
  cbv zeta. unfold SQLExecutor.requested_columns. rewrite Hall.
  unfold MemoryStorage.getTableStructure, MemoryStorage.create.
  cbn [MemoryStorage.structure]. rewrite schema_names_eq, Hnames.
  cbn [Exec.call mbind exec_bind].
  rewrite read_empty; [done|].
  apply Forall_forall. intros n Hn. apply std_unique_elem in Hn.
  apply (proj1 (std_sort_elem _ _)) in Hn.
  apply (schema_wf_hasColumn _ _ Hwf). by rewrite Hnames.
Qed.

Lemma select_all_of_created_table_witness :
  SQLExecutor.executeSelect Examples.select_star InsertExample.before
  = Ok (QueryResult.of_blocks [] ["a"; "b"]).
Proof.
  apply (select_all_of_created_table CreateExample.ast ∅ InsertExample.before
           CreateExample.result Examples.select_star).
  - vm_compute. reflexivity.
  - reflexivity.
  - reflexivity.
  - reflexivity.
Defined.

Section DropTable.
Context `{StdConversions}.

(** X12 (executor.cpp, executeDropTable, executeSelect and executeInsert):
    DROP TABLE always returns a result and leaves a registry without the
    table and with every other table as before; it reports success exactly
    when the table was registered or the statement has IF EXISTS.  On the
    registry it leaves, SELECT and INSERT on the dropped name fail with the
    message that the table does not exist, and INSERT changes nothing. *)
Theorem drop_table_outcome (ast : DropTableAST.t)
    (tables_ : SQLExecutor.tables) :
  ∃ r,
    SQLExecutor.executeDropTable ast tables_
    = Ok (r, delete (DropTableAST.table_name ast) tables_) ∧
    (QueryResult.success r = true ↔
     is_Some (tables_ !! DropTableAST.table_name ast) ∨
     DropTableAST.if_exists ast = true) ∧
    (∀ sel, SelectAST.table_name sel = DropTableAST.table_name ast →
       SQLExecutor.executeSelect sel
         (delete (DropTableAST.table_name ast) tables_)
       = Ok (QueryResult.status false
               ("Table '" +:+ DropTableAST.table_name ast
                +:+ "' doesn't exist"))) ∧
    (∀ ins, InsertAST.table_name ins = DropTableAST.table_name ast →
       SQLExecutor.executeInsert ins
         (delete (DropTableAST.table_name ast) tables_)
       = Ok (QueryResult.status false
               ("Table '" +:+ DropTableAST.table_name ast
                +:+ "' doesn't exist"),
             delete (DropTableAST.table_name ast) tables_)).
Proof.
  unfold SQLExecutor.executeDropTable. cbv zeta.
  assert (∀ sel, SelectAST.table_name sel = DropTableAST.table_name ast →
            SQLExecutor.executeSelect sel
              (delete (DropTableAST.table_name ast) tables_)
            = Ok (QueryResult.status false
                    ("Table '" +:+ DropTableAST.table_name ast
                     +:+ "' doesn't exist"))) as Hsel.
  { intros sel Hname. unfold SQLExecutor.executeSelect.
    by rewrite Hname, lookup_delete_eq. }
  assert (∀ ins, InsertAST.table_name ins = DropTableAST.table_name ast →
            SQLExecutor.executeInsert ins
              (delete (DropTableAST.table_name ast) tables_)
            = Ok (QueryResult.status false
                    ("Table '" +:+ DropTableAST.table_name ast
                     +:+ "' doesn't exist"),
                  delete (DropTableAST.table_name ast) tables_)) as Hins.
  { intros ins Hname. unfold SQLExecutor.executeInsert.
    by rewrite Hname, lookup_delete_eq. }
  destruct (tables_ !! DropTableAST.table_name ast) as [storage|] eqn:Hst.
  - eexists. split; [done|]. split; [|done]. split; [eauto | done].
  - rewrite (delete_id tables_ _ Hst) in *.
    destruct (DropTableAST.if_exists ast); eexists; (split; [done|]);
      (split; [|done]); simpl.
    + split; [eauto | done].
    + split; [done|]. by intros [[? ?]|?].
Qed.
End DropTable.

(** ** The aggregates as folds over the fields of a column *)

Lemma foldM_at {S} (step : S → Field.t → result S) (g : nat → result Field.t)
    l fields s :
  map g l = map Ok fields →
  Result.foldM (λ s i, field ← g i; step s field) s l
  = Result.foldM step s fields.
Proof.
  revert fields s. induction l as [|i l IH]; intros [|f fields] s Hmap;
    try done.
  simpl in Hmap. injection Hmap as Hi Hmap. simpl. rewrite Hi. simpl.
  destruct (step s f); simpl; [by apply IH | done..].
Qed.

Lemma for_each_field_fields {S} (step : S → Field.t → result S)
    blocks column_name fields init :
  column_fields blocks column_name fields →
  SQLExecutor.for_each_field step blocks column_name init
  = Result.foldM step init fields.
Proof.
  intros (per_block & Hall & ->). unfold SQLExecutor.for_each_field.
  revert init. induction Hall as [|block fs blocks per_block Hb _ IH];
    intros init; [done|].
  simpl. rewrite Result_foldM_app. unfold visits in Hb.
  destruct (_ || _).
  - subst fs. simpl. apply IH.
  - destruct Hb as (col & -> & Hfields). simpl.
    rewrite (foldM_at step _ _ fs init Hfields).
    destruct (Result.foldM step init fs); simpl; [apply IH | done..].
Qed.

Lemma foldM_non_null {S} (step : S → Field.t → result S) fields s :
  (∀ s field, Field.isNull field = true → step s field = Ok s) →
  Result.foldM step s fields = Result.foldM step s (non_null fields).
Proof.
  intros Hnull. revert s. induction fields as [|f fields IH]; intros s; [done|].
  unfold non_null. simpl. destruct (Field.isNull f) eqn:Hf; simpl.
  - rewrite filter_cons_False by (rewrite Hf; exact id).
    rewrite (Hnull _ _ Hf). apply IH.
  - rewrite filter_cons_True by (rewrite Hf; exact I). simpl.
    destruct (step s f); simpl; [apply IH | done..].
Qed.

Lemma non_null_forall fields :
  Forall (λ field, Field.isNull field = false) (non_null fields).
Proof.
  apply Forall_forall. intros f [Hf _]%list_elem_of_filter.
  by destruct (Field.isNull f).
Qed.

Lemma isNull_make T v : Field.isNull (Field.make T v) = false.
Proof. by destruct T. Qed.

Lemma get_make T v : Field.get T (Field.make T v) = Ok v.
Proof. by destruct T. Qed.

(** X13 (executor.cpp, computeCount and computeAggregate): COUNT over a
    named column is the number of its non-null fields in the blocks the
    loops visit, reduced to 64 bits. *)
Theorem count_counts_non_null (blocks : list Block.t) (column_name : string)
    (fields : list Field.t) (T : CppType) (alias : string) :
  column_fields blocks column_name fields →
  column_name ≠ "*" →
  SQLExecutor.computeCount uint64_t blocks column_name
    = Ok (Z.of_nat (length (non_null fields)) mod 2 ^ 64) ∧
  ∃ result_name,
    SQLExecutor.computeAggregate T
      (ColumnExpression.mk column_name alias COUNT) blocks
    = Ok (result_name,
          IColumn.Vector uint64_t
            (ColumnVector.mk (T:=uint64_t)
               [Z.of_nat (length (non_null fields)) mod 2 ^ 64]
               DataTypeUInt64)) ∧
    result_name = if String.eqb alias ""
                  then "COUNT(" +:+ column_name +:+ ")" else alias.
Proof.
  intros Hfields Hstar.
  assert (SQLExecutor.computeCount uint64_t blocks column_name
          = Ok (Z.of_nat (length (non_null fields)) mod 2 ^ 64)) as Hcount.
  { unfold SQLExecutor.computeCount.
    rewrite (for_each_field_fields _ _ _ _ _ Hfields).
    rewrite foldM_non_null by (by intros s f ->).
    assert (∀ l count,
              Forall (λ field, Field.isNull field = false) l →
              Result.foldM
                (λ (count : native uint64_t) field,
                   if negb (Field.isNull field)
                   then Ok (Arith.add uint64_t count
                              (Arith.of_num uint64_t (Arith.Int 1)))
                   else Ok count) count l
              = Ok (if l is [] then count
                    else (count + Z.of_nat (length l)) mod 2 ^ 64)) as Hfold.
    { induction l as [|f l IH]; intros count Hl; [done|].
      apply Forall_cons in Hl as [Hf Hl]. cbn [Result.foldM]. rewrite Hf.
      cbn [negb mbind result_bind]. rewrite (IH _ Hl).
      change (Arith.add uint64_t count (Arith.of_num uint64_t (Arith.Int 1)))
        with ((count + 1) mod 2 ^ 64).
      destruct l as [|f' l]; [reflexivity|].
      rewrite Zplus_mod_idemp_l. do 2 f_equal. cbn [length]. lia. }
    rewrite (Hfold _ _ (non_null_forall fields)).
    destruct (non_null fields); [done|]. f_equal. }
  split; [exact Hcount|].
  exists (if String.eqb alias "" then "COUNT(" +:+ column_name +:+ ")"
          else alias).
  split; [|reflexivity].
  unfold SQLExecutor.computeAggregate.
  cbn [ColumnExpression.agg_type ColumnExpression.column ColumnExpression.alias].
  destruct (String.eqb_spec column_name "*"); [done|].
  rewrite Hcount. reflexivity.
Qed.

Lemma example_column_fields :
  column_fields AggregateExample.blocks "a" AggregateExample.fields.
Proof.
  exists [[Field.of_int32 1; Field.of_int32 3];
          [Field.of_int32 5; Field.of_int32 7]].
  split; [|reflexivity]. vm_compute. repeat econstructor.
Qed.

Lemma count_counts_non_null_witness :
  SQLExecutor.computeCount uint64_t AggregateExample.blocks "a" = Ok 4 ∧
  ∃ result_name,
    SQLExecutor.computeAggregate int32_t
      (ColumnExpression.mk "a" "" COUNT) AggregateExample.blocks
    = Ok (result_name,
          IColumn.Vector uint64_t
            (ColumnVector.mk (T:=uint64_t) [4] DataTypeUInt64)) ∧
    result_name = "COUNT(a)".
Proof.
  apply (count_counts_non_null AggregateExample.blocks "a"
           AggregateExample.fields int32_t "").
  - apply example_column_fields.
  - discriminate.
Defined.

(** *** Integer arithmetic of the templates *)

Lemma static_cast_integral T R v :
  is_integral T = true → is_integral R = true →
  as_Z R (Arith.static_cast T R v) = wrap R (as_Z T v).
Proof. by destruct T, R. Qed.

Lemma add_integral R a b :
  is_integral R = true →
  as_Z R (Arith.add R a b) = wrap R (as_Z R a + as_Z R b).
Proof. by destruct R. Qed.

Lemma lt_integral R a b :
  is_integral R = true → Arith.lt R a b = (as_Z R a <? as_Z R b).
Proof. by destruct R. Qed.

Lemma zero_integral R : is_integral R = true → as_Z R (Arith.zero R) = 0.
Proof. by destruct R. Qed.

Lemma as_Z_inj R a b : is_integral R = true → as_Z R a = as_Z R b → a = b.
Proof. by destruct R. Qed.

Lemma wrap_uint64 z : wrap uint64_t z = z mod 2 ^ 64.
Proof. reflexivity. Qed.

Lemma wrap_int64 z : - 2 ^ 63 ≤ z < 2 ^ 63 → wrap int64_t z = z.
Proof.
  intros Hz. change (wrap int64_t z) with ((z + 2 ^ 63) mod 2 ^ 64 - 2 ^ 63).
  rewrite Z.mod_small; lia.
Qed.

Lemma sum_abs_nonneg T vs : 0 ≤ sum_abs T vs.
Proof. induction vs as [|v vs IH]; simpl; lia. Qed.

Section SumFold.
Variable T : CppType.
Hypothesis integral : is_integral T = true.

Lemma sum_signed_fold vs (s : native int64_t) :
  Z.abs s + sum_abs T vs < 2 ^ 63 →
  Result.foldM
    (λ sum field,
       if negb (Field.isNull field)
       then v ← Field.get T field;
            Ok (Arith.add int64_t sum (Arith.static_cast T int64_t v))
       else Ok sum)
    s (map (Field.make T) vs)
  = Ok (s + sum_Z T vs).
Proof.
  revert s. induction vs as [|v vs IH]; intros s Hs.
  - simpl. f_equal. lia.
  - cbn [map Result.foldM]. rewrite isNull_make, get_make.
    cbn [negb mbind result_bind]. simpl in Hs.
    pose proof (sum_abs_nonneg T vs) as Hnn.
    assert (Arith.add int64_t s (Arith.static_cast T int64_t v)
            = s + as_Z T v) as ->.
    { apply (as_Z_inj int64_t); [done|].
      rewrite add_integral, static_cast_integral by done.
      change (as_Z int64_t s) with s.
      rewrite (wrap_int64 (as_Z T v)) by lia. rewrite wrap_int64 by lia.
      done. }
    rewrite IH by lia. f_equal. simpl. lia.
Qed.

Lemma sum_unsigned_fold vs (s : Z) :
  Result.foldM
    (λ sum field,
       if negb (Field.isNull field)
       then v ← Field.get T field;
            Ok (Arith.add uint64_t sum (Arith.static_cast T uint64_t v))
       else Ok sum)
    (s mod 2 ^ 64 : native uint64_t) (map (Field.make T) vs)
  = Ok ((s + sum_Z T vs) mod 2 ^ 64).
Proof.
  revert s. induction vs as [|v vs IH]; intros s.
  - simpl. by rewrite Z.add_0_r.
  - cbn [map Result.foldM]. rewrite isNull_make, get_make.
    cbn [negb mbind result_bind].
    assert (Arith.add uint64_t (s mod 2 ^ 64)
              (Arith.static_cast T uint64_t v)
            = (s + as_Z T v) mod 2 ^ 64) as ->.
    { apply (as_Z_inj uint64_t); [done|].
      rewrite add_integral, static_cast_integral by done.
      change (as_Z uint64_t ?z) with z. rewrite !wrap_uint64.
      by rewrite <- Zplus_mod. }
    rewrite IH. do 2 f_equal. simpl. lia.
Qed.

Lemma min_fold vs (m : native T) :
  Forall (in_range T) vs →
  ∃ m', Result.foldM
          (λ '(found_value, min_value) field,
             if negb (Field.isNull field)
             then v ← Field.get T field;
                  let current := Arith.static_cast T T v in
                  if negb found_value || Arith.lt T current min_value
                  then Ok (true, current)
                  else Ok (found_value, min_value)
             else Ok (found_value, min_value))
          (true, m) (map (Field.make T) vs)
        = Ok (true, m') ∧
        m' ∈ m :: vs ∧ ∀ v, v ∈ m :: vs → as_Z T m' ≤ as_Z T v.
Proof.
  revert m. induction vs as [|v vs IH]; intros m Hvs.
  - exists m. split; [done|]. split; [by left|].
    by intros v ->%list_elem_of_singleton.
  - apply Forall_cons in Hvs as [Hv Hvs]. cbn [map Result.foldM].
    rewrite isNull_make, get_make. cbn [negb mbind result_bind orb].
    cbv zeta.
    assert (Arith.static_cast T T v = v) as ->.
    { apply (as_Z_inj T); [done|]. by rewrite static_cast_integral. }
    rewrite lt_integral by done.
    destruct (Z.ltb_spec (as_Z T v) (as_Z T m)) as [Hlt|Hge];
      cbn [mbind result_bind].
    + destruct (IH v Hvs) as (m' & Heq & Hin & Hle). exists m'.
      split; [exact Heq|]. split.
      * apply elem_of_cons in Hin as [->|Hin]; [right; by left|].
        by do 2 right.
      * intros x [->|[->|Hx]%elem_of_cons]%elem_of_cons.
        -- specialize (Hle v ltac:(by left)). lia.
        -- apply Hle. by left.
        -- apply Hle. by right.
    + destruct (IH m Hvs) as (m' & Heq & Hin & Hle). exists m'.
      split; [exact Heq|]. split.
      * apply elem_of_cons in Hin as [->|Hin]; [by left|]. by do 2 right.
      * intros x [->|[->|Hx]%elem_of_cons]%elem_of_cons.
        -- apply Hle. by left.
        -- specialize (Hle m ltac:(by left)). lia.
        -- apply Hle. by right.
Qed.

Lemma max_fold vs (m : native T) :
  Forall (in_range T) vs →
  ∃ m', Result.foldM
          (λ '(found_value, max_value) field,
             if negb (Field.isNull field)
             then v ← Field.get T field;
                  let current := Arith.static_cast T T v in
                  if negb found_value || Arith.lt T max_value current
                  then Ok (true, current)
                  else Ok (found_value, max_value)
             else Ok (found_value, max_value))
          (true, m) (map (Field.make T) vs)
        = Ok (true, m') ∧
        m' ∈ m :: vs ∧ ∀ v, v ∈ m :: vs → as_Z T v ≤ as_Z T m'.
Proof.
  revert m. induction vs as [|v vs IH]; intros m Hvs.
  - exists m. split; [done|]. split; [by left|].
    by intros v ->%list_elem_of_singleton.
  - apply Forall_cons in Hvs as [Hv Hvs]. cbn [map Result.foldM].
    rewrite isNull_make, get_make. cbn [negb mbind result_bind orb].
    cbv zeta.
    assert (Arith.static_cast T T v = v) as ->.
    { apply (as_Z_inj T); [done|]. by rewrite static_cast_integral. }
    rewrite lt_integral by done.
    destruct (Z.ltb_spec (as_Z T m) (as_Z T v)) as [Hlt|Hge];
      cbn [mbind result_bind].
    + destruct (IH v Hvs) as (m' & Heq & Hin & Hle). exists m'.
      split; [exact Heq|]. split.
      * apply elem_of_cons in Hin as [->|Hin]; [right; by left|].
        by do 2 right.
      * intros x [->|[->|Hx]%elem_of_cons]%elem_of_cons.
        -- specialize (Hle v ltac:(by left)). lia.
        -- apply Hle. by left.
        -- apply Hle. by right.
    + destruct (IH m Hvs) as (m' & Heq & Hin & Hle). exists m'.
      split; [exact Heq|]. split.
      * apply elem_of_cons in Hin as [->|Hin]; [by left|]. by do 2 right.
      * intros x [->|[->|Hx]%elem_of_cons]%elem_of_cons.
        -- apply Hle. by left.
        -- specialize (Hle m ltac:(by left)). lia.
        -- apply Hle. by right.
Qed.
End SumFold.

Lemma column_fields_nil column_name fields :
  column_fields [] column_name fields → fields = [].
Proof. intros (per_block & Hall & ->). by inversion Hall. Qed.

(** X14 (executor.cpp, computeSum and the SUM branch of computeAggregate):
    over an integer column whose non-null fields hold the values [vs], SUM
    accumulates in [uint64_t] for an unsigned value type and returns the
    sum of the values modulo 2^64; for a signed value type it accumulates
    in [int64_t] and, when the absolute values add up to less than 2^63 so
    that no partial sum overflows, returns the sum of the values.  Null
    fields are skipped. *)
Theorem sum_adds_values (T : CppType) (blocks : list Block.t)
    (column_name alias : string) (fields : list Field.t)
    (vs : list (native T)) :
  is_integral T = true →
  column_fields blocks column_name fields →
  non_null fields = map (Field.make T) vs →
  (is_signed T = true → sum_abs T vs < 2 ^ 63) →
  SQLExecutor.computeAggregate T
    (ColumnExpression.mk column_name alias SUM) blocks
  = Ok (if String.eqb alias "" then "SUM(" +:+ column_name +:+ ")" else alias,
        if is_signed T
        then IColumn.Vector int64_t
               (ColumnVector.mk (T:=int64_t) [sum_Z T vs] DataTypeInt64)
        else IColumn.Vector uint64_t
               (ColumnVector.mk (T:=uint64_t) [sum_Z T vs mod 2 ^ 64]
                  DataTypeUInt64)).
Proof.
  intros HT Hfields Hvs Hbound. unfold SQLExecutor.computeAggregate.
  cbn [ColumnExpression.agg_type ColumnExpression.column ColumnExpression.alias].
  rewrite HT. cbn [andb]. unfold SQLExecutor.computeSum.
  destruct (is_signed T) eqn:Hsigned.
  - rewrite (for_each_field_fields _ _ _ _ _ Hfields).
    rewrite foldM_non_null by (by intros s f ->). rewrite Hvs.
    change (Arith.zero int64_t) with (0 : native int64_t).
    rewrite (sum_signed_fold T HT vs 0) by (specialize (Hbound eq_refl); lia).
    reflexivity.
  - rewrite (for_each_field_fields _ _ _ _ _ Hfields).
    rewrite foldM_non_null by (by intros s f ->). rewrite Hvs.
    change (Arith.zero uint64_t) with (0 mod 2 ^ 64 : native uint64_t).
    rewrite (sum_unsigned_fold T HT vs 0). reflexivity.
Qed.

(** X15 (executor.cpp, computeMin and computeMax): over an integer column
    with at least one non-null field, whose non-null fields hold the
    values [vs] of the value type, MIN and MAX return values of the
    column, the least and the greatest.  Null fields are skipped. *)
Theorem min_max_of_values (T : CppType) (blocks : list Block.t)
    (column_name : string) (fields : list Field.t) (vs : list (native T)) :
  is_integral T = true →
  column_fields blocks column_name fields →
  non_null fields = map (Field.make T) vs →
  vs ≠ [] →
  Forall (in_range T) vs →
  ∃ lo hi,
    SQLExecutor.computeMin T T blocks column_name = Ok lo ∧
    SQLExecutor.computeMax T T blocks column_name = Ok hi ∧
    lo ∈ vs ∧ hi ∈ vs ∧
    ∀ v, v ∈ vs → as_Z T lo ≤ as_Z T v ≤ as_Z T hi.
Proof.
  intros HT Hfields Hvs Hne Hrange.
  destruct vs as [|v vs]; [done|].
  apply Forall_cons in Hrange as [Hv Hrange].
  assert (Arith.static_cast T T v = v) as Hcast.
  { apply (as_Z_inj T); [done|]. by rewrite static_cast_integral. }
  destruct (min_fold T HT vs v Hrange) as (lo & Hlo & Hlo_in & Hlo_le).
  destruct (max_fold T HT vs v Hrange) as (hi & Hhi & Hhi_in & Hhi_le).
  exists lo, hi.
  assert (blocks ≠ []) as Hblocks.
  { intros ->. apply column_fields_nil in Hfields as ->. done. }
  unfold SQLExecutor.computeMin, SQLExecutor.computeMax.
  destruct blocks as [|block blocks]; [done|].
  rewrite !(for_each_field_fields _ _ _ _ _ Hfields).
  rewrite !foldM_non_null with (fields := fields)
    by (by intros [? ?] f ->).
  rewrite Hvs. cbn [map Result.foldM]. rewrite isNull_make, get_make.
  cbn [negb mbind result_bind orb]. cbv zeta. rewrite Hcast.
  split; [|split; [|split; [done|split; [done|]]]].
  - etransitivity; [apply (f_equal (λ r, r ≫= _) Hlo)|]. done.
  - etransitivity; [apply (f_equal (λ r, r ≫= _) Hhi)|]. done.
  - intros x Hx. split; [by apply Hlo_le | by apply Hhi_le].
Qed.

Lemma sum_adds_values_witness :
  SQLExecutor.computeAggregate int32_t
    (ColumnExpression.mk "a" "" SUM) AggregateExample.blocks
  = Ok ("SUM(a)",
        IColumn.Vector int64_t
          (ColumnVector.mk (T:=int64_t) [16] DataTypeInt64)).
Proof.
  apply (sum_adds_values int32_t AggregateExample.blocks "a" ""
           AggregateExample.fields [1; 3; 5; 7]).
  - reflexivity.
  - apply example_column_fields.
  - reflexivity.
  - intros _. vm_compute. reflexivity.
Defined.

Lemma min_max_of_values_witness :
  ∃ lo hi : Z,
    SQLExecutor.computeMin int32_t int32_t AggregateExample.blocks "a"
      = Ok lo ∧
    SQLExecutor.computeMax int32_t int32_t AggregateExample.blocks "a"
      = Ok hi ∧
    lo ∈ [1; 3; 5; 7] ∧ hi ∈ [1; 3; 5; 7] ∧
    ∀ v, v ∈ [1; 3; 5; 7] → lo ≤ v ≤ hi.
Proof.
  apply (min_max_of_values int32_t AggregateExample.blocks "a"
           AggregateExample.fields [1; 3; 5; 7]).
  - reflexivity.
  - apply example_column_fields.
  - reflexivity.
  - discriminate.
  - repeat constructor.
Defined.

(** ** The registry of a session *)

Lemma sizes_isValid block n :
  Forall (λ c, IColumn.size (Block.column c) = n) (Block.columns block) →
  Block.isValid block = true.
Proof.
  intros Hsizes. unfold Block.isValid.
  destruct (Block.columns block) as [|c cs]; [done|].
  apply Forall_cons in Hsizes as [Hc Hcs].
  apply forallb_forall. intros c' Hc'%list_elem_of_In. apply Nat.eqb_eq.
  rewrite Forall_forall in Hcs. rewrite Hc. by apply Hcs.
Qed.

Section Registry.
Context `{StdConversions}.

Lemma insert_success_stored_ok ast tables_ rt :
  insert_success ast tables_ rt →
  ∃ storage block,
    tables_ !! InsertAST.table_name ast = Some storage ∧
    stored_ok (MemoryStorage.structure storage) block ∧
    rt.2 = <[InsertAST.table_name ast :=
               MemoryStorage.mk (MemoryStorage.structure storage)
                 (MemoryStorage.blocks storage ++ [block])]> tables_.
Proof.
  intros (storage & names & block & Hst & Htarget & (_ & _ & Hrows) & Hins
          & Hwf & Hvalid & ->).
  exists storage, block. split; [done|]. split; [|done].
  split; [done|]. split.
  { eapply sizes_isValid, inserted_sizes; done. }
  split.
  { unfold MemoryStorage.validateBlock in Hvalid.
    by destruct (Nat.eqb_spec (Block.getColumnCount block)
                   (TableStructure.getColumnCount
                      (MemoryStorage.structure storage))). }
  destruct Hins as [Hlen Hcols]. apply Forall_lookup. intros i c Hc.
  destruct (lookup_lt_is_Some_2 names i) as [n Hn].
  { rewrite <- Hlen. by eapply lookup_lt_Some. }
  destruct (Hcols i n Hn) as (col & Hcol & d & T & data & Hd & HT & -> & _).
  rewrite Hc in Hcol. injection Hcol as ->. by exists d, T, data.
Qed.

Lemma execute_registry_ok ast tables_ r tables' :
  registry_ok tables_ →
  SQLExecutor.execute ast tables_ = Ok (r, tables') →
  registry_ok tables'.
Proof.
  intros Hok. unfold SQLExecutor.execute. destruct ast as [ast|ast|ast|ast].
  - pose proof (executeCreateTable_cases ast tables_) as Hcases.
    destruct (SQLExecutor.executeCreateTable ast tables_) as [[r0 t0]| |];
      [|done..].
    intros [= <- <-].
    destruct Hcases
      as [(_ & _ & ->)|[(_ & _ & _ & _ & _ & _ & _ & ->)
                       |[(_ & _ & _ & _ & ->)
                        |(_ & _ & _ & _ & structure & -> & Htable & Hwf & _)]]];
      try done.
    apply map_Forall_insert_2; [|done]. simpl.
    split; [done|]. split; [done|]. constructor.
  - pose proof (executeInsert_result ast tables_) as Hres.
    destruct (SQLExecutor.executeInsert ast tables_) as [[r0 t0]|what|];
      [|by intros [= <- <-]|done].
    intros [= <- <-]. destruct Hres as [[_ Hsame]|Hsucc].
    + simpl in Hsame. by subst.
    + apply insert_success_stored_ok in Hsucc
        as (storage & block & Hst & Hblock & Hafter).
      simpl in Hafter. subst t0.
      destruct (Hok _ _ Hst) as (Hwf & Htable & Hblocks).
      apply map_Forall_insert_2; [|done]. simpl.
      split; [done|]. split; [done|]. apply Forall_app. split; [done|].
      by constructor.
  - destruct (SQLExecutor.executeSelect ast tables_); simpl;
      [by intros [= <- <-]|by intros [= <- <-]|done].
  - unfold SQLExecutor.executeDropTable.
    destruct (tables_ !! DropTableAST.table_name ast) as [storage|].
    + intros [= <- <-]. by apply map_Forall_delete.
    + destruct (DropTableAST.if_exists ast); by intros [= <- <-].
Qed.

(** X16 (executor.cpp, execute and the four statement executors): the
    registry keeps its invariant through every session.  From a registry
    in which every schema has a sound index and carries the name it is
    registered under, and every stored block has a sound index, columns of
    one length, as many columns as the schema, and for each column a
    [ColumnVector<T>] of the declared type of a schema column of its name,
    every list of commands that runs leaves such a registry; the empty
    registry is one. *)
Theorem session_keeps_registry (commands : list ASTNode)
    (tables_ tables' : SQLExecutor.tables) (rs : list QueryResult.t) :
  registry_ok tables_ →
  SQLExecutor.session commands tables_ = Ok (rs, tables') →
  registry_ok tables' ∧ length rs = length commands.
Proof.
  revert tables_ rs. induction commands as [|ast commands IH];
    intros tables_ rs Hok.
  - by intros [= <- <-].
  - simpl.
    destruct (SQLExecutor.execute ast tables_) as [[r t1]| |] eqn:Hex;
      [|done..].
    simpl.
    destruct (SQLExecutor.session commands t1) as [[rs1 t2]| |] eqn:Hrest;
      [|done..].
    simpl. intros [= <- <-].
    destruct (IH t1 rs1 (execute_registry_ok _ _ _ _ Hok Hex) Hrest)
      as [Hok' Hlen].
    split; [done|]. simpl. by rewrite Hlen.
Qed.
End Registry.

Lemma session_keeps_registry_witness :
  registry_ok Examples.four_rows_tables ∧ length (Example.results
    [ Example.create_t;
      Example.insert "t" [] [["1"; "2"]; ["3"; "4"]];
      Example.insert "t" [] [["5"; "6"]; ["7"; "8"]] ]) = 3%nat.
Proof.
  apply (session_keeps_registry (H:=Reference.conversions)
           [ Example.create_t;
             Example.insert "t" [] [["1"; "2"]; ["3"; "4"]];
             Example.insert "t" [] [["5"; "6"]; ["7"; "8"]] ] ∅).
  - apply map_Forall_empty.
  - vm_compute. reflexivity.
Defined.

(** ** Columns *)

Lemma vector_at_snoc {T} (c : ColumnVector.t T) v i :
  ColumnVector.at_ (ColumnVector.insertValue v c) i
  = if decide (i < ColumnVector.size c)%nat then ColumnVector.at_ c i
    else if decide (i = ColumnVector.size c) then Ok (Field.make T v)
    else Undefined.
Proof.
  unfold ColumnVector.at_, ColumnVector.getValue, ColumnVector.insertValue,
    ColumnVector.size. simpl.
  destruct (decide (i < length (ColumnVector.data c))%nat) as [Hlt|Hge].
  - by rewrite lookup_app_l.
  - rewrite lookup_app_r by lia.
    destruct (decide (i = length (ColumnVector.data c))) as [->|Hne].
    + by rewrite Nat.sub_diag.
    + destruct (i - length (ColumnVector.data c))%nat as [|k] eqn:Hk; [lia|].
      done.
Qed.

Lemma vector_getValue_snoc {T} (c : ColumnVector.t T) v i :
  ColumnVector.getValue (ColumnVector.insertValue v c) i
  = if decide (i < ColumnVector.size c)%nat then ColumnVector.getValue c i
    else if decide (i = ColumnVector.size c) then Ok v
    else Undefined.
Proof.
  unfold ColumnVector.getValue, ColumnVector.insertValue,
    ColumnVector.size. simpl.
  destruct (decide (i < length (ColumnVector.data c))%nat) as [Hlt|Hge].
  - by rewrite lookup_app_l.
  - rewrite lookup_app_r by lia.
    destruct (decide (i = length (ColumnVector.data c))) as [->|Hne].
    + by rewrite Nat.sub_diag.
    + destruct (i - length (ColumnVector.data c))%nat as [|k] eqn:Hk; [lia|].
      done.
Qed.

Lemma nullable_at_snoc T (nested : ColumnVector.t T)
    (nulls : ColumnVector.t uint8_t) ty v (flag : Z) i :
  ColumnVector.size nulls = ColumnVector.size nested →
  IColumn.at_
    (IColumn.Nullable T (ColumnVector.insertValue v nested)
       (ColumnVector.insertValue (T:=uint8_t) flag nulls) ty) i
  = if decide (i < ColumnVector.size nested)%nat
    then IColumn.at_ (IColumn.Nullable T nested nulls ty) i
    else if decide (i = ColumnVector.size nested)
         then Ok (if flag =? 0 then Field.make T v else Field.monostate)
         else Undefined.
Proof.
  intros Hwf. unfold IColumn.at_, IColumn.isNull.
  rewrite vector_getValue_snoc, vector_at_snoc, Hwf.
  destruct (decide (i < ColumnVector.size nested)%nat); [done|].
  destruct (decide (i = ColumnVector.size nested)); [|done].
  simpl. by destruct (flag =? 0).
Qed.

(** X17 (column.h, insertDefault and popBack of ColumnVector and
    ColumnNullable): [insertDefault] appends one row and leaves the rows
    before it, the type and the class invariant as they are; the new row
    reads as [T()] in a [ColumnVector<T>] and as null in a nullable
    column; [popBack] undoes it. *)
Theorem insertDefault_appends (col : IColumn.t) :
  IColumn.wf col →
  appended col (IColumn.insertDefault col) (default_field col) ∧
  IColumn.popBack (IColumn.insertDefault col) = col.
Proof.
  intros Hwf. destruct col as [T [data ty]|T [data ty] [flags fty] cty].
  - split.
    + repeat split; simpl.
      * unfold ColumnVector.size. simpl. rewrite length_app. simpl. lia.
      * change (ColumnVector.insertDefault (ColumnVector.mk data ty))
          with (ColumnVector.insertValue (native_default T)
                  (ColumnVector.mk data ty)).
        rewrite vector_at_snoc. destruct (decide _) as [Hlt|_]; [lia|].
        by destruct (decide _).
      * intros i Hi.
        change (ColumnVector.insertDefault (ColumnVector.mk data ty))
          with (ColumnVector.insertValue (native_default T)
                  (ColumnVector.mk data ty)).
        rewrite vector_at_snoc. by destruct (decide _).
    + simpl. unfold ColumnVector.popBack, ColumnVector.insertDefault. simpl.
      by rewrite removelast_last.
  - simpl in Hwf. split.
    + repeat split; try done.
      * simpl. unfold ColumnVector.size in *. simpl in *.
        rewrite !length_app. simpl. lia.
      * simpl. unfold ColumnVector.size. simpl. rewrite length_app.
        simpl. lia.
      * cbn [IColumn.insertDefault IColumn.size].
        change (ColumnVector.insertDefault (ColumnVector.mk data ty))
          with (ColumnVector.insertValue (native_default T)
                  (ColumnVector.mk data ty)).
        rewrite nullable_at_snoc by done.
        destruct (decide _) as [Hlt|_]; [lia|]. by destruct (decide _).
      * intros i Hi. cbn [IColumn.insertDefault IColumn.size] in *.
        change (ColumnVector.insertDefault (ColumnVector.mk data ty))
          with (ColumnVector.insertValue (native_default T)
                  (ColumnVector.mk data ty)).
        rewrite nullable_at_snoc by done. by destruct (decide _).
    + simpl. unfold ColumnVector.popBack, ColumnVector.insertDefault,
        ColumnVector.insertValue. simpl.
      by rewrite !removelast_last.
Qed.

Lemma insertDefault_appends_witness :
  appended ColumnExample.nullable
    (IColumn.insertDefault ColumnExample.nullable) Field.monostate ∧
  IColumn.popBack (IColumn.insertDefault ColumnExample.nullable)
    = ColumnExample.nullable.
Proof.
  apply (insertDefault_appends ColumnExample.nullable). reflexivity.
Defined.

(** X18 (column.h, ColumnNullable::insertValue): on a nullable column of
    value type [T] that keeps its invariant, [insertValue(value, is_null)]
    appends one row and leaves the rows before it as they are; the new row
    reads as null when [is_null] is set, whatever [value] is, and as
    [value] otherwise. *)
Theorem nullable_insertValue_appends (T : CppType)
    (nested : ColumnVector.t T) (nulls : ColumnVector.t uint8_t)
    (ty : IDataType) (value : native T) (is_null : bool) :
  IColumn.wf (IColumn.Nullable T nested nulls ty) →
  ∃ col',
    ColumnNullable.insertValue T value is_null
      (IColumn.Nullable T nested nulls ty) = Ok col' ∧
    appended (IColumn.Nullable T nested nulls ty) col'
      (if is_null then Field.monostate else Field.make T value).
Proof.
  intros Hwf. unfold ColumnNullable.insertValue.
  destruct (decide (T = T)) as [e|]; [|done].
  assert (e = eq_refl) as -> by apply (proof_irrel _). cbn [eq_rect].
  eexists. split; [done|]. split; [|split; [|split; [done|split; [done|split]]]].
  - simpl in *. unfold ColumnVector.size in *. simpl.
    rewrite !length_app. simpl. f_equal. exact Hwf.
  - simpl. unfold ColumnVector.size. simpl. rewrite length_app. simpl. lia.
  - cbn [IColumn.size]. rewrite nullable_at_snoc by done.
    destruct (decide _) as [Hlt|_]; [lia|].
    destruct (decide _); [|done]. by destruct is_null.
  - intros i Hi. cbn [IColumn.size] in Hi. rewrite nullable_at_snoc by done.
    by destruct (decide _).
Qed.

Lemma nullable_insertValue_appends_witness :
  ∃ col',
    ColumnNullable.insertValue int32_t 5 true ColumnExample.nullable
      = Ok col' ∧
    appended ColumnExample.nullable col' Field.monostate.
Proof.
  apply (nullable_insertValue_appends int32_t
           (ColumnVector.mk (T:=int32_t) [7; 0] DataTypeInt32)
           (ColumnVector.mk (T:=uint8_t) [0; 1] DataTypeUInt8)
           (DataTypeNullable DataTypeInt32) 5 true).
  reflexivity.
Defined.

Lemma vector_insertFrom_cases {T} (src c : ColumnVector.t T) n :
  vector_insertFrom src n c
  = v ← ColumnVector.getValue src n; Ok (ColumnVector.insertValue v c).
Proof.
  unfold vector_insertFrom. destruct (decide (T = T)) as [e|]; [|done].
  by assert (e = eq_refl) as -> by apply (proof_irrel _).
Qed.

Lemma getValue_cases {T} (c : ColumnVector.t T) n :
  match ColumnVector.getValue c n with
  | Ok v => ColumnVector.data c !! n = Some v ∧ (n < ColumnVector.size c)%nat
  | Throw _ => False
  | Undefined => (ColumnVector.size c ≤ n)%nat
  end.
Proof.
  unfold ColumnVector.getValue, ColumnVector.size.
  destruct (ColumnVector.data c !! n) as [v|] eqn:Hv.
  - split; [done|]. by eapply lookup_lt_Some.
  - by apply lookup_ge_None.
Qed.

(** X19 (column.h, insertFrom of ColumnVector and ColumnNullable): between
    columns that keep their invariant, [insertFrom(src, n)] is defined
    exactly when [src] has the class and value type of the receiver and
    [n] is a row of [src]; it then appends one row, which reads as row [n]
    of [src] reads, null included, and leaves the rows before it as they
    are.  It never throws. *)
Theorem insertFrom_copies_row (src col : IColumn.t) (n : nat) :
  IColumn.wf src → IColumn.wf col →
  match insertFrom src n col with
  | Ok col' =>
      same_class col src ∧ (n < IColumn.size src)%nat ∧
      ∃ field, IColumn.at_ src n = Ok field ∧ appended col col' field
  | Throw _ => False
  | Undefined => ¬ same_class col src ∨ (IColumn.size src ≤ n)%nat
  end.
Proof.
  intros Hsrc Hcol.
  destruct col as [T c|T nested nulls ty], src as [T' c'|T' nested' nulls' ty'];
    simpl; try (by left; intros []).
  - destruct (decide (T = T')) as [<-|Hne].
    2:{ unfold vector_insertFrom. destruct (decide (T' = T)); [done|].
        by left. }
    rewrite vector_insertFrom_cases.
    pose proof (getValue_cases c' n) as Hget.
    destruct (ColumnVector.getValue c' n) as [v| |] eqn:Hv; simpl;
      [|done|by right].
    destruct Hget as [Hdata Hn]. split; [done|]. split; [done|].
    exists (Field.make T v). split.
    { unfold ColumnVector.at_. by rewrite Hv. }
    split; [done|]. split.
    { simpl. unfold ColumnVector.size. simpl. rewrite length_app. simpl. lia. }
    split; [done|]. split; [done|]. split.
    + simpl. rewrite vector_at_snoc. destruct (decide _) as [Hlt|_]; [lia|].
      by destruct (decide _).
    + intros i Hi. simpl in *. rewrite vector_at_snoc. by destruct (decide _).
  - destruct (decide (T = T')) as [<-|Hne].
    2:{ assert (vector_insertFrom nested' n nested = Undefined) as ->.
        { unfold vector_insertFrom.
          by destruct (decide (T' = T)) as [->|_]. }
        by left. }
    simpl in Hsrc, Hcol. rewrite !vector_insertFrom_cases.
    pose proof (getValue_cases nested' n) as Hget.
    pose proof (getValue_cases nulls' n) as Hnull.
    destruct (ColumnVector.getValue nested' n) as [v| |] eqn:Hv; simpl;
      [|done|by right].
    destruct Hget as [Hdata Hn].
    destruct (ColumnVector.getValue nulls' n) as [flag| |] eqn:Hflag; simpl;
      [|done|right; lia].
    split; [done|]. split; [done|].
    exists (if (flag : Z) =? 0 then Field.make T v else Field.monostate).
    split.
    { unfold IColumn.isNull, ColumnVector.at_. rewrite Hflag, Hv. simpl.
      by destruct (flag =? 0). }
    split.
    { simpl. unfold ColumnVector.size in *. simpl. rewrite !length_app.
      simpl. f_equal. exact Hcol. }
    split.
    { simpl. unfold ColumnVector.size. simpl. rewrite length_app. simpl. lia. }
    split; [done|]. split; [done|]. split.
    + cbn [IColumn.size]. rewrite nullable_at_snoc by done.
      destruct (decide _) as [Hlt|_]; [lia|]. by destruct (decide _).
    + intros i Hi. cbn [IColumn.size] in Hi. rewrite nullable_at_snoc by done.
      by destruct (decide _).
Qed.

Lemma insertFrom_copies_row_witness :
  ∃ col',
    insertFrom ColumnExample.nullable 1 ColumnExample.target = Ok col' ∧
    IColumn.at_ ColumnExample.nullable 1 = Ok Field.monostate ∧
    appended ColumnExample.target col' Field.monostate.
Proof.
  pose proof (insertFrom_copies_row ColumnExample.nullable
                ColumnExample.target 1 eq_refl eq_refl) as Hcopy.
  destruct (insertFrom ColumnExample.nullable 1 ColumnExample.target)
    as [col'| |] eqn:Hins; [|done|].
  - exists col'. destruct Hcopy as (_ & _ & field & Hfield & Happ).
    split; [done|]. split; [reflexivity|].
    vm_compute in Hfield. injection Hfield as <-. exact Happ.
  - vm_compute in Hins. discriminate.
Defined.

(** ** Lookup by name *)

Lemma block_built_wf b : block_built b → block_wf b.
Proof.
  induction 1; [apply block_wf_empty | by apply block_wf_addColumn].
Qed.

Lemma schema_built_wf s : schema_built s → schema_wf s.
Proof.
  induction 1; [apply schema_wf_create | by apply schema_wf_addColumn].
Qed.

(** X20 (block.h, addColumn, getColumnIndex, getColumnByName, isValid and
    getRowCount): on a block built by [addColumn] from the empty block,
    the lookup of a name never indexes past the columns: it returns a
    column of the block that carries the name, or throws when no column of
    the block carries it.  A block is valid exactly when every column has
    as many rows as [getRowCount] reports. *)
Theorem block_lookup_by_name (b : Block.t) (name : string) :
  block_built b →
  match Block.getColumnByName b name with
  | Ok c => c ∈ Block.columns b ∧ Block.name c = name
  | Throw what =>
      (name ∉ map Block.name (Block.columns b)) ∧
      what = "Column '" +:+ name +:+ "' not found in block"
  | Undefined => False
  end ∧
  (Block.isValid b = true ↔
   Forall (λ c, IColumn.size (Block.column c) = Block.getRowCount b)
          (Block.columns b)).
Proof.
  intros [Hidx Hbound]%block_built_wf. split.
  - unfold Block.getColumnByName, Block.getColumnIndex,
      Block.getColumnByIndex.
    destruct (Block.column_indices b !! name) as [idx|] eqn:Hn; simpl.
    + destruct (Hidx _ _ Hn) as (c & Hc & Hname). rewrite Hc.
      split; [by eapply list_elem_of_lookup_2 | done].
    + split; [|done]. intros (c & -> & Hc)%list_elem_of_fmap.
      destruct (Hbound c Hc) as [idx Hidx']. congruence.
  - unfold Block.isValid, Block.getRowCount.
    destruct (Block.columns b) as [|c cs]; [done|]. split.
    + intros Hall. constructor; [done|]. apply Forall_forall.
      intros c' Hc'%list_elem_of_In.
      rewrite forallb_forall in Hall. by apply Nat.eqb_eq, Hall.
    + intros [_ Hall]%Forall_cons. apply forallb_forall.
      intros c' Hc'%list_elem_of_In. apply Nat.eqb_eq.
      rewrite Forall_forall in Hall. by apply Hall.
Qed.

Lemma block_lookup_by_name_witness :
  (∃ c, Block.getColumnByName
          (Block.addColumn "a" ColumnExample.nullable Block.empty) "a" = Ok c ∧
        Block.name c = "a") ∧
  Block.isValid (Block.addColumn "a" ColumnExample.nullable Block.empty)
    = true.
Proof.
  destruct (block_lookup_by_name
              (Block.addColumn "a" ColumnExample.nullable Block.empty) "a")
    as [Hget Hvalid].
  { constructor. constructor. }
  split.
  - destruct (Block.getColumnByName _ "a") as [c| |] eqn:Hc.
    + exists c. by destruct Hget.
    + vm_compute in Hc. discriminate.
    + done.
  - apply Hvalid. by repeat constructor.
Defined.

(** X21 (table.h, TableStructure::addColumn, getColumnIndex,
    getColumnByName and hasColumn): on a schema built by [addColumn] from
    an empty schema, [hasColumn] holds exactly for the names of the
    columns, and the lookup of a name returns a column definition of the
    schema that carries the name, or throws when [hasColumn] is false; it
    never indexes past the columns.  With one name declared twice, the
    lookup returns the later declaration. *)
Theorem schema_lookup_by_name (s : TableStructure.t) (name : string) :
  schema_built s →
  (TableStructure.hasColumn s name = true ↔
   name ∈ map TableStructure.name (TableStructure.columns s)) ∧
  match TableStructure.getColumnByName s name with
  | Ok d =>
      TableStructure.hasColumn s name = true ∧
      d ∈ TableStructure.columns s ∧ TableStructure.name d = name
  | Throw what =>
      TableStructure.hasColumn s name = false ∧
      what = "Column '" +:+ name +:+ "' not found in table structure"
  | Undefined => False
  end ∧
  (∀ type, TableStructure.getColumnByName
             (TableStructure.addColumn name type s) name
           = Ok (TableStructure.mkColumnDefinition name type)).
Proof.
  intros Hwf%schema_built_wf. split; [by apply schema_wf_hasColumn|]. split.
  - pose proof (schema_wf_getColumnByName s name Hwf) as Hget.
    destruct (TableStructure.getColumnByName s name) as [d|what|] eqn:Hd;
      [| |done].
    + split; [by eapply getColumnByName_hasColumn | done].
    + destruct Hget as [Hno ->]. split; [|done].
      apply not_true_is_false. by rewrite (schema_wf_hasColumn _ _ Hwf).
  - intros type. unfold TableStructure.getColumnByName,
      TableStructure.getColumnIndex, TableStructure.getColumnByIndex.
    simpl. rewrite lookup_insert_eq. simpl.
    by rewrite lookup_app_r, Nat.sub_diag.
Qed.

Lemma schema_lookup_by_name_witness :
  TableStructure.hasColumn (MemoryStorage.structure InsertExample.storage) "b"
    = true ∧
  TableStructure.getColumnByName
    (MemoryStorage.structure InsertExample.storage) "b"
  = Ok (TableStructure.mkColumnDefinition "b" DataTypeInt32).
Proof.
  destruct (schema_lookup_by_name
              (MemoryStorage.structure InsertExample.storage) "b")
    as (Hhas & Hget & Hlast).
  { do 2 constructor. constructor. }
  split; [|reflexivity]. apply Hhas. simpl. right. left.
Defined.

(** ** DESCRIBE *)

Lemma describe_step names types (n t : string) :
  (modify_column 0 (SQLExecutor.insertValue_as std_string n)
     (description names types)
   ≫= λ block, modify_column 1 (SQLExecutor.insertValue_as std_string t) block)
  = Ok (description (names ++ [n]) (types ++ [t])).
Proof. reflexivity. Qed.

Lemma describe_loop (pre l : list TableStructure.ColumnDefinition)
    (names types : list string) :
  Result.foldM
    (λ block i,
       col ← match (pre ++ l) !! i with
             | Some c => Ok c
             | None => Undefined
             end;
       block ←
         modify_column 0
           (SQLExecutor.insertValue_as std_string (TableStructure.name col))
           block;
       modify_column 1
         (SQLExecutor.insertValue_as std_string
            (getName (TableStructure.type col))) block)
    (description names types) (seq (length pre) (length l))
  = Ok (description (names ++ map TableStructure.name l)
          (types ++ map (λ c, getName (TableStructure.type c)) l)).
Proof.
  revert pre names types. induction l as [|c l IH]; intros pre names types.
  - simpl. by rewrite !app_nil_r.
  - cbn [length seq Result.foldM]. rewrite list_lookup_middle by done.
    cbn [mbind result_bind].
    rewrite describe_step. cbn [mbind result_bind].
    replace (S (length pre)) with (length (pre ++ [c]))
      by (rewrite length_app; simpl; lia).
    replace (pre ++ c :: l) with ((pre ++ [c]) ++ l)
      by (by rewrite <- app_assoc).
    rewrite IH. simpl. by rewrite <- !app_assoc.
Qed.

Lemma executeDescribe_registered ast tables_ storage :
  tables_ !! DescribeAST.table_name ast = Some storage →
  executeDescribe ast tables_
  = Ok (QueryResult.of_blocks
          [description
             (map TableStructure.name
                (TableStructure.columns (MemoryStorage.structure storage)))
             (map (λ c, getName (TableStructure.type c))
                (TableStructure.columns (MemoryStorage.structure storage)))]
          ["column_name"; "type"]).
Proof.
  intros Hst. unfold executeDescribe. rewrite Hst.
  transitivity
    (Result.foldM
       (λ block i,
          col ← match ([] ++ TableStructure.columns
                               (MemoryStorage.structure storage)) !! i with
                | Some c => Ok c
                | None => Undefined
                end;
          block ←
            modify_column 0
              (SQLExecutor.insertValue_as std_string (TableStructure.name col))
              block;
          modify_column 1
            (SQLExecutor.insertValue_as std_string
               (getName (TableStructure.type col))) block)
       (description [] [])
       (seq (length (@nil TableStructure.ColumnDefinition))
          (length (TableStructure.columns (MemoryStorage.structure storage))))
     ≫= λ block, Ok (QueryResult.of_blocks [block] ["column_name"; "type"]));
    [reflexivity|].
  by rewrite describe_loop.
Qed.

(** X22 (executor.cpp, executeDescribe and createEmptyBlock): DESCRIBE of
    a table that is not registered fails with the message that the table
    does not exist; of a registered table it returns, under the column
    names [column_name] and [type], one block of two string columns with
    one row per column of the schema, in schema order: the name of the
    column and the name of its type. *)
Theorem describe_lists_schema (ast : DescribeAST.t)
    (tables_ : SQLExecutor.tables) :
  match tables_ !! DescribeAST.table_name ast with
  | None =>
      executeDescribe ast tables_
      = Ok (QueryResult.status false
              ("Table '" +:+ DescribeAST.table_name ast +:+ "' doesn't exist"))
  | Some storage =>
      ∃ block,
        executeDescribe ast tables_
        = Ok (QueryResult.of_blocks [block] ["column_name"; "type"]) ∧
        map Block.name (Block.columns block) = ["column_name"; "type"] ∧
        Block.isValid block = true ∧
        Block.getRowCount block
        = TableStructure.getColumnCount (MemoryStorage.structure storage) ∧
        Block.rows block
        = map (λ c, [Ok (Field.of_string (TableStructure.name c));
                     Ok (Field.of_string (getName (TableStructure.type c)))])
              (TableStructure.columns (MemoryStorage.structure storage))
  end.
Proof.
  destruct (tables_ !! DescribeAST.table_name ast) as [storage|] eqn:Hst.
  - rewrite (executeDescribe_registered _ _ _ Hst). eexists. split; [done|].
    split; [done|].
    assert (∀ l : list TableStructure.ColumnDefinition,
              Block.rows
                (description (map TableStructure.name l)
                   (map (λ c, getName (TableStructure.type c)) l))
              = map (λ c, [Ok (Field.of_string (TableStructure.name c));
                           Ok (Field.of_string
                                 (getName (TableStructure.type c)))]) l)
      as Hrows.
    { intros l. unfold Block.rows, Block.row, Block.getRowCount. simpl.
      unfold ColumnVector.size, ColumnVector.at_, ColumnVector.getValue.
      simpl. rewrite length_map. apply list_eq. intros i.
      rewrite !list_lookup_fmap.
      destruct (l !! i) as [c|] eqn:Hc.
      - rewrite (lookup_seq_lt _ _ _ (lookup_lt_Some _ _ _ Hc)). simpl.
        by rewrite !list_lookup_fmap, Hc.
      - by rewrite (lookup_seq_ge _ _ _ (proj1 (lookup_ge_None _ _) Hc)). }
    split; [|split; [|apply Hrows]].
    + unfold Block.isValid. simpl. unfold ColumnVector.size. simpl.
      by rewrite !length_map, Nat.eqb_refl.
    + unfold Block.getRowCount. simpl. unfold ColumnVector.size. simpl.
      by rewrite length_map.
  - unfold executeDescribe. by rewrite Hst.
Qed.

(** X23 (executor.cpp, executeCreateTable and executeDescribe;
    data_types.cpp, createDataType and getName): on the registry a
    successful CREATE TABLE leaves, DESCRIBE of the new table lists the
    declared columns as they were written, names and type names, in the
    declared order. *)
Theorem describe_created_table (ast : CreateTableAST.t)
    (tables_ tables' : SQLExecutor.tables) (r : QueryResult.t) :
  SQLExecutor.executeCreateTable ast tables_ = Ok (r, tables') →
  QueryResult.success r = true →
  executeDescribe (DescribeAST.mk (CreateTableAST.table_name ast)) tables'
  = Ok (QueryResult.of_blocks
          [description (CreateTableAST.columns ast).*1
             (CreateTableAST.columns ast).*2]
          ["column_name"; "type"]).
Proof.
  intros Hex Hok.
  pose proof (executeCreateTable_cases ast tables_) as Hcases.
  rewrite Hex in Hcases.
  destruct Hcases
    as [(_ & -> & _)|[(_ & c & ty & s & _ & _ & -> & _)
                     |[(_ & _ & _ & -> & _)
                      |(Hnone & _ & _ & -> & structure & -> & Htable & Hwf
                        & Hdecl)]]]; try done.
  rewrite (executeDescribe_registered _ _ (MemoryStorage.create structure))
    by (by simpl; rewrite lookup_insert_eq).
  simpl. rewrite <- Hdecl. by rewrite <- !list_fmap_compose.
Qed.

Lemma describe_created_table_witness :
  executeDescribe (DescribeAST.mk "t") InsertExample.before
  = Ok (QueryResult.of_blocks
          [description ["a"; "b"] ["Int32"; "Int32"]]
          ["column_name"; "type"]).
Proof.
  apply (describe_created_table CreateExample.ast ∅ InsertExample.before
           CreateExample.result).
  - vm_compute. reflexivity.
  - reflexivity.
Defined.

(** ** The shape of an aggregate SELECT *)

Lemma bind_Ok {A B} (r : result A) (k : A → result B) y :
  r ≫= k = Ok y → ∃ x, r = Ok x ∧ k x = Ok y.
Proof. destruct r as [x| |]; [|done..]. simpl. eauto. Qed.

Lemma computeAggregate_single T col_expr blocks n col :
  SQLExecutor.computeAggregate T col_expr blocks = Ok (n, col) →
  IColumn.size col = 1%nat.
Proof.
  unfold SQLExecutor.computeAggregate. cbv zeta.
  destruct (ColumnExpression.agg_type col_expr); [done|..].
  - intros (count & _ & [= _ <-])%bind_Ok. done.
  - destruct (is_integral T && is_signed T).
    { intros (v & _ & [= _ <-])%bind_Ok. done. }
    destruct (is_integral T).
    { intros (v & _ & [= _ <-])%bind_Ok. done. }
    destruct (is_floating_point T); [|done].
    intros (v & _ & [= _ <-])%bind_Ok. done.
  - destruct (is_arithmetic T); [|done].
    intros (v & _ & [= _ <-])%bind_Ok. done.
  - destruct (is_arithmetic T); [|done].
    intros (v & _ & [= _ <-])%bind_Ok. done.
  - destruct (is_arithmetic T); [|done].
    intros (v & _ & [= _ <-])%bind_Ok. done.
Qed.

Lemma filter_snoc_aggregate (pre : list ColumnExpression.t) e :
  filter is_aggregate (pre ++ [e])
  = filter is_aggregate pre ++ (if is_aggregate e then [e] else []).
Proof.
  rewrite filter_app. f_equal. unfold filter at 1. simpl.
  by destruct (is_aggregate e).
Qed.

Lemma aggregate_result_shape structure ast blocks :
  Exec.post True (λ _, False)
    (λ r, QueryResult.success r = false ∨ aggregate_shape ast r)
    (SQLExecutor.aggregate_result structure ast blocks).
Proof.
  unfold SQLExecutor.aggregate_result.
  eapply (post_bind _
            (λ s : Block.t * list string,
               s.2 = map result_name
                       (filter is_aggregate (SelectAST.columns ast)) ∧
               map Block.name (Block.columns s.1) = s.2 ∧
               Forall (λ c, IColumn.size (Block.column c) = 1%nat)
                      (Block.columns s.1))).
  - apply (post_foldM_prefix _
             (λ pre (s : Block.t * list string),
                s.2 = map result_name (filter is_aggregate pre) ∧
                map Block.name (Block.columns s.1) = s.2 ∧
                Forall (λ c, IColumn.size (Block.column c) = 1%nat)
                       (Block.columns s.1))); [done|].
    intros pre e post [agg_block names] _ (Hnames & Hcols & Hsizes).
    simpl in Hnames, Hcols, Hsizes. cbv zeta.
    rewrite filter_snoc_aggregate.
    assert (is_aggregate e
            = negb (bool_decide (ColumnExpression.agg_type e = NONE)))
      as -> by done.
    destruct (bool_decide (ColumnExpression.agg_type e = NONE)) eqn:Hagg;
      cbn [negb].
    { simpl. by rewrite app_nil_r. }
    eapply (post_bind _ (λ _, True)).
    { destruct (_ && _); [done|].
      eapply (post_bind _ (λ _, True)); [|done]. apply post_call.
      by case_match. }
    intros type_id _.
    eapply (post_bind _ (λ agg_result, IColumn.size agg_result.2 = 1%nat)).
    { destruct (cpp_type_of type_id) as [T|]; [|by left].
      assert (∀ T',
                Exec.post True (λ agg_result, IColumn.size agg_result.2 = 1%nat)
                  (λ r, QueryResult.success r = false ∨ aggregate_shape ast r)
                  (Exec.call (SQLExecutor.computeAggregate T' e blocks)))
        as Hcall.
      { intros T'. apply post_call.
        destruct (SQLExecutor.computeAggregate T' e blocks) as [[n col]| |]
          eqn:Hagg'; [|done..].
        by eapply computeAggregate_single. }
      destruct T; try apply Hcall.
      destruct (negb _); [by left | apply Hcall]. }
    intros [n col] Hsize. simpl in Hsize. simpl.
    assert ((if String.eqb (ColumnExpression.alias e) ""
             then SQLExecutor.getAggregateFunctionName
                    (ColumnExpression.agg_type e)
                  +:+ "(" +:+ ColumnExpression.column e +:+ ")"
             else ColumnExpression.alias e) = result_name e) as -> by done.
    split; [by rewrite Hnames, map_app|]. split.
    + by rewrite map_app, Hcols.
    + apply Forall_app. split; [done|]. by constructor.
  - intros [agg_block names] (Hnames & Hcols & Hsizes).
    simpl in Hnames, Hcols, Hsizes. right. exists agg_block. subst names.
    done.
Qed.

Lemma requested_columns_flag structure ast :
  SelectAST.select_all ast = false →
  Exec.post True
    (λ s, s.2 = true ↔
          Exists (λ e, is_aggregate e = true) (SelectAST.columns ast))
    (λ r, QueryResult.success r = false)
    (SQLExecutor.requested_columns structure ast).
Proof.
  intros Hall. unfold SQLExecutor.requested_columns. rewrite Hall.
  apply (post_foldM_prefix _
           (λ pre (s : list string * bool),
              s.2 = true ↔ Exists (λ e, is_aggregate e = true) pre)).
  { simpl. split; [done|]. by intros ?%Exists_nil. }
  intros pre e post [names has] _ Hhas. simpl in Hhas. cbv zeta.
  destruct (bool_decide (ColumnExpression.agg_type e = NONE)) eqn:Hb;
    cbn [negb].
  - assert (is_aggregate e = false) as He
      by (unfold is_aggregate; by rewrite Hb).
    destruct (negb _); [done|]. simpl.
    rewrite Exists_app, Exists_cons, Exists_nil, He.
    destruct Hhas as [Hhas1 Hhas2]. split; [by left; apply Hhas1|].
    intros [Hpre|[Hfalse|[]]]; [by apply Hhas2 | discriminate].
  - assert (is_aggregate e = true) as He
      by (unfold is_aggregate; by rewrite Hb).
    destruct (_ && _).
    + eapply (post_bind _ (λ _, True)); [by apply post_call; case_match|].
      intros first _. simpl.
      rewrite Exists_app, Exists_cons, Exists_nil, He.
      split; [by right; left | done].
    + destruct (negb _); [done|]. simpl.
      rewrite Exists_app, Exists_cons, Exists_nil, He.
      split; [by right; left | done].
Qed.

Lemma mapM_length {A B} (f : A → result B) l ys :
  Result.mapM f l = Ok ys → length ys = length l.
Proof.
  revert ys. induction l as [|x l IH]; intros ys; [by intros [= <-]|].
  simpl. intros (y & _ & (ys' & Hys & [= <-])%bind_Ok)%bind_Ok.
  simpl. by rewrite (IH _ Hys).
Qed.

Lemma read_length names storage blocks :
  MemoryStorage.read names storage = Ok blocks →
  length blocks = length (MemoryStorage.blocks storage).
Proof.
  unfold MemoryStorage.read. intros (_ & _ & Hread)%bind_Ok.
  destruct (MemoryStorage.blocks storage) as [|b bs]; [by injection Hread as <-|].
  by apply mapM_length in Hread.
Qed.

(** X24 (executor.cpp, executeSelect and computeAggregate): a SELECT with
    at least one aggregate expression, on a table that holds a block, when
    it succeeds returns exactly one block, with one column of one row per
    aggregate expression, in the order of the expressions and named by the
    alias or the call as written; the result lists these names.  The
    expressions of the list that are not aggregates leave no column, and
    LIMIT does not apply. *)
Theorem aggregate_select_shape (ast : SelectAST.t)
    (tables_ : SQLExecutor.tables) (storage : MemoryStorage.t)
    (r : QueryResult.t) :
  tables_ !! SelectAST.table_name ast = Some storage →
  MemoryStorage.blocks storage ≠ [] →
  SelectAST.select_all ast = false →
  Exists (λ e, is_aggregate e = true) (SelectAST.columns ast) →
  SQLExecutor.executeSelect ast tables_ = Ok r →
  QueryResult.success r = true →
  aggregate_shape ast r.
Proof.
  intros Hst Hblocks Hall Hagg Hex Hok.
  assert (match SQLExecutor.executeSelect ast tables_ with
          | Ok r => QueryResult.success r = false ∨ aggregate_shape ast r
          | _ => True
          end) as Hshape.
  { unfold SQLExecutor.executeSelect. rewrite Hst. apply post_run. cbv zeta.
    eapply post_bind.
    { eapply post_mono; [by apply requested_columns_flag|done|by left]. }
    intros [names has] Hhas. simpl in Hhas. apply Hhas in Hagg as ->.
    destruct (MemoryStorage.read _ storage) as [blocks| |] eqn:Hread;
      cbn [Exec.try_catch mbind exec_bind Exec.post]; [|by left|done].
    apply read_length in Hread.
    destruct blocks as [|b blocks].
    { destruct (MemoryStorage.blocks storage); [done | discriminate]. }
    cbn [length Nat.eqb negb andb].
    eapply post_mono; [apply aggregate_result_shape|done..]. }
  rewrite Hex in Hshape. destruct Hshape as [Hfail|Hshape]; [congruence|done].
Qed.

Lemma aggregate_select_shape_witness :
  aggregate_shape ShapeExample.ast
    (QueryResult.of_blocks
       [Block.addColumn "top"
          (IColumn.Vector int32_t
             (ColumnVector.mk (T:=int32_t) [7] DataTypeInt32))
          (Block.addColumn "COUNT(b)"
             (IColumn.Vector uint64_t
                (ColumnVector.mk (T:=uint64_t) [4] DataTypeUInt64))
             Block.empty)]
       ["COUNT(b)"; "top"]).
Proof.
  assert (is_Some (Examples.four_rows_tables !! "t")) as [storage Hst]
    by (vm_compute; eauto).
  apply (aggregate_select_shape ShapeExample.ast Examples.four_rows_tables
           storage).
  - exact Hst.
  - vm_compute in Hst. injection Hst as <-. discriminate.
  - reflexivity.
  - right. left. reflexivity.
  - vm_compute. reflexivity.
  - reflexivity.
Defined.

(** ** Values encoded one after the other *)

(** X25 (data_types.h, serializeBinary and deserializeBinary of
    DataTypeString and DataTypeNumber): an encoding is appended to the
    buffer it is given and has the length of the value plus, for a text,
    the 4 bytes of the length; decoding reads the value at the start of a
    buffer whatever follows it.  Hence two texts written one after the
    other are read back in sequence, the second from the buffer past the
    encoding of the first. *)
Theorem codec_reads_prefix (order : byte_order) :
  (∀ s rest,
     Z.of_nat (String.length s) < 2 ^ 32 →
     length (DataTypeString.serializeBinary order s [])
       = (4 + String.length s)%nat ∧
     DataTypeString.deserializeBinary order
       (DataTypeString.serializeBinary order s [] ++ rest) = Ok s) ∧
  (∀ s1 s2,
     Z.of_nat (String.length s1) < 2 ^ 32 →
     Z.of_nat (String.length s2) < 2 ^ 32 →
     let buffer :=
       DataTypeString.serializeBinary order s2
         (DataTypeString.serializeBinary order s1 []) in
     DataTypeString.deserializeBinary order buffer = Ok s1 ∧
     DataTypeString.deserializeBinary order
       (drop (4 + String.length s1) buffer) = Ok s2) ∧
  (∀ T value rest,
     length value = sizeof T →
     DataTypeNumber.deserializeBinary T
       (DataTypeNumber.serializeBinary T value [] ++ rest) = Ok value).
Proof.
  assert (∀ s rest,
            Z.of_nat (String.length s) < 2 ^ 32 →
            length (DataTypeString.serializeBinary order s [])
              = (4 + String.length s)%nat ∧
            DataTypeString.deserializeBinary order
              (DataTypeString.serializeBinary order s [] ++ rest) = Ok s)
    as Hprefix.
  { intros s rest Hlen.
    unfold DataTypeString.serializeBinary, DataTypeString.deserializeBinary.
    cbv zeta. rewrite app_nil_l.
    rewrite (Z.mod_small (Z.of_nat (String.length s))) by lia.
    rewrite Nat2Z.id.
    rewrite (take_ge (list_byte_of_string s))
      by (by rewrite length_list_byte_of_string).
    split.
    { by rewrite length_app, length_object_bytes, length_list_byte_of_string. }
    rewrite !length_app, length_object_bytes, length_list_byte_of_string.
    rewrite <- (app_assoc (object_bytes order 4 _)).
    rewrite take_app_length' by by rewrite length_object_bytes.
    rewrite object_value_bytes. change (8 * Z.of_nat 4) with 32.
    rewrite (Z.mod_small (Z.of_nat (String.length s))) by lia.
    destruct (Z.ltb_spec (Z.of_nat (4 + String.length s + length rest)) 4);
      [lia|].
    destruct (Z.ltb_spec (Z.of_nat (4 + String.length s + length rest))
                (4 + Z.of_nat (String.length s))); [lia|].
    rewrite drop_app_length' by by rewrite length_object_bytes.
    rewrite Nat2Z.id.
    rewrite take_app_length' by by rewrite length_list_byte_of_string.
    by rewrite string_of_list_byte_of_string. }
  split; [exact Hprefix|]. split.
  - intros s1 s2 H1 H2 buffer. subst buffer.
    rewrite string_serializeBinary_app. split; [by apply Hprefix|].
    destruct (Hprefix s1 [] H1) as [Hlen1 _].
    rewrite drop_app_length' by done.
    rewrite <- (app_nil_r (DataTypeString.serializeBinary order s2 [])).
    by apply Hprefix.
  - intros T value rest Hvalue.
    unfold DataTypeNumber.serializeBinary, DataTypeNumber.deserializeBinary.
    rewrite app_nil_l, take_ge by lia.
    rewrite length_app, Hvalue.
    destruct (Nat.ltb_spec (sizeof T + length rest) (sizeof T)); [lia|].
    by rewrite take_app_length'.
Qed.

Lemma codec_reads_prefix_witness :
  DataTypeString.deserializeBinary LittleEndian
    (DataTypeString.serializeBinary LittleEndian "c"
       (DataTypeString.serializeBinary LittleEndian "ab" [])) = Ok "ab" ∧
  DataTypeString.deserializeBinary LittleEndian
    (drop 6
       (DataTypeString.serializeBinary LittleEndian "c"
          (DataTypeString.serializeBinary LittleEndian "ab" []))) = Ok "c".
Proof.
  pose proof (codec_reads_prefix LittleEndian) as (_ & Htwo & _).
  apply (Htwo "ab" "c"); simpl; lia.
Defined.

(** ** Fields *)

(** X26 (types.h, Field; field.cpp, getTypeId): a field built from a value
    of type [T] is not null, reports the kind of [T], gives the value back
    to [get<T>] and throws [std::bad_variant_access] to [get] of every
    other type; the default field is null, of kind [Null], and throws to
    every [get].  A field is null exactly when its kind is [Null]. *)
Theorem field_holds_its_alternative :
  (∀ T (v : native T),
     Field.isNull (Field.make T v) = false ∧
     Field.getTypeId (Field.make T v) = getTypeId (data_type_of T) ∧
     cpp_type_of (Field.getTypeId (Field.make T v)) = Some T ∧
     Field.get T (Field.make T v) = Ok v ∧
     ∀ T', T' ≠ T →
           Field.get T' (Field.make T v) = Throw Field.bad_variant_access) ∧
  (Field.isNull Field.monostate = true ∧
   ∀ T, Field.get T Field.monostate = Throw Field.bad_variant_access) ∧
  (∀ field, Field.isNull field = true ↔ Field.getTypeId field = Null) ∧
  (∀ field, Field.isNull field = false →
            ∃ T v, field = Field.make T v).
Proof.
  split; [|split; [|split]].
  - intros T v. repeat split; try by destruct T.
    intros T' Hne. by destruct T, T'.
  - split; [done|]. by intros [].
  - intros []; simpl; split; done.
  - intros [| v | v | v | v | v | v | v | v | v | v | v]; [done|..]; intros _.
    + by exists int8_t, v.
    + by exists int16_t, v.
    + by exists int32_t, v.
    + by exists int64_t, v.
    + by exists uint8_t, v.
    + by exists uint16_t, v.
    + by exists uint32_t, v.
    + by exists uint64_t, v.
    + by exists float_t, v.
    + by exists double_t, v.
    + by exists std_string, v.
Qed.

Lemma field_holds_its_alternative_witness :
  Field.get int64_t (Field.make int32_t 5) = Throw Field.bad_variant_access ∧
  Field.get int32_t (Field.make int32_t 5) = Ok 5.
Proof.
  pose proof field_holds_its_alternative as (Hmake & _).
  destruct (Hmake int32_t 5) as (_ & _ & _ & Hget & Hother).
  split; [by apply Hother | exact Hget].
Defined.

(** ** The helper functions of the parser *)

Lemma isspace_plain c : Parser.plain c → ∃ b, Parser.isspace c = Ok b.
Proof.
  unfold Parser.plain, Parser.isspace. intros Hc.
  destruct (Nat.ltb_spec (nat_of_ascii c) 128); [eauto | lia].
Qed.

Lemma find_if_not_isspace_spec s :
  Forall Parser.plain s →
  ∃ pre suf,
    Parser.find_if_not_isspace s = Ok suf ∧ s = pre ++ suf ∧
    Forall Parser.space pre ∧
    match suf with
    | [] => True
    | c :: _ => Parser.isspace c = Ok false
    end.
Proof.
  induction 1 as [|c s Hc Hs IH].
  - by exists [], [].
  - simpl. destruct (isspace_plain c Hc) as [[] Hsp]; rewrite Hsp; simpl.
    + destruct IH as (pre & suf & -> & -> & Hpre & Hsuf).
      exists (c :: pre), suf. by repeat split; [constructor|].
    + by exists [], (c :: s).
Qed.

Lemma find_if_not_isspace_spaces s :
  Forall Parser.space s → Parser.find_if_not_isspace s = Ok [].
Proof. induction 1 as [|c s Hc Hs IH]; [done|]. simpl. by rewrite Hc. Qed.

Lemma find_if_not_isspace_head c s :
  Parser.isspace c = Ok false →
  Parser.find_if_not_isspace (c :: s) = Ok (c :: s).
Proof. intros Hc. simpl. by rewrite Hc. Qed.

Lemma trim_trimmed t : Parser.trimmed t → Parser.trim t = Ok t.
Proof.
  destruct t as [|c t]; [done|]. intros [Hc (c' & Hlast & Hc')].
  unfold Parser.trim. rewrite (find_if_not_isspace_head _ _ Hc).
  cbn [mbind result_bind].
  assert (∃ r, rev (c :: t) = c' :: r) as [r Hrev].
  { apply last_Some in Hlast as [l' ->]. rewrite rev_app_distr. simpl. eauto. }
  rewrite Hrev, (find_if_not_isspace_head _ _ Hc'). cbn [mbind result_bind].
  rewrite <- Hrev, length_rev, Nat.sub_diag. simpl. by rewrite take_ge.
Qed.

Lemma space_not_false c : Parser.space c → Parser.isspace c = Ok false → False.
Proof. unfold Parser.space. congruence. Qed.

Lemma trim_spec (str : list ascii) :
  Forall Parser.plain str →
  ∃ pre t post,
    Parser.trim str = Ok t ∧ str = pre ++ t ++ post ∧
    Forall Parser.space pre ∧ Forall Parser.space post ∧
    Parser.trimmed t.
Proof.
  intros Hplain.
  destruct (find_if_not_isspace_spec str Hplain)
    as (pre & suf & Hfind & Hstr & Hpre & Hsuf).
  destruct (find_if_not_isspace_spec (rev str) (Forall_rev Hplain))
    as (pre' & suf' & Hfind' & Hrev & Hpre' & Hsuf').
  unfold Parser.trim. rewrite Hfind, Hfind'. cbn [mbind result_bind].
  destruct suf as [|c suf0].
  - rewrite app_nil_r in Hstr. subst pre.
    rewrite (find_if_not_isspace_spaces (rev str) (Forall_rev Hpre)) in Hfind'.
    injection Hfind' as <-. cbn [length].
    destruct (Nat.ltb_spec (length str - 0) 0) as [Hlt|_]; [lia|].
    exists str, [], []. rewrite app_nil_r.
    split; [done|]. split; [done|]. split; [done|]. split; [constructor|done].
  - assert (str = rev suf' ++ rev pre') as Hstr'.
    { by rewrite <- rev_app_distr, <- Hrev, rev_involutive. }
    destruct suf' as [|c' suf0'].
    { exfalso. simpl in Hstr'. apply (space_not_false c); [|done].
      apply Forall_rev in Hpre'. rewrite <- Hstr', Hstr in Hpre'.
      by apply Forall_app in Hpre' as [_ [? _]%Forall_cons]. }
    assert (∃ l, rev (c' :: suf0') = pre ++ l ∧ c :: suf0 = l ++ rev pre')
      as (l & Hl & Hsuf0).
    { rewrite Hstr in Hstr'.
      apply app_eq_inv in Hstr' as [(k & Hk & Hk')|(k & Hk & Hk')].
      - exfalso. apply (space_not_false c'); [|done].
        rewrite Hk in Hpre. simpl in Hpre.
        by apply Forall_app in Hpre
          as [[_ [? _]%Forall_cons]%Forall_app _].
      - by exists k. }
    destruct l as [|x l].
    { exfalso. apply (space_not_false c'); [|done].
      rewrite app_nil_r in Hl. rewrite <- Hl in Hpre. simpl in Hpre.
      by apply Forall_app in Hpre as [_ [? _]%Forall_cons]. }
    injection Hsuf0 as <- Hsuf0.
    assert (length (c' :: suf0') = (length pre + length (c :: l))%nat) as Hlen.
    { by rewrite <- length_rev, Hl, length_app. }
    assert (length str = (length pre + length (c :: suf0))%nat) as Hlen'
      by by rewrite Hstr, length_app.
    rewrite Hlen, Hlen'.
    replace (length pre + length (c :: suf0) - length (c :: suf0))%nat
      with (length pre) by lia.
    destruct (Nat.ltb_spec (length pre) (length pre + length (c :: l)));
      [|simpl in *; lia].
    replace (length pre + length (c :: l) - length pre)%nat
      with (length (c :: l)) by lia.
    assert (take (length (c :: l)) (c :: suf0) = c :: l) as ->.
    { rewrite Hsuf0. change (c :: l ++ rev pre') with ((c :: l) ++ rev pre').
      by rewrite take_app_length. }
    assert (Parser.trimmed (c :: l)) as Htrimmed.
    { split; [done|]. exists c'. split; [|done].
      assert (last (pre ++ c :: l) = Some c') as Hlast.
      { rewrite <- Hl. simpl. by rewrite last_snoc. }
      by rewrite last_app_cons in Hlast. }
    exists pre, (c :: l), (rev pre'). split; [done|]. split.
    { rewrite Hstr. f_equal. by rewrite Hsuf0. }
    split; [done|]. split; [by apply Forall_rev | done].
Qed.


(** X27 (parser.cpp, trim): on a text of chars below 128, [trim] returns
    the text between the first and the last char that is not a space in
    the sense of [std::isspace]: the text is the result between two runs
    of spaces, the result has no space at either end (it is empty when
    the text holds only spaces), and [trim] leaves it as it is. *)
Theorem trim_strips_spaces (str : list ascii) :
  Forall Parser.plain str →
  ∃ pre t post,
    Parser.trim str = Ok t ∧
    str = pre ++ t ++ post ∧
    Forall Parser.space pre ∧ Forall Parser.space post ∧
    Parser.trimmed t ∧
    Parser.trim t = Ok t.
Proof.
  intros (pre & t & post & Ht & Hs & Hpre & Hpost & Htr)%trim_spec.
  exists pre, t, post. do 5 (split; [done|]). by apply trim_trimmed.
Qed.

Lemma trim_strips_spaces_witness :
  ∃ pre t post,
    Parser.trim (list_ascii_of_string "  a b ") = Ok t ∧
    list_ascii_of_string "  a b " = pre ++ t ++ post ∧
    Forall Parser.space pre ∧ Forall Parser.space post ∧
    Parser.trimmed t ∧
    Parser.trim t = Ok t.
Proof.
  apply (trim_strips_spaces (list_ascii_of_string "  a b ")).
  repeat constructor; vm_compute; lia.
Defined.

Lemma toupper_plain c :
  Parser.plain c →
  ∃ c', Parser.toupper c = Ok c' ∧ Parser.plain c' ∧
        nat_of_ascii c' = upper_code (nat_of_ascii c) ∧
        Parser.toupper c' = Ok c'.
Proof.
  unfold Parser.plain, Parser.toupper, upper_code. intros Hc.
  destruct (Nat.ltb_spec (nat_of_ascii c) 128) as [_|?]; [|lia].
  destruct ((97 <=? nat_of_ascii c)%nat && (nat_of_ascii c <=? 122)%nat)
    eqn:Hlower.
  - apply andb_true_iff in Hlower as [H1%Nat.leb_le H2%Nat.leb_le].
    eexists. split; [done|].
    rewrite nat_ascii_embedding by lia.
    split; [lia|]. split; [done|].
    destruct (Nat.ltb_spec (nat_of_ascii c - 32) 128) as [_|?]; [|lia].
    destruct (Nat.leb_spec 97 (nat_of_ascii c - 32)); [lia|]. done.
  - exists c. split; [done|]. split; [done|]. split; [done|].
    destruct (Nat.ltb_spec (nat_of_ascii c) 128) as [_|?]; [|lia].
    by rewrite Hlower.
Qed.

(** X28 (parser.cpp, toUpper): on a text of chars below 128, [toUpper]
    returns a text of the same length in which each char has the code of
    the char at its place, less 32 for the letters a to z; applied again
    it changes nothing. *)
Theorem toUpper_maps_letters (str : list ascii) :
  Forall Parser.plain str →
  ∃ upper,
    Parser.toUpper str = Ok upper ∧
    map nat_of_ascii upper = map (λ c, upper_code (nat_of_ascii c)) str ∧
    Forall Parser.plain upper ∧
    Parser.toUpper upper = Ok upper.
Proof.
  unfold Parser.toUpper. induction 1 as [|c str Hc Hstr IH].
  - by exists [].
  - destruct IH as (upper & Hupper & Hcodes & Hplain & Hagain).
    destruct (toupper_plain c Hc) as (c' & Hc' & Hplain' & Hcode & Hagain').
    exists (c' :: upper). simpl. rewrite Hc', Hupper, Hagain', Hagain. simpl.
    split; [done|]. split; [by rewrite Hcode, Hcodes|].
    split; [by constructor | done].
Qed.

Lemma toUpper_maps_letters_witness :
  ∃ upper,
    Parser.toUpper (list_ascii_of_string "Select b2") = Ok upper ∧
    map nat_of_ascii upper
      = map (λ c, upper_code (nat_of_ascii c))
          (list_ascii_of_string "Select b2") ∧
    Forall Parser.plain upper ∧
    Parser.toUpper upper = Ok upper.
Proof.
  apply (toUpper_maps_letters (list_ascii_of_string "Select b2")).
  repeat constructor; vm_compute; lia.
Defined.

Lemma elem_of_rev {A} (x : A) l : x ∈ rev l → x ∈ l.
Proof. rewrite !list_elem_of_In. apply in_rev. Qed.

Lemma getlines_spec delimiter str token :
  delimiter ∉ token →
  Forall (λ t, delimiter ∉ t) (Parser.getlines delimiter token str) ∧
  (Parser.getlines delimiter token str = [] ↔ token = [] ∧ str = []) ∧
  (rev token ++ str = join delimiter (Parser.getlines delimiter token str) ∨
   rev token ++ str
   = join delimiter (Parser.getlines delimiter token str) ++ [delimiter]).
Proof.
  revert token. induction str as [|c str IH]; intros token Htoken;
    cbn [Parser.getlines].
  - destruct token as [|x token].
    + split; [done|]. split; [done|]. by left.
    + split.
      { constructor; [|done]. intros Hin%elem_of_rev. by apply Htoken. }
      split; [by split; [|intros []]|]. left. cbn [join].
      by rewrite app_nil_r.
  - destruct (Ascii.eqb_spec c delimiter) as [->|Hne].
    + destruct (IH [] ltac:(by intros ?%elem_of_nil))
        as (Hall & Hnil & Hjoin). cbn [rev app] in Hjoin.
      split.
      { constructor; [|done]. intros Hin%elem_of_rev. by apply Htoken. }
      split; [by split; [|intros []]|]. cbn [join].
      destruct (Parser.getlines delimiter [] str) as [|t ts] eqn:Hts.
      * destruct Hnil as [Hnil _]. destruct (Hnil eq_refl) as [_ ->].
        by right.
      * destruct Hjoin as [->| ->]; [by left|]. right.
        by rewrite <- app_assoc.
    + destruct (IH (c :: token)) as (Hall & Hnil & Hjoin).
      { intros [->|?]%elem_of_cons; [done|]. by apply Htoken. }
      split; [done|]. split.
      { split; [|by intros []]. intros Htokens.
        by destruct (proj1 Hnil Htokens). }
      cbn [rev] in Hjoin. by rewrite <- !app_assoc in Hjoin.
Qed.

Lemma mapM_trim tokens :
  Forall (Forall Parser.plain) tokens →
  ∃ trimmed,
    Result.mapM Parser.trim tokens = Ok trimmed ∧
    Forall2 (λ token t, Parser.trim token = Ok t ∧ Parser.trimmed t)
            tokens trimmed.
Proof.
  induction 1 as [|token tokens Htoken _ IH]; [by exists []|].
  destruct IH as (trimmed & Hmap & Hall).
  assert (∃ t, Parser.trim token = Ok t ∧ Parser.trimmed t) as (t & Ht & Htr).
  { destruct (trim_spec token Htoken) as (pre & t & post & Ht & _ & _ & _ & Htr).
    by exists t. }
  exists (t :: trimmed). simpl. rewrite Ht, Hmap. simpl.
  split; [done|]. by constructor.
Qed.

Lemma elem_of_join delimiter tokens t c :
  t ∈ tokens → c ∈ t → c ∈ join delimiter tokens.
Proof.
  induction tokens as [|t' tokens IH]; [by intros ?%elem_of_nil|].
  intros [->|Ht]%elem_of_cons Hc; cbn [join].
  - destruct tokens; [done|]. apply elem_of_app. by left.
  - destruct tokens as [|t'' tokens]; [by apply elem_of_nil in Ht|].
    apply elem_of_app. right. right. by apply IH.
Qed.

(** X29 (parser.cpp, split): on a text of chars below 128, [split] cuts
    the text at every occurrence of the delimiter, so that the pieces
    joined by the delimiter give the text back, up to one final delimiter
    after which no empty piece is reported, and no piece holds the
    delimiter; it returns the pieces in order, each trimmed of the spaces
    at its ends. *)
Theorem split_cuts_at_delimiter (str : list ascii) (delimiter : ascii) :
  Forall Parser.plain str →
  ∃ pieces tokens,
    Parser.split str delimiter = Ok tokens ∧
    (str = join delimiter pieces ∨
     str = join delimiter pieces ++ [delimiter]) ∧
    Forall (λ piece, delimiter ∉ piece) pieces ∧
    (pieces = [] ↔ str = []) ∧
    Forall2 (λ piece token,
               Parser.trim piece = Ok token ∧ Parser.trimmed token)
            pieces tokens.
Proof.
  intros Hplain.
  destruct (getlines_spec delimiter str [] ltac:(by intros ?%elem_of_nil))
    as (Hall & Hnil & Hjoin). cbn [rev app] in Hjoin.
  assert (Forall (Forall Parser.plain) (Parser.getlines delimiter [] str))
    as Hpieces.
  { apply Forall_forall. intros piece Hpiece. apply Forall_forall.
    intros c Hc. rewrite Forall_forall in Hplain. apply Hplain.
    pose proof (elem_of_join delimiter _ _ _ Hpiece Hc) as Hin.
    destruct Hjoin as [->| ->]; [done|]. apply elem_of_app. by left. }
  destruct (mapM_trim _ Hpieces) as (tokens & Hmap & Htokens).
  exists (Parser.getlines delimiter [] str), tokens.
  split; [done|]. split; [done|]. split; [done|]. split; [|done].
  split; [by intros [_ ?]%Hnil | intros ->; by apply Hnil].
Qed.

Lemma split_cuts_at_delimiter_witness :
  ∃ pieces tokens,
    Parser.split (list_ascii_of_string "a , b,") "," = Ok tokens ∧
    (list_ascii_of_string "a , b," = join "," pieces ∨
     list_ascii_of_string "a , b," = join "," pieces ++ [","%char]) ∧
    Forall (λ piece, ","%char ∉ piece) pieces ∧
    (pieces = [] ↔ list_ascii_of_string "a , b," = []) ∧
    Forall2 (λ piece token,
               Parser.trim piece = Ok token ∧ Parser.trimmed token)
            pieces tokens.
Proof.
  apply (split_cuts_at_delimiter (list_ascii_of_string "a , b,") ",").
  repeat constructor; vm_compute; lia.
Defined.

(** ** Reading back what was inserted *)

Lemma executeSelect_single_column tables_ storage table column alias :
  tables_ !! table = Some storage →
  TableStructure.hasColumn (MemoryStorage.structure storage) column = true →
  SQLExecutor.executeSelect (select_column table column alias) tables_
  = match Result.mapM (column_of column) (MemoryStorage.blocks storage) with
    | Ok blocks =>
        Ok (QueryResult.of_blocks blocks
              [if String.eqb alias "" then column else alias])
    | Throw what =>
        Ok (QueryResult.status false ("Error reading data: " +:+ what))
    | Undefined => Undefined
    end.
Proof.
  intros Hst Hhas. unfold SQLExecutor.executeSelect, select_column.
  cbn [SelectAST.table_name SelectAST.select_all SelectAST.columns
       SelectAST.limit]. rewrite Hst. cbv zeta.
  unfold MemoryStorage.getTableStructure, SQLExecutor.requested_columns.
  cbn [SelectAST.select_all SelectAST.columns Exec.foldM
       ColumnExpression.agg_type ColumnExpression.column].
  change (bool_decide (NONE = NONE)) with true. cbn [negb]. rewrite Hhas.
  cbn [negb mbind exec_bind app]. rewrite std_sort_unique_singleton.
  unfold MemoryStorage.read. cbn [Result.foldM]. rewrite Hhas.
  cbn [negb mbind result_bind].
  assert (Result.mapM (MemoryStorage.project [column])
            (MemoryStorage.blocks storage)
          = Result.mapM (column_of column) (MemoryStorage.blocks storage))
    as Hproject.
  { induction (MemoryStorage.blocks storage) as [|b bs IH]; [done|].
    cbn [Result.mapM]. rewrite IH. f_equal.
    unfold MemoryStorage.project, column_of. simpl.
    by destruct (Block.getColumnByName b column). }
  destruct (MemoryStorage.blocks storage) as [|b bs] eqn:Hblocks.
  - simpl. by destruct (String.eqb alias "").
  - rewrite Hproject.
    destruct (Result.mapM (column_of column) (b :: bs)) as [blocks| |];
      cbn [Exec.try_catch mbind exec_bind Exec.run]; [|done..].
    cbn [andb map ColumnExpression.alias ColumnExpression.column].
    rewrite apply_limit_0. by destruct (String.eqb alias "").
Qed.

Lemma mapM_app {A B} (f : A → result B) l1 l2 :
  Result.mapM f (l1 ++ l2)
  = ys1 ← Result.mapM f l1; ys2 ← Result.mapM f l2; Ok (ys1 ++ ys2).
Proof.
  induction l1 as [|x l1 IH]; simpl.
  - by destruct (Result.mapM f l2).
  - destruct (f x); simpl; [|done..]. rewrite IH.
    destruct (Result.mapM f l1); simpl; [|done..].
    by destruct (Result.mapM f l2).
Qed.

Section InsertSelect.
Context `{StdConversions}.

(** X30 (executor.cpp, executeInsert and executeSelect; memory_engine.h,
    read): what an INSERT stores is what a SELECT reads.  After a
    successful INSERT, the SELECT of one of its target columns, on a table
    whose blocks stored before all have that column, succeeds and returns
    one block per stored block, the blocks of before followed by one block
    for the statement; this last block has the one column selected, with
    one row per row of VALUES, and its field at row [j] is a text of row
    [j] given for that column, converted to the value type of the
    column. *)
Theorem insert_then_select (ast : InsertAST.t)
    (tables_ tables' : SQLExecutor.tables) (r : QueryResult.t)
    (storage : MemoryStorage.t) (column_names : list string)
    (column alias : string) (before : list Block.t) :
  SQLExecutor.executeInsert ast tables_ = Ok (r, tables') →
  QueryResult.success r = true →
  tables_ !! InsertAST.table_name ast = Some storage →
  SQLExecutor.target_columns (MemoryStorage.structure storage) ast
    = Ok column_names →
  column ∈ column_names →
  Result.mapM (column_of column) (MemoryStorage.blocks storage) = Ok before →
  ∃ col,
    SQLExecutor.executeSelect
      (select_column (InsertAST.table_name ast) column alias) tables'
    = Ok (QueryResult.of_blocks
            (before ++ [Block.addColumn column col Block.empty])
            [if String.eqb alias "" then column else alias]) ∧
    IColumn.size col = length (InsertAST.values ast) ∧
    ∀ j row, InsertAST.values ast !! j = Some row →
      ∃ i s T v,
        column_names !! i = Some column ∧ row !! i = Some s ∧
        supported (MemoryStorage.structure storage) column T ∧
        SQLExecutor.convert T s = Ok v ∧
        IColumn.at_ col j = Ok (Field.make T v).
Proof.
  intros Hex Hok Hst Htarget Hcolumn Hbefore.
  destruct (executeInsert_success _ _ _ _ Hex Hok)
    as (storage' & names & block & Hst' & Htarget' & (_ & _ & Hrows) & Hins
        & Hwf & Hvalid & [= -> ->]).
  rewrite Hst in Hst'. injection Hst' as <-.
  rewrite Htarget in Htarget'. injection Htarget' as <-.
  pose proof (inserted_sizes _ _ _ _ Hrows Hins) as Hsizes.
  destruct Hins as [Hlen Hcols].
  apply list_elem_of_lookup in Hcolumn as [i0 Hi0].
  destruct (Hcols i0 column Hi0) as (col0 & Hcol0 & Hfilled0).
  apply list_elem_of_lookup_2 in Hcol0.
  destruct (block_wf_lookup _ _ Hwf Hcol0) as (cw & Hget & Hin & Hname).
  simpl in Hget, Hname.
  apply list_elem_of_lookup in Hin as [i Hi].
  destruct (lookup_lt_is_Some_2 column_names i) as [n Hn].
  { rewrite <- Hlen. by eapply lookup_lt_Some. }
  destruct (Hcols i n Hn) as (col & Hcol & d & T & data & Hd & HT & -> & Hdata).
  rewrite Hi in Hcol. injection Hcol as ->. simpl in Hname. subst n.
  exists (IColumn.Vector T (ColumnVector.mk data (TableStructure.type d))).
  split; [|split].
  - rewrite (executeSelect_single_column _
               (MemoryStorage.mk (MemoryStorage.structure storage)
                  (MemoryStorage.blocks storage ++ [block])));
      [|by rewrite lookup_insert_eq|by eapply getColumnByName_hasColumn].
    cbn [MemoryStorage.blocks]. rewrite mapM_app, Hbefore.
    cbn [mbind result_bind Result.mapM]. unfold column_of at 1.
    rewrite Hget. reflexivity.
  - rewrite Forall_forall in Hsizes.
    apply (Hsizes _ (list_elem_of_lookup_2 _ _ _ Hi)).
  - intros j row Hrow.
    destruct (lookup_lt_is_Some_2 row i) as [s Hs].
    { rewrite Forall_forall in Hrows.
      rewrite (Hrows row (list_elem_of_lookup_2 _ _ _ Hrow)).
      by eapply lookup_lt_Some. }
    pose proof (texts_at_lookup i j _ _ _ _ Hrows Hrow Hs) as Htext.
    destruct (Forall2_lookup_r _ _ _ _ _ Hdata Htext) as (v & Hv & Hconv).
    exists i, s, T, v. split; [done|]. split; [done|].
    split; [by exists d|]. split; [done|].
    simpl. unfold ColumnVector.at_, ColumnVector.getValue. simpl.
    by rewrite Hv.
Qed.
End InsertSelect.

Lemma insert_then_select_witness :
  ∃ col,
    SQLExecutor.executeSelect (select_column "t" "b" "") InsertExample.after
    = Ok (QueryResult.of_blocks [Block.addColumn "b" col Block.empty] ["b"]) ∧
    IColumn.size col = 2%nat ∧
    ∀ j row, InsertAST.values InsertExample.ast !! j = Some row →
      ∃ i s T v,
        ["a"; "b"] !! i = Some "b" ∧ row !! i = Some s ∧
        supported (MemoryStorage.structure InsertExample.storage) "b" T ∧
        @SQLExecutor.convert Reference.conversions T s = Ok v ∧
        IColumn.at_ col j = Ok (Field.make T v).
Proof.
  apply (insert_then_select (H:=Reference.conversions)
           InsertExample.ast InsertExample.before InsertExample.after
           InsertExample.result InsertExample.storage ["a"; "b"] "b" "" []).
  - vm_compute. reflexivity.
  - reflexivity.
  - vm_compute. reflexivity.
  - reflexivity.
  - right. left.
  - reflexivity.
Defined.

(** ** The executor of regular expressions *)

Section RegexProps.
Import StdRegex.
Context {R : Type} (icase : bool).

Lemma repeat_sound greedy m (k : list ascii → option R) s x :
  repeat icase greedy m k s = Some x →
  ∃ w s', s = w ++ s' ∧ Forall (λ c, matches icase m c = true) w ∧
          k s' = Some x.
Proof.
  induction s as [|c s IH]; simpl.
  - intros Hk. by exists [], [].
  - destruct (matches icase m c) eqn:Hc; [|intros Hk; by exists [], (c :: s)].
    assert (repeat icase greedy m k s = Some x →
            ∃ w s', c :: s = w ++ s' ∧
                    Forall (λ c, matches icase m c = true) w ∧
                    k s' = Some x) as Hmore.
    { intros (w & s' & -> & Hw & Hk)%IH. exists (c :: w), s'.
      split; [done|]. split; [by constructor | done]. }
    destruct greedy.
    + destruct (repeat icase true m k s) as [y|] eqn:Hrep.
      * intros [= ->]. by apply Hmore.
      * intros Hk. by exists [], (c :: s).
    + destruct (k (c :: s)) as [y|] eqn:Hk.
      * intros [= ->]. by exists [], (c :: s).
      * apply Hmore.
Qed.

Lemma run_sound r : ∀ (k : state → option R) st x,
  run icase r k st = Some x →
  ∃ st', steps icase r st st' ∧ k st' = Some x.
Proof.
  induction r as [m|greedy m|greedy m|r IH|r1 IH1 r2 IH2|r1 IH1 r2 IH2
                 |n r IH| |]; intros k st x; simpl.
  - destruct (current st) as [|c s'] eqn:Hs; [done|].
    destruct (matches icase m c) eqn:Hc; [|done].
    intros Hk. exists (mk_state s' (cur_results st)).
    split; [by exists c | done].
  - intros (w & s' & Hs & Hw & Hk)%repeat_sound.
    exists (mk_state s' (cur_results st)). split; [by exists w | done].
  - destruct (current st) as [|c s] eqn:Hs; [done|].
    destruct (matches icase m c) eqn:Hc; [|done].
    intros (w & s' & -> & Hw & Hk)%repeat_sound.
    exists (mk_state s' (cur_results st)). split; [|done].
    exists (c :: w). split; [done|]. split; [done|].
    split; [by constructor | done].
  - destruct (run icase r k st) as [y|] eqn:Hr.
    + intros [= ->]. apply IH in Hr as (st' & Hst & Hk).
      exists st'. split; [by left | done].
    + intros Hk. exists st. split; [by right | done].
  - intros (mid & Hmid & (st' & Hst & Hk)%IH2)%IH1.
    exists st'. split; [by exists mid | done].
  - destruct (run icase r1 k st) as [y|] eqn:Hr.
    + intros [= ->]. apply IH1 in Hr as (st' & Hst & Hk).
      exists st'. split; [by left | done].
    + intros (st' & Hst & Hk)%IH2. exists st'. split; [by right | done].
  - intros (mid & Hmid & Hk)%IH. eexists. split; [|exact Hk].
    by exists mid.
  - destruct (current st) as [|c s] eqn:Hs; [|done].
    intros Hk. by exists st.
  - intros Hk. by exists st.
Qed.

(** A path leaves a suffix of the subject. *)
Lemma steps_suffix r : ∀ st st',
  steps icase r st st' → ∃ w, current st = w ++ current st'.
Proof.
  induction r as [m|greedy m|greedy m|r IH|r1 IH1 r2 IH2|r1 IH1 r2 IH2
                 |n r IH| |]; intros st st'; simpl.
  - intros (c & Hs & _). by exists [c].
  - intros (w & Hs & _). by exists w.
  - intros (w & _ & Hs & _). by exists w.
  - intros [Hst | ->]; [by apply IH | by exists []].
  - intros (mid & (w1 & Hw1)%IH1 & (w2 & Hw2)%IH2).
    exists (w1 ++ w2). by rewrite Hw1, Hw2, (assoc_L (++)).
  - intros [Hst | Hst]; [by apply IH1 | by apply IH2].
  - intros (mid & (w & Hw)%IH & ->). by exists w.
  - intros [_ ->]. by exists [].
  - intros ->. by exists [].
Qed.


(** A greedy repeat that can take all of [w] and no more, followed by an
    accepted rest, is accepted there. *)
Lemma repeat_greedy m (k : list ascii → option R) w s x :
  Forall (λ c, matches icase m c = true) w →
  match s with [] => True | c :: _ => matches icase m c = false end →
  k s = Some x →
  repeat icase true m k (w ++ s) = Some x.
Proof.
  intros Hw Hs Hk. induction Hw as [|c w Hc Hw IH]; simpl.
  - destruct s as [|c s]; simpl; [done|]. by rewrite Hs.
  - by rewrite Hc, IH.
Qed.

End RegexProps.

Section SearchProps.
Import StdRegex.

Lemma take_consumed {A} (w s : list A) :
  take (length (w ++ s) - length s) (w ++ s) = w.
Proof.
  rewrite length_app.
  replace (length w + length s - length s)%nat with (length w) by lia.
  by rewrite take_app_length.
Qed.

(** What a successful attempt returns. *)
Lemma attempt_sound re exact not_null s m :
  attempt re exact not_null s = Some m →
  ∃ st', steps (icase re) (Subexpr 0 (nfa re))
           (mk_state s (replicate (size re) None)) st' ∧
         m = mk_smatch (cur_results st') (current st').
Proof.
  unfold attempt. intros (st' & Hst & Hk)%run_sound. exists st'.
  split; [done|].
  destruct (exact && _); [done|]. destruct (not_null && _); [done|].
  by injection Hk as <-.
Qed.

Lemma attempt_suffix re exact not_null s m :
  attempt re exact not_null s = Some m → ∃ w, s = w ++ suffix m.
Proof.
  intros (st' & Hst & ->)%attempt_sound.
  by apply steps_suffix in Hst.
Qed.

(** A search succeeds by an attempt at a place of the subject. *)
Lemma regex_search_sound re s m :
  regex_search re s = Some m →
  ∃ before s0, s = before ++ s0 ∧ attempt re false false s0 = Some m.
Proof.
  induction s as [|c s IH]; simpl.
  - destruct (attempt re false false []) as [m'|] eqn:Hm; [|done].
    intros [= ->]. by exists [], [].
  - destruct (attempt re false false (c :: s)) as [m'|] eqn:Hm.
    + intros [= ->]. by exists [], (c :: s).
    + intros (before & s0 & -> & Hs0)%IH. by exists (c :: before), s0.
Qed.

Lemma next_matches_sound steps_ re : ∀ m m',
  m' ∈ next_matches steps_ re m →
  ∃ before s0 not_null,
    suffix m = before ++ s0 ∧ attempt re false not_null s0 = Some m'.
Proof.
  induction steps_ as [|n IH]; intros m m'; simpl; [by intros ?%elem_of_nil|].
  assert (∀ start,
    m' ∈ match regex_search re start with
         | Some m1 => m1 :: next_matches n re m1
         | None => []
         end →
    ∃ before s0 not_null,
      start = before ++ s0 ∧ attempt re false not_null s0 = Some m')
    as Hsearch.
  { intros start. destruct (regex_search re start) as [m1|] eqn:Hm1;
      [|by intros ?%elem_of_nil].
    pose proof Hm1 as (before & s0 & -> & Hs0)%regex_search_sound.
    intros [->|Hin]%elem_of_cons; [by exists before, s0, false|].
    apply IH in Hin as (before' & s1 & nn & Hsuf & Hs1).
    apply attempt_suffix in Hs0 as [w Hw].
    exists (before ++ w ++ before'), s1, nn. split; [|done].
    by rewrite Hw, Hsuf, <- !(assoc_L (++)). }
  destruct (Nat.eqb _ 0); [|by apply Hsearch].
  destruct (suffix m) as [|c start'] eqn:Hstart; [by intros ?%elem_of_nil|].
  destruct (attempt re false true (c :: start')) as [m1|] eqn:Hm1.
  - intros [->|Hin]%elem_of_cons; [by exists [], (c :: start'), true|].
    apply IH in Hin as (before' & s1 & nn & Hsuf & Hs1).
    apply attempt_suffix in Hm1 as [w Hw].
    exists (w ++ before'), s1, nn. split; [|done].
    by rewrite Hw, Hsuf, <- !(assoc_L (++)).
  - intros (before & s0 & nn & -> & Hs0)%Hsearch.
    by exists (c :: before), s0, nn.
Qed.

(** Each match of an iterator is a successful attempt at a place of the
    subject. *)
Lemma sregex_iterator_sound re s m :
  m ∈ sregex_iterator re s →
  ∃ before s0 not_null,
    s = before ++ s0 ∧ attempt re false not_null s0 = Some m.
Proof.
  unfold sregex_iterator.
  destruct (regex_search re s) as [m1|] eqn:Hm1; [|by intros ?%elem_of_nil].
  apply regex_search_sound in Hm1 as (before & s0 & -> & Hs0).
  intros [->|Hin]%elem_of_cons; [by exists before, s0, false|].
  apply next_matches_sound in Hin as (before' & s1 & nn & Hsuf & Hs1).
  apply attempt_suffix in Hs0 as [w Hw].
  exists (before ++ w ++ before'), s1, nn. split; [|done].
  by rewrite Hw, Hsuf, <- !(assoc_L (++)).
Qed.

Lemma steps_length icase r : ∀ st st',
  steps icase r st st' →
  length (cur_results st') = length (cur_results st).
Proof.
  induction r as [m|greedy m|greedy m|r IH|r1 IH1 r2 IH2|r1 IH1 r2 IH2
                 |n r IH| |]; intros st st'; simpl.
  - intros (c & _ & _ & ->). done.
  - intros (w & _ & _ & ->). done.
  - intros (w & _ & _ & _ & ->). done.
  - intros [Hst | ->]; [by apply IH | done].
  - intros (mid & Hmid%IH1 & Hst%IH2). congruence.
  - intros [Hst | Hst]; [by apply IH1 | by apply IH2].
  - intros (mid & Hmid%IH & ->). simpl. by rewrite length_insert.
  - by intros [_ ->].
  - by intros ->.
Qed.

(** The subject of a successful attempt is the match and what follows. *)
Lemma attempt_consumed re exact not_null s m :
  attempt re exact not_null s = Some m → s = str m 0 ++ suffix m.
Proof.
  intros (st' & (mid & Hmid & ->) & ->)%attempt_sound.
  unfold str. simpl.
  pose proof (steps_length _ _ _ _ Hmid) as Hlen.
  apply steps_suffix in Hmid as [w Hw]. simpl in *.
  rewrite list_lookup_insert_eq
    by (rewrite Hlen, length_replicate; unfold size; lia).
  by rewrite Hw, take_consumed.
Qed.

Lemma attempt_not_null re s m :
  attempt re false true s = Some m → (length (suffix m) < length s)%nat.
Proof.
  intros Hm. pose proof (attempt_consumed _ _ _ _ _ Hm) as Hs.
  unfold attempt in Hm. apply run_sound in Hm as (st' & _ & Hk).
  simpl in Hk.
  destruct (Nat.eqb_spec (length (current st')) (length s)) as [Heq|Hne];
    [done|].
  injection Hk as <-. simpl in *.
  apply (f_equal length) in Hs. rewrite length_app in Hs. lia.
Qed.

(** The bound on the steps of an iterator is never reached: beyond it the
    matches are the same whatever the bound. *)
Lemma next_matches_bound re : ∀ n n' m,
  (iterations m < n)%nat → (iterations m < n')%nat →
  next_matches n re m = next_matches n' re m.
Proof.
  induction n as [|n IH]; intros n' m Hn Hn'; [lia|].
  destruct n' as [|n']; [lia|]. simpl.
  assert (∀ start,
    (2 * length start + 1 ≤ iterations m)%nat →
    match regex_search re start with
    | Some m' => m' :: next_matches n re m'
    | None => []
    end
    = match regex_search re start with
      | Some m' => m' :: next_matches n' re m'
      | None => []
      end) as Hsearch.
  { intros start Hstart.
    destruct (regex_search re start) as [m'|] eqn:Hm'; [|done].
    apply regex_search_sound in Hm' as (before & s0 & -> & Hs0).
    apply attempt_consumed in Hs0.
    assert (iterations m' < iterations m)%nat as Hless.
    { rewrite length_app in Hstart. apply (f_equal length) in Hs0.
      rewrite length_app in Hs0. unfold iterations at 1.
      destruct (Nat.eqb_spec (length (str m' 0)) 0); lia. }
    f_equal. apply IH; lia. }
  unfold iterations in Hn, Hn', Hsearch.
  destruct (Nat.eqb_spec (length (str m 0)) 0) as [Hempty|Hsome].
  - destruct (suffix m) as [|c start'] eqn:Hstart; [done|].
    destruct (attempt re false true (c :: start')) as [m'|] eqn:Hm'.
    + pose proof (attempt_not_null _ _ _ Hm') as Hshort. simpl in Hshort.
      assert (iterations m' < 2 * length (c :: start') + 0)%nat as Hless.
      { unfold iterations. simpl.
        destruct (Nat.eqb_spec (length (str m' 0)) 0); lia. }
      f_equal. apply IH; lia.
    + apply Hsearch. simpl. lia.
  - apply Hsearch. lia.
Qed.

Lemma sregex_iterator_bound re s n :
  (2 * length s + 1 < n)%nat →
  sregex_iterator re s
  = match regex_search re s with
    | Some m => m :: next_matches n re m
    | None => []
    end.
Proof.
  intros Hn. unfold sregex_iterator.
  destruct (regex_search re s) as [m|] eqn:Hm; [|done].
  apply regex_search_sound in Hm as (before & s0 & -> & Hs0).
  apply attempt_consumed, (f_equal length) in Hs0.
  rewrite length_app in Hs0, Hn |- *.
  f_equal. apply next_matches_bound; unfold iterations;
    destruct (Nat.eqb_spec (length (str m 0)) 0); lia.
Qed.
End SearchProps.

(** ** CREATE TABLE: the type names the parser reads *)

Section TypeNames.
Import StdRegex SQLParser.
Local Arguments matches : simpl never.

(** A char of the expression that is not a letter matches itself only. *)
Lemma matches_Char_inv icase (x c : ascii) :
  tolower x = x → toupper x = x →
  matches icase (Char x) c = true → tolower c = x ∨ c = x.
Proof.
  intros Hl Hu. unfold matches, translate. destruct icase.
  - rewrite Hl. intros ->%Ascii.eqb_eq. by left.
  - intros ->%Ascii.eqb_eq. by right.
Qed.

Lemma tolower_not_letter (x c : ascii) :
  tolower c = x → toupper x = x → c = x.
Proof.
  intros <-. unfold tolower, toupper.
  destruct c as [[] [] [] [] [] [] [] []]; vm_compute; congruence.
Qed.

Lemma matches_paren icase (x c : ascii) :
  tolower x = x → toupper x = x →
  matches icase (Char x) c = true → c = x.
Proof.
  intros Hl Hu [Hc | ->]%matches_Char_inv; [|done..].
  by apply tolower_not_letter.
Qed.

Lemma column_regex_type s not_null m :
  attempt column_regex false not_null s = Some m → type_text (str m 2).
Proof.
  intros (st' & Hst & ->)%attempt_sound. simpl in Hst.
  destruct Hst as (mid0 & (mid1 & (st1 & (w1 & _ & _ & _ & Hres1) & ->) &
                           mid2 & (w & _ & Hw & _ & Hres2) &
                           mid3 & (mid4 & (name & Hname & Hcur & Hall & Hres4)
                                        & Hopt) & ->) & ->).
  simpl in *. unfold str. simpl.
  assert (∃ args, current mid2 = (name ++ args) ++ current mid3 ∧
                  cur_results mid3 = cur_results mid4 ∧
                  (args = [] ∨
                   ∃ ds, args = "("%char :: ds ++ [")"%char] ∧ ds ≠ [] ∧
                         Forall (λ c, matches true digit c = true
                                      ∨ c = ","%char) ds))
    as (args & Hmid2 & Hres3 & Hargs).
  { destruct Hopt as [(m5 & (c1 & Hc1 & Hm1 & Hr5) &
                       m6 & (ds & Hds & Hc6 & Hdall & Hr6) &
                       m7 & Hcomma & (c2 & Hc2 & Hm2 & Hr3)) | ->].
    - apply matches_paren in Hm1 as ->; [|done..].
      apply matches_paren in Hm2 as ->; [|done..].
      destruct Hcomma as [(m8 & (c3 & Hc3 & Hm3 & Hr8) &
                           (ds2 & Hds2 & Hc8 & Hdall2 & Hr7)) | ->].
      + apply matches_paren in Hm3 as ->; [|done..].
        exists ("("%char :: (ds ++ ","%char :: ds2) ++ [")"%char]).
        split; [|split].
        * rewrite Hcur, Hc1, Hc6, Hc3, Hc8, Hc2.
          repeat first [rewrite <- (assoc_L (++)) | progress simpl]. done.
        * congruence.
        * right. eexists. split; [done|].
          split; [by destruct ds|].
          apply Forall_app. split.
          -- eapply Forall_impl; [exact Hdall|]. by left.
          -- constructor; [by right|].
             eapply Forall_impl; [exact Hdall2|]. by left.
      + exists ("("%char :: ds ++ [")"%char]). split; [|split].
        * rewrite Hcur, Hc1, Hc6, Hc2.
          repeat first [rewrite <- (assoc_L (++)) | progress simpl]. done.
        * congruence.
        * right. eexists. split; [done|]. split; [done|].
          eapply Forall_impl; [exact Hdall|]. by left.
    - exists []. split; [by rewrite Hcur, app_nil_r | by split; [|left]]. }
  exists name, args.
  rewrite Hres3, Hres4, Hres2, Hres1. simpl.
  by rewrite Hmid2, take_consumed.
Qed.
End TypeNames.

Section TypeFactory.
Import StdRegex SQLParser.
Local Arguments matches : simpl never.

Lemma chars_append (a b : string) : chars (a +:+ b) = chars a ++ chars b.
Proof.
  unfold chars. induction a as [|c a IH]; [done|].
  rewrite append_cons. simpl. by rewrite IH.
Qed.

Lemma chars_to_string t : chars (to_string t) = t.
Proof. apply list_ascii_of_string_of_list_ascii. Qed.

Lemma to_string_chars s : to_string (chars s) = s.
Proof. apply string_of_list_ascii_of_string. Qed.

(** Where two texts are cut at a char that neither holds before the cut,
    the cuts are the same. *)
Lemma cut_unique {A} (x : A) l1 r1 l2 r2 :
  l1 ++ x :: r1 = l2 ++ x :: r2 → x ∉ l1 → x ∉ l2 → l1 = l2 ∧ r1 = r2.
Proof.
  revert l2. induction l1 as [|a l1 IH]; intros [|b l2]; simpl.
  - by intros [= ->].
  - intros [= <- _] _ Hb. destruct Hb. by left.
  - intros [= -> _] Ha. destruct Ha. by left.
  - intros [= -> Heq] Ha Hb.
    destruct (IH l2 Heq) as [-> ->]; [| |done].
    + intros Hin. apply Ha. by right.
    + intros Hin. apply Hb. by right.
Qed.

(** The factory makes no [Nullable] type of a text that [column_regex]
    reads as a type: between the parentheses it finds digits, which name
    no type. *)
Lemma type_text_not_nullable t T :
  type_text t → createDataType (to_string t) = Ok T → isNullable T = false.
Proof.
  intros (name & args & -> & Hname & Hall & Hargs).
  rewrite createDataType_unfold.
  destruct (scalar_type _) as [T'|] eqn:Hs.
  { intros [= <-]. by apply scalar_type_Some in Hs as [_ ?]. }
  destruct (Regex.nullable_regex _) as [inner|] eqn:Hr; [|done].
  apply nullable_regex_Some in Hr as (Heq & Hne & _).
  apply (f_equal chars) in Heq.
  rewrite chars_to_string, !chars_append in Heq.
  change (chars "Nullable(") with (chars "Nullable" ++ ["("%char]) in Heq.
  change (chars ")") with [")"%char] in Heq.
  assert ("("%char ∉ name) as Hopen.
  { intros Hin. rewrite Forall_forall in Hall. by apply Hall in Hin. }
  destruct Hargs as [-> | (ds & -> & Hds & Hdall)].
  { rewrite app_nil_r in Heq. destruct Hopen. rewrite Heq.
    rewrite <- (assoc_L (++)). apply elem_of_app. right. by left. }
  rewrite <- (assoc_L (++)) in Heq.
  apply (cut_unique _ name _ (chars "Nullable")) in Heq as [_ Heq]; [|done|].
  2: { intros Hin.
       repeat (apply elem_of_cons in Hin as [Hin|Hin]; [done|]).
       by apply elem_of_nil in Hin. }
  apply app_inj_tail in Heq as [-> _].
  rewrite createDataType_unfold.
  destruct inner as [|d rest]; [done|].
  apply Forall_cons in Hdall as [Hd _].
  assert (∀ k rest', String d rest = String k rest' →
            matches true digit k = false → k ≠ ","%char → False) as Hhead.
  { intros k rest' [= -> _] Hk Hk'. destruct Hd as [Hd | ->]; congruence. }
  destruct (scalar_type (String d rest)) as [T'|] eqn:Hs'.
  { apply scalar_type_Some in Hs' as [Hn Hnull].
    destruct T'; try done; simpl in Hn;
      by destruct (Hhead _ _ (eq_sym Hn)). }
  destruct (Regex.nullable_regex (String d rest)) as [inner'|] eqn:Hr';
    [|done].
  apply nullable_regex_Some in Hr' as (Hn & _).
  by destruct (Hhead "N"%char ("ullable(" +:+ inner' +:+ ")") Hn).
Qed.
End TypeFactory.

(** ** What the parser returns *)

Section ParserProps.
Import StdRegex SQLParser.
Context `{StdConversions}.

Lemma parseCreateTable_types query st :
  parseCreateTable query = Ok st →
  ∃ ast, st = Command (CREATE_TABLE ast) ∧
         declares_type_texts (CREATE_TABLE ast).
Proof.
  unfold parseCreateTable.
  destruct (regex_search create_regex query) as [m|]; [|done].
  simpl. intros [= <-]. eexists. split; [done|]. simpl.
  apply Forall_map, Forall_forall. intros cm Hcm. simpl.
  apply sregex_iterator_sound in Hcm as (before & s0 & nn & _ & Hm).
  rewrite chars_to_string. by eapply column_regex_type.
Qed.

Lemma parseInsert_kind query st :
  parseInsert query = Ok st → ∃ ast, st = Command (INSERT ast).
Proof.
  unfold parseInsert.
  destruct (regex_search insert_regex query) as [m|]; [|done].
  simpl. destruct (Result.mapM _ _); simpl; [|done..].
  intros [= <-]. by eexists.
Qed.

Lemma parseSelect_kind query st :
  parseSelect query = Ok st → ∃ ast, st = Command (SELECT ast).
Proof.
  unfold parseSelect.
  destruct (regex_search select_regex query) as [m|]; [|done].
  simpl.
  destruct (if String.eqb _ "*" then _ else _) as [[sa cols]| |];
    simpl; [|done..].
  destruct (if matched m 5 then _ else _); simpl; [|done..].
  destruct (if matched m 6 then _ else _); simpl; [|done..].
  intros [= <-]. by eexists.
Qed.

Lemma parseDropTable_kind query st :
  parseDropTable query = Ok st → ∃ ast, st = Command (DROP_TABLE ast).
Proof.
  unfold parseDropTable.
  destruct (regex_search drop_regex query) as [m|]; [|done].
  simpl. intros [= <-]. by eexists.
Qed.

Lemma parseShowTables_kind query st :
  parseShowTables query = Ok st → st = SHOW_TABLES.
Proof.
  unfold parseShowTables.
  destruct (regex_search show_regex query) as [m|]; [|done].
  by intros [= <-].
Qed.

Lemma parseDescribe_kind query st :
  parseDescribe query = Ok st → ∃ ast, st = DESCRIBE ast.
Proof.
  unfold parseDescribe.
  destruct (regex_search describe_regex query) as [m|]; [|done].
  simpl. intros [= <-]. by eexists.
Qed.

(** The type names of a parsed CREATE TABLE are texts of [column_regex]. *)
Lemma parse_declares query ast :
  parse query = Ok (Command ast) → declares_type_texts ast.
Proof.
  unfold parse.
  destruct (Parser.trim (chars query)) as [trimmed| |]; simpl; [|done..].
  destruct (Parser.toUpper trimmed) as [upper| |]; simpl; [|done..].
  repeat match goal with
         | |- context [if ?b then _ else _] => destruct b
         end.
  - intros (ast' & [= ->] & Hast)%parseCreateTable_types. done.
  - by intros (ast' & [= ->])%parseInsert_kind.
  - by intros (ast' & [= ->])%parseSelect_kind.
  - by intros (ast' & [= ->])%parseDropTable_kind.
  - by intros ?%parseShowTables_kind.
  - by intros (ast' & ?)%parseDescribe_kind.
  - done.
Qed.
End ParserProps.

(** ** The registry of a session of statements *)

Section TextRegistry.
Import SQLParser.
Context `{StdConversions} `{UnorderedMap}.

Lemma stored_ok_scalar structure block :
  stored_ok structure block → scalar_block block.
Proof.
  intros (_ & _ & _ & Hcols). eapply Forall_impl; [exact Hcols|].
  intros c (d & T & data & _ & HT & Hc). exists T, data, (TableStructure.type d).
  split; [done|]. by destruct (TableStructure.type d).
Qed.

Lemma execute_scalar ast tables_ r tables' :
  declares_type_texts ast →
  scalar_registry tables_ →
  SQLExecutor.execute ast tables_ = Ok (r, tables') →
  scalar_registry tables'.
Proof.
  intros Hast Hok. unfold SQLExecutor.execute.
  destruct ast as [ast|ast|ast|ast].
  - pose proof (executeCreateTable_cases ast tables_) as Hcases.
    destruct (SQLExecutor.executeCreateTable ast tables_) as [[r0 t0]| |];
      [|done..].
    intros [= <- <-].
    destruct Hcases
      as [(_ & _ & ->)|[(_ & _ & _ & _ & _ & _ & _ & ->)
                       |[(_ & _ & _ & _ & ->)
                        |(_ & _ & _ & _ & structure & -> & _ & _ & Hdecl)]]];
      try done.
    apply map_Forall_insert_2; [|done]. simpl. split; [|constructor].
    simpl in Hast. rewrite <- Hdecl in Hast.
    rewrite Forall_forall in Hast. apply Forall_forall. intros c Hc.
    apply (type_text_not_nullable (chars (getName (TableStructure.type c)))).
    + apply (Hast (declaration c)). apply list_elem_of_fmap. by exists c.
    + rewrite to_string_chars. apply createDataType_getName.
  - pose proof (executeInsert_result ast tables_) as Hres.
    destruct (SQLExecutor.executeInsert ast tables_) as [[r0 t0]|what|];
      [|by intros [= <- <-]|done].
    intros [= <- <-]. destruct Hres as [[_ Hsame]|Hsucc].
    + simpl in Hsame. by subst.
    + apply insert_success_stored_ok in Hsucc
        as (storage & block & Hst & Hblock & Hafter).
      simpl in Hafter. subst t0.
      destruct (Hok _ _ Hst) as (Hschema & Hblocks).
      apply map_Forall_insert_2; [|done]. simpl.
      split; [done|]. apply Forall_app. split; [done|].
      constructor; [|done]. by eapply stored_ok_scalar.
  - destruct (SQLExecutor.executeSelect ast tables_); simpl;
      [by intros [= <- <-]|by intros [= <- <-]|done].
  - unfold SQLExecutor.executeDropTable.
    destruct (tables_ !! DropTableAST.table_name ast) as [storage|].
    + intros [= <- <-]. by apply map_Forall_delete.
    + destruct (DropTableAST.if_exists ast); by intros [= <- <-].
Qed.

Lemma executeQuery_tables query tables_ r tables' :
  Database.executeQuery query tables_ = Ok (r, tables') →
  tables' = tables_ ∨
  ∃ ast, declares_type_texts ast ∧
         SQLExecutor.execute ast tables_ = Ok (r, tables').
Proof.
  unfold Database.executeQuery.
  destruct (parse query) as [[ast| |ast]|what|] eqn:Hparse; [| | | |done].
  - intros Hex. right. exists ast. split; [|done].
    by eapply parse_declares.
  - destruct (executeShowTables tables_); [| |done]; intros [= _ <-];
      by left.
  - destruct (executeDescribe ast tables_); [| |done]; intros [= _ <-];
      by left.
  - intros [= _ <-]. by left.
Qed.

Lemma executeQueries_scalar queries : ∀ tables_ results tables',
  scalar_registry tables_ →
  Database.executeQueries queries tables_ = Ok (results, tables') →
  scalar_registry tables'.
Proof.
  induction queries as [|query queries IH]; intros tables_ results tables' Hok.
  - by intros [= _ <-].
  - simpl.
    destruct (Database.executeQuery query tables_) as [[r t1]| |] eqn:Hex;
      [|done..].
    simpl.
    destruct (Database.executeQueries queries t1) as [[rs t2]| |] eqn:Hrest;
      [|done..].
    simpl. intros [= _ <-]. apply (IH t1 rs t2); [|done].
    apply executeQuery_tables in Hex as [->|(ast & Hast & Hex)]; [done|].
    by eapply execute_scalar.
Qed.
End TextRegistry.

(** ** The text of a SELECT statement *)

Section Chars.
Import StdRegex SelectText.

Ltac each_char c :=
  destruct c as [[] [] [] [] [] [] [] []]; vm_compute;
  repeat split; try done; try congruence; try lia.



Lemma space_facts c :
  isspace c = true →
  matches true space c = true ∧ matches true name_char c = false ∧
  matches true digit c = false ∧ letter c = false ∧ Parser.plain c ∧
  Parser.isspace c = Ok true ∧ Parser.toupper c = Ok c ∧ c ≠ ";"%char.
Proof. unfold Parser.plain. each_char c. Qed.





End Chars.

Section Paths.
Import StdRegex SelectText SQLParser.
Context {R : Type}.
Local Arguments matches : simpl never.


Lemma run_star_greedy m (k : state → option R) w s c x :
  Forall (λ a, matches true m a = true) w → stops m s →
  k (mk_state s c) = Some x →
  run true (Star true m) k (mk_state (w ++ s) c) = Some x.
Proof. intros Hw Hs Hk. simpl. by apply repeat_greedy. Qed.





End Paths.

Section Texts.
Import StdRegex SelectText SQLParser.
Local Arguments matches : simpl never.


Lemma spaces_not_letter ws :
  Forall (λ c, isspace c = true) ws → Forall (λ c, letter c = false) ws.
Proof.
  intros Hws. eapply Forall_impl; [exact Hws|]. intros c Hc.
  by apply space_facts in Hc as (_ & _ & _ & ? & _).
Qed.














End Texts.

Section Tails.
Import StdRegex SelectText SQLParser.
Context {R : Type}.
Local Arguments matches : simpl never.
Implicit Type k : state → option R.













End Tails.

Section TailPaths.
Import StdRegex SelectText SQLParser.
Context {R : Type}.
Local Arguments matches : simpl never.
Implicit Type k : state → option R.








End TailPaths.

Section SelectPath.
Import StdRegex SelectText SQLParser.
Local Arguments matches : simpl never.


End SelectPath.

Section SelectParse.
Import StdRegex SelectText SQLParser.
Context `{StdConversions}.
Local Arguments matches : simpl never.






End SelectParse.

Section SelectDispatch.
Import StdRegex SelectText SQLParser.
Context `{StdConversions}.
Local Arguments matches : simpl never.
















End SelectDispatch.

Section SelectStatements.
Import StdRegex SelectText SQLParser.
Context `{StdConversions} `{UnorderedMap}.
Local Arguments matches : simpl never.

End SelectStatements.

Section ClauseTest.
Import StdRegex SelectText SQLParser.
Local Arguments matches : simpl never.



End ClauseTest.

(** ** SELECT: the clauses that are parsed and not applied *)

Section SelectClauses.
Import SQLParser.
Context `{StdConversions} `{UnorderedMap}.

End SelectClauses.



(** ** CREATE TABLE with a column of a [Nullable] type *)

Section NullableColumns.
Context `{StdConversions} `{UnorderedMap}.

(** No parsed CREATE TABLE declares a type of which the factory makes a
    [Nullable] type. *)
Lemma create_table_declares_no_nullable query ast :
  SQLParser.parse query = Ok (Command (CREATE_TABLE ast)) →
  Forall (λ col : string * string,
            ∀ T, createDataType col.2 = Ok T → isNullable T = false)
         (CreateTableAST.columns ast).
Proof.
  intros Hast%parse_declares. simpl in Hast.
  eapply Forall_impl; [exact Hast|]. intros [c ty] Hty T HT. simpl in *.
  apply (type_text_not_nullable _ _ Hty). by rewrite to_string_chars.
Qed.

(** C10 (amended).  Through the SQL interface no table has a column of a
    [Nullable] type: after any sequence of statements run from the empty
    registry, no column of a registered schema has a [Nullable] type, and
    every column of every stored block is a [ColumnVector] of a type that
    is not [Nullable].  CREATE TABLE does not accept [Nullable(X)]: the
    parser reads the type of a column as a name, followed at most by
    digits between parentheses, and the type factory makes no [Nullable]
    type of such a text; so no value is ever stored in such a column. *)
Theorem sql_registers_no_nullable_column (queries : list string)
    (results : list QueryResult.t) (tables_ : SQLExecutor.tables) :
  Database.executeQueries queries ∅ = Ok (results, tables_) →
  scalar_registry tables_.
Proof. apply executeQueries_scalar, map_Forall_empty. Qed.
End NullableColumns.

Lemma sql_registers_no_nullable_column_witness :
  scalar_registry (TextExample.tables_after TextExample.create_scalar).
Proof.
  apply (@sql_registers_no_nullable_column Reference.conversions
           ReferenceOrder.unordered_map TextExample.create_scalar
           (TextExample.results TextExample.create_scalar)).
  vm_compute. reflexivity.
Defined.

(** C10 (counterexample).  [CREATE TABLE n (a Nullable(Int32))] is not
    accepted: it fails on the type name [Nullable], nothing is registered,
    and an INSERT that names the column fails because the table does not
    exist, not because of an unsupported data type. *)
Lemma create_nullable_counterexample :
  TextExample.outcomes TextExample.create_nullable
  = [ (false, "Error creating column 'a': Unknown data type: Nullable", 0);
      (false, "Table 'n' doesn't exist", 0) ] ∧
  TextExample.tables_after TextExample.create_nullable = ∅.
Proof. split; vm_compute; reflexivity. Qed.
